(** * rosnodejs message generation: dependency resolution and build orchestration

    A shallow embedding of [src/utils/messageGeneration/MessageManager.ts].

    Conventions of the embedding.
    - A JavaScript object used as a dictionary ([PackageMap], [MessageCache],
      the memo table of [sortPackageList], the builtin type table) is a finite
      map over its own properties.  Such an object inherits from
      [Object.prototype]: a read of a name it does not own yields the member
      of [Object.prototype] of that name when there is one, and a call of
      [hasOwnProperty] through an object that owns a property of that name
      calls that property.
    - A [Set<string>] is the list of its members in insertion order, which is
      the order [forEach] and the spread operator enumerate them in.
    - A thrown exception is the [Raise] outcome of the result type [Res].
    - Recursion that JavaScript bounds only by its call stack takes the
      available stack depth as a [nat]; running out of it is the
      [RangeError] the engine throws on stack exhaustion. *)

From Stdlib Require Import ZArith Ascii.
From Stdlib Require Strings.Byte.
From stdpp Require Import base option list gmap strings pretty relations sorting.

#[local] Set Warnings "-register-all".

Local Open Scope string_scope.
Local Open Scope Z_scope.
Local Open Scope list_scope.

(** ** Exceptions and results *)

Inductive JsError : Type :=
  | CycleError                          (* 'Found circular dependency while building chain' *)
  | SortCycleError (pkgA pkgB : string) (* 'Found circular dependency while sorting chain between [A] and [B]' *)
  | UnknownBuiltinTypeError (fieldType : string) (* 'Unable to get type string for builtin [t]' *)
  | TypeError                           (* property access on undefined or null, call of a non-function *)
  | RangeError                          (* 'Maximum call stack size exceeded' *)
  | FsError (code : string).            (* error object handed to an fs callback *)

Inductive Res (A : Type) : Type :=
  | Ok (a : A)
  | Raise (e : JsError).
Arguments Ok {A} a.
Arguments Raise {A} e.

Definition res_bind {A B} (f : A -> Res B) (r : Res A) : Res B :=
  match r with
  | Ok a => f a
  | Raise e => Raise e
  end.

#[global] Instance Res_bind : MBind Res := @res_bind.
#[global] Instance Res_ret : MRet Res := @Ok.

(** Left-to-right iteration that stops at the first exception:
    [xs.forEach(x => { acc = f(acc, x) })]. *)
Fixpoint forEachM {A B} (f : B -> A -> Res B) (xs : list A) (acc : B) : Res B :=
  match xs with
  | [] => Ok acc
  | x :: xs' => acc' ← f acc x; forEachM f xs' acc'
  end.

(** ** Data model *)

Inductive LoadStatus : Type := LOADING | LOADED.

(** The interface of the specs of [./MessageSpec] that the manager uses. *)
Record MsgSpec : Type := {
  msg_packageName : string;
  msg_messageName : string;
  msg_dependencies : list string;   (* what getMessageDependencies adds *)
  msg_classFile : string            (* generateMessageClassFile() *)
}.

Record SrvSpec : Type := {
  srv_packageName : string;
  srv_messageName : string;
  srv_dependencies : list string;
  srv_classFile : string
}.

Record ActionSpec : Type := {
  act_packageName : string;
  act_messageName : string;
  act_dependencies : list string;
  act_messages : list MsgSpec       (* getMessages(): Goal/Result/Feedback family *)
}.

(** [type MessageEntry<T> = { file: string, spec: T }]; [file] is [null] for a
    synthesized action message. *)
Record MessageEntry (T : Type) : Type := {
  file : option string;
  spec : T
}.
Arguments file {T} _.
Arguments spec {T} _.
Arguments Build_MessageEntry {T} _ _.

Record PackageEntry : Type := {
  messages : gmap string (MessageEntry MsgSpec);
  services : gmap string (MessageEntry SrvSpec);
  actions : gmap string (MessageEntry ActionSpec);
  localDeps : list string
}.

Abbreviation PackageMap := (gmap string PackageEntry).

(** *** Plain objects *)

(** The own property names of [Object.prototype] in V8: what every object
    created by an object literal inherits. *)
Definition Object_prototype : list string :=
  [ "constructor"; "__defineGetter__"; "__defineSetter__"; "hasOwnProperty";
    "__lookupGetter__"; "__lookupSetter__"; "isPrototypeOf"; "propertyIsEnumerable";
    "toString"; "valueOf"; "__proto__"; "toLocaleString" ].

(** What a read [obj[key]] yields when it is not undefined. *)
Inductive Member (V : Type) : Type :=
  | Own (v : V)                (* the own property of that name *)
  | Inherited (name : string). (* the member of Object.prototype of that name: a function,
                                  and for __proto__ the prototype object *)
Arguments Own {V} v.
Arguments Inherited {V} name.

(** [obj[key]] on a plain object whose own properties are [obj]; [None] is
    undefined. *)
Definition member {V} (obj : gmap string V) (key : string) : option (Member V) :=
  match obj !! key with
  | Some v => Some (Own v)
  | None => if bool_decide (key ∈ Object_prototype) then Some (Inherited key) else None
  end.

(** [x ∈ v]: [v] is an array that holds [x]. *)
#[global] Instance Member_elem_of : ElemOf string (Member (list string)) :=
  fun x v => match v with Own l => x ∈ l | Inherited _ => False end.

(** [Set.prototype.add]: insertion order is kept, a member is not added twice. *)
Definition set_add (x : string) (s : list string) : list string :=
  if bool_decide (x ∈ s) then s else s ++ [x].

(** [Array.prototype.includes] on an array of strings. *)
Definition includes (l : list string) (x : string) : bool :=
  bool_decide (x ∈ l).

(** ** DependencyResolver *)

(** The inner function [getDependencies] of [getFullDependencySet]; the
    accumulated [dependencyList] is passed explicitly. *)
Fixpoint getDependencies (stack : nat) (originalPackage : string) (cache : PackageMap)
    (msgPackage : string) (dependencyList : list string) : Res (list string) :=
  match stack with
  | O => Raise RangeError
  | S stack' =>
      match cache !! msgPackage with
      | None => Raise TypeError
      | Some entry =>
          forEachM (fun acc dep =>
                      if bool_decide (dep = originalPackage) then Raise CycleError
                      else getDependencies stack' originalPackage cache dep (set_add dep acc))
                   (localDeps entry) dependencyList
      end
  end.

Definition getFullDependencySet (stack : nat) (originalPackage : string)
    (cache : PackageMap) : Res (list string) :=
  getDependencies stack originalPackage cache originalPackage [].

(** The callback of [localDeps.forEach] in [getDependencies]. *)
Definition visit (cache : PackageMap) (originalPackage : string) (stack : nat)
    (acc : list string) (dep : string) : Res (list string) :=
  if bool_decide (dep = originalPackage) then Raise CycleError
  else getDependencies stack originalPackage cache dep (set_add dep acc).

(** *** The dependency graph of a cache *)

(** [edge cache a b]: [b] is in the [localDeps] of the entry of [a]. *)
Definition edge (cache : PackageMap) (a b : string) : Prop :=
  exists entry, cache !! a = Some entry /\ b ∈ localDeps entry.

(** [a] transitively depends on [b]. *)
Definition dependsOn (cache : PackageMap) (a b : string) : Prop :=
  tc (edge cache) a b.

(** Some path of dependency edges from a direct dependency of [a] leads back
    to [a]. *)
Definition cycleThrough (cache : PackageMap) (a : string) : Prop :=
  exists d, edge cache a d /\ rtc (edge cache) d a.

(** The cache contains no dependency cycle. *)
Definition acyclic (cache : PackageMap) : Prop :=
  forall a, ~ dependsOn cache a a.

(** Every package that can be reached from [a] has an entry. *)
Definition closed (cache : PackageMap) (a : string) : Prop :=
  forall x, rtc (edge cache) a x -> is_Some (cache !! x).

(** A dependency edge between two packages other than [a]. *)
Definition edgeAvoiding (cache : PackageMap) (a x y : string) : Prop :=
  edge cache x y /\ x <> a /\ y <> a.

(** No dependency cycle stays clear of [a]. *)
Definition noCycleAvoiding (cache : PackageMap) (a : string) : Prop :=
  forall x, ~ tc (edgeAvoiding cache a) x x.

(** *** Build orders *)

Section BuildOrder.
Context {A : Type}.
Variable dep : A -> A -> Prop.

(** No element of the list depends on a later one: dependencies come first. *)
Definition buildOrder (l : list A) : Prop :=
  StronglySorted (fun a b => ~ dep a b) l.

(** [l] is [front ++ back], nothing in [front] depends on [x] and everything
    in [back] does. *)
Definition splitFor (x : A) (l front back : list A) : Prop :=
  l = front ++ back /\ Forall (fun e => ~ dep e x) front /\ Forall (fun e => dep e x) back.

(** In the list [l], the earlier elements that depend on an element depend
    on its predecessor too, unless they are that predecessor. *)
Definition nested (l : list A) : Prop :=
  forall l1 y x l2, l = l1 ++ y :: x :: l2 -> forall e, e ∈ l1 -> dep e x -> dep e y.

(** In the list [l], the earlier elements that depend on an element depend
    on one another. *)
Definition chained (l : list A) : Prop :=
  forall l1 x l2, l = l1 ++ x :: l2 ->
  forall e e', e ∈ l1 -> e' ∈ l1 -> dep e x -> dep e' x -> e = e' \/ dep e e' \/ dep e' e.

(** What the sort maintains while it has placed the elements [done] of
    [whole], as [placed]: a build order of them in which the elements that
    depend on the next element to place sit together at the end. *)
Definition placing (whole done placed : list A) : Prop :=
  placed ≡ₚ done /\ buildOrder placed /\
  forall x rest, whole = done ++ x :: rest -> exists front back, splitFor x placed front back.
End BuildOrder.

(** The state of the traversal of [getDependencies]: [acc] is the set so
    far, [onStack] holds the packages whose traversal is in progress.  The
    members of [acc] are distinct, nested and chained; each has all it
    depends on in [acc] unless it is on the stack; the packages on the stack
    depend on one another and on the last member of [acc]. *)
Record visited (cache : PackageMap) (onStack : string -> Prop) (acc : list string) : Prop := {
  vis_NoDup : NoDup acc;
  vis_nested : nested (dependsOn cache) acc;
  vis_chained : chained (dependsOn cache) acc;
  vis_complete : forall e, e ∈ acc -> onStack e \/ forall x, dependsOn cache e x -> x ∈ acc;
  vis_stack : forall e e', onStack e -> onStack e' ->
                e = e' \/ dependsOn cache e e' \/ dependsOn cache e' e;
  vis_last : forall s l1 y, onStack s -> acc = l1 ++ [y] -> s = y \/ dependsOn cache s y
}.

(** ** Array.prototype.sort

    The engine's sort is not part of the repository.  [array_sort] follows
    V8's TimSort (third_party/v8/builtins/array-sort.tq) on an array of fewer
    than 64 elements, where the minimal run length is the array length: the
    leading run is counted (and reversed when strictly descending), and the
    remaining elements are placed by binary insertion.  The comparator may
    read and fill a memo table of type [M] and may throw. *)

Section ArraySort.
Context {M A : Type}.
Variable comparefn : A -> A -> M -> Res (Z * M).

(** The scanning loop of CountAndMakeRun: how many elements after
    [previousElement] continue the run. *)
Fixpoint extendRun (isDescending : bool) (previousElement : A) (rest : list A) (st : M)
    : Res (nat * M) :=
  match rest with
  | [] => Ok (O, st)
  | currentElement :: rest' =>
      '(order, st1) ← comparefn currentElement previousElement st;
      if (if isDescending then 0 <=? order else order <? 0) then Ok (O, st1)
      else '(n, st2) ← extendRun isDescending currentElement rest' st1;
           Ok (S n, st2)
  end.

(** CountAndMakeRun(0, length): the array with its leading run made
    ascending, and the length of that run. *)
Definition countAndMakeRun (arr : list A) (st : M) : Res (list A * nat * M) :=
  match arr with
  | [] => Ok (arr, O, st)
  | [_] => Ok (arr, 1%nat, st)
  | elementHigh :: elementLow :: rest =>
      '(order, st1) ← comparefn elementLow elementHigh st;
      let isDescending := order <? 0 in
      '(n, st2) ← extendRun isDescending elementLow rest st1;
      let runLength := (2 + n)%nat in
      Ok (if isDescending then reverse (take runLength arr) ++ drop runLength arr else arr,
          runLength, st2)
  end.

(** The binary search of BinaryInsertionSort; [steps] bounds the number of
    halvings and [right - left] is enough. *)
Fixpoint findInsertionPoint (steps : nat) (pivot : A) (sorted : list A)
    (left right : nat) (st : M) : Res (nat * M) :=
  match steps with
  | O => Ok (left, st)
  | S steps' =>
      if (left <? right)%nat then
        let mid := (left + (right - left) / 2)%nat in
        match sorted !! mid with
        | None => Ok (left, st)
        | Some x =>
            '(order, st1) ← comparefn pivot x st;
            if order <? 0 then findInsertionPoint steps' pivot sorted left mid st1
            else findInsertionPoint steps' pivot sorted (mid + 1)%nat right st1
        end
      else Ok (left, st)
  end.

(** BinaryInsertionSort: [sorted] is the prefix already in order, [pending]
    the elements still to be placed, taken left to right. *)
Fixpoint binaryInsertionSort (sorted pending : list A) (st : M) : Res (list A * M) :=
  match pending with
  | [] => Ok (sorted, st)
  | pivot :: pending' =>
      '(pos, st1) ← findInsertionPoint (length sorted) pivot sorted O (length sorted) st;
      binaryInsertionSort (take pos sorted ++ pivot :: drop pos sorted) pending' st1
  end.

Definition array_sort (arr : list A) (st : M) : Res (list A * M) :=
  if (length arr <? 2)%nat then Ok (arr, st)
  else
    '(arr1, runLength, st1) ← countAndMakeRun arr st;
    binaryInsertionSort (take runLength arr1) (drop runLength arr1) st1.
End ArraySort.

(** ** sortPackageList *)

(** [getDeps]: the memo table [fullPkgDeps], a plain object, is the state.
    What is read from it under the name of a member of [Object.prototype] is
    that member, which is truthy, so that no closure is computed or stored
    for such a name. *)
Definition getDeps (stack : nat) (cache : PackageMap) (pkg : string)
    (fullPkgDeps : gmap string (list string))
    : Res (Member (list string) * gmap string (list string)) :=
  match member fullPkgDeps pkg with
  | None =>
      deps ← getFullDependencySet stack pkg cache;
      Ok (Own deps, <[pkg := deps]> fullPkgDeps)
  | Some deps => Ok (deps, fullPkgDeps)
  end.

(** [deps.includes(x)] on what [getDeps] returned: an array has the method,
    a member of [Object.prototype] has not. *)
Definition includesOf (deps : Member (list string)) (x : string) : Res bool :=
  match deps with
  | Own l => Ok (includes l x)
  | Inherited _ => Raise TypeError
  end.

(** The comparator [sorter] handed to [Array.prototype.sort]. *)
Definition sorter (stack : nat) (cache : PackageMap) (pkgA pkgB : string)
    (fullPkgDeps : gmap string (list string)) : Res (Z * gmap string (list string)) :=
  '(aDeps, memo1) ← getDeps stack cache pkgA fullPkgDeps;
  '(bDeps, memo2) ← getDeps stack cache pkgB memo1;
  aDependsOnB ← includesOf aDeps pkgB;
  bDependsOnA ← includesOf bDeps pkgA;
  if aDependsOnB && bDependsOnA then Raise (SortCycleError pkgA pkgB)
  else if aDependsOnB then Ok (1, memo2)
  else if bDependsOnA then Ok (-1, memo2)
  else Ok (0, memo2).

Definition sortPackageList (stack : nat) (packageList : list string) (cache : PackageMap)
    : Res (list string) :=
  '(sorted, _) ← array_sort (sorter stack cache) packageList ∅;
  Ok sorted.

(** The memo table holds closures that [getFullDependencySet] returns. *)
Definition memoSound (stack : nat) (cache : PackageMap)
    (fullPkgDeps : gmap string (list string)) : Prop :=
  forall p deps, fullPkgDeps !! p = Some deps -> getFullDependencySet stack p cache = Ok deps.

(** The closure of a package as [getDeps] hands it to the comparator. *)
Definition closureOf (stack : nat) (cache : PackageMap) (x : string) : list string :=
  match getFullDependencySet stack x cache with
  | Ok deps => deps
  | Raise _ => []
  end.

(** What the comparator returns when it returns. *)
Definition dependencyOrder (stack : nat) (cache : PackageMap) (pkgA pkgB : string) : Z :=
  if includes (closureOf stack cache pkgA) pkgB then 1
  else if includes (closureOf stack cache pkgB) pkgA then -1
  else 0.

(** ** getMessageSpec *)

Inductive SpecType : Type := MSG_TYPE | SRV_TYPE | ACTION_TYPE.

(** [MsgSpec.RosMsgSpec]: what [getMessageSpec] hands back. *)
Inductive RosMsgSpec : Type :=
  | OfMsg (s : MsgSpec)
  | OfSrv (s : SrvSpec).

(** [obj[key]] followed by a read of a property of the entry: a [TypeError]
    when [obj] has no own property [key].  Then [obj[key]] is undefined, or
    a member of [Object.prototype], which has none of the properties of an
    entry, so that the use of what was read raises the [TypeError]. *)
Definition prop {V} (obj : gmap string V) (key : string) : Res V :=
  match obj !! key with
  | Some v => Ok v
  | None => Raise TypeError
  end.

(** [obj.hasOwnProperty(key)], called through the object: an own property
    named [hasOwnProperty] hides the method of [Object.prototype], and holds
    an entry, which cannot be called. *)
Definition hasOwnProperty {V} (obj : gmap string V) (key : string) : Res bool :=
  if bool_decide (is_Some (obj !! "hasOwnProperty")) then Raise TypeError
  else Ok (bool_decide (is_Some (obj !! key))).

Section GetMessageSpec.
(** [fieldsUtil.splitMessageType] of [./fields]: the package and the
    definition name of a type string. *)
Variable splitMessageType : string -> string * string.
(** [String.prototype.toLowerCase], the engine's. *)
Variable toLowerCase : string -> string.

(** The lookup in the chosen [pkgCache], exact name first and lower-case
    name second. *)
Definition lookupSpec {T} (pkgCache : gmap string (MessageEntry T)) (messageName : string)
    : Res (option T) :=
  hasName ← hasOwnProperty pkgCache messageName;
  if (hasName : bool) then
    e ← prop pkgCache messageName; Ok (Some (spec e))
  else
    let lcName := toLowerCase messageName in
    hasLcName ← hasOwnProperty pkgCache lcName;
    if (hasLcName : bool) then
      e ← prop pkgCache lcName; Ok (Some (spec e))
    else Ok None.

(** A [MessageCache<MsgSpec>] or [MessageCache<SrvSpec>] read at the
    common type [MessageCache<RosMsgSpec>]. *)
Definition asRosMsgSpec {T} (wrap : T -> RosMsgSpec) (c : gmap string (MessageEntry T))
    : gmap string (MessageEntry RosMsgSpec) :=
  (fun e => {| file := file e; spec := wrap (spec e) |}) <$> c.

(** The [switch]: the mapping of the package for the requested kind;
    [None] is the [pkgCache] left undefined. *)
Definition selectPkgCache (_packageCache : PackageMap) (pkg : string) (type : SpecType)
    : Res (option (gmap string (MessageEntry RosMsgSpec))) :=
  match type with
  | MSG_TYPE => e ← prop _packageCache pkg; Ok (Some (asRosMsgSpec OfMsg (messages e)))
  | SRV_TYPE => e ← prop _packageCache pkg; Ok (Some (asRosMsgSpec OfSrv (services e)))
  | ACTION_TYPE => Ok None
  end.

(** [this._packageCache] is [null] until [initTree] has run: [None]. *)
Definition getMessageSpec (_packageCache : option PackageMap) (msgType : string)
    (type : SpecType) : Res (option RosMsgSpec) :=
  let '(pkg, messageName) := splitMessageType msgType in
  match _packageCache with
  | None => Raise TypeError
  | Some _packageCache =>
      hasPkg ← hasOwnProperty _packageCache pkg;
      if (hasPkg : bool) then
        pkgCache ← selectPkgCache _packageCache pkg type;
        match pkgCache with
        | Some pkgCache => lookupSpec pkgCache messageName
        | None => Ok None
        end
      else Ok None
  end.

(** The mapping of an existing package entry for the requested kind. *)
Definition kindCache (e : PackageEntry) (type : SpecType)
    : gmap string (MessageEntry RosMsgSpec) :=
  match type with
  | MSG_TYPE => asRosMsgSpec OfMsg (messages e)
  | SRV_TYPE => asRosMsgSpec OfSrv (services e)
  | ACTION_TYPE => ∅
  end.
End GetMessageSpec.

(** ** _loadMessagesInCache

    The parse pass builds the cache from the package index; its log lines
    are left out. *)

(** One package of [packages.MsgPackageCache], the output of the index
    provider: for each kind the definition names with their files, in the
    enumeration order of the object's keys. *)
Record PackageInfo : Type := {
  info_messages : list (string * string);
  info_services : list (string * string);
  info_actions : list (string * string)
}.

(** [spec.getMessageDependencies(packageDeps)] adds the direct references of a
    spec to the set it is given. *)
Definition getMessageDependencies (deps : list string) (packageDeps : list string)
    : list string :=
  foldl (fun acc d => set_add d acc) packageDeps deps.

Section LoadMessagesInCache.
(** [MsgSpec.create(this, packageName, message, type, file)] of
    [./MessageSpec], one function per [type]. *)
Variable createMsg : string -> string -> string -> MsgSpec.
Variable createSrv : string -> string -> string -> SrvSpec.
Variable createAction : string -> string -> string -> ActionSpec.

(** The state of the loops over one package: [messages], [services],
    [actions] and [packageDeps]. *)
Record Loading : Type := {
  ld_messages : gmap string (MessageEntry MsgSpec);
  ld_services : gmap string (MessageEntry SrvSpec);
  ld_actions : gmap string (MessageEntry ActionSpec);
  ld_packageDeps : list string
}.

Definition loadMessage (packageName : string) (st : Loading) (mf : string * string)
    : Loading :=
  let '(message, file) := mf in
  let spec := createMsg packageName message file in
  {| ld_messages := <[message := {| file := Some file; spec := spec |}]> (ld_messages st);
     ld_services := ld_services st;
     ld_actions := ld_actions st;
     ld_packageDeps := getMessageDependencies (msg_dependencies spec) (ld_packageDeps st) |}.

Definition loadService (packageName : string) (st : Loading) (mf : string * string)
    : Loading :=
  let '(message, file) := mf in
  let spec := createSrv packageName message file in
  {| ld_messages := ld_messages st;
     ld_services := <[message := {| file := Some file; spec := spec |}]> (ld_services st);
     ld_actions := ld_actions st;
     ld_packageDeps := getMessageDependencies (srv_dependencies spec) (ld_packageDeps st) |}.

(** The callback of [spec.getMessages().forEach]: a synthesized message is
    stored, with no file, unless the package index has a message of that
    name. *)
Definition cacheActionMessage (packageMsgs : list (string * string))
    (messages : gmap string (MessageEntry MsgSpec)) (spec : MsgSpec)
    : gmap string (MessageEntry MsgSpec) :=
  if bool_decide (msg_messageName spec ∈ packageMsgs.*1) then messages
  else <[msg_messageName spec := {| file := None; spec := spec |}]> messages.

Definition loadAction (packageName : string) (packageMsgs : list (string * string))
    (st : Loading) (mf : string * string) : Loading :=
  let '(message, file) := mf in
  let spec := createAction packageName message file in
  {| ld_messages := foldl (cacheActionMessage packageMsgs) (ld_messages st) (act_messages spec);
     ld_services := ld_services st;
     ld_actions := <[message := {| file := Some file; spec := spec |}]> (ld_actions st);
     ld_packageDeps := getMessageDependencies (act_dependencies spec) (ld_packageDeps st) |}.

(** The body of the loop over the packages. *)
Definition loadPackageInfo (packageName : string) (packageInfo : PackageInfo)
    : PackageEntry :=
  let st0 := {| ld_messages := ∅; ld_services := ∅; ld_actions := ∅; ld_packageDeps := [] |} in
  let st1 := foldl (loadMessage packageName) st0 (info_messages packageInfo) in
  let st2 := foldl (loadService packageName) st1 (info_services packageInfo) in
  let st3 := foldl (loadAction packageName (info_messages packageInfo)) st2
                   (info_actions packageInfo) in
  {| messages := ld_messages st3;
     services := ld_services st3;
     actions := ld_actions st3;
     localDeps := ld_packageDeps st3 |}.

Definition _loadMessagesInCache (packageCache : list (string * PackageInfo)) : PackageMap :=
  foldl (fun cache '(packageName, packageInfo) =>
           <[packageName := loadPackageInfo packageName packageInfo]> cache)
        ∅ packageCache.

(** The synthesized messages of all actions of a package, in the order the
    loops meet them. *)
Definition synthesized (packageName : string) (packageInfo : PackageInfo) : list MsgSpec :=
  mjoin ((fun '(message, file) => act_messages (createAction packageName message file))
           <$> info_actions packageInfo).
End LoadMessagesInCache.

(** A name that is not the name of a member of [Object.prototype]. *)
Definition plainName (name : string) : bool :=
  negb (bool_decide (name ∈ Object_prototype)).

(** No package and no definition of the index, on disk or synthesized, is
    named like a member of [Object.prototype]. *)
Definition plainIndex (createAction : string -> string -> string -> ActionSpec)
    (packageCache : list (string * PackageInfo)) : bool :=
  forallb (fun '(packageName, packageInfo) =>
             plainName packageName
             && forallb plainName ((info_messages packageInfo).*1
                                   ++ (info_services packageInfo).*1
                                   ++ (info_actions packageInfo).*1)
             && forallb plainName
                  (msg_messageName <$> synthesized createAction packageName packageInfo))
          packageCache.

(** ** The builtin type table of the type-declaration generator *)




(** ** BuildOrchestrator: asynchronous functions

    An [async] function is a tree of the effects it performs in program
    order.  Calling it runs its effects up to the first [await] without
    interruption; at an [await] the function is parked until the promise it
    waits for settles, also when that promise is settled already.

    A path is the list of the segments of its string, the parts between the
    separators of [path.sep] (POSIX): an absolute path starts with the empty
    segment, and [[""]] is the root.  Where the code joins a directory and a
    name, the model appends the name to the segments of the directory, which
    is what [path.join] returns for a normalized directory and a plain
    name. *)

Inductive FsOp : Type :=
  | MkDir (path : list string)
  | WriteFile (path : list string) (data : string).

Fixpoint hasSeparator (s : string) : bool :=
  match s with
  | EmptyString => false
  | String c s' => Ascii.eqb c "/"%char || hasSeparator s'
  end.

(** A name that is one segment of a path and that [path.join] keeps as it
    is: not empty, not [.] or [..], and free of separators. *)
Definition plainSegment (s : string) : bool :=
  negb (bool_decide (s = "")) && negb (bool_decide (s = "."))
  && negb (bool_decide (s = "..")) && negb (hasSeparator s).

(** The segments of a path string that [path.join] leaves as it is: an
    absolute or a relative path of one plain segment or more. *)
Definition normalPath (p : list string) : bool :=
  let segments := match p with EmptyString :: segments => segments | _ => p end in
  (0 <? length segments)%nat && forallb plainSegment segments.

(** [path.join(curPath, localPath)] for an absolute [curPath] and a
    [localPath] free of separators: an empty segment and [.] leave [curPath]
    as it is, [..] leads to its parent, and the root is its own parent. *)
Definition path_join (curPath : list string) (localPath : string) : list string :=
  if bool_decide (localPath = "") || bool_decide (localPath = ".") then curPath
  else if bool_decide (localPath = "..") then
    match curPath with
    | [] | [_] => curPath
    | _ => removelast curPath
    end
  else curPath ++ [localPath].

(** What the callback of an [fs] call receives: [None] on success, the
    [code] of the error otherwise. *)
Abbreviation FsResult := (option string).

Inductive Effect : Type :=
  | EffLog (msg : string)                          (* console.log *)
  | EffSetStatus (name : string) (s : LoadStatus)  (* this._loadingPkgs.set *)
  | EffFs (op : FsOp).                             (* an fs call is issued *)

Section Orchestrator.
(** The state captured by the closure passed as [filterDepFunc]. *)
Context {F : Type}.

Inductive Task : Type :=
  | Return                                                 (* the promise resolves *)
  | Throw (e : JsError)                                    (* the promise rejects *)
  | LoadingHas (name : string) (k : bool -> Task)          (* this._loadingPkgs.has *)
  | LoadingSet (name : string) (s : LoadStatus) (k : Task) (* this._loadingPkgs.set *)
  | Log (verboseOnly : bool) (msg : string) (k : Task)     (* this.log, or console.log *)
  | GetCache (k : PackageMap -> Task)                      (* this._packageCache *)
  | CallFilter (f : string -> F -> bool * F) (dep : string) (k : bool -> Task)
                                                           (* filterDepFunc(dep) *)
  | Fs (op : FsOp) (k : FsResult -> Task)   (* new Promise around an fs call; k is its callback *)
  | AwaitAll (tasks : list Task) (k : Task) (* await Promise.all(tasks.map(call)) *).

(** [await t; k], where [t] is a call that returns a promise: the call runs
    to its first suspension and [k] is parked until the promise settles, as
    with [await Promise.all([t])]; a rejection of [t] ends both. *)
Definition await (t k : Task) : Task := AwaitAll [t] k.

(** The manager together with what surrounds it. *)
Record World : Type := {
  _verbose : bool;
  _loadingPkgs : gmap string LoadStatus;
  _packageCache : PackageMap;
  closure : F;
  history : list Effect
}.

Definition setStatus (name : string) (s : LoadStatus) (w : World) : World :=
  {| _verbose := _verbose w;
     _loadingPkgs := <[name := s]> (_loadingPkgs w);
     _packageCache := _packageCache w;
     closure := closure w;
     history := history w ++ [EffSetStatus name s] |}.

Definition record (eff : Effect) (w : World) : World :=
  {| _verbose := _verbose w;
     _loadingPkgs := _loadingPkgs w;
     _packageCache := _packageCache w;
     closure := closure w;
     history := history w ++ [eff] |}.

Definition setClosure (c : F) (w : World) : World :=
  {| _verbose := _verbose w;
     _loadingPkgs := _loadingPkgs w;
     _packageCache := _packageCache w;
     closure := c;
     history := history w |}.

(** A promise: settled, or the parked function behind it. *)
Inductive Pending : Type :=
  | Resolved
  | Rejected (e : JsError)
  | AwaitingFs (k : FsResult -> Task)
  | AwaitingAll (promises : list Pending) (k : Task)
  | Orphaning (promises : list Pending) (e : JsError).
    (* rejected by a member of a Promise.all; the other members stay in flight *)

(** Calling an async function: its effects up to the first suspension. *)
Fixpoint run (t : Task) (w : World) : World * Pending :=
  match t with
  | Return => (w, Resolved)
  | Throw e => (w, Rejected e)
  | LoadingHas n k => run (k (bool_decide (is_Some (_loadingPkgs w !! n)))) w
  | LoadingSet n s k => run k (setStatus n s w)
  | Log verboseOnly m k =>
      run k (if verboseOnly && negb (_verbose w) then w else record (EffLog m) w)
  | GetCache k => run (k (_packageCache w)) w
  | CallFilter f d k => let '(b, c) := f d (closure w) in run (k b) (setClosure c w)
  | Fs op k => (record (EffFs op) w, AwaitingFs k)
  | AwaitAll ts k =>
      let '(w', ps) :=
        (fix runAll (ts : list Task) (w : World) : World * list Pending :=
           match ts with
           | [] => (w, [])
           | t :: ts' =>
               let '(w1, p) := run t w in
               let '(w2, ps) := runAll ts' w1 in (w2, p :: ps)
           end) ts w in
      (w', AwaitingAll ps k)
  end.

(** [tasks.map(call)]: the calls are made left to right. *)
Fixpoint runAll (ts : list Task) (w : World) : World * list Pending :=
  match ts with
  | [] => (w, [])
  | t :: ts' =>
      let '(w1, p) := run t w in
      let '(w2, ps) := runAll ts' w1 in (w2, p :: ps)
  end.

Definition rejection (p : Pending) : option JsError :=
  match p with
  | Rejected e | Orphaning _ e => Some e
  | _ => None
  end.

(** The event loop: a parked function resumes when its fs call completes
    (with any outcome) or when its [Promise.all] settles, and runs to its
    next suspension. *)
Inductive step : World * Pending -> World * Pending -> Prop :=
  | step_fs k (res : FsResult) w :
      step (w, AwaitingFs k) (run (k res) w)
  | step_all_resolved ps k w :
      Forall (fun p => p = Resolved) ps ->
      step (w, AwaitingAll ps k) (run k w)
  | step_all_rejected ps k w p e :
      p ∈ ps -> rejection p = Some e ->
      step (w, AwaitingAll ps k) (w, Orphaning ps e)
  | step_all_member ps1 p ps2 k w w' p' :
      step (w, p) (w', p') ->
      step (w, AwaitingAll (ps1 ++ p :: ps2) k) (w', AwaitingAll (ps1 ++ p' :: ps2) k)
  | step_orphan ps1 p ps2 e w w' p' :
      step (w, p) (w', p') ->
      step (w, Orphaning (ps1 ++ p :: ps2) e) (w', Orphaning (ps1 ++ p' :: ps2) e).

(** *** File output *)

(** [IndentedWriter] of [./IndentedWriter]: [get()] of the lines written,
    each at its indentation depth. *)
Variable render : list (nat * string) -> string.

(** [writeFile]: the promise rejects with the error of the callback. *)
Definition writeFile (filepath : list string) (data : string) : Task :=
  Fs (WriteFile filepath data)
     (fun err => match err with Some code => Throw (FsError code) | None => Return end).

(** [createLocal] of [createDirectory]: EEXIST and EISDIR are tolerated. *)
Definition createLocal (dirPath : list string) : Task :=
  Fs (MkDir dirPath)
     (fun err =>
        match err with
        | Some code =>
            if bool_decide (code = "EEXIST") || bool_decide (code = "EISDIR")
            then Return
            else Throw (FsError code)
        | None => Return
        end).

(** The loop of [createDirectory] over the segments still to be joined to
    [curPath]. *)
Fixpoint createLocals (curPath paths : list string) : Task :=
  match paths with
  | [] => Return
  | localPath :: paths' =>
      let curPath := path_join curPath localPath in
      await (createLocal curPath) (createLocals curPath paths')
  end.

(** [directory] is the list [directory.split(path.sep)].  The walk starts
    at the root whether the path is absolute or not: the directories of a
    relative path are made below the root, and the root itself is handed to
    [mkdir] only for the empty first segment of an absolute path. *)
Definition createDirectory (directory : list string) : Task :=
  createLocals [""] directory.

(** A read of [this._packageCache[packageName]] whose properties are used. *)
Definition withPackage (packageName : string) (k : PackageEntry -> Task) : Task :=
  GetCache (fun cache =>
    match prop cache packageName with
    | Ok entry => k entry
    | Raise e => Throw e
    end).

(** [Object.keys(obj)].  The engine lists the keys in the order of their
    insertion, which the map does not record; the model lists them in the
    order of the map. *)
Definition keys {V} (obj : gmap string V) : list string := (map_to_list obj).*1.

Definition packageHasMessages (e : PackageEntry) : bool :=
  (0 <? length (keys (messages e)))%nat.
Definition packageHasServices (e : PackageEntry) : bool :=
  (0 <? length (keys (services e)))%nat.
Definition packageHasActions (e : PackageEntry) : bool :=
  (0 <? length (keys (actions e)))%nat.

Definition createPackageIndex (packageName : string) (directory : list string) : Task :=
  withPackage packageName (fun e =>
    let hasMessages := packageHasMessages e || packageHasActions e in
    let hasServices := packageHasServices e in
    writeFile (directory ++ ["_index.js"])
      (render ([(0, "module.exports = {")%nat]
               ++ (if hasMessages then [(1, "msg: require('./msg/_index.js'),")%nat] else [])
               ++ (if hasServices then [(1, "srv: require('./srv/_index.js')")%nat] else [])
               ++ [(0, "};")%nat]))).

Definition indexLine (message : string) : nat * string :=
  (1%nat, message +:+ ": require('./" +:+ message +:+ ".js'),").

Definition createIndex (names : list string) (directory : list string) : Task :=
  writeFile (directory ++ ["_index.js"])
    (render ([(0, "module.exports = {")%nat] ++ (indexLine <$> names) ++ [(0, "};")%nat])).

Definition createMessageIndex (packageName : string) (directory : list string) : Task :=
  withPackage packageName (fun e => createIndex (keys (messages e)) directory).

Definition createServiceIndex (packageName : string) (directory : list string) : Task :=
  withPackage packageName (fun e => createIndex (keys (services e)) directory).

Definition initPackageWrite (packageName : string) (jsMsgDir : list string) : Task :=
  let packageDir := jsMsgDir ++ [packageName] in
  await (createDirectory packageDir)
    (withPackage packageName (fun e =>
       let msgPart k :=
         if packageHasMessages e || packageHasActions e then
           let msgDir := packageDir ++ ["msg"] in
           await (createDirectory msgDir) (await (createMessageIndex packageName msgDir) k)
         else k in
       let srvPart k :=
         if packageHasServices e then
           let srvDir := packageDir ++ ["srv"] in
           await (createDirectory srvDir) (await (createServiceIndex packageName srvDir) k)
         else k in
       msgPart (srvPart (await (createPackageIndex packageName packageDir) Return)))).

(** The calls of [pkgNames.forEach] are the members of the [Promise.all]:
    each logs its definition and issues its [writeFile]. *)
Definition writePackageMessages (packageName : string) (jsMsgDir : list string) : Task :=
  let msgDir := jsMsgDir ++ [packageName; "msg"] in
  withPackage packageName (fun e =>
    let packageMsgs := map_to_list (messages e) in
    let numMsgs := length packageMsgs in
    if (0 <? numMsgs)%nat then
      Log true ("Building " +:+ pretty numMsgs +:+ " messages from " +:+ packageName)
        (AwaitAll ((fun '(msgName, entry) =>
                      let spec := spec entry in
                      Log true ("Building message " +:+ msg_packageName spec +:+ "/"
                                +:+ msg_messageName spec)
                        (writeFile (msgDir ++ [msgName +:+ ".js"]) (msg_classFile spec)))
                     <$> packageMsgs) Return)
    else Return).

Definition writePackageServices (packageName : string) (jsMsgDir : list string) : Task :=
  let msgDir := jsMsgDir ++ [packageName; "srv"] in
  withPackage packageName (fun e =>
    let packageSrvs := map_to_list (services e) in
    let numSrvs := length packageSrvs in
    if (0 <? numSrvs)%nat then
      Log true ("Building " +:+ pretty numSrvs +:+ " services from " +:+ packageName)
        (AwaitAll ((fun '(srvName, entry) =>
                      let spec := spec entry in
                      Log true ("Building service " +:+ srv_packageName spec +:+ "/"
                                +:+ srv_messageName spec)
                        (writeFile (msgDir ++ [srvName +:+ ".js"]) (srv_classFile spec)))
                     <$> packageSrvs) Return)
    else Return).

(** *** loadPackage *)

(** [dependencies.filter(filterDepFunc)]. *)
Fixpoint filterDeps (f : string -> F -> bool * F) (deps : list string)
    (k : list string -> Task) : Task :=
  match deps with
  | [] => k []
  | d :: deps' =>
      CallFilter f d (fun keep =>
        filterDeps f deps' (fun rest => k (if keep then d :: rest else rest)))
  end.

(** The part of [loadPackage] under [if (writeFiles)]. *)
Definition writePhase (packageName : string) (outputDirectory : list string) : Task :=
  await (initPackageWrite packageName outputDirectory)
    (await (writePackageMessages packageName outputDirectory)
       (await (writePackageServices packageName outputDirectory)
          (LoadingSet packageName LOADED
             (Log false ("Finished building package " +:+ packageName) Return)))).

Fixpoint loadPackage (stack : nat) (packageName : string) (outputDirectory : list string)
    (loadDeps writeFiles : bool) (filterDepFunc : option (string -> F -> bool * F)) : Task :=
  match stack with
  | O => Throw RangeError
  | S stack' =>
      LoadingHas packageName (fun claimed =>
        if claimed then Return
        else
          Log true ("Loading package " +:+ packageName)
            (LoadingSet packageName LOADING
               (let afterDeps :=
                  if writeFiles then writePhase packageName outputDirectory else Return in
                if loadDeps then
                  GetCache (fun cache =>
                    match (deps ← getFullDependencySet stack' packageName cache;
                           sortPackageList stack' deps cache) with
                    | Raise e => Throw e
                    | Ok dependencies =>
                        let spawn dependencies :=
                          AwaitAll
                            ((fun depName =>
                                loadPackage stack' depName outputDirectory loadDeps
                                            writeFiles filterDepFunc) <$> dependencies)
                            afterDeps in
                        match filterDepFunc with
                        | Some f => filterDeps f dependencies spawn
                        | None => spawn dependencies
                        end
                    end)
                else afterDeps)))
  end.
(** What a call of [loadPackage] that has claimed its package goes on to do. *)
Definition loadPackageClaimed (stack' : nat) (packageName : string)
    (outputDirectory : list string) (loadDeps writeFiles : bool)
    (filterDepFunc : option (string -> F -> bool * F)) : Task :=
  let afterDeps :=
    if writeFiles then writePhase packageName outputDirectory else Return in
  if loadDeps then
    GetCache (fun cache =>
      match (deps ← getFullDependencySet stack' packageName cache;
             sortPackageList stack' deps cache) with
      | Raise e => Throw e
      | Ok dependencies =>
          let spawn dependencies :=
            AwaitAll
              ((fun depName =>
                  loadPackage stack' depName outputDirectory loadDeps
                              writeFiles filterDepFunc) <$> dependencies)
              afterDeps in
          match filterDepFunc with
          | Some f => filterDeps f dependencies spawn
          | None => spawn dependencies
          end
      end)
  else afterDeps.

Definition claimed (w : World) (name : string) : Prop :=
  is_Some (_loadingPkgs w !! name).

(** The fs calls issued so far. *)
Definition fsOps (h : list Effect) : list FsOp :=
  omap (fun eff => match eff with EffFs op => Some op | _ => None end) h.

Definition isLog (eff : Effect) : Prop :=
  match eff with EffLog _ => True | _ => False end.

(** [keeps quiet name t]: run in a world where [name] is claimed, [t] never
    sets the load status of [name]; with [quiet] it issues no fs call
    either. *)
Inductive keeps (quiet : bool) (name : string) : Task -> Prop :=
  | keeps_Return : keeps quiet name Return
  | keeps_Throw e : keeps quiet name (Throw e)
  | keeps_Has_same k : keeps quiet name (k true) -> keeps quiet name (LoadingHas name k)
  | keeps_Has n k : (forall b, keeps quiet name (k b)) -> keeps quiet name (LoadingHas n k)
  | keeps_Set n s k : n <> name -> keeps quiet name k -> keeps quiet name (LoadingSet n s k)
  | keeps_Log v m k : keeps quiet name k -> keeps quiet name (Log v m k)
  | keeps_GetCache k : (forall c, keeps quiet name (k c)) -> keeps quiet name (GetCache k)
  | keeps_CallFilter f d k :
      (forall b, keeps quiet name (k b)) -> keeps quiet name (CallFilter f d k)
  | keeps_Fs op k :
      quiet = false -> (forall r, keeps quiet name (k r)) -> keeps quiet name (Fs op k)
  | keeps_AwaitAll ts k :
      Forall (keeps quiet name) ts -> keeps quiet name k -> keeps quiet name (AwaitAll ts k).

Inductive keepsP (quiet : bool) (name : string) : Pending -> Prop :=
  | keepsP_Resolved : keepsP quiet name Resolved
  | keepsP_Rejected e : keepsP quiet name (Rejected e)
  | keepsP_Fs k : (forall r, keeps quiet name (k r)) -> keepsP quiet name (AwaitingFs k)
  | keepsP_All ps k :
      Forall (keepsP quiet name) ps -> keeps quiet name k ->
      keepsP quiet name (AwaitingAll ps k)
  | keepsP_Orphaning ps e :
      Forall (keepsP quiet name) ps -> keepsP quiet name (Orphaning ps e).
(** [this.log(msg)]. *)
Definition logged (msg : string) (w : World) : World :=
  if negb (_verbose w) then w else record (EffLog msg) w.

(** What a run leaves of the world it started in. *)
Record extends (w w' : World) : Prop := {
  ext_verbose : _verbose w' = _verbose w;
  ext_cache : _packageCache w' = _packageCache w;
  ext_claimed : forall n, claimed w n -> claimed w' n;
  ext_history : exists h, history w' = history w ++ h
}.

(** The status of [name], and with [quiet] the fs calls issued, are the
    same in [w'] as in [w]. *)
Definition kept (quiet : bool) (name : string) (w w' : World) : Prop :=
  _loadingPkgs w' !! name = _loadingPkgs w !! name /\
  (quiet = true -> fsOps (history w') = fsOps (history w)).

(** A promise whose function only waits, with nothing left to do, for the
    members of its [Promise.all]. *)
Inductive idle : Pending -> Prop :=
  | idle_Resolved : idle Resolved
  | idle_Rejected e : idle (Rejected e)
  | idle_All ps : Forall idle ps -> idle (AwaitingAll ps Return)
  | idle_Orphaning ps e : Forall idle ps -> idle (Orphaning ps e).

(** A task that issues no fs call and does nothing after a [Promise.all]. *)
Inductive idleTask : Task -> Prop :=
  | idleTask_Return : idleTask Return
  | idleTask_Throw e : idleTask (Throw e)
  | idleTask_Has n k : (forall b, idleTask (k b)) -> idleTask (LoadingHas n k)
  | idleTask_Set n s k : idleTask k -> idleTask (LoadingSet n s k)
  | idleTask_Log v m k : idleTask k -> idleTask (Log v m k)
  | idleTask_GetCache k : (forall c, idleTask (k c)) -> idleTask (GetCache k)
  | idleTask_CallFilter f d k : (forall b, idleTask (k b)) -> idleTask (CallFilter f d k)
  | idleTask_AwaitAll ts : Forall idleTask ts -> idleTask (AwaitAll ts Return).

(** The number of [Promise.all] still awaited in a promise. *)
Fixpoint awaited (p : Pending) : nat :=
  match p with
  | AwaitingAll ps _ =>
      S ((fix sum (ps : list Pending) : nat :=
            match ps with [] => O | p :: ps' => (awaited p + sum ps')%nat end) ps)
  | Orphaning ps _ =>
      (fix sum (ps : list Pending) : nat :=
         match ps with [] => O | p :: ps' => (awaited p + sum ps')%nat end) ps
  | _ => O
  end.

Fixpoint awaitedAll (ps : list Pending) : nat :=
  match ps with [] => O | p :: ps' => (awaited p + awaitedAll ps')%nat end.

(** A promise is settled when it is resolved or rejected. *)
Definition settled (p : Pending) : Prop :=
  p = Resolved \/ is_Some (rejection p).

End Orchestrator.

(** No package of the cache is named like a member of [Object.prototype]. *)
Definition plainCache (cache : PackageMap) : bool :=
  forallb plainName (keys cache).

Arguments Task : clear implicits.
Arguments World : clear implicits.
Arguments Pending : clear implicits.

(** The closure [buildPackage] passes as [filterDepFunc]: it keeps the
    dependencies it has not seen and remembers them in its [deps] set. *)
Definition dedupFilter (depName : string) (deps : list string) : bool * list string :=
  if bool_decide (depName ∈ deps) then (false, deps) else (true, set_add depName deps).

(** ** Caches and managers of the scenarios *)

Definition pkg (deps : list string) : PackageEntry :=
  {| messages := ∅; services := ∅; actions := ∅; localDeps := deps |}.

(** cache = {A: deps {}, B: deps {A}, C: deps {A, B}} *)
Definition cache_chain : PackageMap :=
  <["C" := pkg ["A"; "B"]]> (<["B" := pkg ["A"]]> (<["A" := pkg []]> ∅)).

(** cache = {A: deps {B}, B: deps {A}} *)
Definition cache_mutual : PackageMap :=
  <["B" := pkg ["A"]]> (<["A" := pkg ["B"]]> ∅).

(** cache = {C: deps {A}, X: deps {}, A: deps {}} *)
Definition cache_gap : PackageMap :=
  <["A" := pkg []]> (<["X" := pkg []]> (<["C" := pkg ["A"]]> ∅)).

(** A [splitMessageType] for the examples: the text before and after the
    first ['/']. *)
Definition lower_ascii (c : ascii) : ascii :=
  let n := nat_of_ascii c in
  if ((65 <=? n) && (n <=? 90))%nat then ascii_of_nat (n + 32) else c.

(** [toLowerCase] on a string of ASCII characters. *)
Fixpoint toLowerCase_ascii (s : string) : string :=
  match s with
  | EmptyString => EmptyString
  | String c s' => String (lower_ascii c) (toLowerCase_ascii s')
  end.

Fixpoint split_slash (msgType : string) : string * string :=
  match msgType with
  | EmptyString => (EmptyString, EmptyString)
  | String c rest =>
      if Ascii.eqb c "/"%char then (EmptyString, rest)
      else let '(p, m) := split_slash rest in (String c p, m)
  end.

Definition string_spec : MsgSpec :=
  {| msg_packageName := "std_msgs"; msg_messageName := "String";
     msg_dependencies := []; msg_classFile := "class String {}" |}.

(** cache = {std_msgs: messages {string: String.msg}} *)
Definition cache_std : PackageMap :=
  {[ "std_msgs" :=
       {| messages := {[ "string" := {| file := Some "String.msg"; spec := string_spec |} ]};
          services := ∅; actions := ∅; localDeps := [] |} ]}.



(** cache = {constructor: {}, A: {}}: a package named like a member of
    [Object.prototype]. *)
Definition cache_constructor : PackageMap :=
  <["constructor" := pkg []]> (<["A" := pkg []]> ∅).

(** The memo table a comparator call would need to see a mutual dependency. *)
Definition memo_mutual : gmap string (list string) :=
  <["B" := ["A"]]> (<["A" := ["B"]]> ∅).

(** cache = {A: deps {M, D}, D: deps {A}}; M has no entry *)
Definition cache_missing : PackageMap :=
  <["D" := pkg ["A"]]> (<["A" := pkg ["M"; "D"]]> ∅).

(** A rank that every dependency edge of the example caches decreases. *)
Definition rank_chain (name : string) : nat :=
  if String.eqb name "C" then 2 else if String.eqb name "B" then 1 else 0.

(** cache = {A: deps {B, D}, B: deps {C}, C: deps {B}, D: deps {A}} *)
Definition cache_trap : PackageMap :=
  <["D" := pkg ["A"]]> (<["C" := pkg ["B"]]> (<["B" := pkg ["C"]]> (<["A" := pkg ["B"; "D"]]> ∅))).

(** An [IndentedWriter] for the examples: two spaces per depth, one line
    per write. *)
Definition test_render (lines : list (nat * string)) : string :=
  foldr (fun '(depth, text) acc =>
           String.concat "" (replicate depth "  ") +:+ text +:+ "\n" +:+ acc)
        "" lines.

(** A manager on the cache {A: {}, B: {A}, C: {A, B}} that has loaded nothing. *)
Definition w_fresh : World (list string) :=
  {| _verbose := true; _loadingPkgs := ∅; _packageCache := cache_chain;
     closure := []; history := [] |}.

(** The same manager with a call for A in flight. *)
Definition w_busy : World (list string) :=
  {| _verbose := true; _loadingPkgs := {[ "A" := LOADING ]}; _packageCache := cache_chain;
     closure := []; history := [EffSetStatus "A" LOADING] |}.

(** A parser for the examples: a message, service or action that references
    nothing; an action synthesizes its Goal, Result and Feedback messages. *)
Definition demo_createMsg (packageName message f : string) : MsgSpec :=
  {| msg_packageName := packageName; msg_messageName := message;
     msg_dependencies := []; msg_classFile := f |}.

Definition demo_createSrv (packageName message f : string) : SrvSpec :=
  {| srv_packageName := packageName; srv_messageName := message;
     srv_dependencies := []; srv_classFile := f |}.

Definition demo_createAction (packageName message f : string) : ActionSpec :=
  {| act_packageName := packageName; act_messageName := message;
     act_dependencies := [];
     act_messages := [ demo_createMsg packageName (message +:+ "Goal") "";
                       demo_createMsg packageName (message +:+ "Result") "";
                       demo_createMsg packageName (message +:+ "Feedback") "" ] |}.

(** A package with the action Fib and, on disk, the message FibGoal. *)
Definition demo_info : PackageInfo :=
  {| info_messages := [("FibGoal", "FibGoal.msg")];
     info_services := [];
     info_actions := [("Fib", "Fib.action")] |}.

Definition demo_index : list (string * PackageInfo) := [("demo", demo_info)].

(** ** TCPROS framing

    The serialization utilities work on Node's [Buffer].  A buffer is the
    list of its bytes.  The Buffer methods the code calls are modelled after
    Node's documentation of them. *)

Abbreviation Buffer := (list Byte.byte).

(** [buffer.length]. *)
Definition byteLength (buffer : Buffer) : Z := Z.of_nat (length buffer).

(** How [slice] reads an index: a negative one counts from the end, and
    the result is clamped to the buffer. *)
Definition relativeIndex (len i : Z) : Z :=
  if i <? 0 then Z.max (len + i) 0 else Z.min i len.

(** [buffer.slice(start, end)]. *)
Definition slice (buffer : Buffer) (start end_ : Z) : Buffer :=
  let first := relativeIndex (byteLength buffer) start in
  let final := relativeIndex (byteLength buffer) end_ in
  take (Z.to_nat (final - first)) (drop (Z.to_nat first) buffer).

(** [buffer.slice(start)]. *)
Definition sliceFrom (buffer : Buffer) (start : Z) : Buffer :=
  slice buffer start (byteLength buffer).

(** [Buffer.concat(list, totalLength)]: the buffers of [list] one after the
    other, cut or zero-filled to [totalLength] bytes. *)
Definition Buffer_concat (list : list Buffer) (totalLength : Z) : Buffer :=
  let n := Z.to_nat totalLength in
  take n (mjoin list ++ replicate n Byte.x00).

Definition byteValue (b : Byte.byte) : Z := Z.of_N (Byte.to_N b).

(** The byte of value [z mod 256]. *)
Definition byteOf (z : Z) : Byte.byte :=
  default Byte.x00 (Byte.of_N (Z.to_N (z mod 256))).

(** [buffer.readUInt8(offset)]: out of range is a [RangeError]. *)
Definition readUInt8 (buffer : Buffer) (offset : Z) : Res Byte.byte :=
  if offset <? 0 then Raise RangeError
  else match buffer !! Z.to_nat offset with
       | Some b => Ok b
       | None => Raise RangeError
       end.

(** [buffer.readUInt32LE(0)]. *)
Definition readUInt32LE (buffer : Buffer) : Res Z :=
  match buffer with
  | b0 :: b1 :: b2 :: b3 :: _ =>
      Ok (byteValue b0 + 256 * (byteValue b1 + 256 * (byteValue b2 + 256 * byteValue b3)))
  | _ => Raise RangeError
  end.

(** The four bytes of an unsigned 32-bit integer, least significant first. *)
Definition encodeUInt32LE (value : Z) : Buffer :=
  [byteOf value; byteOf (value / 2 ^ 8); byteOf (value / 2 ^ 16); byteOf (value / 2 ^ 24)].

(** [lenBuf.writeUInt32LE(value, 0)] on a buffer of four bytes: a value
    that is not an unsigned 32-bit integer is a [RangeError]. *)
Definition writeUInt32LE (value : Z) : Res Buffer :=
  if (0 <=? value) && (value <? 2 ^ 32)
  then Ok (encodeUInt32LE value)
  else Raise RangeError.

(** [PrependLength]. *)
Definition PrependLength (buffer : Buffer) : Res Buffer :=
  lenBuf ← writeUInt32LE (byteLength buffer);
  Ok (Buffer_concat [lenBuf; buffer] (byteLength buffer + 4)).

(** The fields of a [DeserializeStream]; [None] is the [null] of
    [_serviceRespSuccess]. *)
Record DeserializeStream : Type := {
  _inBody : bool;
  _messageConsumed : Z;
  _messageLen : Z;
  _messageBuffer : list Buffer;
  _deserializeServiceResp : bool;
  _serviceRespSuccess : option Byte.byte
}.

(** The stream the constructor leaves. *)
Definition newDeserializeStream : DeserializeStream :=
  {| _inBody := false; _messageConsumed := 0; _messageLen := -1; _messageBuffer := [];
     _deserializeServiceResp := false; _serviceRespSuccess := None |}.

Definition setServiceRespDeserialize (s : DeserializeStream) : DeserializeStream :=
  {| _inBody := _inBody s; _messageConsumed := _messageConsumed s;
     _messageLen := _messageLen s; _messageBuffer := _messageBuffer s;
     _deserializeServiceResp := true; _serviceRespSuccess := _serviceRespSuccess s |}.

(** What a listener of ['message'] receives: the message, and for a
    service response the success byte as well. *)
Inductive Emitted : Type :=
  | Message (buffer : Buffer)
  | ServiceResponse (buffer : Buffer) (success : option Byte.byte).

(** [emitMessage]: the event, and the stream with the success byte
    cleared after a service response. *)
Definition emitMessage (s : DeserializeStream) (buffer : Buffer)
    : DeserializeStream * Emitted :=
  if _deserializeServiceResp s then
    ({| _inBody := _inBody s; _messageConsumed := _messageConsumed s;
        _messageLen := _messageLen s; _messageBuffer := _messageBuffer s;
        _deserializeServiceResp := _deserializeServiceResp s; _serviceRespSuccess := None |},
     ServiceResponse buffer (_serviceRespSuccess s))
  else (s, Message buffer).

(** One turn of the [while] loop of [_transform] at [pos]: the stream, the
    position and the events emitted after it. *)
Definition transformStep (chunk : Buffer) (s : DeserializeStream) (pos : Z)
    : Res (DeserializeStream * Z * list Emitted) :=
  let chunkLen := byteLength chunk in
  if _inBody s then
    let messageRemaining := _messageLen s - _messageConsumed s in
    if messageRemaining + pos <=? chunkLen then
      let slice := slice chunk pos (pos + messageRemaining) in
      let concatBuf := Buffer_concat (_messageBuffer s ++ [slice]) (_messageLen s) in
      let '(s1, event) := emitMessage s concatBuf in
      Ok ({| _inBody := false; _messageConsumed := 0; _messageLen := _messageLen s1;
             _messageBuffer := [];
             _deserializeServiceResp := _deserializeServiceResp s1;
             _serviceRespSuccess := _serviceRespSuccess s1 |},
          pos + messageRemaining, [event])
    else
      Ok ({| _inBody := true; _messageConsumed := _messageConsumed s + (chunkLen - pos);
             _messageLen := _messageLen s;
             _messageBuffer := _messageBuffer s ++ [sliceFrom chunk pos];
             _deserializeServiceResp := _deserializeServiceResp s;
             _serviceRespSuccess := _serviceRespSuccess s |},
          chunkLen, [])
  else
    '(success, pos) ←
      (if _deserializeServiceResp s && bool_decide (_serviceRespSuccess s = None)
       then b ← readUInt8 chunk pos; Ok (Some b, pos + 1)
       else Ok (_serviceRespSuccess s, pos));
    let bufLen := foldl (fun acc bufferEntry => acc + byteLength bufferEntry) 0 (_messageBuffer s) in
    if 4 - bufLen <=? chunkLen - pos then
      let buffer := Buffer_concat (_messageBuffer s ++ [slice chunk pos (pos + 4 - bufLen)]) 4 in
      messageLen ← readUInt32LE buffer;
      let pos := pos + 4 - bufLen in
      let s1 := {| _inBody := false; _messageConsumed := _messageConsumed s;
                   _messageLen := messageLen; _messageBuffer := [];
                   _deserializeServiceResp := _deserializeServiceResp s;
                   _serviceRespSuccess := success |} in
      if (messageLen =? 0) && (pos =? chunkLen) then
        let '(s2, event) := emitMessage s1 [] in
        Ok (s2, pos, [event])
      else
        Ok ({| _inBody := true; _messageConsumed := _messageConsumed s;
               _messageLen := messageLen; _messageBuffer := [];
               _deserializeServiceResp := _deserializeServiceResp s;
               _serviceRespSuccess := success |},
            pos, [])
    else
      Ok ({| _inBody := false; _messageConsumed := _messageConsumed s;
             _messageLen := _messageLen s;
             _messageBuffer := _messageBuffer s ++ [sliceFrom chunk pos];
             _deserializeServiceResp := _deserializeServiceResp s;
             _serviceRespSuccess := success |},
          chunkLen, [])
  .

(** The [while (pos < chunkLen)] loop; [None] when [turns] turns were
    not enough to leave it. *)
Fixpoint transformLoop (turns : nat) (chunk : Buffer) (s : DeserializeStream) (pos : Z)
    (emitted : list Emitted) : option (Res (DeserializeStream * list Emitted)) :=
  if pos <? byteLength chunk then
    match turns with
    | O => None
    | S turns' =>
        match transformStep chunk s pos with
        | Ok (s', pos', events) => transformLoop turns' chunk s' pos' (emitted ++ events)
        | Raise e => Some (Raise e)
        end
    end
  else Some (Ok (s, emitted)).

(** [_transform(chunk, encoding, done)]. *)
Definition _transform (turns : nat) (chunk : Buffer) (s : DeserializeStream)
    : option (Res (DeserializeStream * list Emitted)) :=
  transformLoop turns chunk s 0 [].

(** The chunks of a socket piped through the stream, one [_transform]
    after the other. *)
Fixpoint transformAll (turns : nat) (chunks : list Buffer) (s : DeserializeStream)
    : option (Res (DeserializeStream * list Emitted)) :=
  match chunks with
  | [] => Some (Ok (s, []))
  | chunk :: chunks' =>
      match _transform turns chunk s with
      | Some (Ok (s', events)) =>
          match transformAll turns chunks' s' with
          | Some (Ok (s'', events')) => Some (Ok (s'', events ++ events'))
          | other => other
          end
      | other => other
      end
  end.

(** The success byte a service-response stream holds. *)
Definition flagBytes (resp : bool) (success : option Byte.byte) : Buffer :=
  if resp then option_list success else [].

(** The bytes received that are not part of a message emitted yet. *)
Definition heldBytes (s : DeserializeStream) : Buffer :=
  flagBytes (_deserializeServiceResp s) (_serviceRespSuccess s)
  ++ (if _inBody s then encodeUInt32LE (_messageLen s) else [])
  ++ mjoin (_messageBuffer s).

(** The states a stream is in between two turns of the loop. *)
Record wellFormed (s : DeserializeStream) : Prop := {
  wf_header : _inBody s = false →
    (length (mjoin (_messageBuffer s)) < 4)%nat ∧ _messageConsumed s = 0 ∧
    (_deserializeServiceResp s = true → _serviceRespSuccess s = None →
     mjoin (_messageBuffer s) = []);
  wf_body : _inBody s = true →
    0 ≤ _messageLen s < 2 ^ 32 ∧
    _messageConsumed s = byteLength (mjoin (_messageBuffer s)) ∧
    _messageConsumed s ≤ _messageLen s ∧
    (_deserializeServiceResp s = true → is_Some (_serviceRespSuccess s))
}.

(** Between two chunks a stream in a body still waits for bytes of it. *)
Definition waiting (s : DeserializeStream) : Prop :=
  _inBody s = true → _messageConsumed s < _messageLen s.

(** The first length-prefixed message of [bytes] and what follows it. *)
Definition splitHeader (bytes : Buffer) : option (Buffer * Buffer) :=
  match readUInt32LE bytes with
  | Ok len =>
      let body := drop 4 bytes in
      if len <=? byteLength body
      then Some (take (Z.to_nat len) body, drop (Z.to_nat len) body)
      else None
  | Raise _ => None
  end.

(** The first frame of [bytes]: in a service response a success byte
    comes before the length. *)
Definition splitFrame (resp : bool) (bytes : Buffer) : option (Emitted * Buffer) :=
  if resp then
    match bytes with
    | b :: rest =>
        match splitHeader rest with
        | Some (body, rest') => Some (ServiceResponse body (Some b), rest')
        | None => None
        end
    | [] => None
    end
  else
    match splitHeader bytes with
    | Some (body, rest') => Some (Message body, rest')
    | None => None
    end.

(** [framed resp bytes events rest]: [bytes] is the frames of [events]
    one after the other, followed by [rest], which holds no whole frame. *)
Inductive framed (resp : bool) : Buffer → list Emitted → Buffer → Prop :=
  | framed_rest bytes : splitFrame resp bytes = None → framed resp bytes [] bytes
  | framed_frame bytes e bytes' events rest :
      splitFrame resp bytes = Some (e, bytes') → framed resp bytes' events rest →
      framed resp bytes (e :: events) rest.

(** A bound on the turns the loop still takes. *)
Definition turnsLeft (chunk : Buffer) (s : DeserializeStream) (pos : Z) : Z :=
  2 * (byteLength chunk - pos) + (if _inBody s then 1 else 0).

(** What one turn of the loop achieves. *)
Definition stepOutcome (chunk : Buffer) (s : DeserializeStream) (pos : Z)
    (s' : DeserializeStream) (pos' : Z) (events : list Emitted) : Prop :=
  wellFormed s' ∧ _deserializeServiceResp s' = _deserializeServiceResp s ∧
  pos ≤ pos' ≤ byteLength chunk ∧
  (pos' = byteLength chunk → waiting s') ∧
  turnsLeft chunk s' pos' < turnsLeft chunk s pos ∧
  ((events = [] ∧
    heldBytes s ++ drop (Z.to_nat pos) chunk = heldBytes s' ++ drop (Z.to_nat pos') chunk) ∨
   (∃ e, events = [e] ∧
      splitFrame (_deserializeServiceResp s) (heldBytes s ++ drop (Z.to_nat pos) chunk)
      = Some (e, heldBytes s' ++ drop (Z.to_nat pos') chunk))).

(** The stream a socket is piped through: for a service client it is
    switched to service responses before the first chunk. *)
Definition freshStream (resp : bool) : DeserializeStream :=
  if resp then setServiceRespDeserialize newDeserializeStream else newDeserializeStream.

(** Three messages, "hi", the empty one and "!", their frames, and the
    frames cut into chunks that split both a length field and a body. *)
Definition demo_messages : list Buffer :=
  [[Byte.x68; Byte.x69]; []; [Byte.x21]].

Definition demo_frames : list Buffer :=
  [[Byte.x02; Byte.x00; Byte.x00; Byte.x00; Byte.x68; Byte.x69];
   [Byte.x00; Byte.x00; Byte.x00; Byte.x00];
   [Byte.x01; Byte.x00; Byte.x00; Byte.x00; Byte.x21]].

Definition demo_chunks : list Buffer :=
  [[Byte.x02; Byte.x00]; [Byte.x00; Byte.x00; Byte.x68];
   [Byte.x69; Byte.x00; Byte.x00; Byte.x00; Byte.x00; Byte.x01; Byte.x00]; [];
   [Byte.x00; Byte.x00; Byte.x21]].

(** Two service responses: success with the message "hi", failure with
    the empty message. *)
Definition demo_responses : list (Byte.byte * Buffer) :=
  [(Byte.x01, [Byte.x68; Byte.x69]); (Byte.x00, [])].

Definition demo_response_frames : list Buffer :=
  [[Byte.x01; Byte.x02; Byte.x00; Byte.x00; Byte.x00; Byte.x68; Byte.x69];
   [Byte.x00; Byte.x00; Byte.x00; Byte.x00; Byte.x00]].

Definition demo_response_chunks : list Buffer :=
  [[Byte.x01]; [Byte.x02; Byte.x00; Byte.x00]; [Byte.x00; Byte.x68; Byte.x69; Byte.x00];
   [Byte.x00; Byte.x00; Byte.x00; Byte.x00]].

(** A manager on the cache {A: {B}, B: {A}} that has loaded nothing. *)
Definition w_mutual : World (list string) :=
  {| _verbose := true; _loadingPkgs := ∅; _packageCache := cache_mutual;
     closure := []; history := [] |}.

(** ** What a build has issued when a package is marked loaded *)

(** The [mkdir] calls of [createDirectory], in the order of its loop. *)
Fixpoint mkdirs (curPath paths : list string) : list FsOp :=
  match paths with
  | [] => []
  | localPath :: paths' =>
      let curPath := path_join curPath localPath in
      MkDir curPath :: mkdirs curPath paths'
  end.

Section PackageFiles.
Variable render : list (nat * string) -> string.

(** The fs calls of [initPackageWrite] for a package with the entry [e],
    when [Object.keys] lists its messages as [msgNames] and its services as
    [srvNames]. *)
Definition initPackageFsOpsIn (msgNames srvNames : list string) (e : PackageEntry)
    (packageName : string) (jsMsgDir : list string) : list FsOp :=
  let packageDir := jsMsgDir ++ [packageName] in
  let hasMessages := packageHasMessages e || packageHasActions e in
  let hasServices := packageHasServices e in
  mkdirs [""] packageDir
  ++ (if hasMessages then
        mkdirs [""] (packageDir ++ ["msg"])
        ++ [WriteFile ((packageDir ++ ["msg"]) ++ ["_index.js"])
              (render ([(0, "module.exports = {")%nat] ++ (indexLine <$> msgNames)
                       ++ [(0, "};")%nat]))]
      else [])
  ++ (if hasServices then
        mkdirs [""] (packageDir ++ ["srv"])
        ++ [WriteFile ((packageDir ++ ["srv"]) ++ ["_index.js"])
              (render ([(0, "module.exports = {")%nat] ++ (indexLine <$> srvNames)
                       ++ [(0, "};")%nat]))]
      else [])
  ++ [WriteFile (packageDir ++ ["_index.js"])
        (render ([(0, "module.exports = {")%nat]
                 ++ (if hasMessages then [(1, "msg: require('./msg/_index.js'),")%nat] else [])
                 ++ (if hasServices then [(1, "srv: require('./srv/_index.js')")%nat] else [])
                 ++ [(0, "};")%nat]))].

(** The same with the keys in the order of the map. *)
Definition initPackageFsOps (e : PackageEntry) (packageName : string)
    (jsMsgDir : list string) : list FsOp :=
  initPackageFsOpsIn (keys (messages e)) (keys (services e)) e packageName jsMsgDir.

(** The class files written for the messages [msgs] and for the services
    [srvs], one after the other. *)
Definition messageFiles (packageName : string) (jsMsgDir : list string)
    (msgs : list (string * MessageEntry MsgSpec)) : list FsOp :=
  (fun '(msgName, entry) =>
     WriteFile ((jsMsgDir ++ [packageName; "msg"]) ++ [msgName +:+ ".js"])
               (msg_classFile (spec entry)))
    <$> msgs.

Definition serviceFiles (packageName : string) (jsMsgDir : list string)
    (srvs : list (string * MessageEntry SrvSpec)) : list FsOp :=
  (fun '(srvName, entry) =>
     WriteFile ((jsMsgDir ++ [packageName; "srv"]) ++ [srvName +:+ ".js"])
               (srv_classFile (spec entry)))
    <$> srvs.

(** Every fs call of the write phase of a package, in the order of the
    calls, when [Object.keys] lists its messages as [msgs] and its services
    as [srvs]. *)
Definition packageFsOpsIn (msgs : list (string * MessageEntry MsgSpec))
    (srvs : list (string * MessageEntry SrvSpec)) (e : PackageEntry)
    (packageName : string) (outputDirectory : list string) : list FsOp :=
  initPackageFsOpsIn (msgs.*1) (srvs.*1) e packageName outputDirectory
  ++ messageFiles packageName outputDirectory msgs
  ++ serviceFiles packageName outputDirectory srvs.

(** The class files [writePackageMessages] and [writePackageServices] write. *)
Definition messageFsOps (e : PackageEntry) (packageName : string)
    (jsMsgDir : list string) : list FsOp :=
  (fun '(msgName, entry) =>
     WriteFile ((jsMsgDir ++ [packageName; "msg"]) ++ [msgName +:+ ".js"])
               (msg_classFile (spec entry)))
    <$> map_to_list (messages e).

Definition serviceFsOps (e : PackageEntry) (packageName : string)
    (jsMsgDir : list string) : list FsOp :=
  (fun '(srvName, entry) =>
     WriteFile ((jsMsgDir ++ [packageName; "srv"]) ++ [srvName +:+ ".js"])
               (srv_classFile (spec entry)))
    <$> map_to_list (services e).

(** Every fs call of the write phase of a package, with the keys in the
    order of the map. *)
Definition packageFsOps (e : PackageEntry) (packageName : string)
    (outputDirectory : list string) : list FsOp :=
  initPackageFsOps e packageName outputDirectory
  ++ messageFsOps e packageName outputDirectory
  ++ serviceFsOps e packageName outputDirectory.
End PackageFiles.

Section Guards.
Context {F : Type}.
(** The cache of the manager, which no call changes. *)
Variable cache : PackageMap.

(** [brings have E t]: called when the fs calls [have] have been issued,
    [t] resolves only after those of [E] have been issued as well. *)
Inductive brings : list FsOp -> list FsOp -> Task F -> Prop :=
  | brings_Return have E : E ⊆ have -> brings have E Return
  | brings_Throw have E e : brings have E (Throw e)
  | brings_Has have E n k : (forall b, brings have E (k b)) -> brings have E (LoadingHas n k)
  | brings_Set have E n s k : brings have E k -> brings have E (LoadingSet n s k)
  | brings_Log have E v m k : brings have E k -> brings have E (Log v m k)
  | brings_GetCache have E k : brings have E (k cache) -> brings have E (GetCache k)
  | brings_CallFilter have E f d k :
      (forall b, brings have E (k b)) -> brings have E (CallFilter f d k)
  | brings_Fs have E op k : (forall r, brings (op :: have) E (k r)) -> brings have E (Fs op k)
  | brings_AwaitAll have E ts Es k :
      Forall2 (brings have) Es ts -> brings (mjoin Es ++ have) E k ->
      brings have E (AwaitAll ts k).

(** The same of a promise: [have] are the fs calls issued so far. *)
Inductive bringsP : list FsOp -> list FsOp -> Pending F -> Prop :=
  | bringsP_Resolved have E : E ⊆ have -> bringsP have E Resolved
  | bringsP_Rejected have E e : bringsP have E (Rejected e)
  | bringsP_Fs have E k : (forall r, brings have E (k r)) -> bringsP have E (AwaitingFs k)
  | bringsP_All have E ps Es k :
      Forall2 (bringsP have) Es ps -> brings (mjoin Es ++ have) E k ->
      bringsP have E (AwaitingAll ps k)
  | bringsP_Orphaning have E ps e : bringsP have E (Orphaning ps e).

(** The package whose status is watched, and the fs calls that have to
    come before it is marked loaded. *)
Variable name : string.
Variable required : list FsOp.

(** [guards have t]: called when the fs calls [have] have been issued, [t]
    marks [name] loaded only after those of [required] have been issued. *)
Inductive guards : list FsOp -> Task F -> Prop :=
  | guards_Return have : guards have Return
  | guards_Throw have e : guards have (Throw e)
  | guards_Has have n k : (forall b, guards have (k b)) -> guards have (LoadingHas n k)
  | guards_Set have n s k :
      (n = name -> s = LOADED -> required ⊆ have) -> guards have k ->
      guards have (LoadingSet n s k)
  | guards_Log have v m k : guards have k -> guards have (Log v m k)
  | guards_GetCache have k : guards have (k cache) -> guards have (GetCache k)
  | guards_CallFilter have f d k :
      (forall b, guards have (k b)) -> guards have (CallFilter f d k)
  | guards_Fs have op k : (forall r, guards (op :: have) (k r)) -> guards have (Fs op k)
  | guards_AwaitAll have ts Es k :
      Forall2 (fun E t => brings have E t /\ guards have t) Es ts ->
      guards (mjoin Es ++ have) k ->
      guards have (AwaitAll ts k).

(** The same of a promise and of the functions parked behind it. *)
Inductive guardsP : list FsOp -> Pending F -> Prop :=
  | guardsP_Resolved have : guardsP have Resolved
  | guardsP_Rejected have e : guardsP have (Rejected e)
  | guardsP_Fs have k : (forall r, guards have (k r)) -> guardsP have (AwaitingFs k)
  | guardsP_All have ps Es k :
      Forall2 (fun E p => bringsP have E p /\ guardsP have p) Es ps ->
      guards (mjoin Es ++ have) k ->
      guardsP have (AwaitingAll ps k)
  | guardsP_Orphaning have ps e : Forall (guardsP have) ps -> guardsP have (Orphaning ps e).

(** The fs calls issued after the first [start] effects. *)
Definition issuedSince (start : nat) (w : World F) : list FsOp :=
  fsOps (drop start (history w)).

(** A package marked loaded has had its required fs calls issued, all of
    them after the first [start] effects. *)
Definition loadedAfter (start : nat) (w : World F) : Prop :=
  (start <= length (history w))%nat /\
  (_loadingPkgs w !! name = Some LOADED -> required ⊆ issuedSince start w).
End Guards.

(** ** A run in which every fs call succeeds *)

Section Drive.
Context {F : Type}.

Definition isResolved (p : Pending F) : bool :=
  match p with Resolved => true | _ => false end.

(** One turn of an event loop in which every fs call succeeds and the
    leftmost promise that can go on does.  A rejection is not passed on:
    [None] tells that the promise is settled or waits behind a member that
    has rejected. *)
Fixpoint drive (p : Pending F) (w : World F) : option (World F * Pending F) :=
  let first :=
    fix first (ps : list (Pending F)) (w : World F)
        : option (World F * list (Pending F)) :=
      match ps with
      | [] => None
      | p :: ps' =>
          match drive p w with
          | Some (w', p') => Some (w', p' :: ps')
          | None =>
              match first ps' w with
              | Some (w', ps'') => Some (w', p :: ps'')
              | None => None
              end
          end
      end in
  match p with
  | Resolved | Rejected _ => None
  | AwaitingFs k => Some (run (k None) w)
  | AwaitingAll ps k =>
      if forallb isResolved ps then Some (run k w)
      else match first ps w with
           | Some (w', ps') => Some (w', AwaitingAll ps' k)
           | None => None
           end
  | Orphaning ps e =>
      match first ps w with
      | Some (w', ps') => Some (w', Orphaning ps' e)
      | None => None
      end
  end.

(** The turn of the leftmost member that can go on. *)
Fixpoint driveFirst (ps : list (Pending F)) (w : World F)
    : option (World F * list (Pending F)) :=
  match ps with
  | [] => None
  | p :: ps' =>
      match drive p w with
      | Some (w', p') => Some (w', p' :: ps')
      | None =>
          match driveFirst ps' w with
          | Some (w', ps'') => Some (w', p :: ps'')
          | None => None
          end
      end
  end.

(** At most [turns] turns. *)
Fixpoint driveN (turns : nat) (c : World F * Pending F) : World F * Pending F :=
  match turns with
  | O => c
  | S turns' =>
      match drive c.2 c.1 with
      | Some c' => driveN turns' c'
      | None => c
      end
  end.
End Drive.

(** A manager on the cache {std_msgs: messages {string}} that has logged one
    line and loaded nothing. *)
Definition w_std : World (list string) :=
  {| _verbose := false; _loadingPkgs := ∅; _packageCache := cache_std;
     closure := []; history := [EffLog "ready"] |}.

Definition add_two_ints_spec : SrvSpec :=
  {| srv_packageName := "demo_srvs"; srv_messageName := "AddTwoInts";
     srv_dependencies := []; srv_classFile := "class AddTwoInts {}" |}.

Definition reset_spec : SrvSpec :=
  {| srv_packageName := "demo_srvs"; srv_messageName := "Reset";
     srv_dependencies := []; srv_classFile := "class Reset {}" |}.

(** A package with the message [string] and the services [AddTwoInts] and
    [Reset]. *)
Definition entry_srv : PackageEntry :=
  {| messages := {[ "string" := {| file := Some "String.msg"; spec := string_spec |} ]};
     services :=
       <["Reset" := {| file := Some "Reset.srv"; spec := reset_spec |}]>
         {[ "AddTwoInts" := {| file := Some "AddTwoInts.srv"; spec := add_two_ints_spec |} ]};
     actions := ∅; localDeps := [] |}.

(** cache = {demo_srvs: that package} *)
Definition cache_srv : PackageMap := {[ "demo_srvs" := entry_srv ]}.

(** A manager on that cache that has loaded nothing. *)
Definition w_srv : World (list string) :=
  {| _verbose := false; _loadingPkgs := ∅; _packageCache := cache_srv;
     closure := []; history := [] |}.

(** ** buildPackageTree *)

(** [buildPackageTree] from the point where [initTree] has filled the cache:
    every package of the cache is loaded without its dependencies, all
    calls in one [Promise.all].  An error is rethrown by the handler, after
    a line on [console.error] that the history does not record. *)
Definition buildPackageTree_afterInit {F : Type} (render : list (nat * string) -> string)
    (stack : nat) (outputDirectory : list string) (writeFiles : bool) : Task F :=
  GetCache (fun cache =>
    let packages := keys cache in
    AwaitAll ((fun pkgName =>
                 loadPackage render stack pkgName outputDirectory false writeFiles None)
                <$> packages)
             Return).

(** ** A run that completes *)

Section Settles.
Context {F : Type}.

(** [settles c w']: the run from [c] in which every fs call succeeds ends
    with the promise resolved, in the world [w']. *)
Definition settles (c : World F * Pending F) (w' : World F) : Prop :=
  exists turns, driveN turns c = (w', Resolved).

(** [w'] is [w] after the fs calls [ops], in that order, with the packages
    of [marked] loaded and the status of no other package changed. *)
Record after (ops : list FsOp) (marked : list string) (w w' : World F) : Prop := {
  after_verbose : _verbose w' = _verbose w;
  after_cache : _packageCache w' = _packageCache w;
  after_marked : forall d, d ∈ marked -> _loadingPkgs w' !! d = Some LOADED;
  after_others : forall d, d ∉ marked -> _loadingPkgs w' !! d = _loadingPkgs w !! d;
  after_fsOps : fsOps (history w') = fsOps (history w) ++ ops
}.

(** A promise that resolves when every fs call succeeds, whenever it is
    driven on a manager with this cache. *)
Definition finishes (cache : PackageMap) (p : Pending F) (ops : list FsOp)
    (marked : list string) : Prop :=
  forall w, _packageCache w = cache -> exists w', settles (w, p) w' /\ after ops marked w w'.

(** A call that resolves when every fs call succeeds. *)
Definition succeeds (cache : PackageMap) (t : Task F) (ops : list FsOp)
    (marked : list string) : Prop :=
  forall w, _packageCache w = cache ->
    exists w', settles (run t w) w' /\ after ops marked w w'.

(** A call that sets no load status before it suspends, and whose promise
    finishes: [ops] are the fs calls of both parts. *)
Definition launches (cache : PackageMap) (t : Task F) (ops : list FsOp)
    (marked : list string) : Prop :=
  forall w, _packageCache w = cache ->
    exists ops0 ops1, ops = ops0 ++ ops1 /\ after ops0 [] w (run t w).1 /\
                      finishes cache (run t w).2 ops1 marked.

(** The members of a [Promise.all] of [writeFile] calls: each has issued
    its call and waits for the callback. *)
Definition writing (p : Pending F) : Prop :=
  p = Resolved \/ exists k, p = AwaitingFs k /\ k None = Return.
End Settles.

Section Claims.
Context {F : Type}.
(** The packages of [new], all of the cache, had no load status in [w] and
    are loading in [w']; the status of no other package has changed. *)
Record claims (new : list string) (w w' : World F) : Prop := {
  claims_cache : _packageCache w' = _packageCache w;
  claims_known : forall x, x ∈ new -> is_Some (_packageCache w !! x);
  claims_free : forall x, x ∈ new -> _loadingPkgs w !! x = None;
  claims_new : forall x, x ∈ new -> _loadingPkgs w' !! x = Some LOADING;
  claims_others : forall x, x ∉ new -> _loadingPkgs w' !! x = _loadingPkgs w !! x
}.

(** [l] lists the packages of the cache that have no load status. *)
Definition unclaimedIn (cache : PackageMap) (w : World F) (l : list string) : Prop :=
  NoDup l /\ forall x, is_Some (cache !! x) -> _loadingPkgs w !! x = None -> x ∈ l.
End Claims.

(** ** A callback that rejects *)

Section Failure.
Context {F : Type}.

Definition isRejected (p : Pending F) : bool :=
  match p with Rejected _ => true | _ => false end.

(** The event loop with each step marked: [true] when the callback of an
    fs call has rejected its promise in it. *)
Inductive stepF : World F * Pending F -> bool -> World F * Pending F -> Prop :=
  | stepF_fs k (res : FsResult) w :
      stepF (w, AwaitingFs k) (isRejected (run (k res) w).2) (run (k res) w)
  | stepF_all_resolved ps k w :
      Forall (fun p => p = Resolved) ps ->
      stepF (w, AwaitingAll ps k) false (run k w)
  | stepF_all_rejected ps k w p e :
      p ∈ ps -> rejection p = Some e ->
      stepF (w, AwaitingAll ps k) false (w, Orphaning ps e)
  | stepF_all_member ps1 p ps2 k w w' p' b :
      stepF (w, p) b (w', p') ->
      stepF (w, AwaitingAll (ps1 ++ p :: ps2) k) b (w', AwaitingAll (ps1 ++ p' :: ps2) k)
  | stepF_orphan ps1 p ps2 e w w' p' b :
      stepF (w, p) b (w', p') ->
      stepF (w, Orphaning (ps1 ++ p :: ps2) e) b (w', Orphaning (ps1 ++ p' :: ps2) e).

Section FailFirst.
(** The [code] of the error. *)
Variable code : string.

(** The leftmost fs call in flight fails with [code]: the step, and whether
    its callback has rejected. *)
Fixpoint failFirst (p : Pending F) (w : World F)
    : option (bool * (World F * Pending F)) :=
  let first :=
    fix first (ps : list (Pending F)) (w : World F)
        : option (bool * (World F * list (Pending F))) :=
      match ps with
      | [] => None
      | p :: ps' =>
          match failFirst p w with
          | Some (b, (w', p')) => Some (b, (w', p' :: ps'))
          | None =>
              match first ps' w with
              | Some (b, (w', ps'')) => Some (b, (w', p :: ps''))
              | None => None
              end
          end
      end in
  match p with
  | Resolved | Rejected _ => None
  | AwaitingFs k =>
      Some (isRejected (run (k (Some code)) w).2, run (k (Some code)) w)
  | AwaitingAll ps k =>
      match first ps w with
      | Some (b, (w', ps')) => Some (b, (w', AwaitingAll ps' k))
      | None => None
      end
  | Orphaning ps e =>
      match first ps w with
      | Some (b, (w', ps')) => Some (b, (w', Orphaning ps' e))
      | None => None
      end
  end.

(** The same in the leftmost member that has an fs call in flight. *)
Fixpoint failFirstOf (ps : list (Pending F)) (w : World F)
    : option (bool * (World F * list (Pending F))) :=
  match ps with
  | [] => None
  | p :: ps' =>
      match failFirst p w with
      | Some (b, (w', p')) => Some (b, (w', p' :: ps'))
      | None =>
          match failFirstOf ps' w with
          | Some (b, (w', ps'')) => Some (b, (w', p :: ps''))
          | None => None
          end
      end
  end.

(** The state after the leftmost fs call in flight has failed. *)
Definition afterFailure (c : World F * Pending F) : World F * Pending F :=
  match failFirst c.2 c.1 with
  | Some (_, c') => c'
  | None => c
  end.
End FailFirst.

Section Watched.
Variable name : string.

(** [blocked name p]: a member of [p] has rejected, so that [p] will not
    resolve, and what still runs in [p] leaves the status of [name]
    alone. *)
Inductive blocked : Pending F -> Prop :=
  | blocked_Rejected e : blocked (Rejected e)
  | blocked_Orphaning ps e :
      Forall (fun q => keepsP false name q \/ blocked q) ps -> blocked (Orphaning ps e)
  | blocked_All ps k :
      Exists blocked ps -> Forall (fun q => keepsP false name q \/ blocked q) ps ->
      blocked (AwaitingAll ps k).

(** [staged name t]: [t] marks [name] loaded only as its last act, after
    every [Promise.all] it awaits, whose members leave the status of [name]
    alone. *)
Inductive staged : Task F -> Prop :=
  | staged_Return : staged Return
  | staged_Throw e : staged (Throw e)
  | staged_Has n k : (forall b, staged (k b)) -> staged (LoadingHas n k)
  | staged_Set n s k : n <> name -> staged k -> staged (LoadingSet n s k)
  | staged_Loaded k : (forall w, (run k w).2 = Resolved) -> staged (LoadingSet name LOADED k)
  | staged_Log v m k : staged k -> staged (Log v m k)
  | staged_GetCache k : (forall c, staged (k c)) -> staged (GetCache k)
  | staged_CallFilter f d k : (forall b, staged (k b)) -> staged (CallFilter f d k)
  | staged_AwaitAll ts k :
      Forall (keeps false name) ts -> staged k -> staged (AwaitAll ts k).

(** The promise of a staged function that waits for a [Promise.all]. *)
Inductive building : Pending F -> Prop :=
  | building_All ps k :
      Forall (fun q => keepsP false name q \/ blocked q) ps -> staged k ->
      building (AwaitingAll ps k).
End Watched.
End Failure.

(** * Theorems *)

Lemma includes_true l x : includes l x = true ↔ x ∈ l.
Proof. unfold includes. apply bool_decide_eq_true. Qed.

(** ** Plain objects *)




(** ** The builtin type table *)






(** ** getMessageSpec *)

(** On an object without an own property [hasOwnProperty], the call reaches
    the method of [Object.prototype]. *)
Lemma hasOwnProperty_plain {V} (obj : gmap string V) key :
  obj !! "hasOwnProperty" = None →
  hasOwnProperty obj key = Ok (bool_decide (is_Some (obj !! key))).
Proof.
  intros H. unfold hasOwnProperty. rewrite H.
  rewrite bool_decide_eq_false_2 by (intros [? ?]; discriminate). reflexivity.
Qed.

Lemma lookupSpec_spec (toLowerCase : string → string) {T}
    (pkgCache : gmap string (MessageEntry T)) messageName :
  pkgCache !! "hasOwnProperty" = None →
  lookupSpec toLowerCase pkgCache messageName =
    Ok (spec <$> (match pkgCache !! messageName with
                  | Some e => Some e
                  | None => pkgCache !! toLowerCase messageName
                  end)).
Proof.
  intros Hplain. unfold lookupSpec. rewrite !(hasOwnProperty_plain _ _ Hplain).
  cbn [mbind Res_bind res_bind]. unfold prop.
  destruct (pkgCache !! messageName) as [e|] eqn:H1.
  - rewrite bool_decide_eq_true_2 by eauto. reflexivity.
  - rewrite bool_decide_eq_false_2 by (intros [? ?]; discriminate).
    destruct (pkgCache !! toLowerCase messageName) as [e|] eqn:H2.
    + rewrite bool_decide_eq_true_2 by eauto. reflexivity.
    + rewrite bool_decide_eq_false_2 by (intros [? ?]; discriminate). reflexivity.
Qed.

Lemma selectPkgCache_guarded cache pkg type e :
  cache !! pkg = Some e →
  selectPkgCache cache pkg type =
    Ok (match type with ACTION_TYPE => None | _ => Some (kindCache e type) end).
Proof.
  intros He. unfold selectPkgCache, prop. rewrite He. destruct type; reflexivity.
Qed.

(** What [getMessageSpec] returns on a cache in which neither the cache nor
    the mapping it selects has an own property [hasOwnProperty]. *)
Lemma getMessageSpec_spec (splitMessageType : string → string * string)
    (toLowerCase : string → string) (cache : PackageMap) msgType type :
  cache !! "hasOwnProperty" = None →
  (∀ e, cache !! (splitMessageType msgType).1 = Some e →
        kindCache e type !! "hasOwnProperty" = None) →
  getMessageSpec splitMessageType toLowerCase (Some cache) msgType type =
    Ok (match cache !! (splitMessageType msgType).1 with
        | None => None
        | Some e =>
            spec <$> (match kindCache e type !! (splitMessageType msgType).2 with
                      | Some x => Some x
                      | None => kindCache e type !! toLowerCase (splitMessageType msgType).2
                      end)
        end).
Proof.
  intros Hcache Hkind. unfold getMessageSpec.
  destruct (splitMessageType msgType) as [pkg messageName]. simpl in *.
  rewrite (hasOwnProperty_plain _ _ Hcache). cbn [mbind Res_bind res_bind].
  destruct (cache !! pkg) as [e|] eqn:He.
  - rewrite bool_decide_eq_true_2 by eauto.
    rewrite (selectPkgCache_guarded _ _ _ _ He). cbn [mbind Res_bind res_bind].
    specialize (Hkind e eq_refl).
    destruct type; try (apply lookupSpec_spec; exact Hkind).
    simpl. rewrite !lookup_empty. reflexivity.
  - rewrite bool_decide_eq_false_2 by (intros [? ?]; discriminate). reflexivity.
Qed.




(** ** Scenarios of the dependency resolver *)

(** C4.  On the cache {A: {}, B: {A}, C: {A, B}}, [sortPackageList] turns
    [C, B, A] into [A, B, C], whatever stack depth beyond the three frames
    the closure of C needs is available. *)
Theorem sortPackageList_chain (stack : nat) :
  sortPackageList (3 + stack) ["C"; "B"; "A"] cache_chain = Ok ["A"; "B"; "C"].
Proof. vm_compute. reflexivity. Qed.

(** C3.  On the cache {A: {B}, B: {A}}, resolving the dependency set of A
    and of B raises the cycle error of the closure computation; and whenever
    the comparator of [sortPackageList] obtains dependency lists in which A
    depends on B and B depends on A, it raises the circular-dependency error
    of the sort, which is a different error, and returns no order. *)
Theorem mutual_dependency_is_fatal :
  (∀ stack, getFullDependencySet (2 + stack) "A" cache_mutual = Raise CycleError) ∧
  (∀ stack, getFullDependencySet (2 + stack) "B" cache_mutual = Raise CycleError) ∧
  (∀ stack cache pkgA pkgB memo aDeps memo1 bDeps memo2,
     getDeps stack cache pkgA memo = Ok (aDeps, memo1) →
     getDeps stack cache pkgB memo1 = Ok (bDeps, memo2) →
     pkgB ∈ aDeps → pkgA ∈ bDeps →
     sorter stack cache pkgA pkgB memo = Raise (SortCycleError pkgA pkgB) ∧
     SortCycleError pkgA pkgB ≠ CycleError).
Proof.
  split; [intros; vm_compute; reflexivity|].
  split; [intros; vm_compute; reflexivity|].
  intros stack cache pkgA pkgB memo aDeps memo1 bDeps memo2 Ha Hb HB HA.
  split; [|discriminate].
  unfold sorter. rewrite Ha. simpl. rewrite Hb. simpl.
  destruct aDeps as [aDeps|?]; [|destruct HB]. destruct bDeps as [bDeps|?]; [|destruct HA].
  change (pkgB ∈ aDeps) in HB. change (pkgA ∈ bDeps) in HA.
  apply includes_true in HB, HA. simpl. rewrite HB, HA. reflexivity.
Qed.

Lemma mutual_dependency_is_fatal_witness :
  getFullDependencySet 2 "A" cache_mutual = Raise CycleError ∧
  sorter 2 cache_mutual "A" "B" memo_mutual = Raise (SortCycleError "A" "B").
Proof.
  destruct mutual_dependency_is_fatal as (HA & _ & Hcmp).
  split; [exact (HA O)|].
  refine (proj1 (Hcmp 2%nat cache_mutual "A" "B" memo_mutual (Own ["B"]) memo_mutual
                      (Own ["A"]) memo_mutual _ _ _ _)).
  - vm_compute; reflexivity.
  - vm_compute; reflexivity.
  - change ("B" ∈ ["B"]). apply (bool_decide_unpack _); vm_compute; reflexivity.
  - change ("A" ∈ ["A"]). apply (bool_decide_unpack _); vm_compute; reflexivity.
Defined.

(** ** Cycle detection in the closure computation *)

Lemma forEachM_raise {A B} (g : B → A → Res B) xs acc e :
  forEachM g xs acc = Raise e → ∃ x acc', x ∈ xs ∧ g acc' x = Raise e.
Proof.
  revert acc. induction xs as [|x xs IH]; intros acc H; simpl in H; [discriminate|].
  destruct (g acc x) as [acc1|e1] eqn:Hg; simpl in H.
  - destruct (IH _ H) as (y & acc' & Hy & Hr). exists y, acc'. split; [right; exact Hy|exact Hr].
  - inversion H; subst. exists x, acc. split; [left|exact Hg].
Qed.

Lemma forEachM_ok {A B} (g : B → A → Res B) xs acc r :
  forEachM g xs acc = Ok r → ∀ x, x ∈ xs → ∃ acc' r', g acc' x = Ok r'.
Proof.
  revert acc. induction xs as [|x xs IH]; intros acc H y Hy; [inversion Hy|].
  simpl in H. destruct (g acc x) as [acc1|e1] eqn:Hg; simpl in H; [|discriminate].
  apply elem_of_cons in Hy as [->|Hy]; [eauto|]. eapply IH; eassumption.
Qed.

(** The closure computation raises nothing but its cycle error, the
    [TypeError] of a package without entry, and the [RangeError] of an
    exhausted stack. *)
Lemma getDependencies_raises stack originalPackage cache : ∀ msgPackage acc e,
  getDependencies stack originalPackage cache msgPackage acc = Raise e →
  e = CycleError ∨ e = TypeError ∨ e = RangeError.
Proof.
  induction stack as [|stack IH]; intros m acc e H; simpl in H.
  - inversion H. auto.
  - destruct (cache !! m) as [entry|]; [|inversion H; auto].
    apply forEachM_raise in H as (d & acc' & _ & H).
    case_bool_decide; [inversion H; auto|]. eapply IH. exact H.
Qed.

Lemma forEachM_cons {A B} (g : B → A → Res B) x xs acc :
  forEachM g (x :: xs) acc
  = match g acc x with Ok acc' => forEachM g xs acc' | Raise e => Raise e end.
Proof. reflexivity. Qed.

(** A cycle error means that some package reached from [msgPackage] has an
    edge to the original package. *)
Lemma getDependencies_cycle_sound stack originalPackage cache : ∀ msgPackage acc,
  getDependencies stack originalPackage cache msgPackage acc = Raise CycleError →
  ∃ x, rtc (edge cache) msgPackage x ∧ edge cache x originalPackage.
Proof.
  induction stack as [|stack IH]; intros m acc H; simpl in H; [discriminate|].
  destruct (cache !! m) as [entry|] eqn:Hm; [|discriminate].
  apply forEachM_raise in H as (d & acc' & Hd & H).
  case_bool_decide as Heq.
  - subst d. exists m. split; [reflexivity|]. exists entry. auto.
  - destruct (IH _ _ H) as (x & Hx & Hedge). exists x. split; [|exact Hedge].
    eapply rtc_l; [|exact Hx]. exists entry. auto.
Qed.

(** A traversal that returns has met no edge to the original package. *)
Lemma getDependencies_ok_no_cycle stack originalPackage cache : ∀ msgPackage acc r,
  getDependencies stack originalPackage cache msgPackage acc = Ok r →
  ∀ x, rtc (edge cache) msgPackage x → ¬ edge cache x originalPackage.
Proof.
  induction stack as [|stack IH]; intros m acc r H x Hx Hedge; simpl in H; [discriminate|].
  destruct (cache !! m) as [entry|] eqn:Hm; [|discriminate].
  pose proof (forEachM_ok _ _ _ _ H) as Hall.
  destruct (rtc_inv _ _ Hx) as [->|(d & [entry' [Hm' Hd]] & Hdx)].
  - destruct Hedge as (entry' & Hm' & Hin). assert (entry' = entry) as -> by congruence.
    destruct (Hall _ Hin) as (acc' & r' & Hg).
    rewrite bool_decide_eq_true_2 in Hg by reflexivity. discriminate.
  - assert (entry' = entry) as -> by congruence.
    destruct (Hall _ Hd) as (acc' & r' & Hg).
    case_bool_decide; [discriminate|]. eapply IH; eassumption.
Qed.

(** A [TypeError] means that some package reached from [msgPackage] has no
    entry. *)
Lemma getDependencies_TypeError stack originalPackage cache : ∀ msgPackage acc,
  getDependencies stack originalPackage cache msgPackage acc = Raise TypeError →
  ∃ x, rtc (edge cache) msgPackage x ∧ cache !! x = None.
Proof.
  induction stack as [|stack IH]; intros m acc H; simpl in H; [discriminate|].
  destruct (cache !! m) as [entry|] eqn:Hm; [|exists m; split; [reflexivity|exact Hm]].
  apply forEachM_raise in H as (d & acc' & Hd & H).
  case_bool_decide as Heq; [discriminate|].
  destruct (IH _ _ H) as (x & Hx & Hnone). exists x. split; [|exact Hnone].
  eapply rtc_l; [|exact Hx]. exists entry. auto.
Qed.

Lemma path_length_le_size (cache : PackageMap) (path : list string) :
  NoDup path → (∀ x, x ∈ path → is_Some (cache !! x)) → (length path ≤ size cache)%nat.
Proof.
  intros Hnd Hin. rewrite <- (length_map_to_list cache), <- (length_fmap fst).
  apply submseteq_length, NoDup_submseteq; [exact Hnd|].
  intros x Hx. destruct (Hin x Hx) as [e He].
  apply list_elem_of_fmap. exists (x, e). split; [reflexivity|].
  apply elem_of_map_to_list. exact He.
Qed.

(** With no cycle clear of the original package, the traversal below a path
    of distinct packages does not exhaust a stack deeper than the packages
    left. *)
Lemma getDependencies_no_RangeError originalPackage cache :
  noCycleAvoiding cache originalPackage →
  ∀ stack path msgPackage acc,
    msgPackage ≠ originalPackage →
    NoDup path → (∀ x, x ∈ path → is_Some (cache !! x)) →
    (∀ x, x ∈ path → tc (edgeAvoiding cache originalPackage) x msgPackage) →
    (size cache < stack + length path)%nat →
    getDependencies stack originalPackage cache msgPackage acc ≠ Raise RangeError.
Proof.
  intros Htame. induction stack as [|stack IH]; intros path m acc Hm Hnd Hkeys Hreach Hsize.
  - pose proof (path_length_le_size cache path Hnd Hkeys). simpl in Hsize. lia.
  - simpl. destruct (cache !! m) as [entry|] eqn:Hentry; [|discriminate].
    intros H. apply forEachM_raise in H as (d & acc' & Hd & H).
    case_bool_decide as Heq; [discriminate|].
    assert (Hmd : edgeAvoiding cache originalPackage m d).
    { split; [exists entry; auto|auto]. }
    apply (IH (m :: path) d (set_add d acc')); try assumption.
    + constructor; [|exact Hnd]. intros Hin. apply (Htame m), Hreach, Hin.
    + intros x [->|Hx]%elem_of_cons; [eauto|auto].
    + intros x [->|Hx]%elem_of_cons; [apply tc_once; exact Hmd|].
      eapply tc_r; [apply Hreach; exact Hx|exact Hmd].
    + simpl. lia.
Qed.

Lemma getFullDependencySet_no_RangeError originalPackage cache stack :
  noCycleAvoiding cache originalPackage → (size cache + 2 ≤ stack)%nat →
  getFullDependencySet stack originalPackage cache ≠ Raise RangeError.
Proof.
  intros Htame Hsize. unfold getFullDependencySet.
  destruct stack as [|stack]; [lia|]. simpl.
  destruct (cache !! originalPackage) as [entry|]; [|discriminate].
  intros H. apply forEachM_raise in H as (d & acc' & Hd & H).
  case_bool_decide as Heq; [discriminate|].
  apply (getDependencies_no_RangeError originalPackage cache Htame stack [] d (set_add d acc'));
    try assumption.
  - constructor.
  - intros x Hx. inversion Hx.
  - intros x Hx. inversion Hx.
  - simpl. lia.
Qed.

Lemma cycleThrough_of_edge cache a x :
  rtc (edge cache) a x → edge cache x a → cycleThrough cache a.
Proof.
  intros Hax Hxa. destruct (rtc_inv _ _ Hax) as [<-|(d & Had & Hdx)].
  - exists a. split; [exact Hxa|reflexivity].
  - exists d. split; [exact Had|]. eapply rtc_r; eassumption.
Qed.

Lemma cycleThrough_edge cache a :
  cycleThrough cache a → ∃ x, rtc (edge cache) a x ∧ edge cache x a.
Proof.
  intros (d & Had & Hda). destruct (rtc_inv_r _ _ Hda) as [<-|(x & Hdx & Hxa)].
  - exists d. split; [reflexivity|exact Had].
  - exists x. split; [|exact Hxa]. eapply rtc_l; eassumption.
Qed.

Lemma edge_lookup (cache : PackageMap) a b entry :
  cache !! a = Some entry → b ∈ localDeps entry → edge cache a b.
Proof. intros Ha Hb. exists entry. auto. Qed.

(** A path from a direct dependency back to the package does not always
    end in the cycle error.  On {A: {M, D}, D: {A}}, where M has no entry,
    the path D -> A leads back to A, and resolving A fails on the lookup of
    M.  On {A: {B, D}, B: {C}, C: {B}, D: {A}} the path D -> A leads back to
    A, and resolving A enters the cycle B -> C -> B first and exhausts every
    stack. *)
Lemma cycle_error_preempted :
  (cycleThrough cache_missing "A" ∧
   ∀ stack, getFullDependencySet (2 + stack) "A" cache_missing = Raise TypeError) ∧
  (cycleThrough cache_trap "A" ∧
   ∀ stack, getFullDependencySet stack "A" cache_trap = Raise RangeError).
Proof.
  split; split.
  - exists "D". split.
    + apply (edge_lookup _ _ _ (pkg ["M"; "D"])); [vm_compute; reflexivity|].
      apply list_elem_of_further, list_elem_of_here.
    + apply rtc_once. apply (edge_lookup _ _ _ (pkg ["A"])); [vm_compute; reflexivity|].
      apply list_elem_of_here.
  - intros stack. vm_compute. reflexivity.
  - exists "D". split.
    + apply (edge_lookup _ _ _ (pkg ["B"; "D"])); [vm_compute; reflexivity|].
      apply list_elem_of_further, list_elem_of_here.
    + apply rtc_once. apply (edge_lookup _ _ _ (pkg ["A"])); [vm_compute; reflexivity|].
      apply list_elem_of_here.
  - assert (Hloop : ∀ stack acc,
              getDependencies stack "A" cache_trap "B" acc = Raise RangeError ∧
              getDependencies stack "A" cache_trap "C" acc = Raise RangeError).
    { induction stack as [|stack IH]; intros acc; [split; reflexivity|].
      split.
      - change (getDependencies (S stack) "A" cache_trap "B" acc)
          with (acc' ← getDependencies stack "A" cache_trap "C" (set_add "C" acc); Ok acc').
        rewrite (proj2 (IH _)). reflexivity.
      - change (getDependencies (S stack) "A" cache_trap "C" acc)
          with (acc' ← getDependencies stack "A" cache_trap "B" (set_add "B" acc); Ok acc').
        rewrite (proj1 (IH _)). reflexivity. }
    intros [|stack]; [reflexivity|].
    change (getFullDependencySet (S stack) "A" cache_trap)
      with (acc' ← getDependencies stack "A" cache_trap "B" (set_add "B" []);
            forEachM (fun acc dep =>
                        if bool_decide (dep = "A") then Raise CycleError
                        else getDependencies stack "A" cache_trap dep (set_add dep acc))
                     ["D"] acc').
    rewrite (proj1 (Hloop _ _)). reflexivity.
Qed.

(** C2 (amended).  If [getFullDependencySet] raises the cycle error, some
    path from a direct dependency of the package leads back to it; so
    without such a path no cycle error is raised.  With such a path the call
    never returns a dependency set.  When every package reached has an entry
    and no dependency cycle stays clear of the package, a stack deeper than
    the cache is large is enough for the call to end, and it then raises the
    cycle error if and only if such a path exists, and returns otherwise. *)
Theorem getFullDependencySet_cycle_error (cache : PackageMap) (originalPackage : string) :
  (∀ stack, getFullDependencySet stack originalPackage cache = Raise CycleError →
     cycleThrough cache originalPackage) ∧
  (¬ cycleThrough cache originalPackage →
     ∀ stack, getFullDependencySet stack originalPackage cache ≠ Raise CycleError) ∧
  (cycleThrough cache originalPackage →
     ∀ stack deps, getFullDependencySet stack originalPackage cache ≠ Ok deps) ∧
  (closed cache originalPackage → noCycleAvoiding cache originalPackage →
     ∀ stack, (size cache + 2 ≤ stack)%nat →
       (getFullDependencySet stack originalPackage cache = Raise CycleError
          ↔ cycleThrough cache originalPackage) ∧
       (¬ cycleThrough cache originalPackage →
          ∃ deps, getFullDependencySet stack originalPackage cache = Ok deps)).
Proof.
  assert (Hsound : ∀ stack, getFullDependencySet stack originalPackage cache = Raise CycleError →
                     cycleThrough cache originalPackage).
  { intros stack H. apply getDependencies_cycle_sound in H as (x & Hx & Hedge).
    eapply cycleThrough_of_edge; eassumption. }
  assert (Hnever : cycleThrough cache originalPackage →
                   ∀ stack deps, getFullDependencySet stack originalPackage cache ≠ Ok deps).
  { intros Hcyc stack deps H. apply cycleThrough_edge in Hcyc as (x & Hx & Hedge).
    eapply getDependencies_ok_no_cycle; eassumption. }
  split; [exact Hsound|]. split; [intros Hno stack H; exact (Hno (Hsound _ H))|].
  split; [exact Hnever|].
  intros Hclosed Htame stack Hsize.
  pose proof (getFullDependencySet_no_RangeError _ _ _ Htame Hsize) as Hrange.
  destruct (getFullDependencySet stack originalPackage cache) as [deps|e] eqn:Hres.
  - split; [split; [discriminate|]|eauto].
    intros Hcyc. exfalso. eapply Hnever; eassumption.
  - destruct (getDependencies_raises _ _ _ _ _ _ Hres) as [-> | [-> | ->]].
    + split; [split; [intros _; eapply Hsound; exact Hres|reflexivity]|].
      intros Hno. exfalso. apply Hno. eapply Hsound. exact Hres.
    + exfalso. apply getDependencies_TypeError in Hres as (x & Hx & Hnone).
      destruct (Hclosed x Hx) as [entry Hentry]. congruence.
    + exfalso. apply Hrange. reflexivity.
Qed.

Lemma edge_cache_mutual a b :
  edge cache_mutual a b → (a = "A" ∧ b = "B") ∨ (a = "B" ∧ b = "A").
Proof.
  intros (entry & He & Hin). unfold cache_mutual in He.
  destruct (decide (a = "B")) as [->|HB].
  - rewrite lookup_insert_eq in He. inversion He; subst. simpl in Hin.
    apply list_elem_of_singleton in Hin. auto.
  - rewrite lookup_insert_ne in He by congruence.
    destruct (decide (a = "A")) as [->|HA].
    + rewrite lookup_insert_eq in He. inversion He; subst. simpl in Hin.
      apply list_elem_of_singleton in Hin. auto.
    + rewrite lookup_insert_ne in He by congruence. rewrite lookup_empty in He. discriminate.
Qed.

Lemma cache_mutual_closed : closed cache_mutual "A".
Proof.
  intros x Hx.
  assert (H : x = "A" ∨ x = "B").
  { revert x Hx. apply rtc_ind_r; [auto|]. intros y z _ Hyz _.
    apply edge_cache_mutual in Hyz as [[_ ->]|[_ ->]]; auto. }
  destruct H as [->| ->]; vm_compute; eauto.
Qed.

Lemma cache_mutual_noCycleAvoiding : noCycleAvoiding cache_mutual "A".
Proof.
  intros x Hx.
  inversion Hx as [? y [Hedge [Ha Hb]]|? y ? [Hedge [Ha Hb]] _]; subst;
    apply edge_cache_mutual in Hedge as [[? ?]|[? ?]]; congruence.
Qed.

Lemma getFullDependencySet_cycle_error_witness :
  cycleThrough cache_mutual "A" ∧
  getFullDependencySet 4 "A" cache_mutual = Raise CycleError.
Proof.
  destruct (getFullDependencySet_cycle_error cache_mutual "A") as (Hsound & _ & _ & Hiff).
  assert (Hcyc : cycleThrough cache_mutual "A").
  { apply (Hsound 2%nat). vm_compute. reflexivity. }
  split; [exact Hcyc|].
  refine (proj2 (proj1 (Hiff cache_mutual_closed cache_mutual_noCycleAvoiding 4%nat _)) Hcyc).
  vm_compute. lia.
Defined.

(** ** The engine's sort on a list that nests its dependents *)

(** Membership in lists built with [++] and [::]. *)
Ltac elem_solver :=
  repeat (rewrite ?elem_of_app, ?elem_of_cons, ?list_elem_of_singleton in * );
  intuition (subst; auto).

Section SortFacts.
Context {A M : Type}.
Variable dep : A → A → Prop.
Variable comparefn : A → A → M → Res (Z * M).
Variable order : A → A → Z.
Variable memo_ok : M → Prop.
Variable whole : list A.

Hypothesis dep_trans : ∀ a b c, dep a b → dep b c → dep a c.
Hypothesis dep_irrefl : ∀ a, ¬ dep a a.
(* comparing a new element with an earlier one is negative exactly when the
   earlier one depends on it *)
Hypothesis order_sign : ∀ a b, a ∈ whole → b ∈ whole → (order a b < 0 ↔ dep b a).
Hypothesis comparefn_order : ∀ a b st, a ∈ whole → b ∈ whole → memo_ok st →
  ∃ st', comparefn a b st = Ok (order a b, st') ∧ memo_ok st'.
Hypothesis whole_nested : nested dep whole.
Hypothesis whole_chained : chained dep whole.

Lemma dep_dec a b : a ∈ whole → b ∈ whole → dep b a ∨ ¬ dep b a.
Proof.
  intros Ha Hb. destruct (Z.ltb_spec (order a b) 0) as [Hlt|Hge].
  - left. apply order_sign; assumption.
  - right. intros Hd. apply order_sign in Hd; [lia|assumption|assumption].
Qed.

Lemma buildOrder_lookup (l : list A) i j a b :
  buildOrder dep l → l !! i = Some a → l !! j = Some b → (i < j)%nat → ¬ dep a b.
Proof.
  intros Hl. revert i j. induction Hl as [|x l Hl IH Hx]; intros i j Hi Hj Hlt; [done|].
  destruct j as [|j]; [lia|]. simpl in Hj. destruct i as [|i]; simpl in Hi.
  - inversion Hi; subst. rewrite Forall_forall in Hx. apply Hx.
    eapply list_elem_of_lookup_2. exact Hj.
  - eapply IH; [exact Hi|exact Hj|lia].
Qed.

(** A list in build order whose dependents of [x] are closed towards the end
    splits into those that do not depend on [x] and those that do. *)
Lemma split_dependents (P : A → Prop) (l : list A) :
  (∀ e, e ∈ l → P e ∨ ¬ P e) →
  (∀ l1 t l2, l = l1 ++ t :: l2 → P t → Forall P l2) →
  ∃ l1 l2, l = l1 ++ l2 ∧ Forall (fun e => ¬ P e) l1 ∧ Forall P l2.
Proof.
  induction l as [|t l IH]; intros Hdec Hup.
  - exists [], []. repeat split; constructor.
  - destruct (Hdec t) as [Ht|Ht]; [left| |].
    + exists [], (t :: l). split; [reflexivity|]. split; [constructor|].
      constructor; [exact Ht|]. apply (Hup [] t l); [reflexivity|exact Ht].
    + destruct IH as (l1 & l2 & -> & H1 & H2).
      * intros e He. apply Hdec. right. exact He.
      * intros l1 t' l2 -> Ht'. apply (Hup (t :: l1) t' l2); [reflexivity|exact Ht'].
      * exists (t :: l1), l2. split; [reflexivity|]. split; [constructor; assumption|exact H2].
Qed.

Lemma placing_nil : placing dep whole [] [].
Proof.
  split; [reflexivity|]. split; [constructor|].
  intros x rest _. exists [], []. repeat split; constructor.
Qed.

(** Placing the next element in front of the elements that depend on it
    keeps the invariant. *)
Lemma placing_step done placed x rest front back :
  whole = done ++ x :: rest → placing dep whole done placed →
  splitFor dep x placed front back →
  placing dep whole (done ++ [x]) (front ++ x :: back).
Proof.
  intros Hwhole (Hperm & Hsorted & _) (-> & Hfront & Hback).
  assert (Hx : x ∈ whole) by (rewrite Hwhole; elem_solver).
  assert (Hdone : ∀ e, e ∈ front ++ back → e ∈ done) by (intros e He; rewrite <- Hperm; exact He).
  assert (Hin : ∀ e, e ∈ done → e ∈ whole) by (intros e He; rewrite Hwhole; elem_solver).
  apply StronglySorted_app in Hsorted as (Hcross & Hsf & Hsb).
  split; [|split].
  - rewrite <- Hperm, <- Permutation_middle. apply Permutation_cons_append.
  - apply StronglySorted_app. split; [|split; [exact Hsf|]].
    + intros a b Ha [->|Hb]%elem_of_cons.
      * rewrite Forall_forall in Hfront. apply Hfront. exact Ha.
      * apply Hcross; assumption.
    + apply StronglySorted_cons. split; [|exact Hsb].
      apply Forall_forall. intros t Ht Hxt. rewrite Forall_forall in Hback.
      apply (dep_irrefl x). eapply dep_trans; [exact Hxt|apply Hback; exact Ht].
  - intros x' rest' Hwhole'. rewrite <- app_assoc in Hwhole'. simpl in Hwhole'.
    assert (Hx' : x' ∈ whole) by (rewrite Hwhole'; elem_solver).
    assert (Hnest : ∀ e, e ∈ front ++ back → dep e x' → dep e x).
    { intros e He. apply (whole_nested done x x' rest' Hwhole'). apply Hdone. exact He. }
    assert (Hfront' : Forall (fun e => ¬ dep e x') front).
    { apply Forall_forall. intros e He Hd. rewrite Forall_forall in Hfront.
      apply (Hfront e He). apply Hnest; [elem_solver|exact Hd]. }
    destruct (dep_dec x' x Hx' Hx) as [Hxx'|Hxx'].
    + exists front, (x :: back). split; [reflexivity|]. split; [exact Hfront'|].
      constructor; [exact Hxx'|]. apply Forall_forall. intros t Ht.
      rewrite Forall_forall in Hback. eapply dep_trans; [apply Hback; exact Ht|exact Hxx'].
    + destruct (split_dependents (fun t => dep t x') back) as (b1 & b2 & -> & Hb1 & Hb2).
      * intros e He. apply dep_dec; [exact Hx'|]. apply Hin, Hdone. elem_solver.
      * intros l1 t l2 -> Ht. apply Forall_forall. intros t' Ht'.
        apply StronglySorted_app in Hsb as (_ & _ & Hsb).
        apply StronglySorted_cons in Hsb as (Htl & _). rewrite Forall_forall in Htl.
        rewrite Forall_forall in Hback.
        destruct (whole_chained done x rest Hwhole t t') as [->|[Hd|Hd]].
        -- apply Hdone. elem_solver.
        -- apply Hdone. elem_solver.
        -- apply Hback. elem_solver.
        -- apply Hback. elem_solver.
        -- exact Ht.
        -- exfalso. exact (Htl t' Ht' Hd).
        -- eapply dep_trans; eassumption.
      * exists (front ++ x :: b1), b2. split; [rewrite <- app_assoc; reflexivity|].
        split; [|exact Hb2]. apply Forall_app. split; [exact Hfront'|].
        constructor; assumption.
Qed.
Lemma findInsertionPoint_S steps pivot (sorted : list A) left right st :
  findInsertionPoint comparefn (S steps) pivot sorted left right st
  = if (left <? right)%nat then
      match sorted !! (left + (right - left) / 2)%nat with
      | None => Ok (left, st)
      | Some x =>
          '(order, st1) ← comparefn pivot x st;
          if order <? 0
          then findInsertionPoint comparefn steps pivot sorted left
                                  (left + (right - left) / 2)%nat st1
          else findInsertionPoint comparefn steps pivot sorted
                                  (left + (right - left) / 2 + 1)%nat right st1
      end
    else Ok (left, st).
Proof. reflexivity. Qed.

(** The binary search finds the boundary between the elements that do not
    depend on the pivot and those that do. *)
Lemma findInsertionPoint_split pivot sorted front back :
  splitFor dep pivot sorted front back → pivot ∈ whole → (∀ e, e ∈ sorted → e ∈ whole) →
  ∀ steps left right st,
    memo_ok st → (left ≤ length front)%nat → (length front ≤ right)%nat →
    (right ≤ length sorted)%nat → (right - left ≤ steps)%nat →
    ∃ st', findInsertionPoint comparefn steps pivot sorted left right st
             = Ok (length front, st') ∧ memo_ok st'.
Proof.
  intros (-> & Hfront & Hback) Hpivot Hin.
  induction steps as [|steps IH]; intros left right st Hst Hl Hr Hlen Hsteps.
  - exists st. simpl. split; [|exact Hst]. do 2 f_equal. lia.
  - rewrite findInsertionPoint_S. destruct (Nat.ltb_spec left right) as [Hlt|Hge].
    2: { exists st. split; [|exact Hst]. do 2 f_equal. lia. }
    set (mid := (left + (right - left) / 2)%nat).
    assert (Hmid : (left ≤ mid)%nat ∧ (mid < right)%nat).
    { unfold mid. pose proof (Nat.Div0.div_lt_upper_bound (right - left) 2 (right - left)).
      split; [lia|]. assert ((right - left) / 2 < right - left)%nat; [|lia].
      apply Nat.div_lt; lia. }
    destruct (lookup_lt_is_Some_2 (front ++ back) mid) as [e He]; [lia|].
    rewrite He.
    destruct (comparefn_order pivot e st Hpivot) as (st1 & -> & Hst1);
      [apply Hin; eapply list_elem_of_lookup_2; exact He|exact Hst|]. simpl.
    destruct (Z.ltb_spec (order pivot e) 0) as [Hneg|Hpos].
    + (* e depends on the pivot: it is in [back] *)
      assert (Hdep : dep e pivot).
      { apply order_sign; [exact Hpivot| |exact Hneg].
        apply Hin; eapply list_elem_of_lookup_2; exact He. }
      assert (length front ≤ mid)%nat.
      { destruct (Nat.le_gt_cases (length front) mid) as [?|Hlt']; [assumption|].
        rewrite lookup_app_l in He by exact Hlt'. rewrite Forall_forall in Hfront.
        exfalso. eapply Hfront; [eapply list_elem_of_lookup_2; exact He|exact Hdep]. }
      apply IH; try assumption; lia.
    + assert (Hdep : ¬ dep e pivot).
      { intros Hd. apply order_sign in Hd; [lia|exact Hpivot|].
        apply Hin; eapply list_elem_of_lookup_2; exact He. }
      assert (mid < length front)%nat.
      { destruct (Nat.le_gt_cases (length front) mid) as [Hle|?]; [|assumption].
        rewrite lookup_app_r in He by exact Hle. rewrite Forall_forall in Hback.
        exfalso. apply Hdep, Hback. eapply list_elem_of_lookup_2; exact He. }
      apply IH; try assumption; lia.
Qed.

Lemma binaryInsertionSort_placing : ∀ pending done placed st,
  whole = done ++ pending → placing dep whole done placed → memo_ok st →
  ∃ placed' st', binaryInsertionSort comparefn placed pending st = Ok (placed', st')
                 ∧ placing dep whole whole placed' ∧ memo_ok st'.
Proof.
  induction pending as [|pivot pending IH]; intros done placed st Hwhole Hpl Hst; simpl.
  - rewrite app_nil_r in Hwhole. subst done. eauto.
  - destruct Hpl as (Hperm & Hsorted & Hsplit).
    destruct (Hsplit pivot pending Hwhole) as (front & back & Hfb).
    assert (Hin : ∀ e, e ∈ placed → e ∈ whole).
    { intros e He. rewrite Hperm in He. rewrite Hwhole. elem_solver. }
    assert (Hpivot : pivot ∈ whole) by (rewrite Hwhole; elem_solver).
    destruct (findInsertionPoint_split pivot placed front back Hfb Hpivot Hin
                (length placed) O (length placed) st Hst) as (st1 & -> & Hst1);
      try lia.
    { destruct Hfb as (-> & _). rewrite length_app. lia. }
    simpl.
    assert (Htake : take (length front) placed ++ pivot :: drop (length front) placed
                    = front ++ pivot :: back).
    { destruct Hfb as (-> & _). rewrite take_app_length, drop_app_length. reflexivity. }
    rewrite Htake.
    apply (IH (done ++ [pivot])); [rewrite <- app_assoc; exact Hwhole| |exact Hst1].
    eapply placing_step; [exact Hwhole|split; [exact Hperm|split; assumption]|exact Hfb].
Qed.

Lemma last_in_back (front back l0 : list A) p :
  front ++ back = l0 ++ [p] → back ≠ [] → p ∈ back.
Proof.
  intros Heq Hne. destruct back as [|b back _] using rev_ind; [done|].
  rewrite app_assoc in Heq. apply app_inj_tail in Heq as [_ ->]. elem_solver.
Qed.

(** The run counted by CountAndMakeRun is placed, element by element, as
    the insertion would place it. *)
Lemma extendRun_placing : ∀ rest (isDescending : bool) done0 prev st,
  whole = (done0 ++ [prev]) ++ rest →
  placing dep whole (done0 ++ [prev])
          (if isDescending then reverse (done0 ++ [prev]) else done0 ++ [prev]) →
  memo_ok st →
  ∃ n st', extendRun comparefn isDescending prev rest st = Ok (n, st') ∧ memo_ok st' ∧
           (n ≤ length rest)%nat ∧
           placing dep whole ((done0 ++ [prev]) ++ take n rest)
                   (if isDescending then reverse ((done0 ++ [prev]) ++ take n rest)
                    else (done0 ++ [prev]) ++ take n rest).
Proof.
  induction rest as [|cur rest IH]; intros desc done0 prev st Hwhole Hpl Hst; simpl.
  - exists O, st. rewrite app_nil_r. split; [reflexivity|]. split; [exact Hst|]. split; [lia|exact Hpl].
  - assert (Hprev : prev ∈ whole) by (rewrite Hwhole; elem_solver).
    assert (Hcur : cur ∈ whole) by (rewrite Hwhole; elem_solver).
    destruct (comparefn_order cur prev st Hcur Hprev Hst) as (st1 & -> & Hst1). simpl.
    destruct (Hpl) as (_ & _ & Hsplit).
    destruct (Hsplit cur rest Hwhole) as (front & back & Hfb).
    destruct desc.
    + destruct (Z.leb_spec 0 (order cur prev)) as [Hpos|Hneg].
      { exists O, st1. simpl. rewrite app_nil_r.
        split; [reflexivity|]. split; [exact Hst1|]. split; [lia|exact Hpl]. }
      assert (Hdep : dep prev cur) by (apply order_sign; [exact Hcur|exact Hprev|lia]).
      assert (front = []) as ->.
      { destruct Hfb as (Heq & Hf & _). rewrite reverse_snoc in Heq.
        destruct front as [|f front]; [reflexivity|]. simpl in Heq. inversion Heq; subst f.
        apply Forall_cons in Hf as [Hf _]. contradiction. }
      pose proof (placing_step _ _ _ _ _ _ Hwhole Hpl Hfb) as Hpl'.
      destruct Hfb as (Heq & _). simpl in Heq. rewrite <- Heq in Hpl'. simpl in Hpl'.
      rewrite <- reverse_snoc in Hpl'.
      destruct (IH true (done0 ++ [prev]) cur st1) as (n & st' & -> & Hst' & Hn & Hpl'');
        [rewrite <- app_assoc; exact Hwhole|exact Hpl'|exact Hst1|].
      exists (S n), st'. simpl. split; [reflexivity|]. split; [exact Hst'|]. split; [lia|].
      rewrite <- (app_assoc _ [cur]) in Hpl''. exact Hpl''.
    + destruct (Z.ltb_spec (order cur prev) 0) as [Hneg|Hpos].
      { exists O, st1. simpl. rewrite app_nil_r.
        split; [reflexivity|]. split; [exact Hst1|]. split; [lia|exact Hpl]. }
      assert (Hdep : ¬ dep prev cur).
      { intros Hd. apply order_sign in Hd; [lia|exact Hcur|exact Hprev]. }
      assert (back = []) as ->.
      { destruct Hfb as (Heq & _ & Hb).
        destruct (decide (length back = O)) as [Hz|Hnz]; [destruct back; [reflexivity|done]|].
        exfalso. apply Hdep. rewrite Forall_forall in Hb. apply Hb.
        eapply last_in_back; [symmetry; exact Heq|]. destruct back; done. }
      pose proof (placing_step _ _ _ _ _ _ Hwhole Hpl Hfb) as Hpl'.
      destruct Hfb as (Heq & _). rewrite app_nil_r in Heq. rewrite <- Heq in Hpl'.
      destruct (IH false (done0 ++ [prev]) cur st1) as (n & st' & -> & Hst' & Hn & Hpl'');
        [rewrite <- app_assoc; exact Hwhole|exact Hpl'|exact Hst1|].
      exists (S n), st'. simpl. split; [reflexivity|]. split; [exact Hst'|]. split; [lia|].
      rewrite <- (app_assoc _ [cur]) in Hpl''. exact Hpl''.
Qed.

Lemma placing_one x rest : whole = x :: rest → placing dep whole [x] [x].
Proof.
  intros Hwhole.
  apply (placing_step [] [] x rest [] []); [exact Hwhole|apply placing_nil|].
  repeat split; constructor.
Qed.

Lemma countAndMakeRun_placing st :
  (2 ≤ length whole)%nat → memo_ok st →
  ∃ arr1 runLength st1,
    countAndMakeRun comparefn whole st = Ok (arr1, runLength, st1) ∧ memo_ok st1 ∧
    whole = take runLength whole ++ drop runLength arr1 ∧
    placing dep whole (take runLength whole) (take runLength arr1).
Proof.
  intros Hlen Hst.
  assert (Hex : ∃ x0 x1 rest, whole = x0 :: x1 :: rest).
  { clear -Hlen. destruct whole as [|x0 [|x1 rest]]; simpl in Hlen; try lia; eauto. }
  destruct Hex as (x0 & x1 & rest & Hwhole).
  assert (H0 : x0 ∈ whole) by (rewrite Hwhole; elem_solver).
  assert (H1 : x1 ∈ whole) by (rewrite Hwhole; elem_solver).
  destruct (comparefn_order x1 x0 st H1 H0 Hst) as (st1 & Hcmp & Hst1).
  pose proof (placing_one x0 (x1 :: rest) Hwhole) as Hpl0.
  destruct (Hpl0) as (_ & _ & Hsplit).
  destruct (Hsplit x1 rest Hwhole) as (front & back & Hfb).
  assert (Hpl1 : placing dep whole ([x0] ++ [x1])
                   (if order x1 x0 <? 0 then reverse ([x0] ++ [x1]) else [x0] ++ [x1])).
  { pose proof (placing_step [x0] [x0] x1 rest front back Hwhole Hpl0 Hfb) as Hpl'.
    destruct Hfb as (Heq & Hf & Hb).
    destruct (Z.ltb_spec (order x1 x0) 0) as [Hneg|Hpos].
    - assert (dep x0 x1) by (apply order_sign; assumption).
      destruct front as [|f front].
      + simpl in Heq. subst back. exact Hpl'.
      + inversion Heq; subst f. apply Forall_cons in Hf as [Hf _]. contradiction.
    - assert (¬ dep x0 x1) by (intros Hd; apply order_sign in Hd; [lia|assumption|assumption]).
      destruct front as [|f [|? ?]]; simpl in Heq; try discriminate.
      + subst back. apply Forall_cons in Hb as [Hb _]. contradiction.
      + inversion Heq; subst. exact Hpl'. }
  destruct (extendRun_placing rest (order x1 x0 <? 0) [x0] x1 st1)
    as (n & st2 & Hrun & Hst2 & Hn & Hpl); [exact Hwhole|exact Hpl1|exact Hst1|].
  assert (Htake : take (S (S n)) whole = ([x0] ++ [x1]) ++ take n rest)
    by (rewrite Hwhole; reflexivity).
  assert (Hl : length (([x0] ++ [x1]) ++ take n rest) = S (S n)).
  { rewrite length_app, length_take. simpl. lia. }
  exists (if order x1 x0 <? 0
          then reverse (take (S (S n)) whole) ++ drop (S (S n)) whole else whole),
         (S (S n)), st2.
  split; [|split; [exact Hst2|]].
  - rewrite Hwhole at 1. unfold countAndMakeRun. rewrite Hcmp. simpl. rewrite Hrun. simpl.
    rewrite Hwhole. reflexivity.
  - rewrite Htake. destruct (order x1 x0 <? 0).
    + rewrite take_app_length', drop_app_length' by (rewrite length_reverse; symmetry; exact Hl).
      split; [|exact Hpl]. rewrite <- Htake, take_drop. reflexivity.
    + rewrite <- Htake. rewrite take_drop. split; [reflexivity|]. rewrite Htake. exact Hpl.
Qed.

(** On a list that nests and chains its dependents, the engine's sort
    returns a permutation in build order. *)
Lemma array_sort_placing st :
  memo_ok st →
  ∃ sorted st', array_sort comparefn whole st = Ok (sorted, st') ∧
                sorted ≡ₚ whole ∧ buildOrder dep sorted ∧ memo_ok st'.
Proof.
  intros Hst. unfold array_sort.
  destruct (Nat.ltb_spec (length whole) 2) as [Hshort|Hlong].
  - exists whole, st. split; [reflexivity|]. split; [reflexivity|]. split; [|exact Hst].
    destruct whole as [|x [|y l]]; simpl in Hshort; try lia; repeat constructor.
  - destruct (countAndMakeRun_placing st Hlong Hst) as (arr1 & n & st1 & -> & Hst1 & Hwhole & Hpl).
    simpl.
    destruct (binaryInsertionSort_placing (drop n arr1) (take n whole) (take n arr1) st1
                Hwhole Hpl Hst1) as (sorted & st' & -> & (Hperm & Hsorted & _) & Hst').
    exists sorted, st'. auto.
Qed.
End SortFacts.

(** ** The closure computed by getFullDependencySet *)

Section Closure.
Variable cache : PackageMap.
Variable originalPackage : string.

Lemma getDependencies_S stack msgPackage acc :
  getDependencies (S stack) originalPackage cache msgPackage acc
  = match cache !! msgPackage with
    | None => Raise TypeError
    | Some entry => forEachM (visit cache originalPackage stack) (localDeps entry) acc
    end.
Proof. reflexivity. Qed.

Lemma elem_of_set_add y d acc : y ∈ set_add d acc ↔ y = d ∨ y ∈ acc.
Proof.
  unfold set_add. case_bool_decide as Hd.
  - split; [auto|]. intros [->|?]; assumption.
  - rewrite elem_of_app, list_elem_of_singleton. tauto.
Qed.

Lemma dependsOn_edge a b : dependsOn cache a b ↔ ∃ d, edge cache a d ∧ (b = d ∨ dependsOn cache d b).
Proof.
  unfold dependsOn. split.
  - intros H. inversion H as [? ? Hab|? d ? Had Hdb]; subst; eauto.
  - intros (d & Had & [->|Hdb]); [apply tc_once; exact Had|eapply tc_l; eassumption].
Qed.

(** The elements of the result are those it started with and the packages
    the traversed package depends on. *)
Lemma getDependencies_elements stack : ∀ msgPackage acc r,
  getDependencies stack originalPackage cache msgPackage acc = Ok r →
  ∀ y, y ∈ r ↔ y ∈ acc ∨ dependsOn cache msgPackage y.
Proof.
  induction stack as [|stack IH]; intros m acc r H; [discriminate|].
  rewrite getDependencies_S in H. destruct (cache !! m) as [entry|] eqn:Hm; [|discriminate].
  assert (Hloop : ∀ ds acc r, forEachM (visit cache originalPackage stack) ds acc = Ok r →
            ∀ y, y ∈ r ↔ y ∈ acc ∨ ∃ d, d ∈ ds ∧ (y = d ∨ dependsOn cache d y)).
  { clear H acc r. induction ds as [|d ds IHds]; intros acc r H y; simpl in H.
    - inversion H; subst. split; [auto|]. intros [?|(d & Hd & _)]; [assumption|inversion Hd].
    - destruct (visit cache originalPackage stack acc d) as [acc1|] eqn:Hv; simpl in H; [|discriminate].
      unfold visit in Hv. case_bool_decide; [discriminate|].
      rewrite (IHds _ _ H y), (IH _ _ _ Hv y), elem_of_set_add. split.
      + intros [[[->|?]|?]|(d' & Hd' & Hy)]; eauto using list_elem_of_here.
        right. exists d'. split; [apply list_elem_of_further; exact Hd'|exact Hy].
      + intros [?|(d' & [->|Hd']%elem_of_cons & Hy)]; [auto| |eauto].
        destruct Hy as [->|Hy]; auto. }
  intros y. rewrite (Hloop _ _ _ H y), dependsOn_edge. split.
  - intros [?|(d & Hd & Hy)]; [auto|]. right. exists d. split; [exists entry; auto|exact Hy].
  - intros [?|(d & (entry' & Hm' & Hd) & Hy)]; [auto|].
    assert (entry' = entry) as -> by congruence. eauto.
Qed.

(** The result extends the set it started with by new members. *)
Lemma getDependencies_extends stack : ∀ msgPackage acc r,
  getDependencies stack originalPackage cache msgPackage acc = Ok r →
  ∃ new, r = acc ++ new ∧ ∀ y, y ∈ new → y ∉ acc.
Proof.
  induction stack as [|stack IH]; intros m acc r H; [discriminate|].
  rewrite getDependencies_S in H. destruct (cache !! m) as [entry|]; [|discriminate].
  revert acc r H. induction (localDeps entry) as [|d ds IHds]; intros acc r H; simpl in H.
  - inversion H; subst. exists []. rewrite app_nil_r. split; [reflexivity|]. intros y Hy. inversion Hy.
  - destruct (visit cache originalPackage stack acc d) as [acc1|] eqn:Hv; simpl in H; [|discriminate].
    unfold visit in Hv. case_bool_decide; [discriminate|].
    destruct (IH _ _ _ Hv) as (new1 & -> & Hnew1).
    destruct (IHds _ _ H) as (new2 & -> & Hnew2).
    unfold set_add in *. case_bool_decide as Hd.
    + exists (new1 ++ new2). rewrite app_assoc. split; [reflexivity|].
      intros y [Hy|Hy]%elem_of_app; [auto|].
      intros Hacc. apply (Hnew2 y Hy). elem_solver.
    + exists (d :: new1 ++ new2). split; [rewrite <- !app_assoc; reflexivity|].
      intros y [->|[Hy|Hy]%elem_of_app]%elem_of_cons; [exact Hd| |].
      * intros Hacc. apply (Hnew1 y Hy). elem_solver.
      * intros Hacc. apply (Hnew2 y Hy). elem_solver.
Qed.

(** Traversing a package whose dependencies are all in the set already
    leaves the set as it is. *)
Lemma getDependencies_revisit stack msgPackage acc r :
  getDependencies stack originalPackage cache msgPackage acc = Ok r →
  (∀ y, dependsOn cache msgPackage y → y ∈ acc) → r = acc.
Proof.
  intros H Hdone. destruct (getDependencies_extends _ _ _ _ H) as (new & -> & Hnew).
  destruct new as [|y new]; [apply app_nil_r|]. exfalso.
  apply (Hnew y); [left|].
  assert (Hy : y ∈ acc ++ y :: new) by elem_solver.
  apply (getDependencies_elements _ _ _ _ H) in Hy as [?|?]; auto.
Qed.

Lemma getDependencies_NoDup stack msgPackage acc r :
  getDependencies stack originalPackage cache msgPackage acc = Ok r → NoDup acc → NoDup r.
Proof.
  revert msgPackage acc r.
  induction stack as [|stack IH]; intros m acc r H; [discriminate|].
  rewrite getDependencies_S in H. destruct (cache !! m) as [entry|]; [|discriminate].
  revert acc r H. induction (localDeps entry) as [|d ds IHds]; intros acc r H Hnd; simpl in H.
  - inversion H; subst. exact Hnd.
  - destruct (visit cache originalPackage stack acc d) as [acc1|] eqn:Hv; simpl in H; [|discriminate].
    unfold visit in Hv. case_bool_decide; [discriminate|].
    apply (IHds _ _ H). apply (IH _ _ _ Hv).
    unfold set_add. case_bool_decide as Hd; [exact Hnd|].
    apply NoDup_app. split; [exact Hnd|]. split; [|apply NoDup_singleton].
    intros x Hx ->%list_elem_of_singleton. contradiction.
Qed.
End Closure.

(** Whether the traversal returns does not depend on the set it starts with. *)
Lemma getDependencies_any_acc cache o stack : ∀ msgPackage acc r,
  getDependencies stack o cache msgPackage acc = Ok r →
  ∀ acc', ∃ r', getDependencies stack o cache msgPackage acc' = Ok r'.
Proof.
  induction stack as [|stack IH]; intros m acc r H acc'; [discriminate|].
  rewrite getDependencies_S in H. rewrite getDependencies_S.
  destruct (cache !! m) as [entry|]; [|discriminate].
  revert acc r H acc'. induction (localDeps entry) as [|d ds IHds]; intros acc r H acc'.
  - eexists. reflexivity.
  - rewrite forEachM_cons in H. rewrite forEachM_cons.
    destruct (visit cache o stack acc d) as [acc1|] eqn:Hv; [|discriminate].
    assert (∃ acc1', visit cache o stack acc' d = Ok acc1') as (acc1' & ->).
    { unfold visit in *. case_bool_decide; [discriminate|]. eapply IH. exact Hv. }
    eapply IHds. exact H.
Qed.

(** A deeper stack does not change a result. *)
Lemma getDependencies_deeper cache o stack : ∀ msgPackage acc r,
  getDependencies stack o cache msgPackage acc = Ok r →
  getDependencies (S stack) o cache msgPackage acc = Ok r.
Proof.
  induction stack as [|stack IH]; intros m acc r H; [discriminate|].
  rewrite getDependencies_S in H. rewrite (getDependencies_S _ _ (S stack)).
  destruct (cache !! m) as [entry|]; [|discriminate].
  revert acc r H. induction (localDeps entry) as [|d ds IHds]; intros acc r H.
  - exact H.
  - rewrite forEachM_cons in H. rewrite forEachM_cons.
    destruct (visit cache o stack acc d) as [acc1|] eqn:Hv; [|discriminate].
    assert (visit cache o (S stack) acc d = Ok acc1) as ->.
    { unfold visit in *. case_bool_decide; [discriminate|]. apply IH. exact Hv. }
    apply IHds. exact H.
Qed.

(** The origin only matters where an edge leads to it. *)
Lemma getDependencies_origin cache o o' stack : ∀ msgPackage acc r,
  getDependencies stack o cache msgPackage acc = Ok r →
  (∀ x, rtc (edge cache) msgPackage x → ¬ edge cache x o') →
  getDependencies stack o' cache msgPackage acc = Ok r.
Proof.
  induction stack as [|stack IH]; intros m acc r H Hfree; [discriminate|].
  rewrite getDependencies_S in H. rewrite getDependencies_S.
  destruct (cache !! m) as [entry|] eqn:Hm; [|discriminate].
  assert (Hds : ∀ d, d ∈ localDeps entry → edge cache m d) by (intros d Hd; exists entry; auto).
  revert acc r H Hds. induction (localDeps entry) as [|d ds IHds]; intros acc r H Hds.
  - exact H.
  - rewrite forEachM_cons in H. rewrite forEachM_cons.
    destruct (visit cache o stack acc d) as [acc1|] eqn:Hv; [|discriminate].
    assert (Hmd : edge cache m d) by (apply Hds; left).
    assert (visit cache o' stack acc d = Ok acc1) as ->.
    { unfold visit in *. case_bool_decide; [discriminate|].
      rewrite bool_decide_eq_false_2.
      - apply IH; [exact Hv|]. intros x Hx. apply Hfree. eapply rtc_l; eassumption.
      - intros ->. apply (Hfree m); [reflexivity|exact Hmd]. }
    apply IHds; [exact H|]. intros d' Hd'. apply Hds. right. exact Hd'.
Qed.

(** A traversal that returns also returns from every package it reaches. *)
Lemma getDependencies_reach cache o stack msgPackage x :
  rtc (edge cache) msgPackage x →
  ∀ acc r, getDependencies stack o cache msgPackage acc = Ok r →
  ∃ acc' r', getDependencies stack o cache x acc' = Ok r'.
Proof.
  induction 1 as [m|m d x Hmd _ IH]; intros acc r H; [eauto|].
  destruct stack as [|stack]; [discriminate|].
  rewrite getDependencies_S in H. destruct Hmd as (entry & Hm & Hd). rewrite Hm in H.
  destruct (forEachM_ok _ _ _ _ H d Hd) as (acc' & r' & Hv).
  unfold visit in Hv. case_bool_decide; [discriminate|].
  apply getDependencies_deeper in Hv. eapply IH. exact Hv.
Qed.

Lemma acyclic_no_edge_back cache x y :
  acyclic cache → rtc (edge cache) x y → ¬ edge cache y x.
Proof. intros Hacyc Hxy Hyx. apply (Hacyc x). eapply tc_rtc_l; [exact Hxy|apply tc_once; exact Hyx]. Qed.

(** In a cache without cycle, once the closure of a package has been
    computed, the closure of each of its members is computed within the same
    stack, and it holds exactly what the member depends on. *)
Lemma closure_of_member cache stack pkgName closure x :
  acyclic cache → getFullDependencySet stack pkgName cache = Ok closure → x ∈ closure →
  ∃ deps, getFullDependencySet stack x cache = Ok deps ∧
          ∀ y, y ∈ deps ↔ dependsOn cache x y.
Proof.
  intros Hacyc H Hx. unfold getFullDependencySet in *.
  apply (getDependencies_elements _ _ _ _ _ _ H) in Hx as [Hx|Hx]; [inversion Hx|].
  destruct (getDependencies_reach _ _ _ _ x (tc_rtc _ _ Hx) _ _ H) as (acc' & r' & Hr).
  destruct (getDependencies_any_acc _ _ _ _ _ _ Hr []) as (deps & Hdeps).
  apply (getDependencies_origin _ _ x) in Hdeps.
  2: { intros y Hy. apply acyclic_no_edge_back; assumption. }
  exists deps. split; [exact Hdeps|]. intros y.
  rewrite (getDependencies_elements _ _ _ _ _ _ Hdeps y). split; [|auto].
  intros [Hy|?]; [inversion Hy|assumption].
Qed.

(** ** The order in which the closure lists its members *)

Lemma snoc_split {A} (acc : list A) d l1 y x l2 :
  acc ++ [d] = l1 ++ y :: x :: l2 →
  (l2 = [] ∧ x = d ∧ acc = l1 ++ [y]) ∨ (∃ l2', l2 = l2' ++ [d] ∧ acc = l1 ++ y :: x :: l2').
Proof.
  intros Heq. destruct l2 as [|z l2 _] using rev_ind.
  - left. change (l1 ++ [y; x]) with (l1 ++ [y] ++ [x]) in Heq. rewrite app_assoc in Heq.
    apply app_inj_tail in Heq as [-> ->]. auto.
  - right. exists l2.
    change (l1 ++ y :: x :: l2 ++ [z]) with (l1 ++ (y :: x :: l2) ++ [z]) in Heq.
    rewrite app_assoc in Heq. apply app_inj_tail in Heq as [-> ->]. auto.
Qed.

Lemma snoc_split1 {A} (acc : list A) d l1 x l2 :
  acc ++ [d] = l1 ++ x :: l2 →
  (l2 = [] ∧ x = d ∧ acc = l1) ∨ (∃ l2', l2 = l2' ++ [d] ∧ acc = l1 ++ x :: l2').
Proof.
  intros Heq. destruct l2 as [|z l2 _] using rev_ind.
  - left. apply app_inj_tail in Heq as [-> ->]. auto.
  - right. exists l2.
    change (l1 ++ x :: l2 ++ [z]) with (l1 ++ (x :: l2) ++ [z]) in Heq.
    rewrite app_assoc in Heq. apply app_inj_tail in Heq as [-> ->]. auto.
Qed.

Lemma nested_snoc {A} (dep : A → A → Prop) (acc : list A) d :
  nested dep acc →
  (∀ l1 y, acc = l1 ++ [y] → ∀ e, e ∈ l1 → dep e d → dep e y) →
  nested dep (acc ++ [d]).
Proof.
  intros Hacc Hd l1 y x l2 Heq e He Hdep.
  apply snoc_split in Heq as [(-> & -> & Hacc')|(l2' & -> & Hacc')].
  - eapply Hd; eassumption.
  - eapply Hacc; eassumption.
Qed.

Lemma chained_snoc {A} (dep : A → A → Prop) (acc : list A) d :
  chained dep acc →
  (∀ e e', e ∈ acc → e' ∈ acc → dep e d → dep e' d → e = e' ∨ dep e e' ∨ dep e' e) →
  chained dep (acc ++ [d]).
Proof.
  intros Hacc Hd l1 x l2 Heq e e' He He' Hdep Hdep'.
  apply snoc_split1 in Heq as [(-> & -> & ->)|(l2' & -> & Hacc')].
  - apply Hd; assumption.
  - eapply Hacc; eassumption.
Qed.

Section ClosureOrder.
Variable cache : PackageMap.
Variable originalPackage : string.
Hypothesis cache_acyclic : acyclic cache.

Local Abbreviation dep := (dependsOn cache).

Lemma dep_trans a b c : dep a b → dep b c → dep a c.
Proof. apply tc_trans. Qed.

Lemma visited_nil : visited cache (fun _ => False) [].
Proof.
  split; try done.
  - constructor.
  - intros l1 y x l2 Heq. destruct l1; discriminate.
  - intros l1 x l2 Heq. destruct l1; discriminate.
  - intros e He. inversion He.
Qed.

(** Entering a package that is not in the set yet. *)
Lemma visited_enter onStack acc m d :
  visited cache onStack acc → (∀ s, onStack s → s = m ∨ dep s m) → edge cache m d → d ∉ acc →
  visited cache (fun s => onStack s ∨ s = d) (acc ++ [d]).
Proof.
  intros [Hnd Hnest Hchain Hcomp Hstack Hlast] Hunder Hmd Hd.
  assert (Hmd' : dep m d) by (apply tc_once; exact Hmd).
  assert (Hsd : ∀ s, onStack s → dep s d).
  { intros s Hs. destruct (Hunder s Hs) as [->|Hsm]; [exact Hmd'|].
    eapply dep_trans; eassumption. }
  assert (Hon : ∀ e, e ∈ acc → dep e d → onStack e).
  { intros e He Hed. destruct (Hcomp e He) as [?|Hc]; [assumption|].
    exfalso. apply Hd, Hc, Hed. }
  split.
  - apply NoDup_app. split; [exact Hnd|]. split; [|apply NoDup_singleton].
    intros x Hx ->%list_elem_of_singleton. contradiction.
  - apply nested_snoc; [exact Hnest|]. intros l1 y -> e He Hed.
    destruct (Hlast e l1 y) as [->|?]; [apply Hon; [elem_solver|exact Hed]|reflexivity| |assumption].
    exfalso. apply NoDup_app in Hnd as (_ & Hdisj & _). apply (Hdisj y He). left.
  - apply chained_snoc; [exact Hchain|]. intros e e' He He' Hed Hed'.
    apply Hstack; apply Hon; assumption.
  - intros e [He| ->%list_elem_of_singleton]%elem_of_app; [|auto].
    destruct (Hcomp e He) as [?|Hc]; [auto|]. right. intros x Hx. apply elem_of_app. auto.
  - intros e e' [He| ->] [He'| ->]; auto.
  - intros s l1 y Hs Heq. apply app_inj_tail in Heq as [_ <-].
    destruct Hs as [Hs| ->]; auto.
Qed.

(** Leaving a package whose dependencies are all in the set. *)
Lemma visited_leave onStack acc d :
  visited cache (fun s => onStack s ∨ s = d) acc → (∀ x, dep d x → x ∈ acc) →
  visited cache onStack acc.
Proof.
  intros [Hnd Hnest Hchain Hcomp Hstack Hlast] Hd. split; try assumption.
  - intros e He. destruct (Hcomp e He) as [[?| ->]|?]; auto.
  - intros e e' He He'. apply Hstack; auto.
  - intros s l1 y Hs. apply Hlast. auto.
Qed.

Lemma traverse_visited stack : ∀ msgPackage acc r onStack,
  getDependencies stack originalPackage cache msgPackage acc = Ok r →
  visited cache onStack acc → (∀ s, onStack s → s = msgPackage ∨ dep s msgPackage) →
  visited cache onStack r.
Proof.
  induction stack as [|stack IH]; intros m acc r onStack H Hvis Hunder; [discriminate|].
  rewrite getDependencies_S in H. destruct (cache !! m) as [entry|] eqn:Hm; [|discriminate].
  assert (Hds : ∀ d, d ∈ localDeps entry → edge cache m d) by (intros d Hd; exists entry; auto).
  revert acc r H Hvis Hds.
  induction (localDeps entry) as [|d ds IHds]; intros acc r H Hvis Hds.
  - inversion H; subst. exact Hvis.
  - rewrite forEachM_cons in H.
    destruct (visit cache originalPackage stack acc d) as [acc1|] eqn:Hv; [|discriminate].
    assert (Hmd : edge cache m d) by (apply Hds; left).
    apply (IHds acc1 r H); [|intros d' Hd'; apply Hds; right; exact Hd'].
    unfold visit in Hv. case_bool_decide; [discriminate|].
    unfold set_add in Hv. case_bool_decide as Hd.
    + (* [d] has been traversed before *)
      assert (Hdone : ∀ x, dep d x → x ∈ acc).
      { destruct (vis_complete _ _ _ Hvis d Hd) as [Hon|?]; [|assumption].
        exfalso. apply (cache_acyclic d).
        destruct (Hunder d Hon) as [->|Hdm]; [apply tc_once; exact Hmd|].
        eapply tc_r; eassumption. }
      rewrite (getDependencies_revisit _ _ _ _ _ _ Hv Hdone). exact Hvis.
    + apply (visited_leave onStack acc1 d).
      * apply (IH d (acc ++ [d]) acc1); [exact Hv| |intros s [Hs| ->]; [right|left; reflexivity]].
        -- eapply visited_enter; eassumption.
        -- destruct (Hunder s Hs) as [->|Hsm]; [apply tc_once; exact Hmd|].
           eapply tc_r; eassumption.
      * intros x Hx. apply (getDependencies_elements _ _ _ _ _ _ Hv). auto.
Qed.

(** The closure of a package lists its members so that the earlier members
    that depend on a member are nested and chained. *)
Lemma closure_nested_chained stack closure :
  getFullDependencySet stack originalPackage cache = Ok closure →
  NoDup closure ∧ nested dep closure ∧ chained dep closure.
Proof.
  intros H. unfold getFullDependencySet in H.
  destruct (traverse_visited _ _ _ _ (fun _ => False) H visited_nil) as [? ? ? _ _ _]; [done|].
  auto.
Qed.
End ClosureOrder.

(** ** The circular-dependency error of the sort *)

Lemma tc_last {A} (R : relation A) a b : tc R a b → ∃ x, rtc R a x ∧ R x b.
Proof.
  induction 1 as [a b Hab|a y b Hay _ (x & Hyx & Hxb)].
  - exists a. split; [reflexivity|exact Hab].
  - exists x. split; [eapply rtc_l; eassumption|exact Hxb].
Qed.

(** A closure that has been returned does not contain a package that
    depends on its origin. *)
Lemma closure_not_mutual cache stack a b aDeps bDeps :
  getFullDependencySet stack a cache = Ok aDeps →
  getFullDependencySet stack b cache = Ok bDeps →
  b ∈ aDeps → a ∈ bDeps → False.
Proof.
  intros Ha Hb Hba Hab. unfold getFullDependencySet in *.
  apply (getDependencies_elements _ _ _ _ _ _ Ha) in Hba as [Hba|Hba]; [inversion Hba|].
  apply (getDependencies_elements _ _ _ _ _ _ Hb) in Hab as [Hab|Hab]; [inversion Hab|].
  destruct (tc_last _ _ _ (tc_trans _ _ _ Hba Hab)) as (x & Hax & Hxa).
  exact (getDependencies_ok_no_cycle _ _ _ _ _ _ Ha x Hax Hxa).
Qed.

(** What [getDeps] returns: the closure, read from the table or computed
    and stored; or, for the name of a member of [Object.prototype] that the
    table does not own, that member, with the table as it was. *)
Lemma getDeps_Own cache stack x memo l memo' :
  memoSound stack cache memo → getDeps stack cache x memo = Ok (Own l, memo') →
  getFullDependencySet stack x cache = Ok l ∧ memoSound stack cache memo' ∧
  memo' !! x = Some l ∧ ∀ y, is_Some (memo !! y) → is_Some (memo' !! y).
Proof.
  intros Hmemo H. unfold getDeps, member in H. destruct (memo !! x) as [d|] eqn:Hl.
  - inversion H; subst. split; [apply Hmemo; exact Hl|]. split; [exact Hmemo|]. auto.
  - destruct (bool_decide (x ∈ Object_prototype)); [discriminate|].
    destruct (getFullDependencySet stack x cache) as [d|e] eqn:Hx; simpl in H; [|discriminate].
    inversion H; subst. split; [reflexivity|]. split; [|split].
    + intros p d'. destruct (decide (x = p)) as [->|Hne].
      * rewrite lookup_insert_eq. intros [= <-]. exact Hx.
      * rewrite lookup_insert_ne by exact Hne. apply Hmemo.
    + apply lookup_insert_eq.
    + intros y Hy. destruct (decide (x = y)) as [->|Hne].
      * rewrite lookup_insert_eq. eauto.
      * rewrite lookup_insert_ne by exact Hne. exact Hy.
Qed.

Lemma getDeps_Inherited cache stack x memo name memo' :
  getDeps stack cache x memo = Ok (Inherited name, memo') →
  x ∈ Object_prototype ∧ memo !! x = None ∧ memo' = memo.
Proof.
  unfold getDeps, member. destruct (memo !! x) as [d|] eqn:Hl; [discriminate|].
  destruct (bool_decide (x ∈ Object_prototype)) eqn:Hp.
  - intros [= <- <-]. apply bool_decide_eq_true in Hp. auto.
  - destruct (getFullDependencySet stack x cache); simpl; discriminate.
Qed.

Lemma getDeps_memoSound cache stack x memo deps memo' :
  memoSound stack cache memo → getDeps stack cache x memo = Ok (deps, memo') →
  memoSound stack cache memo'.
Proof.
  intros Hmemo H. destruct deps as [l|name].
  - apply (getDeps_Own _ _ _ _ _ _ Hmemo H).
  - apply getDeps_Inherited in H as (_ & _ & ->). exact Hmemo.
Qed.

Lemma getDeps_Raise cache stack x memo e :
  getDeps stack cache x memo = Raise e → getFullDependencySet stack x cache = Raise e.
Proof.
  unfold getDeps, member. destruct (memo !! x); [discriminate|].
  destruct (bool_decide (x ∈ Object_prototype)); [discriminate|].
  destruct (getFullDependencySet stack x cache); simpl; [discriminate|congruence].
Qed.

(** The outcomes of a call of the comparator. *)
Lemma sorter_cases cache stack pkgA pkgB memo :
  (∃ e, getDeps stack cache pkgA memo = Raise e ∧
        sorter stack cache pkgA pkgB memo = Raise e) ∨
  (∃ aDeps memo1, getDeps stack cache pkgA memo = Ok (aDeps, memo1) ∧
     ((∃ e, getDeps stack cache pkgB memo1 = Raise e ∧
            sorter stack cache pkgA pkgB memo = Raise e) ∨
      (∃ bDeps memo2, getDeps stack cache pkgB memo1 = Ok (bDeps, memo2) ∧
         match aDeps, bDeps with
         | Own a, Own b =>
             sorter stack cache pkgA pkgB memo =
               if includes a pkgB && includes b pkgA then Raise (SortCycleError pkgA pkgB)
               else if includes a pkgB then Ok (1, memo2)
               else if includes b pkgA then Ok (-1, memo2)
               else Ok (0, memo2)
         | _, _ => sorter stack cache pkgA pkgB memo = Raise TypeError
         end))).
Proof.
  unfold sorter.
  destruct (getDeps stack cache pkgA memo) as [[aDeps memo1]|e] eqn:Ha; [right|left; eauto].
  exists aDeps, memo1. split; [reflexivity|]. cbn [mbind Res_bind res_bind].
  destruct (getDeps stack cache pkgB memo1) as [[bDeps memo2]|e] eqn:Hb; [right|left; eauto].
  exists bDeps, memo2. split; [reflexivity|].
  destruct aDeps, bDeps; reflexivity.
Qed.

(** With the memo table filled by [getDeps] alone, as in [sortPackageList],
    the comparator never gets to raise its own circular-dependency error:
    two closures that contain each other's origin are never both returned. *)
Lemma sorter_SortCycleError_unreachable cache stack pkgA pkgB memo x y :
  memoSound stack cache memo →
  sorter stack cache pkgA pkgB memo ≠ Raise (SortCycleError x y).
Proof.
  intros Hmemo H.
  destruct (sorter_cases cache stack pkgA pkgB memo)
    as [(e & Ha & Hs)|(aDeps & memo1 & Ha & [(e & Hb & Hs)|(bDeps & memo2 & Hb & Hs)])].
  - rewrite Hs in H. inversion H; subst. apply getDeps_Raise in Ha.
    destruct (getDependencies_raises _ _ _ _ _ _ Ha) as [?|[?|?]]; congruence.
  - rewrite Hs in H. inversion H; subst. apply getDeps_Raise in Hb.
    destruct (getDependencies_raises _ _ _ _ _ _ Hb) as [?|[?|?]]; congruence.
  - pose proof (getDeps_memoSound _ _ _ _ _ _ Hmemo Ha) as Hmemo1.
    destruct aDeps as [a|?], bDeps as [b|?]; try (rewrite Hs in H; discriminate).
    destruct (getDeps_Own _ _ _ _ _ _ Hmemo Ha) as (HaD & _).
    destruct (getDeps_Own _ _ _ _ _ _ Hmemo1 Hb) as (HbD & _).
    rewrite Hs in H.
    destruct (includes a pkgB) eqn:E1; destruct (includes b pkgA) eqn:E2;
      simpl in H; try discriminate.
    apply includes_true in E1, E2. exact (closure_not_mutual _ _ _ _ _ _ HaD HbD E1 E2).
Qed.

(** ** sortPackageList on the closure of a package *)

Section SortClosure.
Variable cache : PackageMap.
Variable stack : nat.
Hypothesis cache_acyclic : acyclic cache.

Lemma getDeps_memo x deps memo :
  memoSound stack cache memo → getFullDependencySet stack x cache = Ok deps →
  x ∉ Object_prototype →
  ∃ memo', getDeps stack cache x memo = Ok (Own deps, memo') ∧ memoSound stack cache memo'.
Proof.
  intros Hmemo Hx Hplain. unfold getDeps, member. destruct (memo !! x) as [deps'|] eqn:Hl.
  - exists memo. split; [|exact Hmemo]. rewrite (Hmemo _ _ Hl) in Hx. inversion Hx. reflexivity.
  - rewrite bool_decide_eq_false_2 by exact Hplain.
    rewrite Hx. simpl. eexists. split; [reflexivity|].
    intros p d. destruct (decide (x = p)) as [->|Hne].
    + rewrite lookup_insert_eq. intros [= <-]. exact Hx.
    + rewrite lookup_insert_ne by exact Hne. apply Hmemo.
Qed.

Lemma closureOf_member pkgName closure x y :
  getFullDependencySet stack pkgName cache = Ok closure → x ∈ closure →
  includes (closureOf stack cache x) y = true ↔ dependsOn cache x y.
Proof.
  intros H Hx. destruct (closure_of_member _ _ _ _ _ cache_acyclic H Hx) as (deps & Hd & Hiff).
  unfold closureOf. rewrite Hd, includes_true. apply Hiff.
Qed.

Lemma dependencyOrder_sign pkgName closure a b :
  getFullDependencySet stack pkgName cache = Ok closure → a ∈ closure → b ∈ closure →
  dependencyOrder stack cache a b < 0 ↔ dependsOn cache b a.
Proof.
  intros H Ha Hb. unfold dependencyOrder.
  pose proof (closureOf_member _ _ a b H Ha) as Hab.
  pose proof (closureOf_member _ _ b a H Hb) as Hba.
  destruct (includes (closureOf stack cache a) b) eqn:E1.
  - split; [lia|]. intros Hd. exfalso. apply (cache_acyclic a).
    eapply tc_trans; [apply Hab; reflexivity|exact Hd].
  - destruct (includes (closureOf stack cache b) a) eqn:E2.
    + split; [intros _; apply Hba; reflexivity|lia].
    + split; [lia|]. intros Hd. apply Hba in Hd. discriminate.
Qed.

Lemma sorter_dependencyOrder pkgName closure a b memo :
  getFullDependencySet stack pkgName cache = Ok closure →
  (∀ x, x ∈ closure → x ∉ Object_prototype) → a ∈ closure → b ∈ closure →
  memoSound stack cache memo →
  ∃ memo', sorter stack cache a b memo = Ok (dependencyOrder stack cache a b, memo')
           ∧ memoSound stack cache memo'.
Proof.
  intros H Hplain Ha Hb Hmemo.
  destruct (closure_of_member _ _ _ _ _ cache_acyclic H Ha) as (aDeps & HaD & Haiff).
  destruct (closure_of_member _ _ _ _ _ cache_acyclic H Hb) as (bDeps & HbD & Hbiff).
  destruct (getDeps_memo a aDeps memo Hmemo HaD (Hplain a Ha)) as (memo1 & Hg1 & Hmemo1).
  destruct (getDeps_memo b bDeps memo1 Hmemo1 HbD (Hplain b Hb)) as (memo2 & Hg2 & Hmemo2).
  exists memo2. split; [|exact Hmemo2].
  unfold sorter. rewrite Hg1. simpl. rewrite Hg2. simpl.
  unfold dependencyOrder, closureOf. rewrite HaD, HbD.
  destruct (includes aDeps b) eqn:E1; destruct (includes bDeps a) eqn:E2; simpl; try reflexivity.
  exfalso. apply includes_true in E1, E2. apply (cache_acyclic a).
  eapply tc_trans; [apply Haiff; exact E1|apply Hbiff; exact E2].
Qed.

(** C1 (amended).  In a cache with no dependency cycle, when
    [getFullDependencySet] returns the closure of a package, and the closure
    has fewer than 64 members, none of them named like a member of
    [Object.prototype], [sortPackageList] applied to that closure, which is
    the list [loadPackage] hands it, returns a permutation of it in which B
    comes before A whenever A transitively depends on B. *)
Theorem sortPackageList_of_closure (pkgName : string) (closure : list string) :
  getFullDependencySet stack pkgName cache = Ok closure →
  (length closure < 64)%nat →
  (∀ x, x ∈ closure → x ∉ Object_prototype) →
  ∃ sorted, sortPackageList stack closure cache = Ok sorted ∧ sorted ≡ₚ closure ∧
            ∀ i j a b, sorted !! i = Some a → sorted !! j = Some b →
                       dependsOn cache a b → (j < i)%nat.
Proof.
  intros H _ Hplain.
  destruct (closure_nested_chained cache pkgName cache_acyclic stack closure H)
    as (Hnd & Hnested & Hchained).
  destruct (array_sort_placing (dependsOn cache) (sorter stack cache)
              (dependencyOrder stack cache) (memoSound stack cache) closure
              (fun a b c => tc_trans a b c) cache_acyclic
              (fun a b Ha Hb => dependencyOrder_sign pkgName closure a b H Ha Hb)
              (fun a b st Ha Hb Hst =>
                 sorter_dependencyOrder pkgName closure a b st H Hplain Ha Hb Hst)
              Hnested Hchained ∅)
    as (sorted & memo' & Hsort & Hperm & Hbuild & _).
  { intros p deps Hl. rewrite lookup_empty in Hl. discriminate. }
  exists sorted. unfold sortPackageList. rewrite Hsort. simpl.
  split; [reflexivity|]. split; [exact Hperm|].
  intros i j a b Hi Hj Hab.
  destruct (Nat.lt_trichotomy i j) as [Hlt|[->|Hgt]]; [|  |exact Hgt].
  - exfalso. exact (buildOrder_lookup _ _ _ _ _ _ Hbuild Hi Hj Hlt Hab).
  - exfalso. assert (a = b) as -> by congruence. exact (cache_acyclic b Hab).
Qed.
End SortClosure.

Lemma acyclic_by_rank cache (rank : string → nat) :
  (∀ a b, edge cache a b → (rank b < rank a)%nat) → acyclic cache.
Proof.
  intros Hrank a Ha.
  assert (H : ∀ x y, tc (edge cache) x y → (rank y < rank x)%nat).
  { induction 1 as [x y Hxy|x y z Hxy _ IH]; [apply Hrank; exact Hxy|].
    apply Hrank in Hxy. lia. }
  apply H in Ha. lia.
Qed.

Lemma edge_insert cache k entry a b :
  edge (<[k := entry]> cache) a b → (a = k ∧ b ∈ localDeps entry) ∨ edge cache a b.
Proof.
  intros (e & He & Hb). destruct (decide (k = a)) as [->|Hne].
  - rewrite lookup_insert_eq in He. inversion He; subst. auto.
  - rewrite lookup_insert_ne in He by exact Hne. right. exists e. auto.
Qed.

Lemma edge_empty a b : ¬ edge ∅ a b.
Proof. intros (e & He & _). rewrite lookup_empty in He. discriminate. Qed.

Lemma cache_chain_acyclic : acyclic cache_chain.
Proof.
  apply (acyclic_by_rank _ rank_chain). intros a b Hab. unfold cache_chain in Hab.
  repeat (apply edge_insert in Hab as [[-> Hb]|Hab]);
    [..|exfalso; exact (edge_empty _ _ Hab)]; simpl in Hb;
    repeat (apply elem_of_cons in Hb as [->|Hb]); try (inversion Hb; fail);
    vm_compute; lia.
Qed.

Lemma cache_gap_acyclic : acyclic cache_gap.
Proof.
  apply (acyclic_by_rank _ rank_chain). intros a b Hab. unfold cache_gap in Hab.
  repeat (apply edge_insert in Hab as [[-> Hb]|Hab]);
    [..|exfalso; exact (edge_empty _ _ Hab)]; simpl in Hb;
    repeat (apply elem_of_cons in Hb as [->|Hb]); try (inversion Hb; fail);
    vm_compute; lia.
Qed.

(** On the cache {C: {A}, X: {}, A: {}}, which has no cycle, the list
    [C, X, A] of its packages comes back unchanged: C stays in front of A
    although C depends on A.  The comparator finds C and X unordered, and X
    and A unordered, so the engine takes the list for a sorted run. *)
Lemma sortPackageList_leaves_dependent_first :
  acyclic cache_gap ∧ dependsOn cache_gap "C" "A" ∧
  ∀ stack, sortPackageList (2 + stack) ["C"; "X"; "A"] cache_gap = Ok ["C"; "X"; "A"].
Proof.
  split; [exact cache_gap_acyclic|]. split.
  - apply tc_once. exists (pkg ["A"]). split; [vm_compute; reflexivity|apply list_elem_of_here].
  - intros stack. vm_compute. reflexivity.
Qed.

Lemma sortPackageList_of_closure_witness :
  ∃ sorted, sortPackageList 3 ["A"; "B"] cache_chain = Ok sorted ∧ sorted ≡ₚ ["A"; "B"] ∧
            ∀ i j a b, sorted !! i = Some a → sorted !! j = Some b →
                       dependsOn cache_chain a b → (j < i)%nat.
Proof.
  apply (sortPackageList_of_closure cache_chain 3 cache_chain_acyclic "C" ["A"; "B"]).
  - vm_compute. reflexivity.
  - simpl. lia.
  - intros x Hx. apply (bool_decide_unpack _).
    repeat (apply elem_of_cons in Hx as [->|Hx]; [vm_compute; reflexivity|]). inversion Hx.
Defined.

(** ** The parse pass: synthesized action messages *)

Section LoadMessagesFacts.
Variable createMsg : string → string → string → MsgSpec.
Variable createSrv : string → string → string → SrvSpec.
Variable createAction : string → string → string → ActionSpec.

Lemma loadMessage_fold_other packageName msgs st k :
  k ∉ msgs.*1 →
  ld_messages (foldl (loadMessage createMsg packageName) st msgs) !! k = ld_messages st !! k.
Proof.
  revert st. induction msgs as [|[m f] msgs IH]; intros st Hk; [reflexivity|].
  simpl in *. apply not_elem_of_cons in Hk as [Hne Hk].
  rewrite IH by assumption. simpl. apply lookup_insert_ne. congruence.
Qed.

Lemma loadMessage_fold_on_disk packageName msgs st m f :
  NoDup (msgs.*1) → (m, f) ∈ msgs →
  ld_messages (foldl (loadMessage createMsg packageName) st msgs) !! m
    = Some {| file := Some f; spec := createMsg packageName m f |}.
Proof.
  revert st. induction msgs as [|[m' f'] msgs IH]; intros st Hnd Hin.
  - inversion Hin.
  - simpl in *. apply NoDup_cons in Hnd as [Hfresh Hnd].
    apply elem_of_cons in Hin as [Heq|Hin].
    + inversion Heq; subst m' f'.
      rewrite loadMessage_fold_other by assumption. simpl. apply lookup_insert_eq.
    + apply IH; assumption.
Qed.

Lemma loadService_fold_messages packageName srvs st :
  ld_messages (foldl (loadService createSrv packageName) st srvs) = ld_messages st.
Proof.
  revert st. induction srvs as [|[m f] srvs IH]; intros st; [reflexivity|].
  simpl. rewrite IH. reflexivity.
Qed.

Lemma loadAction_fold_messages packageName packageMsgs acts st :
  ld_messages (foldl (loadAction createAction packageName packageMsgs) st acts)
    = foldl (cacheActionMessage packageMsgs) (ld_messages st)
            (mjoin ((fun '(message, file) =>
                       act_messages (createAction packageName message file)) <$> acts)).
Proof.
  revert st. induction acts as [|[m f] acts IH]; intros st; [reflexivity|].
  simpl. rewrite IH, foldl_app. reflexivity.
Qed.

(** An on-disk name is never touched by the action loop. *)
Lemma cacheActionMessage_fold_on_disk packageMsgs subs msgs k :
  k ∈ packageMsgs.*1 →
  foldl (cacheActionMessage packageMsgs) msgs subs !! k = msgs !! k.
Proof.
  intros Hk. revert msgs. induction subs as [|sub subs IH]; intros msgs; [reflexivity|].
  simpl. rewrite IH. unfold cacheActionMessage. case_bool_decide as Hd; [reflexivity|].
  apply lookup_insert_ne. intros Heq. rewrite Heq in Hd. contradiction.
Qed.

(** A synthesized message whose name is not on disk ends up stored, without
    a file, as the last synthesized spec of that name. *)
Lemma cacheActionMessage_fold_synthesized packageMsgs subs msgs sub :
  sub ∈ subs → msg_messageName sub ∉ packageMsgs.*1 →
  ∃ sub', foldl (cacheActionMessage packageMsgs) msgs subs !! msg_messageName sub
            = Some {| file := None; spec := sub' |}
          ∧ sub' ∈ subs ∧ msg_messageName sub' = msg_messageName sub.
Proof.
  intros Hin Hk. revert msgs Hin.
  induction subs as [|x subs IH] using rev_ind; intros msgs Hin; [inversion Hin|].
  rewrite foldl_app. simpl. unfold cacheActionMessage at 1.
  destruct (decide (msg_messageName x = msg_messageName sub)) as [Heq|Hne].
  - rewrite Heq. rewrite bool_decide_eq_false_2 by assumption.
    rewrite lookup_insert_eq. exists x. split; [reflexivity|].
    split; [apply elem_of_app; right; apply list_elem_of_singleton; reflexivity|assumption].
  - apply elem_of_app in Hin as [Hin|Hin].
    2: { apply list_elem_of_singleton in Hin. subst x. contradiction. }
    destruct (IH msgs Hin) as (sub' & Hl & Hin' & Hn).
    exists sub'. split; [|split; [apply elem_of_app; left; assumption|assumption]].
    case_bool_decide; [assumption|]. rewrite lookup_insert_ne by assumption. assumption.
Qed.

(** Whatever the action loop leaves in [messages] was there before, or is a
    synthesized spec stored without a file under a name that is not on disk. *)
Lemma cacheActionMessage_fold_inv packageMsgs subs msgs k e :
  foldl (cacheActionMessage packageMsgs) msgs subs !! k = Some e →
  msgs !! k = Some e ∨
  ((k ∉ packageMsgs.*1) ∧ ∃ sub, sub ∈ subs ∧ msg_messageName sub = k
                             ∧ e = {| file := None; spec := sub |}).
Proof.
  revert msgs. induction subs as [|x subs IH] using rev_ind; intros msgs He; [left; exact He|].
  rewrite foldl_app in He. simpl in He. unfold cacheActionMessage at 1 in He.
  case_bool_decide as Hd.
  - destruct (IH _ He) as [?|(Hk & sub & Hin & Hn & ->)]; [left; assumption|].
    right. split; [assumption|]. exists sub. rewrite elem_of_app. auto.
  - destruct (decide (msg_messageName x = k)) as [Heq|Hne].
    + subst k. rewrite lookup_insert_eq in He. inversion He; subst e.
      right. split; [assumption|]. exists x. rewrite elem_of_app, list_elem_of_singleton. auto.
    + rewrite lookup_insert_ne in He by assumption.
      destruct (IH _ He) as [?|(Hk & sub & Hin & Hn & ->)]; [left; assumption|].
      right. split; [assumption|]. exists sub. rewrite elem_of_app. auto.
Qed.

Lemma loadPackageInfo_messages packageName packageInfo :
  messages (loadPackageInfo createMsg createSrv createAction packageName packageInfo)
    = foldl (cacheActionMessage (info_messages packageInfo))
            (ld_messages (foldl (loadMessage createMsg packageName)
                                {| ld_messages := ∅; ld_services := ∅; ld_actions := ∅;
                                   ld_packageDeps := [] |}
                                (info_messages packageInfo)))
            (synthesized createAction packageName packageInfo).
Proof.
  unfold loadPackageInfo, synthesized. simpl.
  rewrite loadAction_fold_messages, loadService_fold_messages. reflexivity.
Qed.

Lemma loadPackages_fold_other (packageCache : list (string * PackageInfo))
    (acc : PackageMap) k :
  k ∉ packageCache.*1 →
  foldl (fun (cache : PackageMap) '(packageName, packageInfo) =>
           <[packageName := loadPackageInfo createMsg createSrv createAction
                              packageName packageInfo]> cache)
        acc packageCache !! k = acc !! k.
Proof.
  revert acc. induction packageCache as [|[n i] l IH]; intros acc Hk; [reflexivity|].
  simpl in *. apply not_elem_of_cons in Hk as [Hne Hk].
  rewrite IH by assumption. apply lookup_insert_ne. congruence.
Qed.

Lemma _loadMessagesInCache_lookup packageCache packageName packageInfo :
  NoDup (packageCache.*1) → (packageName, packageInfo) ∈ packageCache →
  _loadMessagesInCache createMsg createSrv createAction packageCache !! packageName
    = Some (loadPackageInfo createMsg createSrv createAction packageName packageInfo).
Proof.
  unfold _loadMessagesInCache. generalize (∅ : PackageMap).
  induction packageCache as [|[n i] l IH]; intros acc Hnd Hin; [inversion Hin|].
  simpl in *. apply NoDup_cons in Hnd as [Hfresh Hnd].
  apply elem_of_cons in Hin as [Heq|Hin].
  - inversion Heq; subst n i.
    rewrite loadPackages_fold_other by assumption. apply lookup_insert_eq.
  - apply IH; assumption.
Qed.

End LoadMessagesFacts.



(** ** The build orchestrator *)

Section OrchestratorFacts.
Context {F : Type}.
Variable render : list (nat * string) → string.

(** Induction on a task, with the members of a [Promise.all] covered. *)
Lemma Task_ind' (P : Task F → Prop)
    (HReturn : P Return)
    (HThrow : ∀ e, P (Throw e))
    (HHas : ∀ n k, (∀ b, P (k b)) → P (LoadingHas n k))
    (HSet : ∀ n s k, P k → P (LoadingSet n s k))
    (HLog : ∀ v m k, P k → P (Log v m k))
    (HCache : ∀ k, (∀ c, P (k c)) → P (GetCache k))
    (HFilter : ∀ f d k, (∀ b, P (k b)) → P (CallFilter f d k))
    (HFs : ∀ op k, (∀ r, P (k r)) → P (Fs op k))
    (HAll : ∀ ts k, Forall P ts → P k → P (AwaitAll ts k)) :
  ∀ t, P t.
Proof.
  fix IH 1. intros [|e|n k|n s k|v m k|k|f d k|op k|ts k].
  - exact HReturn.
  - apply HThrow.
  - apply HHas. intros b. apply IH.
  - apply HSet. apply IH.
  - apply HLog. apply IH.
  - apply HCache. intros c. apply IH.
  - apply HFilter. intros b. apply IH.
  - apply HFs. intros r. apply IH.
  - apply HAll; [|apply IH].
    revert ts. fix IHts 1. intros [|t ts].
    + apply List.Forall_nil.
    + apply List.Forall_cons; [apply IH|apply IHts].
Qed.

Lemma run_AwaitAll (ts : list (Task F)) k (w : World F) :
  run (AwaitAll ts k) w = (let '(w', ps) := runAll ts w in (w', AwaitingAll ps k)).
Proof. reflexivity. Qed.

Lemma extends_refl (w : World F) : extends w w.
Proof. split; auto. exists []. rewrite app_nil_r. reflexivity. Qed.

Lemma extends_trans (w1 w2 w3 : World F) : extends w1 w2 → extends w2 w3 → extends w1 w3.
Proof.
  intros [V1 C1 L1 [h1 H1]] [V2 C2 L2 [h2 H2]]. split; try congruence; auto.
  exists (h1 ++ h2). rewrite H2, H1, app_assoc. reflexivity.
Qed.

Lemma extends_setStatus n s (w : World F) : extends w (setStatus n s w).
Proof.
  split; try reflexivity; [|eexists; reflexivity].
  intros m [x Hx]. unfold claimed. simpl.
  destruct (decide (n = m)) as [->|Hne].
  - rewrite lookup_insert_eq. eauto.
  - rewrite lookup_insert_ne by assumption. eauto.
Qed.

Lemma extends_record eff (w : World F) : extends w (record eff w).
Proof. split; try reflexivity; [auto|eexists; reflexivity]. Qed.

Lemma extends_setClosure c (w : World F) : extends w (setClosure c w).
Proof. split; try reflexivity; [auto|]. exists []. simpl. rewrite app_nil_r. reflexivity. Qed.

Lemma run_extends (t : Task F) : ∀ w, extends w (run t w).1.
Proof.
  induction t as [|e|n k IH|n s k IH|v m k IH|k IH|f d k IH|op k IH|ts k IHts IHk]
    using Task_ind'; intros w; simpl.
  - apply extends_refl.
  - apply extends_refl.
  - apply IH.
  - eapply extends_trans; [apply extends_setStatus|apply IH].
  - destruct (v && negb (_verbose w)); [apply IH|].
    eapply extends_trans; [apply extends_record|apply IH].
  - apply IH.
  - destruct (f d (closure w)) as [b c].
    eapply extends_trans; [apply (extends_setClosure c)|apply IH].
  - apply extends_record.
  - fold (runAll ts w). clear IHk.
    assert (H : extends w (runAll ts w).1).
    { revert w. induction IHts as [|t ts Ht _ IH]; intros w; simpl; [apply extends_refl|].
      specialize (Ht w). destruct (run t w) as [w1 p]. simpl in Ht.
      specialize (IH w1). destruct (runAll ts w1) as [w2 ps]. simpl in *.
      eapply extends_trans; eassumption. }
    destruct (runAll ts w) as [w' ps]. exact H.
Qed.

Lemma step_extends (c c' : World F * Pending F) : step c c' → extends c.1 c'.1.
Proof.
  induction 1; simpl in *; auto using extends_refl.
  - apply run_extends.
  - apply run_extends.
Qed.

Lemma steps_extends (c c' : World F * Pending F) : rtc step c c' → extends c.1 c'.1.
Proof.
  induction 1; [apply extends_refl|].
  eapply extends_trans; [apply step_extends|]; eassumption.
Qed.

Lemma loadPackage_unfold stack' packageName outputDirectory loadDeps writeFiles
    (filterDepFunc : option (string → F → bool * F)) :
  loadPackage render (S stack') packageName outputDirectory loadDeps writeFiles filterDepFunc
  = LoadingHas packageName (fun claimed =>
      if claimed then Return
      else Log true ("Loading package " +:+ packageName)
             (LoadingSet packageName LOADING
                (loadPackageClaimed render stack' packageName outputDirectory
                                    loadDeps writeFiles filterDepFunc))).
Proof. reflexivity. Qed.

Lemma run_loadPackage_unclaimed stack' packageName outputDirectory loadDeps writeFiles
    (filterDepFunc : option (string → F → bool * F)) w :
  _loadingPkgs w !! packageName = None →
  run (loadPackage render (S stack') packageName outputDirectory loadDeps writeFiles
                   filterDepFunc) w
  = run (loadPackageClaimed render stack' packageName outputDirectory loadDeps writeFiles
                            filterDepFunc)
        (setStatus packageName LOADING (logged ("Loading package " +:+ packageName) w)).
Proof.
  intros Hfree. rewrite loadPackage_unfold.
  change (run (LoadingHas packageName ?k) w)
    with (run (k (bool_decide (is_Some (_loadingPkgs w !! packageName)))) w).
  rewrite bool_decide_eq_false_2 by (rewrite Hfree; apply is_Some_None).
  reflexivity.
Qed.

Lemma run_loadPackage_claimed stack' packageName outputDirectory loadDeps writeFiles
    (filterDepFunc : option (string → F → bool * F)) w :
  is_Some (_loadingPkgs w !! packageName) →
  run (loadPackage render (S stack') packageName outputDirectory loadDeps writeFiles
                   filterDepFunc) w
  = (w, Resolved).
Proof.
  intros Hc. rewrite loadPackage_unfold.
  change (run (LoadingHas packageName ?k) w)
    with (run (k (bool_decide (is_Some (_loadingPkgs w !! packageName)))) w).
  rewrite bool_decide_eq_true_2 by assumption. reflexivity.
Qed.

(** C6.  A call of [loadPackage] for a package that already has a load
    status returns at once: the promise is resolved without a suspension,
    and the world is the one the call started in, so no fs call was issued,
    nothing was logged and neither the load-state map nor the cache
    changed. *)
Theorem loadPackage_reentry_is_noop
    (stack : nat) (packageName : string) (outputDirectory : list string)
    (loadDeps writeFiles : bool) (filterDepFunc : option (string → F → bool * F))
    (w : World F) :
  is_Some (_loadingPkgs w !! packageName) →
  run (loadPackage render (S stack) packageName outputDirectory loadDeps writeFiles
                   filterDepFunc) w
  = (w, Resolved).
Proof. apply run_loadPackage_claimed. Qed.

(** *** Tasks that leave the status of a claimed package alone *)

Lemma kept_refl quiet name (w : World F) : kept quiet name w w.
Proof. split; auto. Qed.

Lemma kept_trans quiet name (w1 w2 w3 : World F) :
  kept quiet name w1 w2 → kept quiet name w2 w3 → kept quiet name w1 w3.
Proof. intros [A1 B1] [A2 B2]. split; [congruence|]. intros q. rewrite B2, B1; auto. Qed.

Lemma kept_claimed quiet name (w w' : World F) : kept quiet name w w' → claimed w name → claimed w' name.
Proof. intros [A _]. unfold claimed. rewrite A. auto. Qed.

Lemma fsOps_snoc_other h eff :
  (∀ op, eff ≠ EffFs op) → fsOps (h ++ [eff]) = fsOps h.
Proof.
  intros Hne. unfold fsOps. rewrite omap_app. simpl.
  destruct eff; try (rewrite app_nil_r; reflexivity). exfalso. eapply Hne. reflexivity.
Qed.

Lemma kept_setStatus quiet name n s (w : World F) : n ≠ name → kept quiet name w (setStatus n s w).
Proof.
  intros Hne. split; simpl.
  - apply lookup_insert_ne. assumption.
  - intros _. apply fsOps_snoc_other. discriminate.
Qed.

Lemma kept_log quiet name m (w : World F) : kept quiet name w (record (EffLog m) w).
Proof. split; simpl; [reflexivity|]. intros _. apply fsOps_snoc_other. discriminate. Qed.

Lemma kept_fs name op (w : World F) : kept false name w (record (EffFs op) w).
Proof. split; simpl; [reflexivity|discriminate]. Qed.

Lemma kept_setClosure quiet name c (w : World F) : kept quiet name w (setClosure c w).
Proof. split; simpl; auto. Qed.

Lemma run_keeps quiet name (t : Task F) :
  keeps quiet name t → ∀ w, claimed w name →
  kept quiet name w (run t w).1 ∧ keepsP quiet name (run t w).2.
Proof.
  induction t as [|e|n k IH|n s k IH|v m k IH|k IH|f d k IH|op k IH|ts k IHts IHk]
    using Task_ind'; intros Hk w Hc; inversion Hk; subst; simpl.
  - split; [apply kept_refl|constructor].
  - split; [apply kept_refl|constructor].
  - rewrite bool_decide_eq_true_2 by exact Hc. auto.
  - auto.
  - destruct (IH ltac:(assumption) (setStatus n s w)) as [A B].
    { eapply kept_claimed; [apply (kept_setStatus quiet)|]; eassumption. }
    split; [|exact B]. eapply kept_trans; [apply kept_setStatus|]; eassumption.
  - destruct (v && negb (_verbose w)); [auto|].
    destruct (IH ltac:(assumption) (record (EffLog m) w)) as [A B].
    { eapply kept_claimed; [apply (kept_log quiet)|]; eassumption. }
    split; [|exact B]. eapply kept_trans; [apply kept_log|]; eassumption.
  - auto.
  - destruct (f d (closure w)) as [b c].
    destruct (IH b ltac:(auto) (setClosure c w)) as [A B].
    { eapply kept_claimed; [apply (kept_setClosure quiet)|]; eassumption. }
    split; [|exact B]. eapply kept_trans; [apply kept_setClosure|]; eassumption.
  - split; [apply kept_fs|constructor; assumption].
  - fold (runAll ts w).
    assert (H : kept quiet name w (runAll ts w).1 ∧ Forall (keepsP quiet name) (runAll ts w).2).
    { clear IHk Hk. revert w Hc.
      induction IHts as [|t ts Ht _ IH]; intros w Hc; simpl.
      - split; [apply kept_refl|constructor].
      - match goal with H : Forall _ (_ :: _) |- _ => apply Forall_cons in H as [Hk1 Hk2] end.
        destruct (Ht Hk1 w Hc) as [A B]. destruct (run t w) as [w1 p]. simpl in A, B.
        destruct (IH Hk2 w1) as [A' B']; [eapply kept_claimed; eassumption|].
        destruct (runAll ts w1) as [w2 ps]. simpl in *.
        split; [eapply kept_trans; eassumption|constructor; assumption]. }
    destruct (runAll ts w) as [w' ps]. simpl in *. destruct H as [A B].
    split; [exact A|constructor; assumption].
Qed.

Lemma step_keeps quiet name (c c' : World F * Pending F) :
  step c c' → keepsP quiet name c.2 → claimed c.1 name →
  kept quiet name c.1 c'.1 ∧ keepsP quiet name c'.2.
Proof.
  induction 1 as [k res w|ps k w Hall|ps k w p e Hin Hrej|ps1 p ps2 k w w' p' Hstep IH
                 |ps1 p ps2 e w w' p' Hstep IH]; simpl in *; intros Hk Hc.
  - inversion Hk; subst. apply run_keeps; auto.
  - inversion Hk; subst. apply run_keeps; auto.
  - inversion Hk; subst. split; [apply kept_refl|constructor; assumption].
  - inversion Hk as [| | |ps' k' Hps Hkk|]; subst.
    apply Forall_app in Hps as [H1 H2]. apply Forall_cons in H2 as [Hp H2].
    destruct (IH Hp Hc) as [A B]. split; [exact A|].
    constructor; [|assumption]. apply Forall_app. split; [assumption|].
    constructor; assumption.
  - inversion Hk as [| | | |ps' e' Hps]; subst.
    apply Forall_app in Hps as [H1 H2]. apply Forall_cons in H2 as [Hp H2].
    destruct (IH Hp Hc) as [A B]. split; [exact A|].
    constructor. apply Forall_app. split; [assumption|]. constructor; assumption.
Qed.

Lemma steps_keeps quiet name (c c' : World F * Pending F) :
  rtc step c c' → keepsP quiet name c.2 → claimed c.1 name →
  kept quiet name c.1 c'.1 ∧ keepsP quiet name c'.2.
Proof.
  induction 1 as [c|c1 c2 c3 H12 H23 IH]; intros Hk Hc; [split; [apply kept_refl|exact Hk]|].
  destruct (step_keeps quiet name _ _ H12 Hk Hc) as [A B].
  destruct (IH B (kept_claimed _ _ _ _ A Hc)) as [A' B'].
  split; [eapply kept_trans; eassumption|exact B'].
Qed.

Lemma keeps_await quiet name (t k : Task F) :
  keeps quiet name t → keeps quiet name k → keeps quiet name (await t k).
Proof. intros Ht Hk. constructor; [repeat constructor; exact Ht|exact Hk]. Qed.

Lemma keeps_withPackage quiet name packageName (k : PackageEntry → Task F) :
  (∀ e, keeps quiet name (k e)) → keeps quiet name (withPackage packageName k).
Proof.
  intros Hk. unfold withPackage. constructor. intros c.
  destruct (prop c packageName); [apply Hk|constructor].
Qed.

Lemma keeps_writeFile name filepath data : keeps false name (@writeFile F filepath data).
Proof. constructor; [reflexivity|]. intros [code|]; constructor. Qed.

Lemma keeps_createLocal name dirPath : keeps false name (@createLocal F dirPath).
Proof.
  constructor; [reflexivity|]. intros [code|]; [|constructor].
  destruct (_ || _); constructor.
Qed.

Lemma keeps_createLocals name paths : ∀ curPath, keeps false name (@createLocals F curPath paths).
Proof.
  induction paths as [|p paths IH]; intros curPath; simpl; [constructor|].
  apply keeps_await; [apply keeps_createLocal|apply IH].
Qed.

Lemma keeps_createIndex name names directory :
  keeps false name (@createIndex F render names directory).
Proof. apply keeps_writeFile. Qed.

Lemma keeps_initPackageWrite name packageName jsMsgDir :
  keeps false name (@initPackageWrite F render packageName jsMsgDir).
Proof.
  unfold initPackageWrite, createDirectory.
  apply keeps_await; [apply keeps_createLocals|].
  apply keeps_withPackage. intros e. cbv beta zeta.
  assert (Hlast : keeps false name
            (await (@createPackageIndex F render packageName (jsMsgDir ++ [packageName]))
                   Return)).
  { apply keeps_await; [|constructor].
    apply keeps_withPackage. intros e'. apply keeps_writeFile. }
  assert (Hsrv : keeps false name
            (if packageHasServices e
             then await (createLocals [""] ((jsMsgDir ++ [packageName]) ++ ["srv"]))
                    (await (@createServiceIndex F render packageName
                              ((jsMsgDir ++ [packageName]) ++ ["srv"]))
                       (await (@createPackageIndex F render packageName
                                 (jsMsgDir ++ [packageName])) Return))
             else await (@createPackageIndex F render packageName
                           (jsMsgDir ++ [packageName])) Return)).
  { destruct (packageHasServices e); [|exact Hlast].
    apply keeps_await; [apply keeps_createLocals|].
    apply keeps_await; [|exact Hlast].
    apply keeps_withPackage. intros e'. apply keeps_createIndex. }
  destruct (_ || _); [|exact Hsrv].
  apply keeps_await; [apply keeps_createLocals|].
  apply keeps_await; [|exact Hsrv].
  apply keeps_withPackage. intros e'. apply keeps_createIndex.
Qed.

Lemma keeps_writePackageMessages name packageName jsMsgDir :
  keeps false name (@writePackageMessages F packageName jsMsgDir).
Proof.
  apply keeps_withPackage. intros e. cbv beta zeta.
  match goal with |- context [if ?b then _ else _] => destruct b end; [|constructor].
  constructor. constructor; [|constructor].
  apply Forall_fmap, Forall_forall. intros [n x] _. constructor. apply keeps_writeFile.
Qed.

Lemma keeps_writePackageServices name packageName jsMsgDir :
  keeps false name (@writePackageServices F packageName jsMsgDir).
Proof.
  apply keeps_withPackage. intros e. cbv beta zeta.
  match goal with |- context [if ?b then _ else _] => destruct b end; [|constructor].
  constructor. constructor; [|constructor].
  apply Forall_fmap, Forall_forall. intros [n x] _. constructor. apply keeps_writeFile.
Qed.

Lemma keeps_writePhase name packageName outputDirectory :
  packageName ≠ name → keeps false name (@writePhase F render packageName outputDirectory).
Proof.
  intros Hne. unfold writePhase.
  apply keeps_await; [apply keeps_initPackageWrite|].
  apply keeps_await; [apply keeps_writePackageMessages|].
  apply keeps_await; [apply keeps_writePackageServices|].
  constructor; [assumption|]. constructor. constructor.
Qed.

Lemma keeps_filterDeps quiet name f deps : ∀ (k : list string → Task F),
  (∀ l, keeps quiet name (k l)) → keeps quiet name (filterDeps f deps k).
Proof.
  induction deps as [|d deps IH]; intros k Hk; simpl; [apply Hk|].
  constructor. intros b. apply IH. intros l. apply Hk.
Qed.

(** After its claim, a call with the members [calls] of its [Promise.all]
    keeping [name] keeps it too, unless it is the one that will mark
    [name] loaded. *)
Lemma keeps_loadPackageClaimed quiet name stack' packageName outputDirectory
    loadDeps writeFiles (filterDepFunc : option (string → F → bool * F)) :
  (∀ depName, keeps quiet name
     (loadPackage render stack' depName outputDirectory loadDeps writeFiles filterDepFunc)) →
  (writeFiles = true → quiet = false ∧ packageName ≠ name) →
  keeps quiet name
    (loadPackageClaimed render stack' packageName outputDirectory loadDeps writeFiles
                        filterDepFunc).
Proof.
  intros Hcalls Hw. unfold loadPackageClaimed.
  assert (Hafter : keeps quiet name
            (if writeFiles then @writePhase F render packageName outputDirectory else Return)).
  { destruct writeFiles; [|constructor].
    destruct (Hw eq_refl) as [-> Hne]. apply keeps_writePhase. assumption. }
  destruct loadDeps; [|exact Hafter].
  constructor. intros cache.
  destruct (_ ≫= _) as [dependencies|e]; [|constructor].
  assert (Hspawn : ∀ l, keeps quiet name
            (AwaitAll ((fun depName =>
                          loadPackage render stack' depName outputDirectory true writeFiles
                                      filterDepFunc) <$> l)
                      (if writeFiles then @writePhase F render packageName outputDirectory
                       else Return))).
  { intros l. constructor; [|exact Hafter].
    apply Forall_fmap, Forall_forall. intros d _. apply Hcalls. }
  destruct filterDepFunc as [f|]; [apply keeps_filterDeps|]; apply Hspawn.
Qed.

(** Every call of [loadPackage] leaves the status of a claimed package
    alone; a call with [writeFiles] off issues no fs call. *)
Lemma keeps_loadPackage quiet name outputDirectory loadDeps writeFiles
    (filterDepFunc : option (string → F → bool * F)) :
  (writeFiles = true → quiet = false) →
  ∀ stack packageName,
    keeps quiet name
      (loadPackage render stack packageName outputDirectory loadDeps writeFiles filterDepFunc).
Proof.
  intros Hq. induction stack as [|stack' IH]; intros packageName; [constructor|].
  rewrite loadPackage_unfold.
  destruct (decide (packageName = name)) as [->|Hne].
  - apply keeps_Has_same. constructor.
  - apply keeps_Has. intros [|]; [constructor|].
    constructor. constructor; [assumption|].
    apply keeps_loadPackageClaimed; [exact IH|]. intros Hw. auto.
Qed.

Lemma runAll_keeps quiet name (ts : list (Task F)) :
  Forall (keeps quiet name) ts → ∀ w, claimed w name →
  kept quiet name w (runAll ts w).1 ∧ Forall (keepsP quiet name) (runAll ts w).2.
Proof.
  intros Hts w Hc.
  assert (Hk : keeps quiet name (AwaitAll ts Return)) by (constructor; [assumption|constructor]).
  destruct (run_keeps _ _ _ Hk w Hc) as [A B]. rewrite run_AwaitAll in A, B.
  destruct (runAll ts w) as [w' ps]. simpl in *. split; [exact A|].
  inversion B; subst. assumption.
Qed.

Lemma run_filterDeps_kept quiet name f deps : ∀ (k : list string → Task F) w,
  (∀ l w', claimed w' name → kept quiet name w' (run (k l) w').1) →
  claimed w name → kept quiet name w (run (filterDeps f deps k) w).1.
Proof.
  induction deps as [|d deps IH]; intros k w Hk Hc; simpl; [apply Hk; assumption|].
  destruct (f d (closure w)) as [b c].
  eapply kept_trans; [apply (kept_setClosure quiet name c)|].
  apply IH; [intros l w' Hc'; apply Hk; assumption|].
  eapply kept_claimed; [apply (kept_setClosure quiet)|]; eassumption.
Qed.

(** Up to its first suspension, a call that has claimed [packageName]
    leaves that status as it is. *)
Lemma run_loadPackageClaimed_kept stack' packageName outputDirectory loadDeps writeFiles
    (filterDepFunc : option (string → F → bool * F)) w :
  claimed w packageName →
  kept false packageName w
    (run (loadPackageClaimed render stack' packageName outputDirectory loadDeps writeFiles
                             filterDepFunc) w).1.
Proof.
  intros Hc. unfold loadPackageClaimed. destruct loadDeps.
  - simpl. destruct (_ ≫= _) as [dependencies|e]; [|apply kept_refl].
    assert (Hspawn : ∀ l w', claimed w' packageName →
              kept false packageName w'
                (run (AwaitAll ((fun depName =>
                                   loadPackage render stack' depName outputDirectory true
                                               writeFiles filterDepFunc) <$> l)
                               (if writeFiles
                                then @writePhase F render packageName outputDirectory
                                else Return)) w').1).
    { intros l w' Hc'. rewrite run_AwaitAll.
      pose proof (runAll_keeps false packageName
                    ((fun depName => loadPackage render stack' depName outputDirectory true
                                                 writeFiles filterDepFunc) <$> l)) as H.
      destruct (H ltac:(apply Forall_fmap, Forall_forall; intros d _;
                        apply keeps_loadPackage; reflexivity) w' Hc') as [A _].
      destruct (runAll _ w') as [w2 ps]. exact A. }
    destruct filterDepFunc as [f|]; [apply run_filterDeps_kept|apply Hspawn]; assumption.
  - destruct writeFiles; [|apply kept_refl].
    assert (Hfst : ∀ (t k : Task F) w0, (run (await t k) w0).1 = (run t w0).1).
    { intros t k w0. unfold await. rewrite run_AwaitAll. simpl.
      destruct (run t w0). reflexivity. }
    unfold writePhase, initPackageWrite. rewrite !Hfst.
    apply run_keeps; [apply keeps_createLocals|exact Hc].
Qed.

(** C7.  A call of [loadPackage] that passes the initial check sets the
    status of its package to loading before anything else but a log line:
    in the effects of the call up to its first suspension, the status
    change comes first and every fs call issued comes after it, and at that
    suspension the status is loading.  From then on, whatever the parked
    functions do, a call for the same package finds it claimed and returns
    at once, leaving the world as it is. *)
Theorem loadPackage_claims_before_suspending
    (stack : nat) (packageName : string) (outputDirectory : list string)
    (loadDeps writeFiles : bool) (filterDepFunc : option (string → F → bool * F))
    (w : World F) :
  _loadingPkgs w !! packageName = None →
  let c := run (loadPackage render (S stack) packageName outputDirectory loadDeps writeFiles
                            filterDepFunc) w in
  (∃ pre post, history c.1 = history w ++ pre ++ EffSetStatus packageName LOADING :: post
               ∧ Forall isLog pre) ∧
  _loadingPkgs c.1 !! packageName = Some LOADING ∧
  (∀ (pool : Pending F) c2, rtc step (c.1, pool) c2 →
     ∀ stack2 outputDirectory2 loadDeps2 writeFiles2 filterDepFunc2,
       run (loadPackage render (S stack2) packageName outputDirectory2 loadDeps2 writeFiles2
                        filterDepFunc2) c2.1
       = (c2.1, Resolved)).
Proof.
  intros Hfree c. subst c. rewrite (run_loadPackage_unclaimed _ _ _ _ _ _ _ Hfree).
  set (w0 := logged ("Loading package " +:+ packageName) w).
  set (w1 := setStatus packageName LOADING w0).
  set (rest := loadPackageClaimed render stack packageName outputDirectory loadDeps
                                  writeFiles filterDepFunc).
  assert (Hc1 : claimed w1 packageName).
  { unfold claimed, w1. simpl. rewrite lookup_insert_eq. eauto. }
  assert (Hstatus : _loadingPkgs (run rest w1).1 !! packageName = Some LOADING).
  { destruct (run_loadPackageClaimed_kept stack packageName outputDirectory loadDeps
                writeFiles filterDepFunc w1 Hc1) as [A _].
    fold rest in A. rewrite A. unfold w1. simpl. apply lookup_insert_eq. }
  split; [|split; [exact Hstatus|]].
  - destruct (ext_history _ _ (run_extends rest w1)) as [post Hpost].
    exists (if negb (_verbose w) then []
            else [EffLog ("Loading package " +:+ packageName)]), post.
    split.
    + rewrite Hpost. unfold w1, w0, logged. simpl.
      destruct (negb (_verbose w)); simpl; rewrite <- ?app_assoc; reflexivity.
    + destruct (negb (_verbose w)); repeat constructor.
  - intros pool c2 Hsteps stack2 out2 ld2 wf2 filt2.
    apply loadPackage_reentry_is_noop.
    apply (ext_claimed _ _ (steps_extends _ _ Hsteps)). simpl.
    unfold claimed. rewrite Hstatus. eauto.
Qed.

(** *** Calls that only wait for their dependencies *)

Lemma awaited_AwaitingAll (ps : list (Pending F)) k :
  awaited (AwaitingAll ps k) = S (awaitedAll ps).
Proof. reflexivity. Qed.

Lemma awaited_Orphaning (ps : list (Pending F)) e :
  awaited (Orphaning ps e) = awaitedAll ps.
Proof. reflexivity. Qed.

Lemma awaitedAll_app (ps1 ps2 : list (Pending F)) :
  awaitedAll (ps1 ++ ps2) = (awaitedAll ps1 + awaitedAll ps2)%nat.
Proof. induction ps1 as [|p ps1 IH]; simpl; [reflexivity|]. rewrite IH. lia. Qed.

Lemma run_idle (t : Task F) : idleTask t → ∀ w, idle (run t w).2.
Proof.
  induction t as [|e|n k IH|n s k IH|v m k IH|k IH|f d k IH|op k IH|ts k IHts IHk]
    using Task_ind'; intros Ht w; inversion Ht; subst; simpl; try (constructor; fail); auto.
  - destruct (f d (closure w)) as [b c]. auto.
  - fold (runAll ts w).
    assert (H : Forall idle (runAll ts w).2).
    { clear Ht IHk. revert w.
      induction IHts as [|t ts Hrun _ IH]; intros w; simpl; [constructor|].
      match goal with H : Forall _ (_ :: _) |- _ => apply Forall_cons in H as [Hk1 Hk2] end.
      specialize (Hrun Hk1 w). destruct (run t w) as [w1 p]. simpl in Hrun.
      specialize (IH Hk2 w1). destruct (runAll ts w1) as [w2 ps]. simpl in *.
      constructor; assumption. }
    destruct (runAll ts w) as [w' ps]. simpl in *. constructor. assumption.
Qed.

Lemma idleTask_filterDeps f deps : ∀ (k : list string → Task F),
  (∀ l, idleTask (k l)) → idleTask (filterDeps f deps k).
Proof.
  induction deps as [|d deps IH]; intros k Hk; simpl; [apply Hk|].
  constructor. intros b. apply IH. intros l. apply Hk.
Qed.

Lemma idleTask_loadPackage outputDirectory loadDeps
    (filterDepFunc : option (string → F → bool * F)) :
  ∀ stack packageName,
    idleTask (loadPackage render stack packageName outputDirectory loadDeps false filterDepFunc).
Proof.
  induction stack as [|stack' IH]; intros packageName; [constructor|].
  rewrite loadPackage_unfold. constructor. intros [|]; [constructor|].
  constructor. constructor. unfold loadPackageClaimed.
  destruct loadDeps; [|constructor].
  constructor. intros cache. destruct (_ ≫= _) as [dependencies|e]; [|constructor].
  assert (Hspawn : ∀ l, idleTask
            (AwaitAll ((fun depName =>
                          loadPackage render stack' depName outputDirectory true false
                                      filterDepFunc) <$> l) Return)).
  { intros l. constructor. apply Forall_fmap, Forall_forall. intros d _. apply IH. }
  destruct filterDepFunc as [f|]; [apply idleTask_filterDeps|]; apply Hspawn.
Qed.

Lemma step_idle (c c' : World F * Pending F) :
  step c c' → idle c.2 → idle c'.2 ∧ (awaited c'.2 < awaited c.2)%nat.
Proof.
  induction 1 as [k res w|ps k w Hall|ps k w p e Hin Hrej|ps1 p ps2 k w w' p' Hstep IH
                 |ps1 p ps2 e w w' p' Hstep IH]; simpl fst; simpl snd; intros Hi.
  - inversion Hi.
  - inversion Hi; subst. simpl. split; [constructor|lia].
  - inversion Hi; subst. split; [constructor; assumption|].
    rewrite awaited_AwaitingAll, awaited_Orphaning. lia.
  - inversion Hi as [| |ps' Hps|]; subst.
    apply Forall_app in Hps as [H1 H2]. apply Forall_cons in H2 as [Hp H2].
    destruct (IH Hp) as [A B]. simpl in A, B. split.
    + constructor. apply Forall_app. split; [assumption|]. constructor; assumption.
    + rewrite !awaited_AwaitingAll, !awaitedAll_app. simpl. lia.
  - inversion Hi as [| | |ps' e' Hps]; subst.
    apply Forall_app in Hps as [H1 H2]. apply Forall_cons in H2 as [Hp H2].
    destruct (IH Hp) as [A B]. simpl in A, B. split.
    + constructor. apply Forall_app. split; [assumption|]. constructor; assumption.
    + rewrite !awaited_Orphaning, !awaitedAll_app. simpl. lia.
Qed.

Lemma steps_idle (c c' : World F * Pending F) : rtc step c c' → idle c.2 → idle c'.2.
Proof.
  induction 1 as [c|c1 c2 c3 H12 H23 IH]; intros Hi; [exact Hi|].
  apply IH. eapply step_idle; eassumption.
Qed.

(** Every execution of an idle promise is finite. *)
Lemma idle_sn (c : World F * Pending F) : idle c.2 → sn step c.
Proof.
  remember (awaited c.2) as n eqn:Hn. revert c Hn.
  induction n as [n IH] using lt_wf_ind. intros c Hn Hi.
  constructor. intros c' Hstep. unfold flip in Hstep.
  destruct (step_idle _ _ Hstep Hi) as [Hi' Hlt].
  eapply IH; [|reflexivity|exact Hi']. lia.
Qed.

Lemma idle_members_progress (ps : list (Pending F)) :
  Forall (fun p => settled p ∨ ∀ w, red step (w, p)) ps →
  Forall (fun p => p = Resolved) ps ∨
  (∃ p e, p ∈ ps ∧ rejection p = Some e) ∨
  (∃ ps1 p ps2, ps = ps1 ++ p :: ps2 ∧ ∀ w, red step (w, p)).
Proof.
  induction 1 as [|p ps Hp _ IH]; [left; constructor|].
  destruct Hp as [[->|[e He]]|Hred].
  - destruct IH as [IH|[(q & e & Hq & He)|(ps1 & q & ps2 & -> & Hq)]].
    + left. constructor; auto.
    + right. left. exists q, e. split; [apply elem_of_cons; auto|assumption].
    + right. right. exists (Resolved :: ps1), q, ps2. auto.
  - right. left. exists p, e. split; [apply elem_of_cons; auto|assumption].
  - right. right. exists [], p, ps. auto.
Qed.

(** An idle promise that is not settled can take a step. *)
Lemma idle_progress (p : Pending F) : idle p → settled p ∨ ∀ w, red step (w, p).
Proof.
  remember (awaited p) as n eqn:Hn. revert p Hn.
  induction n as [n IH] using lt_wf_ind. intros p Hn Hi.
  destruct Hi as [|e|ps Hps|ps e Hps].
  - left. left. reflexivity.
  - left. right. simpl. eauto.
  - right. intros w.
    assert (Hmem : Forall (fun p => settled p ∨ ∀ w, red step (w, p)) ps).
    { rewrite awaited_AwaitingAll in Hn. clear w.
      assert (Hle : (awaitedAll ps < n)%nat) by lia. clear Hn.
      induction Hps as [|q ps Hq _ IHps]; [constructor|]. simpl in Hle.
      constructor; [eapply IH; [|reflexivity|exact Hq]; lia|apply IHps; lia]. }
    destruct (idle_members_progress ps Hmem)
      as [Hall|[(q & e & Hq & He)|(ps1 & q & ps2 & -> & Hq)]].
    + eexists. apply step_all_resolved. assumption.
    + eexists. eapply step_all_rejected; eassumption.
    + destruct (Hq w) as [[w' q'] Hstep]. eexists. apply step_all_member. exact Hstep.
  - left. right. simpl. eauto.
Qed.

(** C10.  A call of [loadPackage] with [writeFiles] off that passes the
    initial check leaves its package loading for good.  The call completes:
    without [loadDeps] it returns without a suspension, and in general every
    execution is finite and ends with the promise settled.  In every state
    its execution reaches, alone or next to any other calls of [loadPackage]
    in flight, the status of the package is loading; its own execution
    issues no fs call; and a later call for the package returns at once with
    the world unchanged. *)
Theorem loadPackage_without_writes_stays_loading
    (stack : nat) (packageName : string) (outputDirectory : list string)
    (loadDeps : bool) (filterDepFunc : option (string → F → bool * F))
    (w : World F) :
  _loadingPkgs w !! packageName = None →
  let c := run (loadPackage render (S stack) packageName outputDirectory loadDeps false
                            filterDepFunc) w in
  _loadingPkgs c.1 !! packageName = Some LOADING ∧
  (loadDeps = false → c.2 = Resolved) ∧
  sn step c ∧
  (∀ c2, rtc step c c2 → nf step c2 → settled c2.2) ∧
  (∀ c2, rtc step c c2 →
     _loadingPkgs c2.1 !! packageName = Some LOADING ∧
     fsOps (history c2.1) = fsOps (history w) ∧
     ∀ stack2 outputDirectory2 loadDeps2 writeFiles2 filterDepFunc2,
       run (loadPackage render (S stack2) packageName outputDirectory2 loadDeps2 writeFiles2
                        filterDepFunc2) c2.1
       = (c2.1, Resolved)) ∧
  (∀ (others : list (Pending F)) (k : Task F) c2,
     Forall (keepsP false packageName) others → keeps false packageName k →
     rtc step (c.1, AwaitingAll (c.2 :: others) k) c2 →
     _loadingPkgs c2.1 !! packageName = Some LOADING).
Proof.
  intros Hfree c.
  assert (Hidle : idle c.2).
  { apply run_idle, idleTask_loadPackage. }
  assert (Hsn : sn step c) by (apply idle_sn; exact Hidle).
  assert (Hnf : ∀ c2, rtc step c c2 → nf step c2 → settled c2.2).
  { intros [w2 p2] Hsteps Hnf.
    destruct (idle_progress p2 (steps_idle _ _ Hsteps Hidle)) as [Hs|Hred]; [exact Hs|].
    exfalso. apply Hnf, Hred. }
  revert Hsn Hnf. clear Hidle. subst c.
  rewrite (run_loadPackage_unclaimed _ _ _ _ _ _ _ Hfree).
  set (w0 := logged ("Loading package " +:+ packageName) w).
  set (w1 := setStatus packageName LOADING w0).
  set (rest := loadPackageClaimed render stack packageName outputDirectory loadDeps
                                  false filterDepFunc).
  intros Hsn Hnf.
  assert (Hc1 : claimed w1 packageName).
  { unfold claimed, w1. simpl. rewrite lookup_insert_eq. eauto. }
  assert (Hw1 : _loadingPkgs w1 !! packageName = Some LOADING)
    by (unfold w1; simpl; apply lookup_insert_eq).
  assert (Hfs1 : fsOps (history w1) = fsOps (history w)).
  { unfold w1, w0, logged. simpl. rewrite fsOps_snoc_other by discriminate.
    destruct (negb (_verbose w)); [reflexivity|]. simpl.
    apply fsOps_snoc_other. discriminate. }
  assert (Hrest : keeps true packageName rest).
  { apply keeps_loadPackageClaimed; [|discriminate].
    intros depName. apply keeps_loadPackage. discriminate. }
  destruct (run_keeps true packageName rest Hrest w1 Hc1) as [[A1 A2] B].
  assert (Hrest' : keeps false packageName rest).
  { apply keeps_loadPackageClaimed; [|discriminate].
    intros depName. apply keeps_loadPackage. discriminate. }
  destruct (run_keeps false packageName rest Hrest' w1 Hc1) as [_ B'].
  split; [rewrite A1; exact Hw1|]. split; [|split; [exact Hsn|split; [exact Hnf|split]]].
  - intros ->. reflexivity.
  - intros c2 Hsteps.
    destruct (steps_keeps true packageName _ _ Hsteps B) as [[C1 C2] _].
    { eapply kept_claimed; [split; eassumption|exact Hc1]. }
    assert (Hst : _loadingPkgs c2.1 !! packageName = Some LOADING) by congruence.
    split; [exact Hst|]. split; [rewrite C2, A2 by reflexivity; exact Hfs1|].
    intros. apply loadPackage_reentry_is_noop. rewrite Hst. eauto.
  - intros others k c2 Hothers Hk Hsteps.
    destruct (steps_keeps false packageName _ _ Hsteps) as [[C1 _] _]; simpl.
    + constructor; [|exact Hk]. constructor; assumption.
    + unfold claimed. rewrite A1, Hw1. eauto.
    + simpl in C1. congruence.
Qed.
End OrchestratorFacts.

Lemma loadPackage_reentry_is_noop_witness :
  run (loadPackage test_render 5 "A" ["tmp"] true true (Some dedupFilter)) w_busy
  = (w_busy, Resolved).
Proof.
  apply (loadPackage_reentry_is_noop test_render 4 "A" ["tmp"] true true (Some dedupFilter)
                                     w_busy).
  exists LOADING. vm_compute. reflexivity.
Defined.

Lemma loadPackage_claims_before_suspending_witness :
  _loadingPkgs (run (loadPackage test_render 5 "C" ["tmp"] true true (Some dedupFilter))
                    w_fresh).1 !! "C"
  = Some LOADING.
Proof.
  refine (proj1 (proj2 (loadPackage_claims_before_suspending test_render 4 "C" ["tmp"]
                          true true (Some dedupFilter) w_fresh _))).
  vm_compute. reflexivity.
Defined.

Lemma loadPackage_without_writes_stays_loading_witness :
  _loadingPkgs (run (loadPackage test_render 5 "C" ["tmp"] false false None) w_fresh).1 !! "C"
  = Some LOADING ∧
  (run (loadPackage test_render 5 "C" ["tmp"] false false None) w_fresh).2 = Resolved.
Proof.
  destruct (loadPackage_without_writes_stays_loading test_render 4 "C" ["tmp"] false None
              w_fresh) as (Hst & Hdone & _).
  - vm_compute. reflexivity.
  - split; [exact Hst|exact (Hdone eq_refl)].
Defined.

(** ** TCPROS framing *)

Lemma byteValue_range b : 0 ≤ byteValue b < 256.
Proof.
  unfold byteValue. pose proof (Byte.to_N_bounded b). lia.
Qed.

Lemma byteValue_byteOf z : byteValue (byteOf z) = z mod 256.
Proof.
  unfold byteValue, byteOf.
  assert (Hr : 0 ≤ z mod 256 < 256) by (apply Z.mod_pos_bound; lia).
  destruct (Byte.of_N (Z.to_N (z mod 256))) as [b|] eqn:E.
  - apply Byte.to_of_N in E. simpl. rewrite E. lia.
  - apply Byte.of_N_None_iff in E. lia.
Qed.

Lemma byteOf_byteValue b : byteOf (byteValue b) = b.
Proof.
  unfold byteOf. pose proof (byteValue_range b) as Hr.
  rewrite Z.mod_small by lia. unfold byteValue. rewrite N2Z.id, Byte.of_to_N. reflexivity.
Qed.

Lemma writeUInt32LE_ok value :
  0 ≤ value < 2 ^ 32 → writeUInt32LE value = Ok (encodeUInt32LE value).
Proof.
  intros H. unfold writeUInt32LE.
  destruct (0 <=? value) eqn:E1; [|lia]. destruct (value <? 2 ^ 32) eqn:E2; [|lia].
  reflexivity.
Qed.

Lemma writeUInt32LE_raise value :
  ¬ (0 ≤ value < 2 ^ 32) → writeUInt32LE value = Raise RangeError.
Proof.
  intros H. unfold writeUInt32LE.
  destruct (0 <=? value) eqn:E1; [|reflexivity]. destruct (value <? 2 ^ 32) eqn:E2; [|reflexivity].
  lia.
Qed.

Lemma readUInt32LE_encode value rest :
  0 ≤ value < 2 ^ 32 → readUInt32LE (encodeUInt32LE value ++ rest) = Ok value.
Proof.
  intros H. unfold encodeUInt32LE. cbn [app readUInt32LE]. f_equal.
  rewrite !byteValue_byteOf.
  change (2 ^ 8) with 256. change (2 ^ 16) with (256 * 256).
  change (2 ^ 24) with (256 * 256 * 256). change (2 ^ 32) with (256 * 256 * 256 * 256) in H.
  rewrite <- !Z.div_div by lia.
  pose proof (Z.div_mod value 256 ltac:(lia)) as H0.
  pose proof (Z.div_mod (value / 256) 256 ltac:(lia)) as H1.
  pose proof (Z.div_mod (value / 256 / 256) 256 ltac:(lia)) as H2.
  assert (H3 : 0 ≤ value / 256 / 256 / 256 < 256).
  { split; [repeat apply Z.div_pos; lia|].
    repeat (apply Z.div_lt_upper_bound; [lia|]). lia. }
  rewrite (Z.mod_small (value / 256 / 256 / 256)) by lia. lia.
Qed.

Lemma encode_readUInt32LE b0 b1 b2 b3 rest value :
  readUInt32LE (b0 :: b1 :: b2 :: b3 :: rest) = Ok value →
  0 ≤ value < 2 ^ 32 ∧ encodeUInt32LE value = [b0; b1; b2; b3].
Proof.
  cbn [readUInt32LE]. intros [= <-].
  pose proof (byteValue_range b0). pose proof (byteValue_range b1).
  pose proof (byteValue_range b2). pose proof (byteValue_range b3).
  split; [lia|]. unfold encodeUInt32LE.
  change (2 ^ 8) with 256. change (2 ^ 16) with (256 * 256).
  change (2 ^ 24) with (256 * 256 * 256).
  rewrite <- !Z.div_div by lia.
  set (v1 := byteValue b1 + 256 * (byteValue b2 + 256 * byteValue b3)).
  set (v2 := byteValue b2 + 256 * byteValue b3).
  assert (E1 : (byteValue b0 + 256 * v1) / 256 = v1).
  { rewrite Z.add_comm, Z.mul_comm, Z.div_add_l by lia. rewrite Z.div_small by lia. lia. }
  assert (E2 : v1 / 256 = v2).
  { unfold v1. fold v2. rewrite Z.add_comm, Z.mul_comm, Z.div_add_l by lia.
    rewrite Z.div_small by lia. lia. }
  assert (E3 : v2 / 256 = byteValue b3).
  { unfold v2. rewrite Z.add_comm, Z.mul_comm, Z.div_add_l by lia.
    rewrite Z.div_small by lia. lia. }
  rewrite E1, E2, E3.
  assert (M0 : byteOf (byteValue b0 + 256 * v1) = b0).
  { transitivity (byteOf (byteValue b0)); [|apply byteOf_byteValue]. unfold byteOf. do 3 f_equal.
    rewrite (Z.mul_comm 256), Z.mod_add by lia. reflexivity. }
  assert (M1 : byteOf v1 = b1).
  { transitivity (byteOf (byteValue b1)); [|apply byteOf_byteValue].
    unfold byteOf, v1. fold v2. do 3 f_equal.
    rewrite (Z.mul_comm 256), Z.mod_add by lia. reflexivity. }
  assert (M2 : byteOf v2 = b2).
  { transitivity (byteOf (byteValue b2)); [|apply byteOf_byteValue].
    unfold byteOf, v2. do 3 f_equal.
    rewrite (Z.mul_comm 256), Z.mod_add by lia. reflexivity. }
  rewrite M0, M1, M2, byteOf_byteValue. reflexivity.
Qed.

Lemma byteLength_app a b : byteLength (a ++ b) = byteLength a + byteLength b.
Proof. unfold byteLength. rewrite length_app. lia. Qed.

Lemma byteLength_nonneg a : 0 ≤ byteLength a.
Proof. unfold byteLength. lia. Qed.

Lemma slice_take_drop chunk pos n :
  0 ≤ pos ≤ byteLength chunk → 0 ≤ n →
  slice chunk pos (pos + n) = take (Z.to_nat n) (drop (Z.to_nat pos) chunk).
Proof.
  intros Hpos Hn. unfold slice, relativeIndex.
  destruct (pos <? 0) eqn:E1; [lia|]. destruct (pos + n <? 0) eqn:E2; [lia|].
  rewrite (Z.min_l pos) by lia.
  destruct (Z.le_gt_cases (pos + n) (byteLength chunk)) as [Hle|Hgt].
  - rewrite Z.min_l by lia. do 2 f_equal. lia.
  - rewrite Z.min_r by lia.
    rewrite !take_ge; [reflexivity| |]; rewrite length_drop; unfold byteLength in *; lia.
Qed.

Lemma sliceFrom_drop chunk pos :
  0 ≤ pos ≤ byteLength chunk → sliceFrom chunk pos = drop (Z.to_nat pos) chunk.
Proof.
  intros Hpos. unfold sliceFrom.
  replace (byteLength chunk) with (pos + (byteLength chunk - pos)) at 1 by lia.
  rewrite slice_take_drop by lia. apply take_ge. rewrite length_drop.
  unfold byteLength in *. lia.
Qed.

Lemma Buffer_concat_exact bufs total :
  byteLength (mjoin bufs) = total → Buffer_concat bufs total = mjoin bufs.
Proof.
  intros <-. unfold Buffer_concat, byteLength. rewrite Nat2Z.id.
  rewrite take_app_le by lia. apply take_ge. lia.
Qed.

Lemma bufLen_sum bufs acc :
  foldl (fun acc bufferEntry => acc + byteLength bufferEntry) acc bufs
  = acc + byteLength (mjoin bufs).
Proof.
  revert acc. induction bufs as [|b bufs IH]; intros acc; simpl.
  - unfold byteLength. simpl. lia.
  - rewrite IH, byteLength_app. lia.
Qed.

Lemma mjoin_snoc {A} (ls : list (list A)) l : mjoin (ls ++ [l]) = mjoin ls ++ l.
Proof. rewrite join_app. simpl. rewrite app_nil_r. reflexivity. Qed.

Lemma splitHeader_encode len body rest :
  0 ≤ len < 2 ^ 32 → byteLength body = len →
  splitHeader (encodeUInt32LE len ++ body ++ rest) = Some (body, rest).
Proof.
  intros Hlen Hbody. unfold splitHeader. rewrite readUInt32LE_encode by assumption.
  change (drop 4 (encodeUInt32LE len ++ body ++ rest)) with (body ++ rest).
  rewrite byteLength_app. pose proof (byteLength_nonneg rest).
  destruct (len <=? byteLength body + byteLength rest) eqn:E; [|lia].
  unfold byteLength in Hbody.
  rewrite take_app_length' by lia. rewrite drop_app_length' by lia. reflexivity.
Qed.

Lemma splitHeader_short len body :
  0 ≤ len < 2 ^ 32 → byteLength body < len →
  splitHeader (encodeUInt32LE len ++ body) = None.
Proof.
  intros Hlen Hbody. unfold splitHeader. rewrite readUInt32LE_encode by assumption.
  change (drop 4 (encodeUInt32LE len ++ body)) with body.
  destruct (len <=? byteLength body) eqn:E; [lia|reflexivity].
Qed.

Lemma splitHeader_few bytes : (length bytes < 4)%nat → splitHeader bytes = None.
Proof.
  intros H. unfold splitHeader.
  destruct bytes as [|b0 [|b1 [|b2 [|b3 rest]]]]; simpl in *; try reflexivity. lia.
Qed.

Lemma four_bytes (hb : Buffer) :
  length hb = 4%nat → ∃ b0 b1 b2 b3, hb = [b0; b1; b2; b3].
Proof.
  destruct hb as [|b0 [|b1 [|b2 [|b3 [|b4 rest]]]]]; simpl; try discriminate. eauto.
Qed.

Ltac show_pending :=
  unfold heldBytes, flagBytes, splitFrame;
  cbn [_deserializeServiceResp _serviceRespSuccess _inBody _messageLen _messageBuffer
       mjoin list_join];
  rewrite <- ?app_assoc; cbn [option_list option_rect app].

Lemma drop_drop_Z (chunk : Buffer) pos n :
  0 ≤ pos → 0 ≤ n →
  drop (Z.to_nat n) (drop (Z.to_nat pos) chunk) = drop (Z.to_nat (pos + n)) chunk.
Proof. intros. rewrite drop_drop. f_equal. lia. Qed.

Lemma transformStep_body chunk s pos :
  wellFormed s → _inBody s = true → 0 ≤ pos < byteLength chunk →
  ∃ s' pos' events,
    transformStep chunk s pos = Ok (s', pos', events) ∧ stepOutcome chunk s pos s' pos' events.
Proof.
  intros Hwf Hbody Hpos. destruct (wf_body s Hwf Hbody) as (Hlen & Hcons & Hle & Hflag).
  destruct s as [inBody consumed len buffer resp success]. simpl in *. subst inBody.
  unfold transformStep. cbn [_inBody _messageLen _messageConsumed _messageBuffer].
  set (remaining := len - consumed).
  destruct (remaining + pos <=? byteLength chunk) eqn:Hfit.
  - apply Z.leb_le in Hfit.
    assert (Hrem : 0 ≤ remaining) by (unfold remaining; lia).
    rewrite slice_take_drop by lia.
    set (part := take (Z.to_nat remaining) (drop (Z.to_nat pos) chunk)).
    assert (Hpart : byteLength part = remaining).
    { unfold part, byteLength. rewrite length_take, length_drop.
      unfold byteLength in *. lia. }
    rewrite Buffer_concat_exact
      by (rewrite mjoin_snoc, byteLength_app; unfold remaining in *; lia).
    rewrite mjoin_snoc.
    unfold emitMessage. cbn [_deserializeServiceResp _inBody _messageLen _messageConsumed
                             _messageBuffer _serviceRespSuccess].
    assert (Hsplit : splitHeader (encodeUInt32LE len ++ mjoin buffer ++ drop (Z.to_nat pos) chunk)
                     = Some (mjoin buffer ++ part, drop (Z.to_nat (pos + remaining)) chunk)).
    { rewrite <- (take_drop (Z.to_nat remaining) (drop (Z.to_nat pos) chunk)).
      fold part. rewrite drop_drop_Z by lia. rewrite (app_assoc (mjoin buffer)).
      apply splitHeader_encode; [assumption|].
      rewrite byteLength_app. unfold remaining in *. lia. }
    destruct resp.
    + destruct (Hflag eq_refl) as [b ->].
      eexists _, _, _. split; [reflexivity|].
      split; [split; simpl; [intros _; split; [lia|split; [reflexivity|intros _ _; reflexivity]]|discriminate]|].
      split; [reflexivity|]. split; [lia|]. split; [intros _ [=]|].
      split; [unfold turnsLeft; simpl; lia|].
      right. eexists. split; [reflexivity|].
      show_pending. rewrite Hsplit. reflexivity.
    + eexists _, _, _. split; [reflexivity|].
      split; [split; simpl; [intros _; split; [lia|split; [reflexivity|discriminate]]|discriminate]|].
      split; [reflexivity|]. split; [lia|]. split; [intros _ [=]|].
      split; [unfold turnsLeft; simpl; lia|].
      right. eexists. split; [reflexivity|].
      show_pending. rewrite Hsplit. reflexivity.
  - apply Z.leb_gt in Hfit.
    rewrite sliceFrom_drop by lia.
    eexists _, _, _. split; [reflexivity|].
    assert (Hd : byteLength (drop (Z.to_nat pos) chunk) = byteLength chunk - pos).
    { unfold byteLength. rewrite length_drop. unfold byteLength in *. lia. }
    split.
    { split; simpl; [discriminate|]. intros _. rewrite mjoin_snoc, byteLength_app.
      unfold remaining in *. repeat split; try lia. exact Hflag. }
    split; [reflexivity|]. split; [lia|].
    split; [intros _ _; simpl; unfold remaining in *; lia|].
    split; [unfold turnsLeft; simpl; lia|].
    left. split; [reflexivity|].
    show_pending. rewrite mjoin_snoc.
    replace (Z.to_nat (byteLength chunk)) with (length chunk) by (unfold byteLength; lia).
    rewrite drop_all, app_nil_r, <- ?app_assoc. reflexivity.
Qed.

Lemma transformStep_header_core chunk s pos :
  wellFormed s → _inBody s = false →
  (_deserializeServiceResp s = true → is_Some (_serviceRespSuccess s)) →
  0 ≤ pos ≤ byteLength chunk →
  ∃ s' pos' events,
    transformStep chunk s pos = Ok (s', pos', events) ∧
    wellFormed s' ∧ _deserializeServiceResp s' = _deserializeServiceResp s ∧
    pos ≤ pos' ≤ byteLength chunk ∧
    (pos' = byteLength chunk → waiting s') ∧
    turnsLeft chunk s' pos' ≤ turnsLeft chunk s pos ∧
    (pos < byteLength chunk → turnsLeft chunk s' pos' < turnsLeft chunk s pos) ∧
    ((events = [] ∧
      heldBytes s ++ drop (Z.to_nat pos) chunk = heldBytes s' ++ drop (Z.to_nat pos') chunk) ∨
     (∃ e, events = [e] ∧
        splitFrame (_deserializeServiceResp s) (heldBytes s ++ drop (Z.to_nat pos) chunk)
        = Some (e, heldBytes s' ++ drop (Z.to_nat pos') chunk))).
Proof.
  intros Hwf Hhead Hflag Hpos. destruct (wf_header s Hwf Hhead) as (Hlt & Hcons & _).
  destruct s as [inBody consumed len buffer resp success]. simpl in *. subst inBody consumed.
  unfold transformStep. cbn [_inBody _messageLen _messageConsumed _messageBuffer
                             _deserializeServiceResp _serviceRespSuccess].
  assert (Hcond : resp && bool_decide (success = None) = false).
  { destruct resp; [|reflexivity]. destruct (Hflag eq_refl) as [b ->].
    reflexivity. }
  rewrite Hcond. unfold mbind at 1. unfold Res_bind at 1. cbn [res_bind].
  rewrite bufLen_sum, Z.add_0_l.
  set (bufLen := byteLength (mjoin buffer)).
  assert (HbufLen : 0 ≤ bufLen < 4) by (unfold bufLen, byteLength; lia).
  assert (Hd : byteLength (drop (Z.to_nat pos) chunk) = byteLength chunk - pos).
  { unfold byteLength. rewrite length_drop. unfold byteLength in *. lia. }
  destruct (4 - bufLen <=? byteLength chunk - pos) eqn:Hfit.
  - apply Z.leb_le in Hfit.
    replace (pos + 4 - bufLen) with (pos + (4 - bufLen)) by lia.
    rewrite slice_take_drop by lia.
    set (part := take (Z.to_nat (4 - bufLen)) (drop (Z.to_nat pos) chunk)).
    assert (Hpart : byteLength part = 4 - bufLen).
    { unfold part, byteLength. rewrite length_take, length_drop.
      unfold byteLength in *. lia. }
    rewrite Buffer_concat_exact by (rewrite mjoin_snoc, byteLength_app; fold bufLen; lia).
    rewrite mjoin_snoc.
    destruct (four_bytes (mjoin buffer ++ part)) as (b0 & b1 & b2 & b3 & Hhb).
    { rewrite length_app. unfold byteLength in *. lia. }
    rewrite Hhb.
    destruct (readUInt32LE [b0; b1; b2; b3]) as [messageLen|e] eqn:Hread; [|discriminate].
    destruct (encode_readUInt32LE _ _ _ _ _ _ Hread) as [Hrange Henc].
    unfold mbind at 1. unfold Res_bind at 1. cbn [res_bind].
    assert (Hbytes : mjoin buffer ++ drop (Z.to_nat pos) chunk
                     = [b0; b1; b2; b3] ++ drop (Z.to_nat (pos + (4 - bufLen))) chunk).
    { rewrite <- Hhb, <- app_assoc. f_equal.
      rewrite <- drop_drop_Z by lia. unfold part. rewrite take_drop. reflexivity. }
    destruct ((messageLen =? 0) && (pos + (4 - bufLen) =? byteLength chunk)) eqn:Hempty.
    + apply andb_true_iff in Hempty as [H0%Z.eqb_eq Hend%Z.eqb_eq]. subst messageLen.
      unfold emitMessage. cbn [_deserializeServiceResp _inBody _messageLen _messageConsumed
                               _messageBuffer _serviceRespSuccess].
      assert (Hsplit : ∀ rest, splitHeader ([b0; b1; b2; b3] ++ rest) = Some ([], rest)).
      { intros rest. rewrite <- Henc.
        apply (splitHeader_encode 0 [] rest); [lia|reflexivity]. }
      destruct resp.
      * destruct (Hflag eq_refl) as [b ->].
        eexists _, _, _. split; [reflexivity|].
        split; [split; simpl; [intros _; split; [lia|split; [reflexivity|intros _ _; reflexivity]]
                              |discriminate]|].
        split; [reflexivity|]. split; [lia|]. split; [intros _ [=]|].
        split; [unfold turnsLeft; simpl; lia|]. split; [intros _; unfold turnsLeft; simpl; lia|].
        right. eexists. split; [reflexivity|].
        show_pending. rewrite Hbytes, Hsplit. reflexivity.
      * eexists _, _, _. split; [reflexivity|].
        split; [split; simpl; [intros _; split; [lia|split; [reflexivity|discriminate]]
                              |discriminate]|].
        split; [reflexivity|]. split; [lia|]. split; [intros _ [=]|].
        split; [unfold turnsLeft; simpl; lia|]. split; [intros _; unfold turnsLeft; simpl; lia|].
        right. eexists. split; [reflexivity|].
        show_pending. rewrite Hbytes, Hsplit. reflexivity.
    + apply andb_false_iff in Hempty.
      eexists _, _, _. split; [reflexivity|].
      split.
      { split; simpl; [discriminate|]. intros _.
        split; [lia|]. split; [reflexivity|]. split; [lia|exact Hflag]. }
      split; [reflexivity|]. split; [lia|].
      split.
      { intros Hend _. simpl. destruct Hempty as [H%Z.eqb_neq|H%Z.eqb_neq]; lia. }
      split; [unfold turnsLeft; simpl; lia|]. split; [intros _; unfold turnsLeft; simpl; lia|].
      left. split; [reflexivity|].
      show_pending. rewrite Hbytes, Henc. rewrite <- ?app_assoc. reflexivity.
  - apply Z.leb_gt in Hfit.
    rewrite sliceFrom_drop by lia.
    eexists _, _, _. split; [reflexivity|].
    split.
    { split; simpl; [|discriminate]. intros _. rewrite mjoin_snoc, length_app.
      split; [unfold bufLen, byteLength in *; lia|]. split; [reflexivity|].
      intros -> ->. destruct (Hflag eq_refl) as [? [=]]. }
    split; [reflexivity|]. split; [lia|]. split; [intros _ [=]|].
    split; [unfold turnsLeft; simpl; lia|]. split; [intros ?; unfold turnsLeft; simpl; lia|].
    left. split; [reflexivity|].
    show_pending. rewrite mjoin_snoc.
    replace (Z.to_nat (byteLength chunk)) with (length chunk) by (unfold byteLength; lia).
    rewrite drop_all, app_nil_r, <- ?app_assoc. reflexivity.
Qed.

Lemma transformStep_spec chunk s pos :
  wellFormed s → 0 ≤ pos < byteLength chunk →
  ∃ s' pos' events,
    transformStep chunk s pos = Ok (s', pos', events) ∧ stepOutcome chunk s pos s' pos' events.
Proof.
  intros Hwf Hpos. destruct (_inBody s) eqn:Hbody; [apply transformStep_body; assumption|].
  destruct (_deserializeServiceResp s && bool_decide (_serviceRespSuccess s = None)) eqn:Hcond.
  - apply andb_true_iff in Hcond as [Hresp Hnone%bool_decide_eq_true].
    destruct (wf_header s Hwf Hbody) as (Hlt & Hcons & Hempty).
    specialize (Hempty Hresp Hnone).
    destruct s as [inBody consumed len buffer resp success]. simpl in *. subst.
    destruct (lookup_lt_is_Some_2 chunk (Z.to_nat pos)) as [b Hb].
    { unfold byteLength in Hpos. lia. }
    set (s2 := {| _inBody := false; _messageConsumed := 0; _messageLen := len;
                  _messageBuffer := buffer; _deserializeServiceResp := true;
                  _serviceRespSuccess := Some b |}).
    destruct (transformStep_header_core chunk s2 (pos + 1))
      as (s' & pos' & events & Hstep & Hwf' & Hresp' & Hpos' & Hwait & Hle & _ & Hbytes).
    { split; simpl; [intros _; split; [lia|split; [reflexivity|discriminate]]|discriminate]. }
    { reflexivity. }
    { simpl. eauto. }
    { lia. }
    exists s', pos', events. split.
    + rewrite <- Hstep. unfold transformStep.
      cbn [_inBody _messageLen _messageConsumed _messageBuffer _deserializeServiceResp
           _serviceRespSuccess s2].
      rewrite bool_decide_eq_true_2 by reflexivity.
      unfold readUInt8. destruct (pos <? 0) eqn:E; [lia|]. rewrite Hb. reflexivity.
    + split; [exact Hwf'|]. split; [exact Hresp'|]. split; [lia|]. split; [exact Hwait|].
      split; [unfold turnsLeft in *; simpl in *; lia|].
      assert (Hsame : heldBytes {| _inBody := false; _messageConsumed := 0; _messageLen := len;
                                 _messageBuffer := buffer; _deserializeServiceResp := true;
                                 _serviceRespSuccess := None |}
                      ++ drop (Z.to_nat pos) chunk
                      = heldBytes s2 ++ drop (Z.to_nat (pos + 1)) chunk).
      { unfold s2. show_pending. rewrite Hempty. cbn [app].
        rewrite (drop_S _ _ _ Hb). do 2 f_equal. lia. }
      rewrite Hsame. exact Hbytes.
  - destruct (transformStep_header_core chunk s pos)
      as (s' & pos' & events & Hstep & Hwf' & Hresp' & Hpos' & Hwait & _ & Hlt & Hbytes);
      try assumption; [|lia|].
    { intros Hresp. rewrite Hresp in Hcond. simpl in Hcond.
      apply bool_decide_eq_false in Hcond.
      destruct (_serviceRespSuccess s); [eauto|congruence]. }
    exists s', pos', events. split; [exact Hstep|].
    split; [exact Hwf'|]. split; [exact Hresp'|]. split; [exact Hpos'|].
    split; [exact Hwait|]. split; [apply Hlt; lia|exact Hbytes].
Qed.

Lemma heldBytes_incomplete s :
  wellFormed s → waiting s → splitFrame (_deserializeServiceResp s) (heldBytes s) = None.
Proof.
  intros Hwf Hwait. destruct (_inBody s) eqn:Hbody.
  - destruct (wf_body s Hwf Hbody) as (Hlen & Hcons & _ & Hflag). specialize (Hwait Hbody).
    destruct s as [inBody consumed len buffer resp success]. simpl in *. subst.
    destruct resp.
    + destruct (Hflag eq_refl) as [b ->]. show_pending.
      rewrite splitHeader_short by lia. reflexivity.
    + show_pending. rewrite splitHeader_short by lia. reflexivity.
  - destruct (wf_header s Hwf Hbody) as (Hlt & _ & Hempty).
    destruct s as [inBody consumed len buffer resp success]. simpl in *. subst.
    destruct resp.
    + destruct success as [b|].
      * show_pending. rewrite splitHeader_few by assumption. reflexivity.
      * show_pending. rewrite Hempty by reflexivity. reflexivity.
    + show_pending. rewrite splitHeader_few by assumption. reflexivity.
Qed.

(** From a stream between turns, the loop leaves within the turns it is
    given and emits the frames that its bytes complete. *)
Lemma transformLoop_spec chunk : ∀ turns s pos emitted,
  wellFormed s → 0 ≤ pos ≤ byteLength chunk →
  (pos = byteLength chunk → waiting s) →
  turnsLeft chunk s pos ≤ Z.of_nat turns →
  ∃ s' events,
    transformLoop turns chunk s pos emitted = Some (Ok (s', emitted ++ events)) ∧
    wellFormed s' ∧ waiting s' ∧
    _deserializeServiceResp s' = _deserializeServiceResp s ∧
    framed (_deserializeServiceResp s) (heldBytes s ++ drop (Z.to_nat pos) chunk)
           events (heldBytes s').
Proof.
  induction turns as [|turns IH]; intros s pos emitted Hwf Hpos Hwait Hturns.
  - assert (pos = byteLength chunk).
    { unfold turnsLeft in Hturns. destruct (_inBody s); lia. }
    subst pos. exists s, []. unfold transformLoop. rewrite Z.ltb_irrefl, app_nil_r.
    split; [reflexivity|]. split; [exact Hwf|]. split; [auto|]. split; [reflexivity|].
    replace (Z.to_nat (byteLength chunk)) with (length chunk) by (unfold byteLength; lia).
    rewrite drop_all, app_nil_r. apply framed_rest, heldBytes_incomplete; auto.
  - destruct (Z.eq_dec pos (byteLength chunk)) as [->|Hne].
    + exists s, []. cbn [transformLoop]. rewrite Z.ltb_irrefl, app_nil_r.
      split; [reflexivity|]. split; [exact Hwf|]. split; [auto|]. split; [reflexivity|].
      replace (Z.to_nat (byteLength chunk)) with (length chunk) by (unfold byteLength; lia).
      rewrite drop_all, app_nil_r. apply framed_rest, heldBytes_incomplete; auto.
    + destruct (transformStep_spec chunk s pos Hwf ltac:(lia))
        as (s1 & pos1 & events1 & Hstep & Hwf1 & Hresp1 & Hpos1 & Hwait1 & Hless & Hbytes).
      destruct (IH s1 pos1 (emitted ++ events1) Hwf1 ltac:(lia) Hwait1 ltac:(lia))
        as (s' & events & Hloop & Hwf' & Hwait' & Hresp' & Hframed).
      exists s', (events1 ++ events). cbn [transformLoop].
      destruct (pos <? byteLength chunk) eqn:E; [|lia].
      rewrite Hstep, Hloop, app_assoc.
      split; [reflexivity|]. split; [exact Hwf'|]. split; [exact Hwait'|].
      split; [congruence|]. rewrite Hresp1 in Hframed.
      destruct Hbytes as [[-> Hsame]|(e & -> & Hsplit)].
      * rewrite Hsame. exact Hframed.
      * eapply framed_frame; eassumption.
Qed.

Lemma _transform_spec turns chunk s :
  wellFormed s → waiting s → 2 * byteLength chunk + 1 ≤ Z.of_nat turns →
  ∃ s' events,
    _transform turns chunk s = Some (Ok (s', events)) ∧
    wellFormed s' ∧ waiting s' ∧
    _deserializeServiceResp s' = _deserializeServiceResp s ∧
    framed (_deserializeServiceResp s) (heldBytes s ++ chunk) events (heldBytes s').
Proof.
  intros Hwf Hwait Hturns.
  destruct (transformLoop_spec chunk turns s 0 [] Hwf) as (s' & events & H).
  - pose proof (byteLength_nonneg chunk). lia.
  - auto.
  - unfold turnsLeft. destruct (_inBody s); lia.
  - exists s', events. exact H.
Qed.

Lemma splitHeader_app bytes more body rest :
  splitHeader bytes = Some (body, rest) → splitHeader (bytes ++ more) = Some (body, rest ++ more).
Proof.
  unfold splitHeader. intros H.
  destruct bytes as [|b0 [|b1 [|b2 [|b3 tl]]]]; try discriminate.
  cbn [app readUInt32LE] in *. cbn [drop] in *. rewrite !drop_0 in *.
  set (len := byteValue b0 + 256 * (byteValue b1 + 256 * (byteValue b2 + 256 * byteValue b3))) in *.
  destruct (len <=? byteLength tl) eqn:E; [|discriminate]. apply Z.leb_le in E.
  injection H as <- <-. rewrite byteLength_app. pose proof (byteLength_nonneg more).
  assert (Hlen : 0 ≤ len).
  { pose proof (byteValue_range b0). pose proof (byteValue_range b1).
    pose proof (byteValue_range b2). pose proof (byteValue_range b3). unfold len. lia. }
  destruct (len <=? byteLength tl + byteLength more) eqn:E'; [|lia].
  unfold byteLength in E.
  rewrite take_app_le by lia. rewrite drop_app_le by lia. reflexivity.
Qed.

Lemma splitFrame_app resp bytes more e rest :
  splitFrame resp bytes = Some (e, rest) → splitFrame resp (bytes ++ more) = Some (e, rest ++ more).
Proof.
  unfold splitFrame. destruct resp.
  - destruct bytes as [|b tl]; [discriminate|]. cbn [app].
    destruct (splitHeader tl) as [[body rest']|] eqn:E; [|discriminate].
    intros [= <- <-]. rewrite (splitHeader_app _ more _ _ E). reflexivity.
  - destruct (splitHeader bytes) as [[body rest']|] eqn:E; [|discriminate].
    intros [= <- <-]. rewrite (splitHeader_app _ more _ _ E). reflexivity.
Qed.

Lemma framed_app resp bytes events rest more events' rest' :
  framed resp bytes events rest → framed resp (rest ++ more) events' rest' →
  framed resp (bytes ++ more) (events ++ events') rest'.
Proof.
  intros H H'. induction H as [bytes Hnone|bytes e bytes' events rest Hsplit _ IH].
  - exact H'.
  - simpl. eapply framed_frame; [apply splitFrame_app; exact Hsplit|apply IH; exact H'].
Qed.

Lemma framed_fun resp bytes events rest events' rest' :
  framed resp bytes events rest → framed resp bytes events' rest' →
  events = events' ∧ rest = rest'.
Proof.
  intros H. revert events' rest'.
  induction H as [bytes Hnone|bytes e bytes' events rest Hsplit _ IH]; intros events' rest' H'.
  - inversion H'; subst; [auto|congruence].
  - inversion H' as [|? e2 bytes2 events2 rest2 Hsplit2 Hrest2]; subst; [congruence|].
    rewrite Hsplit in Hsplit2. injection Hsplit2 as <- <-.
    destruct (IH _ _ Hrest2) as [-> ->]. auto.
Qed.

Lemma transformAll_spec turns chunks : ∀ s,
  wellFormed s → waiting s →
  (∀ chunk, chunk ∈ chunks → 2 * byteLength chunk + 1 ≤ Z.of_nat turns) →
  ∃ s' events,
    transformAll turns chunks s = Some (Ok (s', events)) ∧
    wellFormed s' ∧ waiting s' ∧
    _deserializeServiceResp s' = _deserializeServiceResp s ∧
    framed (_deserializeServiceResp s) (heldBytes s ++ mjoin chunks) events (heldBytes s').
Proof.
  induction chunks as [|chunk chunks IH]; intros s Hwf Hwait Hturns.
  - exists s, []. simpl. rewrite app_nil_r.
    split; [reflexivity|]. split; [exact Hwf|]. split; [exact Hwait|]. split; [reflexivity|].
    apply framed_rest, heldBytes_incomplete; assumption.
  - destruct (_transform_spec turns chunk s Hwf Hwait)
      as (s1 & events1 & H1 & Hwf1 & Hwait1 & Hresp1 & Hframed1).
    { apply Hturns. left. }
    destruct (IH s1 Hwf1 Hwait1) as (s' & events & H2 & Hwf' & Hwait' & Hresp' & Hframed).
    { intros c Hc. apply Hturns. right. exact Hc. }
    exists s', (events1 ++ events). cbn [transformAll]. rewrite H1, H2.
    split; [reflexivity|]. split; [exact Hwf'|]. split; [exact Hwait'|].
    split; [congruence|]. cbn [mjoin list_join]. rewrite app_assoc.
    rewrite Hresp1 in Hframed. eapply framed_app; eassumption.
Qed.

Lemma freshStream_wellFormed resp : wellFormed (freshStream resp) ∧ waiting (freshStream resp).
Proof.
  destruct resp; (split; [split; simpl; [intros _; split; [lia|auto]|discriminate]|discriminate]).
Qed.

Lemma freshStream_pending resp : heldBytes (freshStream resp) = [].
Proof. destruct resp; reflexivity. Qed.

Lemma freshStream_resp resp : _deserializeServiceResp (freshStream resp) = resp.
Proof. destruct resp; reflexivity. Qed.

Lemma PrependLength_ok buffer :
  byteLength buffer < 2 ^ 32 →
  PrependLength buffer = Ok (encodeUInt32LE (byteLength buffer) ++ buffer).
Proof.
  intros H. unfold PrependLength. pose proof (byteLength_nonneg buffer).
  rewrite writeUInt32LE_ok by lia. unfold mbind, Res_bind. cbn [res_bind].
  rewrite Buffer_concat_exact; [cbn [mjoin list_join]; rewrite app_nil_r; reflexivity|].
  cbn [mjoin list_join]. rewrite app_nil_r, byteLength_app. unfold encodeUInt32LE, byteLength at 1.
  simpl. lia.
Qed.

Lemma PrependLength_inv buffer framedBuffer :
  PrependLength buffer = Ok framedBuffer →
  byteLength buffer < 2 ^ 32 ∧ framedBuffer = encodeUInt32LE (byteLength buffer) ++ buffer.
Proof.
  intros H. destruct (Z.lt_ge_cases (byteLength buffer) (2 ^ 32)) as [Hlt|Hge].
  - rewrite PrependLength_ok in H by assumption. injection H as <-. auto.
  - unfold PrependLength in H. rewrite writeUInt32LE_raise in H by lia. discriminate.
Qed.

(** X1.  [PrependLength] puts the length of a buffer of fewer than 2^32
    bytes in front of it: the result is four bytes longer, [readUInt32LE]
    reads the length back from it, and after those four bytes comes the
    buffer itself.  On a longer buffer the write of the length raises. *)
Theorem PrependLength_frames (buffer : Buffer) :
  (byteLength buffer < 2 ^ 32 →
   ∃ framedBuffer,
     PrependLength buffer = Ok framedBuffer ∧
     byteLength framedBuffer = byteLength buffer + 4 ∧
     readUInt32LE framedBuffer = Ok (byteLength buffer) ∧
     drop 4 framedBuffer = buffer) ∧
  (2 ^ 32 ≤ byteLength buffer → PrependLength buffer = Raise RangeError).
Proof.
  pose proof (byteLength_nonneg buffer). split.
  - intros Hlt. eexists. split; [apply PrependLength_ok; exact Hlt|].
    split; [rewrite byteLength_app; unfold encodeUInt32LE, byteLength at 1; simpl; lia|].
    split; [apply readUInt32LE_encode; lia|reflexivity].
  - intros Hge. unfold PrependLength. rewrite writeUInt32LE_raise by lia. reflexivity.
Qed.

Lemma framed_messages messages frames rest :
  Forall2 (fun m f => PrependLength m = Ok f) messages frames →
  splitFrame false rest = None →
  framed false (mjoin frames ++ rest) (Message <$> messages) rest.
Proof.
  intros H Hrest. induction H as [|m f messages frames Hf _ IH]; [apply framed_rest, Hrest|].
  apply PrependLength_inv in Hf as [Hlen ->]. pose proof (byteLength_nonneg m).
  cbn [mjoin list_join fmap list_fmap]. eapply framed_frame; [|exact IH].
  unfold splitFrame. rewrite <- !app_assoc.
  rewrite splitHeader_encode by (try reflexivity; lia). reflexivity.
Qed.

Lemma framed_responses (responses : list (Byte.byte * Buffer)) frames rest :
  Forall2 (fun r f => ∃ framedBuffer, PrependLength r.2 = Ok framedBuffer ∧ f = r.1 :: framedBuffer)
          responses frames →
  splitFrame true rest = None →
  framed true (mjoin frames ++ rest)
         ((fun r => ServiceResponse r.2 (Some r.1)) <$> responses) rest.
Proof.
  intros H Hrest. induction H as [|[b m] f responses frames Hf _ IH]; [apply framed_rest, Hrest|].
  destruct Hf as (fb & Hfb & ->). simpl in Hfb.
  apply PrependLength_inv in Hfb as [Hlen ->]. pose proof (byteLength_nonneg m).
  cbn [mjoin list_join fmap list_fmap]. eapply framed_frame; [|exact IH].
  unfold splitFrame. cbn [app]. rewrite <- !app_assoc.
  rewrite splitHeader_encode by (try reflexivity; lia). reflexivity.
Qed.

Lemma heldBytes_nil s :
  heldBytes s = [] →
  _inBody s = false ∧ mjoin (_messageBuffer s) = [] ∧
  (_deserializeServiceResp s = true → _serviceRespSuccess s = None).
Proof.
  unfold heldBytes. intros H. apply app_eq_nil in H as [Hflag H]. apply app_eq_nil in H as [Henc Hbuf].
  split; [destruct (_inBody s); [discriminate|reflexivity]|]. split; [exact Hbuf|].
  intros Hresp. rewrite Hresp in Hflag. destruct (_serviceRespSuccess s); [discriminate|reflexivity].
Qed.

(** X2.  Messages that [PrependLength] has framed, sent one after the other
    and cut into chunks in any way, come out of a new [DeserializeStream] as
    they went in: ['message'] is emitted once for each, in order, with its
    bytes, and the stream is left with nothing buffered.  A chunk takes at
    most two turns of the loop per byte and one more. *)
Theorem DeserializeStream_roundtrip
    (messages frames chunks : list Buffer) (turns : nat) :
  Forall2 (fun m f => PrependLength m = Ok f) messages frames →
  mjoin chunks = mjoin frames →
  (∀ chunk, chunk ∈ chunks → 2 * byteLength chunk + 1 ≤ Z.of_nat turns) →
  ∃ s', transformAll turns chunks newDeserializeStream = Some (Ok (s', Message <$> messages)) ∧
        _inBody s' = false ∧ mjoin (_messageBuffer s') = [].
Proof.
  intros Hframes Hbytes Hturns.
  destruct (freshStream_wellFormed false) as [Hwf Hwait].
  destruct (transformAll_spec turns chunks _ Hwf Hwait Hturns)
    as (s' & events & Hrun & _ & _ & _ & Hframed).
  cbn [freshStream] in *. change (heldBytes newDeserializeStream) with (@nil Byte.byte) in Hframed.
  cbn [app] in Hframed. rewrite Hbytes in Hframed.
  pose proof (framed_messages messages frames [] Hframes eq_refl) as Hspec.
  rewrite app_nil_r in Hspec.
  destruct (framed_fun _ _ _ _ _ _ Hframed Hspec) as [-> Hnil].
  exists s'. split; [exact Hrun|]. apply heldBytes_nil in Hnil as (? & ? & _). auto.
Qed.

(** X3.  On a stream switched to service responses, each response is a
    success byte followed by the framed message; whatever the chunking,
    ['message'] is emitted once for each response with its bytes and its
    success byte, and the stream ends with no byte held and the success byte
    cleared. *)
Theorem DeserializeStream_service_roundtrip
    (responses : list (Byte.byte * Buffer)) (frames chunks : list Buffer) (turns : nat) :
  Forall2 (fun r f => ∃ framedBuffer, PrependLength r.2 = Ok framedBuffer ∧ f = r.1 :: framedBuffer)
          responses frames →
  mjoin chunks = mjoin frames →
  (∀ chunk, chunk ∈ chunks → 2 * byteLength chunk + 1 ≤ Z.of_nat turns) →
  ∃ s', transformAll turns chunks (setServiceRespDeserialize newDeserializeStream)
        = Some (Ok (s', (fun r => ServiceResponse r.2 (Some r.1)) <$> responses)) ∧
        _inBody s' = false ∧ mjoin (_messageBuffer s') = [] ∧ _serviceRespSuccess s' = None.
Proof.
  intros Hframes Hbytes Hturns.
  destruct (freshStream_wellFormed true) as [Hwf Hwait].
  destruct (transformAll_spec turns chunks _ Hwf Hwait Hturns)
    as (s' & events & Hrun & _ & _ & Hresp & Hframed).
  cbn [freshStream] in *.
  change (heldBytes (setServiceRespDeserialize newDeserializeStream)) with (@nil Byte.byte) in Hframed.
  cbn [app] in Hframed. rewrite Hbytes in Hframed.
  pose proof (framed_responses responses frames [] Hframes eq_refl) as Hspec.
  rewrite app_nil_r in Hspec.
  destruct (framed_fun _ _ _ _ _ _ Hframed Hspec) as [-> Hnil].
  exists s'. split; [exact Hrun|]. apply heldBytes_nil in Hnil as (? & ? & Hnone).
  split; [assumption|]. split; [assumption|]. apply Hnone. exact Hresp.
Qed.

Lemma encodeUInt32LE_inj v1 v2 :
  0 ≤ v1 < 2 ^ 32 → 0 ≤ v2 < 2 ^ 32 → encodeUInt32LE v1 = encodeUInt32LE v2 → v1 = v2.
Proof.
  intros H1 H2 E.
  pose proof (readUInt32LE_encode v1 [] H1) as R1. pose proof (readUInt32LE_encode v2 [] H2) as R2.
  rewrite E in R1. congruence.
Qed.

Lemma encodeUInt32LE_length v : length (encodeUInt32LE v) = 4%nat.
Proof. reflexivity. Qed.

(** Two streams of one kind that hold the same bytes are in the same
    state, up to the pieces the bytes are buffered in. *)
Lemma heldBytes_inj s1 s2 :
  wellFormed s1 → wellFormed s2 →
  _deserializeServiceResp s1 = _deserializeServiceResp s2 →
  heldBytes s1 = heldBytes s2 →
  _inBody s1 = _inBody s2 ∧
  mjoin (_messageBuffer s1) = mjoin (_messageBuffer s2) ∧
  _messageConsumed s1 = _messageConsumed s2 ∧
  (_inBody s1 = true → _messageLen s1 = _messageLen s2) ∧
  (_deserializeServiceResp s1 = true → _serviceRespSuccess s1 = _serviceRespSuccess s2).
Proof.
  intros Hwf1 Hwf2 Hresp Hp.
  pose proof (wf_header _ Hwf1) as Hh1. pose proof (wf_body _ Hwf1) as Hb1.
  pose proof (wf_header _ Hwf2) as Hh2. pose proof (wf_body _ Hwf2) as Hb2.
  clear Hwf1 Hwf2. unfold heldBytes, flagBytes in Hp.
  destruct s1 as [inBody1 consumed1 len1 buffer1 resp1 success1].
  destruct s2 as [inBody2 consumed2 len2 buffer2 resp2 success2].
  cbn [_inBody _messageConsumed _messageLen _messageBuffer _deserializeServiceResp
       _serviceRespSuccess] in *.
  subst resp2.
  assert (Hlen := f_equal length Hp). rewrite !length_app in Hlen.
  destruct inBody1, inBody2.
  - destruct (Hb1 eq_refl) as (Hr1 & Hc1 & _ & Hf1). destruct (Hb2 eq_refl) as (Hr2 & Hc2 & _ & Hf2).
    assert (Hrest : encodeUInt32LE len1 ++ mjoin buffer1 = encodeUInt32LE len2 ++ mjoin buffer2
                    ∧ (resp1 = true → success1 = success2)).
    { destruct resp1; [|split; [exact Hp|discriminate]].
      destruct (Hf1 eq_refl) as [b1 ->]. destruct (Hf2 eq_refl) as [b2 ->].
      cbn [option_list option_rect] in Hp.
      apply app_inj_1 in Hp as [[= ->] Hp]; [auto|reflexivity]. }
    destruct Hrest as [Hrest Hflag].
    apply app_inj_1 in Hrest as [Henc Hbuf]; [|reflexivity].
    apply encodeUInt32LE_inj in Henc; [|assumption..].
    split; [reflexivity|]. split; [exact Hbuf|]. split; [congruence|]. split; [auto|exact Hflag].
  - exfalso. destruct (Hb1 eq_refl) as (_ & _ & _ & Hf1). destruct (Hh2 eq_refl) as (Hlt & _ & He).
    rewrite encodeUInt32LE_length in Hlen.
    destruct resp1.
    + destruct (Hf1 eq_refl) as [b1 ->]. destruct success2; simpl in Hlen; [lia|].
      rewrite He in Hlen by reflexivity. simpl in Hlen. lia.
    + simpl in Hlen. lia.
  - exfalso. destruct (Hb2 eq_refl) as (_ & _ & _ & Hf2). destruct (Hh1 eq_refl) as (Hlt & _ & He).
    rewrite encodeUInt32LE_length in Hlen.
    destruct resp1.
    + destruct (Hf2 eq_refl) as [b2 ->]. destruct success1; simpl in Hlen; [lia|].
      rewrite He in Hlen by reflexivity. simpl in Hlen. lia.
    + simpl in Hlen. lia.
  - destruct (Hh1 eq_refl) as (_ & -> & He1). destruct (Hh2 eq_refl) as (_ & -> & He2).
    split; [reflexivity|].
    destruct resp1; [|split; [exact Hp|]; split; [reflexivity|]; split; discriminate].
    destruct success1 as [b1|], success2 as [b2|]; cbn [option_list option_rect app] in Hp.
    + change ([b1] ++ mjoin buffer1 = [b2] ++ mjoin buffer2) in Hp.
      apply app_inj_1 in Hp as [[= ->] Hp]; [|reflexivity].
      split; [exact Hp|]. split; [reflexivity|]. split; [discriminate|reflexivity].
    + rewrite (He2 eq_refl eq_refl) in Hp. discriminate.
    + rewrite (He1 eq_refl eq_refl) in Hp. discriminate.
    + rewrite (He1 eq_refl eq_refl), (He2 eq_refl eq_refl).
      split; [reflexivity|]. split; [reflexivity|]. split; [discriminate|reflexivity].
Qed.

(** X4.  What a stream emits does not depend on how the bytes it receives
    are cut into chunks: two chunkings of the same bytes give the same events
    and leave the stream in the same state, up to the pieces the buffered
    bytes are kept in. *)
Theorem DeserializeStream_chunking_irrelevant
    (resp : bool) (chunks1 chunks2 : list Buffer) (turns : nat) :
  mjoin chunks1 = mjoin chunks2 →
  (∀ chunk, chunk ∈ chunks1 ++ chunks2 → 2 * byteLength chunk + 1 ≤ Z.of_nat turns) →
  ∃ s1 s2 events,
    transformAll turns chunks1 (freshStream resp) = Some (Ok (s1, events)) ∧
    transformAll turns chunks2 (freshStream resp) = Some (Ok (s2, events)) ∧
    _inBody s1 = _inBody s2 ∧
    mjoin (_messageBuffer s1) = mjoin (_messageBuffer s2) ∧
    _messageConsumed s1 = _messageConsumed s2 ∧
    (_inBody s1 = true → _messageLen s1 = _messageLen s2) ∧
    (resp = true → _serviceRespSuccess s1 = _serviceRespSuccess s2).
Proof.
  intros Hbytes Hturns.
  destruct (freshStream_wellFormed resp) as [Hwf Hwait].
  destruct (transformAll_spec turns chunks1 _ Hwf Hwait)
    as (s1 & events1 & Hrun1 & Hwf1 & _ & Hresp1 & Hframed1).
  { intros c Hc. apply Hturns, elem_of_app. auto. }
  destruct (transformAll_spec turns chunks2 _ Hwf Hwait)
    as (s2 & events2 & Hrun2 & Hwf2 & _ & Hresp2 & Hframed2).
  { intros c Hc. apply Hturns, elem_of_app. auto. }
  rewrite Hbytes in Hframed1.
  destruct (framed_fun _ _ _ _ _ _ Hframed1 Hframed2) as [-> Hp].
  exists s1, s2, events2. split; [exact Hrun1|]. split; [exact Hrun2|].
  rewrite freshStream_resp in Hresp1, Hresp2.
  destruct (heldBytes_inj s1 s2 Hwf1 Hwf2 ltac:(congruence) Hp) as (A & B & C & D & E).
  rewrite Hresp1 in E. auto.
Qed.

(** X5.  Whatever bytes arrive, [_transform] neither throws nor loops:
    every chunk is consumed within two turns per byte and one more.  Between
    chunks a stream outside a body buffers fewer than the four bytes of a
    length, and a stream inside a body has consumed exactly what it buffers,
    which is less than the length of the message. *)
Theorem DeserializeStream_never_throws (resp : bool) (chunks : list Buffer) (turns : nat) :
  (∀ chunk, chunk ∈ chunks → 2 * byteLength chunk + 1 ≤ Z.of_nat turns) →
  ∃ s' events,
    transformAll turns chunks (freshStream resp) = Some (Ok (s', events)) ∧
    _deserializeServiceResp s' = resp ∧
    if _inBody s'
    then byteLength (mjoin (_messageBuffer s')) = _messageConsumed s' ∧
         _messageConsumed s' < _messageLen s' < 2 ^ 32
    else byteLength (mjoin (_messageBuffer s')) < 4 ∧ _messageConsumed s' = 0.
Proof.
  intros Hturns. destruct (freshStream_wellFormed resp) as [Hwf Hwait].
  destruct (transformAll_spec turns chunks _ Hwf Hwait Hturns)
    as (s' & events & Hrun & Hwf' & Hwait' & Hresp' & _).
  exists s', events. split; [exact Hrun|]. rewrite freshStream_resp in Hresp'.
  split; [exact Hresp'|].
  destruct (_inBody s') eqn:Hbody.
  - destruct (wf_body _ Hwf' Hbody) as (Hr & Hc & _ & _). specialize (Hwait' Hbody). lia.
  - destruct (wf_header _ Hwf' Hbody) as (Hlt & Hc & _). unfold byteLength. lia.
Qed.

Lemma partial_frame_incomplete lastMessage partial suffix :
  PrependLength lastMessage = Ok (partial ++ suffix) → suffix ≠ [] →
  splitFrame false partial = None ∧
  ((length partial < 4)%nat ∨
   ∃ body, partial = encodeUInt32LE (byteLength lastMessage) ++ body).
Proof.
  intros Hframe Hsuffix. apply PrependLength_inv in Hframe as [Hlen Heq].
  pose proof (byteLength_nonneg lastMessage).
  destruct (Nat.lt_ge_cases (length partial) 4) as [Hshort|Hlong].
  - split; [|left; exact Hshort]. unfold splitFrame. rewrite splitHeader_few by assumption.
    reflexivity.
  - assert (Hp : partial = encodeUInt32LE (byteLength lastMessage) ++ drop 4 partial
                 ∧ lastMessage = drop 4 partial ++ suffix).
    { assert (H4 : take 4 (partial ++ suffix) = encodeUInt32LE (byteLength lastMessage))
        by (rewrite Heq; reflexivity).
      rewrite take_app_le in H4 by lia.
      assert (Hd : drop 4 (partial ++ suffix) = lastMessage) by (rewrite Heq; reflexivity).
      rewrite drop_app_le in Hd by lia.
      split; [rewrite <- H4; symmetry; apply take_drop|symmetry; exact Hd]. }
    destruct Hp as [Hp Hlast]. split; [|right; eexists; exact Hp].
    rewrite Hp. unfold splitFrame. rewrite splitHeader_short; [reflexivity|lia|].
    assert (Hsum : byteLength lastMessage = byteLength (drop 4 partial) + byteLength suffix)
      by (rewrite Hlast at 1; apply byteLength_app).
    assert (0 < byteLength suffix) by (destruct suffix; [congruence|unfold byteLength; simpl; lia]).
    lia.
Qed.

(** X6.  A message that has not arrived in full is not emitted: when the
    bytes received are whole frames followed by a proper prefix of another
    frame, the events are those of the whole frames, and the stream holds the
    prefix, as buffered bytes of the length field or, once the length is
    known, as that length and the bytes of the body received so far. *)
Theorem DeserializeStream_holds_partial_message
    (messages frames : list Buffer) (lastMessage partial suffix : Buffer)
    (chunks : list Buffer) (turns : nat) :
  Forall2 (fun m f => PrependLength m = Ok f) messages frames →
  PrependLength lastMessage = Ok (partial ++ suffix) → suffix ≠ [] →
  mjoin chunks = mjoin frames ++ partial →
  (∀ chunk, chunk ∈ chunks → 2 * byteLength chunk + 1 ≤ Z.of_nat turns) →
  ∃ s', transformAll turns chunks newDeserializeStream = Some (Ok (s', Message <$> messages)) ∧
        if _inBody s'
        then _messageLen s' = byteLength lastMessage ∧
             mjoin (_messageBuffer s') = drop 4 partial
        else mjoin (_messageBuffer s') = partial.
Proof.
  intros Hframes Hlast Hsuffix Hbytes Hturns.
  destruct (partial_frame_incomplete _ _ _ Hlast Hsuffix) as [Hnone Hshape].
  destruct (freshStream_wellFormed false) as [Hwf Hwait].
  destruct (transformAll_spec turns chunks _ Hwf Hwait Hturns)
    as (s' & events & Hrun & Hwf' & _ & Hresp & Hframed).
  cbn [freshStream] in *. change (heldBytes newDeserializeStream) with (@nil Byte.byte) in Hframed.
  cbn [app] in Hframed. rewrite Hbytes in Hframed.
  pose proof (framed_messages messages frames partial Hframes Hnone) as Hspec.
  destruct (framed_fun _ _ _ _ _ _ Hframed Hspec) as [-> Hp].
  exists s'. split; [exact Hrun|].
  unfold heldBytes, flagBytes in Hp. simpl in Hresp. rewrite Hresp in Hp. cbn [app] in Hp.
  destruct (_inBody s') eqn:Hbody.
  - destruct (wf_body _ Hwf' Hbody) as (Hr & _).
    destruct Hshape as [Hshort|[body Hshape]].
    + rewrite <- Hp, length_app, encodeUInt32LE_length in Hshort. lia.
    + rewrite Hshape in Hp. apply app_inj_1 in Hp as [Henc Hbuf]; [|reflexivity].
      apply PrependLength_inv in Hlast as [Hlen _]. pose proof (byteLength_nonneg lastMessage).
      apply encodeUInt32LE_inj in Henc; [|lia..].
      split; [exact Henc|]. rewrite Hshape, Hbuf. reflexivity.
  - cbn [app] in Hp. exact Hp.
Qed.

Lemma PrependLength_frames_witness :
  ∃ framedBuffer,
    PrependLength [Byte.x68; Byte.x69] = Ok framedBuffer ∧
    byteLength framedBuffer = byteLength [Byte.x68; Byte.x69] + 4 ∧
    readUInt32LE framedBuffer = Ok (byteLength [Byte.x68; Byte.x69]) ∧
    drop 4 framedBuffer = [Byte.x68; Byte.x69].
Proof.
  apply (proj1 (PrependLength_frames [Byte.x68; Byte.x69])). vm_compute. reflexivity.
Defined.

Lemma DeserializeStream_roundtrip_witness :
  ∃ s', transformAll 15 demo_chunks newDeserializeStream
        = Some (Ok (s', Message <$> demo_messages)) ∧
        _inBody s' = false ∧ mjoin (_messageBuffer s') = [].
Proof.
  apply (DeserializeStream_roundtrip demo_messages demo_frames demo_chunks 15).
  - repeat (constructor; [vm_compute; reflexivity|]). constructor.
  - reflexivity.
  - apply (proj1 (Forall_forall _ _)). repeat constructor; vm_compute; discriminate.
Defined.

Lemma DeserializeStream_service_roundtrip_witness :
  ∃ s', transformAll 15 demo_response_chunks (setServiceRespDeserialize newDeserializeStream)
        = Some (Ok (s', (fun r => ServiceResponse r.2 (Some r.1)) <$> demo_responses)) ∧
        _inBody s' = false ∧ mjoin (_messageBuffer s') = [] ∧ _serviceRespSuccess s' = None.
Proof.
  apply (DeserializeStream_service_roundtrip demo_responses demo_response_frames
                                             demo_response_chunks 15).
  - repeat (constructor; [eexists; split; [vm_compute; reflexivity|reflexivity]|]). constructor.
  - reflexivity.
  - apply (proj1 (Forall_forall _ _)). repeat constructor; vm_compute; discriminate.
Defined.

Lemma DeserializeStream_chunking_irrelevant_witness :
  ∃ s1 s2 events,
    transformAll 31 demo_chunks (freshStream false) = Some (Ok (s1, events)) ∧
    transformAll 31 [mjoin demo_frames] (freshStream false) = Some (Ok (s2, events)) ∧
    _inBody s1 = _inBody s2 ∧
    mjoin (_messageBuffer s1) = mjoin (_messageBuffer s2) ∧
    _messageConsumed s1 = _messageConsumed s2 ∧
    (_inBody s1 = true → _messageLen s1 = _messageLen s2) ∧
    (false = true → _serviceRespSuccess s1 = _serviceRespSuccess s2).
Proof.
  apply (DeserializeStream_chunking_irrelevant false demo_chunks [mjoin demo_frames] 31).
  - reflexivity.
  - apply (proj1 (Forall_forall _ _)). repeat constructor; vm_compute; discriminate.
Defined.

Lemma DeserializeStream_never_throws_witness :
  ∃ s' events,
    transformAll 15 demo_response_chunks (freshStream true) = Some (Ok (s', events)) ∧
    _deserializeServiceResp s' = true ∧
    if _inBody s'
    then byteLength (mjoin (_messageBuffer s')) = _messageConsumed s' ∧
         _messageConsumed s' < _messageLen s' < 2 ^ 32
    else byteLength (mjoin (_messageBuffer s')) < 4 ∧ _messageConsumed s' = 0.
Proof.
  apply (DeserializeStream_never_throws true demo_response_chunks 15).
  apply (proj1 (Forall_forall _ _)). repeat constructor; vm_compute; discriminate.
Defined.

Lemma DeserializeStream_holds_partial_message_witness :
  ∃ s', transformAll 15 (take 2 demo_chunks) newDeserializeStream = Some (Ok (s', [])) ∧
        if _inBody s'
        then _messageLen s' = byteLength [Byte.x68; Byte.x69] ∧
             mjoin (_messageBuffer s') = drop 4 [Byte.x02; Byte.x00; Byte.x00; Byte.x00; Byte.x68]
        else mjoin (_messageBuffer s') = [Byte.x02; Byte.x00; Byte.x00; Byte.x00; Byte.x68].
Proof.
  apply (DeserializeStream_holds_partial_message [] [] [Byte.x68; Byte.x69]
           [Byte.x02; Byte.x00; Byte.x00; Byte.x00; Byte.x68] [Byte.x69]
           (take 2 demo_chunks) 15).
  - constructor.
  - vm_compute. reflexivity.
  - discriminate.
  - reflexivity.
  - apply (proj1 (Forall_forall _ _)). repeat constructor; vm_compute; discriminate.
Defined.

(** ** The dependency set as a whole *)

(** X7.  When [getFullDependencySet] returns, the set holds exactly the
    packages the package transitively depends on, each once, and not the
    package itself; the package and every member have an entry in the
    cache. *)
Theorem getFullDependencySet_closure
    (stack : nat) (originalPackage : string) (cache : PackageMap) (deps : list string) :
  getFullDependencySet stack originalPackage cache = Ok deps →
  NoDup deps ∧ (originalPackage ∉ deps) ∧
  (∀ y, y ∈ deps ↔ dependsOn cache originalPackage y) ∧
  (∀ y, y ∈ deps → is_Some (cache !! y)) ∧
  is_Some (cache !! originalPackage).
Proof.
  intros H. unfold getFullDependencySet in H.
  assert (Hmem : ∀ y, y ∈ deps ↔ dependsOn cache originalPackage y).
  { intros y. rewrite (getDependencies_elements _ _ _ _ _ _ H y). split; [|auto].
    intros [Hy|?]; [inversion Hy|assumption]. }
  assert (Hentry : ∀ y, rtc (edge cache) originalPackage y → is_Some (cache !! y)).
  { intros y Hy. destruct (getDependencies_reach _ _ _ _ y Hy _ _ H) as (acc' & r' & Hr).
    destruct stack as [|stack']; [discriminate|]. rewrite getDependencies_S in Hr.
    destruct (cache !! y); [eauto|discriminate]. }
  split; [eapply getDependencies_NoDup; [exact H|apply NoDup_nil_2]|].
  split.
  { intros Hin. apply Hmem in Hin. destruct (tc_last _ _ _ Hin) as (x & Hx & Hedge).
    exact (getDependencies_ok_no_cycle _ _ _ _ _ _ H x Hx Hedge). }
  split; [exact Hmem|]. split.
  - intros y Hy. apply Hentry, tc_rtc, Hmem, Hy.
  - apply Hentry. reflexivity.
Qed.

(** X8.  [getFullDependencySet] fails in three ways only.  The cycle error
    means that a path of dependencies leads back to the package.  A
    [TypeError] means that the package or a package it reaches has no entry
    in the cache.  A [RangeError] means that the stack was exhausted: it was
    shallower than the cache is large, or some dependency cycle stays clear
    of the package. *)
Theorem getFullDependencySet_failures
    (stack : nat) (originalPackage : string) (cache : PackageMap) (e : JsError) :
  getFullDependencySet stack originalPackage cache = Raise e →
  (e = CycleError ∧ cycleThrough cache originalPackage) ∨
  (e = TypeError ∧ ∃ x, rtc (edge cache) originalPackage x ∧ cache !! x = None) ∨
  (e = RangeError ∧
   ((stack < size cache + 2)%nat ∨ ¬ noCycleAvoiding cache originalPackage)).
Proof.
  intros H. destruct (getDependencies_raises _ _ _ _ _ _ H) as [->|[->| ->]].
  - left. split; [reflexivity|].
    apply getDependencies_cycle_sound in H as (x & Hx & Hedge).
    eapply cycleThrough_of_edge; eassumption.
  - right. left. split; [reflexivity|]. apply getDependencies_TypeError in H. exact H.
  - right. right. split; [reflexivity|].
    destruct (Nat.lt_ge_cases stack (size cache + 2)) as [Hlt|Hge]; [left; exact Hlt|].
    right. intros Htame. exact (getFullDependencySet_no_RangeError _ _ _ Htame Hge H).
Qed.

(** ** The sort with any comparator *)

Section SortAnyComparator.
Context {M A : Type}.
Variable comparefn : A → A → M → Res (Z * M).
(* what holds of the memo table, and which elements a table has met *)
Variable inv : M → Prop.
Variable met : M → A → Prop.
Hypothesis comparefn_met : ∀ a b st order st',
  inv st → comparefn a b st = Ok (order, st') →
  inv st' ∧ met st' a ∧ met st' b ∧ ∀ x, met st x → met st' x.

Lemma insert_Permutation (pivot : A) (sorted : list A) pos :
  take pos sorted ++ pivot :: drop pos sorted ≡ₚ pivot :: sorted.
Proof.
  rewrite <- Permutation_middle. constructor. rewrite take_drop. reflexivity.
Qed.

Lemma extendRun_met isDescending : ∀ rest previousElement st n st',
  inv st → extendRun comparefn isDescending previousElement rest st = Ok (n, st') →
  inv st' ∧ (n ≤ length rest)%nat ∧ Forall (met st') (take n rest) ∧
  ∀ x, met st x → met st' x.
Proof.
  induction rest as [|currentElement rest IH]; intros prev st n st' Hinv H; simpl in H.
  - inversion H; subst. simpl. auto.
  - destruct (comparefn currentElement prev st) as [[order st1]|e] eqn:Hc; simpl in H;
      [|discriminate].
    destruct (comparefn_met _ _ _ _ _ Hinv Hc) as (Hinv1 & Hm1 & _ & Hmono1).
    destruct (if isDescending then 0 <=? order else order <? 0).
    + inversion H; subst. simpl. split; [exact Hinv1|]. split; [lia|]. split; [constructor|auto].
    + destruct (extendRun comparefn isDescending currentElement rest st1)
        as [[n' st2]|e] eqn:Hr; simpl in H; [|discriminate].
      inversion H; subst.
      destruct (IH _ _ _ _ Hinv1 Hr) as (Hinv2 & Hle & Hall & Hmono2).
      split; [exact Hinv2|]. split; [simpl; lia|]. split; [|auto].
      simpl. constructor; [auto|exact Hall].
Qed.

Lemma findInsertionPoint_met pivot sorted : ∀ steps left right st pos st',
  inv st → findInsertionPoint comparefn steps pivot sorted left right st = Ok (pos, st') →
  inv st' ∧ (∀ x, met st x → met st' x) ∧
  ((0 < steps)%nat → (left < right ≤ length sorted)%nat → met st' pivot).
Proof.
  induction steps as [|steps IH]; intros left right st pos st' Hinv H.
  - simpl in H. inversion H; subst. split; [exact Hinv|]. split; [auto|lia].
  - rewrite findInsertionPoint_S in H.
    destruct (left <? right)%nat eqn:Hlr.
    2: { inversion H; subst. split; [exact Hinv|]. split; [auto|].
         apply Nat.ltb_ge in Hlr. lia. }
    apply Nat.ltb_lt in Hlr.
    destruct (sorted !! (left + (right - left) / 2)%nat) as [x|] eqn:Hx.
    2: { apply lookup_ge_None in Hx.
         assert ((right - left) / 2 < right - left)%nat by (apply Nat.div_lt; lia).
         inversion H; subst. split; [exact Hinv|]. split; [auto|].
         intros _ [_ Hr]. lia. }
    destruct (comparefn pivot x st) as [[order st1]|e] eqn:Hc; simpl in H; [|discriminate].
    destruct (comparefn_met _ _ _ _ _ Hinv Hc) as (Hinv1 & Hm1 & _ & Hmono1).
    destruct (order <? 0).
    + destruct (IH _ _ _ _ _ Hinv1 H) as (Hinv2 & Hmono2 & _).
      split; [exact Hinv2|]. split; [auto|auto].
    + destruct (IH _ _ _ _ _ Hinv1 H) as (Hinv2 & Hmono2 & _).
      split; [exact Hinv2|]. split; [auto|auto].
Qed.

Lemma binaryInsertionSort_met : ∀ pending sorted st result st',
  inv st → sorted ≠ [] →
  binaryInsertionSort comparefn sorted pending st = Ok (result, st') →
  inv st' ∧ result ≡ₚ sorted ++ pending ∧ Forall (met st') pending ∧
  ∀ x, met st x → met st' x.
Proof.
  induction pending as [|pivot pending IH]; intros sorted st result st' Hinv Hne H; simpl in H.
  - inversion H; subst. rewrite app_nil_r. auto.
  - destruct (findInsertionPoint comparefn (length sorted) pivot sorted 0 (length sorted) st)
      as [[pos st1]|e] eqn:Hf; simpl in H; [|discriminate].
    destruct (findInsertionPoint_met _ _ _ _ _ _ _ _ Hinv Hf) as (Hinv1 & Hmono1 & Hpivot).
    assert (Hlen : (0 < length sorted)%nat) by (destruct sorted; [congruence|simpl; lia]).
    specialize (Hpivot Hlen ltac:(lia)).
    assert (Hne1 : take pos sorted ++ pivot :: drop pos sorted ≠ []).
    { intros E. apply app_eq_nil in E as [_ E]. discriminate. }
    destruct (IH _ _ _ _ Hinv1 Hne1 H) as (Hinv2 & Hperm & Hall & Hmono2).
    split; [exact Hinv2|]. split.
    { rewrite Hperm, insert_Permutation. rewrite <- Permutation_middle. reflexivity. }
    split; [constructor; auto|auto].
Qed.

Lemma countAndMakeRun_met arr st arr1 runLength st' :
  inv st → (2 ≤ length arr)%nat →
  countAndMakeRun comparefn arr st = Ok (arr1, runLength, st') →
  inv st' ∧ (2 ≤ runLength ≤ length arr)%nat ∧
  take runLength arr1 ≡ₚ take runLength arr ∧ drop runLength arr1 = drop runLength arr ∧
  Forall (met st') (take runLength arr) ∧ ∀ x, met st x → met st' x.
Proof.
  intros Hinv Hlen H. destruct arr as [|elementHigh [|elementLow rest]]; simpl in Hlen; try lia.
  cbn [countAndMakeRun] in H.
  destruct (comparefn elementLow elementHigh st) as [[order st1]|e] eqn:Hc; simpl in H;
    [|discriminate].
  destruct (comparefn_met _ _ _ _ _ Hinv Hc) as (Hinv1 & Hlow & Hhigh & Hmono1).
  destruct (extendRun comparefn (order <? 0) elementLow rest st1) as [[n st2]|e] eqn:Hr;
    simpl in H; [|discriminate].
  destruct (extendRun_met _ _ _ _ _ _ Hinv1 Hr) as (Hinv2 & Hn & Hall & Hmono2).
  set (whole := elementHigh :: elementLow :: rest) in *.
  assert (Hrun : (S (S n) ≤ length whole)%nat) by (unfold whole; simpl; lia).
  inversion H; subst. clear H.
  split; [exact Hinv2|]. split; [simpl; lia|].
  assert (Htake : Forall (met st') (take (S (S n)) whole)).
  { unfold whole. simpl. constructor; [auto|]. constructor; [auto|exact Hall]. }
  assert (Hlr : length (reverse (elementHigh :: elementLow :: take n rest)) = S (S n)).
  { rewrite length_reverse. simpl. rewrite length_take. lia. }
  destruct (order <? 0).
  - split; [|split; [|split; [exact Htake|auto]]].
    + rewrite take_app_length' by (symmetry; exact Hlr). unfold whole. simpl. apply reverse_Permutation.
    + rewrite drop_app_length' by (symmetry; exact Hlr). reflexivity.
  - split; [reflexivity|]. split; [reflexivity|]. split; [exact Htake|auto].
Qed.

Lemma array_sort_met arr st result st' :
  inv st → array_sort comparefn arr st = Ok (result, st') →
  result ≡ₚ arr ∧ ((2 ≤ length arr)%nat → Forall (met st') arr).
Proof.
  intros Hinv H. unfold array_sort in H.
  destruct (length arr <? 2)%nat eqn:Hlen.
  - inversion H; subst. apply Nat.ltb_lt in Hlen. split; [reflexivity|lia].
  - apply Nat.ltb_ge in Hlen.
    destruct (countAndMakeRun comparefn arr st) as [[[arr1 runLength] st1]|e] eqn:Hc;
      simpl in H; [|discriminate].
    destruct (countAndMakeRun_met _ _ _ _ _ Hinv Hlen Hc)
      as (Hinv1 & Hrun & Hperm & Hdrop & Hall & Hmono).
    assert (Hlen1 : length (take runLength arr1) = runLength).
    { rewrite (Permutation_length Hperm), length_take. lia. }
    assert (Hne1 : take runLength arr1 ≠ []).
    { intros E. rewrite E in Hlen1. simpl in Hlen1. lia. }
    destruct (binaryInsertionSort_met _ _ _ _ _ Hinv1 Hne1 H) as (_ & Hperm2 & Hall2 & Hmono2).
    split.
    + rewrite Hperm2, Hperm, Hdrop, take_drop. reflexivity.
    + intros _. rewrite <- (take_drop runLength arr). apply Forall_app. split.
      * eapply Forall_impl; [exact Hall|]. intros x. apply Hmono2.
      * rewrite <- Hdrop. exact Hall2.
Qed.

Lemma extendRun_raise isDescending : ∀ rest previousElement st e,
  inv st → extendRun comparefn isDescending previousElement rest st = Raise e →
  ∃ a b st1, a ∈ previousElement :: rest ∧ b ∈ previousElement :: rest ∧
             inv st1 ∧ comparefn a b st1 = Raise e.
Proof.
  induction rest as [|currentElement rest IH]; intros prev st e Hinv H; simpl in H;
    [discriminate|].
  destruct (comparefn currentElement prev st) as [[order st1]|e1] eqn:Hc; simpl in H.
  - destruct (comparefn_met _ _ _ _ _ Hinv Hc) as (Hinv1 & _).
    destruct (if isDescending then 0 <=? order else order <? 0); [discriminate|].
    destruct (extendRun comparefn isDescending currentElement rest st1)
      as [[n' st2]|e2] eqn:Hr; simpl in H; [discriminate|].
    inversion H; subst.
    destruct (IH _ _ _ Hinv1 Hr) as (a & b & st3 & Ha & Hb & Hinv3 & Hraise).
    exists a, b, st3. split; [right; exact Ha|]. split; [right; exact Hb|]. auto.
  - inversion H; subst. exists currentElement, prev, st.
    split; [right; left|]. split; [left|]. auto.
Qed.

Lemma findInsertionPoint_raise pivot sorted : ∀ steps left right st e,
  inv st → findInsertionPoint comparefn steps pivot sorted left right st = Raise e →
  ∃ b st1, b ∈ sorted ∧ inv st1 ∧ comparefn pivot b st1 = Raise e.
Proof.
  induction steps as [|steps IH]; intros left right st e Hinv H; [discriminate|].
  rewrite findInsertionPoint_S in H.
  destruct (left <? right)%nat; [|discriminate].
  destruct (sorted !! (left + (right - left) / 2)%nat) as [x|] eqn:Hx; [|discriminate].
  destruct (comparefn pivot x st) as [[order st1]|e1] eqn:Hc; simpl in H.
  - destruct (comparefn_met _ _ _ _ _ Hinv Hc) as (Hinv1 & _).
    destruct (order <? 0); eapply IH; eassumption.
  - inversion H; subst. exists x, st. split; [eapply list_elem_of_lookup_2; exact Hx|auto].
Qed.

Lemma binaryInsertionSort_raise : ∀ pending sorted st e,
  inv st → binaryInsertionSort comparefn sorted pending st = Raise e →
  ∃ a b st1, a ∈ sorted ++ pending ∧ b ∈ sorted ++ pending ∧
             inv st1 ∧ comparefn a b st1 = Raise e.
Proof.
  induction pending as [|pivot pending IH]; intros sorted st e Hinv H; simpl in H;
    [discriminate|].
  destruct (findInsertionPoint comparefn (length sorted) pivot sorted 0 (length sorted) st)
    as [[pos st1]|e1] eqn:Hf; simpl in H.
  - destruct (findInsertionPoint_met _ _ _ _ _ _ _ _ Hinv Hf) as (Hinv1 & _).
    destruct (IH _ _ _ Hinv1 H) as (a & b & st2 & Ha & Hb & Hinv2 & Hraise).
    assert (Hsame : ∀ x, x ∈ (take pos sorted ++ pivot :: drop pos sorted) ++ pending →
                         x ∈ sorted ++ pivot :: pending).
    { intros x. rewrite (insert_Permutation pivot sorted pos).
      rewrite ?elem_of_app, ?elem_of_cons. tauto. }
    exists a, b, st2. auto.
  - inversion H; subst.
    destruct (findInsertionPoint_raise _ _ _ _ _ _ _ Hinv Hf) as (b & st1 & Hb & Hinv1 & Hraise).
    exists pivot, b, st1. rewrite !elem_of_app, !elem_of_cons. auto 6.
Qed.

Lemma array_sort_raise arr st e :
  inv st → array_sort comparefn arr st = Raise e →
  ∃ a b st1, a ∈ arr ∧ b ∈ arr ∧ inv st1 ∧ comparefn a b st1 = Raise e.
Proof.
  intros Hinv H. unfold array_sort in H.
  destruct (length arr <? 2)%nat eqn:Hlen; [discriminate|]. apply Nat.ltb_ge in Hlen.
  destruct (countAndMakeRun comparefn arr st) as [[[arr1 runLength] st1]|e1] eqn:Hc; simpl in H.
  - destruct (countAndMakeRun_met _ _ _ _ _ Hinv Hlen Hc)
      as (Hinv1 & Hrun & Hperm & Hdrop & _ & _).
    destruct (binaryInsertionSort_raise _ _ _ _ Hinv1 H) as (a & b & st2 & Ha & Hb & Hinv2 & Hr).
    assert (Hsame : take runLength arr1 ++ drop runLength arr1 ≡ₚ arr).
    { rewrite Hperm, Hdrop, take_drop. reflexivity. }
    exists a, b, st2. rewrite Hsame in Ha, Hb. auto.
  - inversion H; subst. clear H.
    destruct arr as [|elementHigh [|elementLow rest]]; simpl in Hlen; try lia.
    cbn [countAndMakeRun] in Hc.
    destruct (comparefn elementLow elementHigh st) as [[order st1]|e1] eqn:Hcmp; simpl in Hc.
    + destruct (comparefn_met _ _ _ _ _ Hinv Hcmp) as (Hinv1 & _).
      destruct (extendRun comparefn (order <? 0) elementLow rest st1) as [[n st2]|e2] eqn:Hr;
        simpl in Hc; [discriminate|].
      inversion Hc; subst.
      destruct (extendRun_raise _ _ _ _ _ Hinv1 Hr) as (a & b & st3 & Ha & Hb & Hinv3 & Hraise).
      exists a, b, st3. split; [right; exact Ha|]. split; [right; exact Hb|]. auto.
    + inversion Hc; subst. exists elementLow, elementHigh, st.
      split; [right; left|]. split; [left|]. auto.
Qed.
End SortAnyComparator.

Lemma sorter_met cache stack pkgA pkgB memo order memo' :
  memoSound stack cache memo → sorter stack cache pkgA pkgB memo = Ok (order, memo') →
  memoSound stack cache memo' ∧ is_Some (memo' !! pkgA) ∧ is_Some (memo' !! pkgB) ∧
  ∀ x, is_Some (memo !! x) → is_Some (memo' !! x).
Proof.
  intros Hmemo H.
  destruct (sorter_cases cache stack pkgA pkgB memo)
    as [(e & Ha & Hs)|(aDeps & memo1 & Ha & [(e & Hb & Hs)|(bDeps & memo2 & Hb & Hs)])];
    try (rewrite Hs in H; discriminate).
  pose proof (getDeps_memoSound _ _ _ _ _ _ Hmemo Ha) as Hmemo1.
  destruct aDeps as [a|?], bDeps as [b|?]; try (rewrite Hs in H; discriminate).
  destruct (getDeps_Own _ _ _ _ _ _ Hmemo Ha) as (_ & _ & HA & Hmono1).
  destruct (getDeps_Own _ _ _ _ _ _ Hmemo1 Hb) as (_ & Hmemo2 & HB & Hmono2).
  assert (memo' = memo2) as ->.
  { rewrite Hs in H. destruct (includes a pkgB && includes b pkgA); [discriminate|].
    destruct (includes a pkgB); [congruence|].
    destruct (includes b pkgA); congruence. }
  split; [exact Hmemo2|]. split; [apply Hmono2; eauto|]. split; [eauto|auto].
Qed.

(** An error of the comparator is the error of the closure of one of the
    two packages, or the [TypeError] of calling [includes] on the member of
    [Object.prototype] that one of the two names stands for. *)
Lemma sorter_raise cache stack pkgA pkgB memo e :
  memoSound stack cache memo → sorter stack cache pkgA pkgB memo = Raise e →
  getFullDependencySet stack pkgA cache = Raise e ∨
  getFullDependencySet stack pkgB cache = Raise e ∨
  (e = TypeError ∧ (pkgA ∈ Object_prototype ∨ pkgB ∈ Object_prototype)).
Proof.
  intros Hmemo H.
  destruct (sorter_cases cache stack pkgA pkgB memo)
    as [(e1 & Ha & Hs)|(aDeps & memo1 & Ha & [(e1 & Hb & Hs)|(bDeps & memo2 & Hb & Hs)])].
  - rewrite Hs in H. inversion H; subst. left. eapply getDeps_Raise. exact Ha.
  - rewrite Hs in H. inversion H; subst. right. left. eapply getDeps_Raise. exact Hb.
  - right. right.
    pose proof (getDeps_memoSound _ _ _ _ _ _ Hmemo Ha) as Hmemo1.
    destruct aDeps as [a|an].
    2: { apply getDeps_Inherited in Ha as (Hp & _).
         destruct bDeps; rewrite Hs in H; inversion H; auto. }
    destruct bDeps as [b|bn].
    2: { apply getDeps_Inherited in Hb as (Hp & _). rewrite Hs in H. inversion H; auto. }
    exfalso. destruct (getDeps_Own _ _ _ _ _ _ Hmemo Ha) as (HaD & _).
    destruct (getDeps_Own _ _ _ _ _ _ Hmemo1 Hb) as (HbD & _).
    rewrite Hs in H.
    destruct (includes a pkgB) eqn:E1, (includes b pkgA) eqn:E2; simpl in H;
      try discriminate.
    apply includes_true in E1, E2. exact (closure_not_mutual _ _ _ _ _ _ HaD HbD E1 E2).
Qed.

Lemma memoSound_empty stack cache : memoSound stack cache ∅.
Proof. intros p deps H. rewrite lookup_empty in H. discriminate. Qed.

Lemma sortPackageList_Permutation stack packageList cache sorted :
  sortPackageList stack packageList cache = Ok sorted → sorted ≡ₚ packageList.
Proof.
  intros H. unfold sortPackageList in H.
  destruct (array_sort (sorter stack cache) packageList ∅) as [[r memo]|e] eqn:Hs;
    simpl in H; [|discriminate].
  inversion H; subst.
  exact (proj1 (array_sort_met (sorter stack cache) (memoSound stack cache)
                  (fun memo x => is_Some (memo !! x))
                  (fun a b st order st' => sorter_met cache stack a b st order st')
                  _ _ _ _ (memoSound_empty stack cache) Hs)).
Qed.

(** X9.  Whatever the list and the cache, a list that [sortPackageList]
    returns is a permutation of the list it was given: no package is lost
    or doubled.  A list of fewer than two names is returned as it is, without
    a look at the cache. *)
Theorem sortPackageList_permutes
    (stack : nat) (packageList : list string) (cache : PackageMap) :
  (∀ sorted, sortPackageList stack packageList cache = Ok sorted → sorted ≡ₚ packageList) ∧
  ((length packageList < 2)%nat → sortPackageList stack packageList cache = Ok packageList).
Proof.
  split; [intros sorted; apply sortPackageList_Permutation|].
  intros Hlen. unfold sortPackageList, array_sort.
  apply Nat.ltb_lt in Hlen. rewrite Hlen. reflexivity.
Qed.

(** X10.  [sortPackageList] returns a list of two packages or more only
    if the dependency set of every package in it could be computed, since
    the comparator meets each element of the list at least once: every
    listed package has an entry in the cache, and no path of dependencies
    leads from it back to it. *)
Theorem sortPackageList_resolves_every_package
    (stack : nat) (packageList sorted : list string) (cache : PackageMap) :
  sortPackageList stack packageList cache = Ok sorted →
  (2 ≤ length packageList)%nat →
  ∀ pkg, pkg ∈ packageList →
    (∃ deps, getFullDependencySet stack pkg cache = Ok deps) ∧
    is_Some (cache !! pkg) ∧ ¬ cycleThrough cache pkg.
Proof.
  intros H Hlen pkg Hpkg. unfold sortPackageList in H.
  destruct (array_sort (sorter stack cache) packageList ∅) as [[r memo]|e] eqn:Hs;
    simpl in H; [|discriminate].
  assert (Hsound : memoSound stack cache memo ∧ is_Some (memo !! pkg)).
  { pose proof (array_sort_met (sorter stack cache)
                  (fun m => memoSound stack cache m)
                  (fun m x => memoSound stack cache m ∧ is_Some (m !! x))) as Hgen.
    destruct (Hgen) with (arr := packageList) (st := (∅ : gmap string (list string)))
                         (result := r) (st' := memo) as [_ Hall].
    - intros a b st order st' Hinv Hc.
      destruct (sorter_met _ _ _ _ _ _ _ Hinv Hc) as (H1 & H2 & H3 & H4).
      split; [exact H1|]. split; [auto|]. split; [auto|]. intros x [_ Hx]. auto.
    - apply memoSound_empty.
    - exact Hs.
    - rewrite Forall_forall in Hall. exact (Hall Hlen pkg Hpkg). }
  destruct Hsound as [Hsound [deps Hdeps]]. apply Hsound in Hdeps.
  split; [eauto|]. split.
  - unfold getFullDependencySet in Hdeps. destruct stack as [|stack']; [discriminate|].
    rewrite getDependencies_S in Hdeps. destruct (cache !! pkg); [eauto|discriminate].
  - intros Hcyc. apply cycleThrough_edge in Hcyc as (x & Hx & Hedge).
    exact (getDependencies_ok_no_cycle _ _ _ _ _ _ Hdeps x Hx Hedge).
Qed.

(** X11.  An error of [sortPackageList] on a list of fewer than 64 names
    is the error of computing the dependency set of one of the listed
    packages (a cycle error, a [TypeError] or a [RangeError]), or it is the
    [TypeError] of the comparator for a listed package named like a member
    of [Object.prototype].  The circular-dependency error of the comparator
    itself is never raised. *)
Theorem sortPackageList_failures
    (stack : nat) (packageList : list string) (cache : PackageMap) (e : JsError) :
  (length packageList < 64)%nat →
  sortPackageList stack packageList cache = Raise e →
  (e = CycleError ∨ e = TypeError ∨ e = RangeError) ∧
  ∃ pkg, pkg ∈ packageList ∧
         (getFullDependencySet stack pkg cache = Raise e ∨
          (e = TypeError ∧ pkg ∈ Object_prototype)).
Proof.
  intros _ H. unfold sortPackageList in H.
  destruct (array_sort (sorter stack cache) packageList ∅) as [[r memo]|e1] eqn:Hs;
    simpl in H; [discriminate|]. inversion H; subst. clear H.
  destruct (array_sort_raise (sorter stack cache) (memoSound stack cache)
              (fun memo x => is_Some (memo !! x))
              (fun a b st order st' => sorter_met cache stack a b st order st')
              _ _ _ (memoSound_empty stack cache) Hs)
    as (a & b & st1 & Ha & Hb & Hinv & Hraise).
  destruct (sorter_raise _ _ _ _ _ _ Hinv Hraise) as [Hx|[Hx|[-> [Hx|Hx]]]].
  - split; [exact (getDependencies_raises _ _ _ _ _ _ Hx)|eauto].
  - split; [exact (getDependencies_raises _ _ _ _ _ _ Hx)|eauto].
  - split; [auto|eauto].
  - split; [auto|eauto].
Qed.

(** ** The cache the parse pass builds *)

Section CacheFacts.
Variable createMsg : string → string → string → MsgSpec.
Variable createSrv : string → string → string → SrvSpec.
Variable createAction : string → string → string → ActionSpec.

Lemma loadMessage_fold_rest packageName msgs st :
  ld_services (foldl (loadMessage createMsg packageName) st msgs) = ld_services st ∧
  ld_actions (foldl (loadMessage createMsg packageName) st msgs) = ld_actions st.
Proof.
  revert st. induction msgs as [|[m f] msgs IH]; intros st; [auto|].
  cbn [foldl]. destruct (IH (loadMessage createMsg packageName st (m, f))) as [-> ->]. auto.
Qed.


Lemma loadAction_fold_services packageName packageMsgs acts st :
  ld_services (foldl (loadAction createAction packageName packageMsgs) st acts) = ld_services st.
Proof.
  revert st. induction acts as [|[m f] acts IH]; intros st; [reflexivity|].
  cbn [foldl]. rewrite IH. reflexivity.
Qed.

Lemma loadService_fold_other packageName srvs st k :
  k ∉ srvs.*1 →
  ld_services (foldl (loadService createSrv packageName) st srvs) !! k = ld_services st !! k.
Proof.
  revert st. induction srvs as [|[m f] srvs IH]; intros st Hk; [reflexivity|].
  simpl in *. apply not_elem_of_cons in Hk as [Hne Hk].
  rewrite IH by assumption. simpl. apply lookup_insert_ne. congruence.
Qed.

Lemma loadService_fold_stored packageName srvs st m f :
  NoDup (srvs.*1) → (m, f) ∈ srvs →
  ld_services (foldl (loadService createSrv packageName) st srvs) !! m
    = Some {| file := Some f; spec := createSrv packageName m f |}.
Proof.
  revert st. induction srvs as [|[m' f'] srvs IH]; intros st Hnd Hin; [inversion Hin|].
  simpl in *. apply NoDup_cons in Hnd as [Hfresh Hnd].
  apply elem_of_cons in Hin as [Heq|Hin].
  - inversion Heq; subst m' f'.
    rewrite loadService_fold_other by assumption. simpl. apply lookup_insert_eq.
  - apply IH; assumption.
Qed.



Lemma _loadMessagesInCache_dom (packageCache : list (string * PackageInfo)) p :
  is_Some (_loadMessagesInCache createMsg createSrv createAction packageCache !! p)
  ↔ p ∈ packageCache.*1.
Proof.
  unfold _loadMessagesInCache.
  assert (H : ∀ acc : PackageMap,
            is_Some (foldl (fun (cache : PackageMap) '(packageName, packageInfo) =>
                              <[packageName := loadPackageInfo createMsg createSrv createAction
                                                 packageName packageInfo]> cache)
                           acc packageCache !! p)
            ↔ is_Some (acc !! p) ∨ p ∈ packageCache.*1).
  { induction packageCache as [|[n i] l IH]; intros acc; simpl.
    - split; [auto|]. intros [?|H]; [assumption|inversion H].
    - rewrite IH, elem_of_cons. destruct (decide (n = p)) as [->|Hne].
      + rewrite lookup_insert_eq. split; [auto|]. intros _. left. eauto.
      + rewrite lookup_insert_ne by exact Hne. split; [tauto|].
        intros [?|[?|?]]; [auto|congruence|auto]. }
  rewrite H, lookup_empty. split; [|auto]. intros [[x Hx]|?]; [discriminate|assumption].
Qed.







Lemma plainName_hasOwnProperty name : plainName name = true → name ≠ "hasOwnProperty".
Proof. intros H ->. vm_compute in H. discriminate. Qed.

Lemma plainIndex_spec (packageCache : list (string * PackageInfo)) packageName packageInfo :
  plainIndex createAction packageCache = true → (packageName, packageInfo) ∈ packageCache →
  plainName packageName = true ∧
  (∀ name, name ∈ (info_messages packageInfo).*1 ++ (info_services packageInfo).*1
                  ++ (info_actions packageInfo).*1 → plainName name = true) ∧
  (∀ sub, sub ∈ synthesized createAction packageName packageInfo →
          plainName (msg_messageName sub) = true).
Proof.
  intros Hplain Hin. unfold plainIndex in Hplain.
  rewrite List.forallb_forall in Hplain. apply list_elem_of_In in Hin.
  specialize (Hplain _ Hin). cbv beta iota in Hplain.
  apply andb_prop in Hplain as [Hplain Hsyn]. apply andb_prop in Hplain as [Hp Hnames].
  rewrite List.forallb_forall in Hnames, Hsyn.
  split; [exact Hp|]. split.
  - intros name Hname. apply Hnames, list_elem_of_In, Hname.
  - intros sub Hsub. apply Hsyn, list_elem_of_In, list_elem_of_fmap. eauto.
Qed.

(** A name that is neither on disk nor synthesized is not a message of the
    entry. *)
Lemma loadPackageInfo_messages_other packageName packageInfo k :
  k ∉ (info_messages packageInfo).*1 →
  (∀ sub, sub ∈ synthesized createAction packageName packageInfo → msg_messageName sub ≠ k) →
  messages (loadPackageInfo createMsg createSrv createAction packageName packageInfo) !! k
  = None.
Proof.
  intros Hdisk Hsyn. rewrite loadPackageInfo_messages.
  match goal with |- ?m !! k = None => destruct (m !! k) as [e|] eqn:E; [|reflexivity] end.
  apply cacheActionMessage_fold_inv in E as [E|(_ & sub & Hsub & Hname & _)].
  - rewrite loadMessage_fold_other in E by exact Hdisk. simpl in E.
    rewrite lookup_empty in E. discriminate.
  - exfalso. exact (Hsyn sub Hsub Hname).
Qed.

Lemma loadPackageInfo_services_other packageName packageInfo k :
  k ∉ (info_services packageInfo).*1 →
  services (loadPackageInfo createMsg createSrv createAction packageName packageInfo) !! k
  = None.
Proof.
  intros Hk. unfold loadPackageInfo. cbn [services].
  rewrite loadAction_fold_services, loadService_fold_other by exact Hk.
  rewrite (proj1 (loadMessage_fold_rest _ _ _)). apply lookup_empty.
Qed.

(** In the cache built from a plain index the method [hasOwnProperty] is
    hidden nowhere. *)
Lemma plainIndex_cache (packageCache : list (string * PackageInfo)) :
  plainIndex createAction packageCache = true →
  _loadMessagesInCache createMsg createSrv createAction packageCache !! "hasOwnProperty" = None.
Proof.
  intros Hplain. apply eq_None_not_Some. intros Hsome.
  apply _loadMessagesInCache_dom, list_elem_of_fmap in Hsome as ([p info] & Hp & Hin).
  simpl in Hp. subst p.
  destruct (plainIndex_spec _ _ _ Hplain Hin) as (Hname & _).
  exact (plainName_hasOwnProperty _ Hname eq_refl).
Qed.

Lemma plainIndex_entry (packageCache : list (string * PackageInfo)) packageName packageInfo
    type :
  plainIndex createAction packageCache = true → (packageName, packageInfo) ∈ packageCache →
  kindCache (loadPackageInfo createMsg createSrv createAction packageName packageInfo) type
    !! "hasOwnProperty" = None.
Proof.
  intros Hplain Hin. destruct (plainIndex_spec _ _ _ Hplain Hin) as (_ & Hnames & Hsyn).
  destruct type; cbn [kindCache]; [| |apply lookup_empty];
    unfold asRosMsgSpec; rewrite lookup_fmap.
  - rewrite loadPackageInfo_messages_other; [reflexivity| |].
    + intros Hk. apply (plainName_hasOwnProperty "hasOwnProperty"); [|reflexivity].
      apply Hnames. rewrite elem_of_app. auto.
    + intros sub Hsub Hk. apply (plainName_hasOwnProperty (msg_messageName sub)); auto.
  - rewrite loadPackageInfo_services_other; [reflexivity|].
    intros Hk. apply (plainName_hasOwnProperty "hasOwnProperty"); [|reflexivity].
    apply Hnames. rewrite !elem_of_app. auto.
Qed.

Lemma getMessageSpec_stored (splitMessageType : string → string * string)
    (toLowerCase : string → string) (cache : PackageMap) msgType type pkg messageName e x :
  splitMessageType msgType = (pkg, messageName) → cache !! pkg = Some e →
  cache !! "hasOwnProperty" = None → kindCache e type !! "hasOwnProperty" = None →
  kindCache e type !! messageName = Some x →
  getMessageSpec splitMessageType toLowerCase (Some cache) msgType type = Ok (Some (spec x)).
Proof.
  intros Hsplit He Hcache Hkind Hx. rewrite getMessageSpec_spec.
  - rewrite Hsplit. simpl. rewrite He, Hx. reflexivity.
  - exact Hcache.
  - rewrite Hsplit. simpl. intros e' He'. congruence.
Qed.

(** X14.  After the parse pass of an index in which no package and no
    definition is named like a member of [Object.prototype],
    [getMessageSpec] finds what was loaded: the parsed spec of every indexed
    message and service under its type string, and for a synthesized action
    message whose name is not on disk a synthesized spec of that name. *)
Theorem getMessageSpec_finds_loaded
    (splitMessageType : string → string * string) (toLowerCase : string → string)
    (packageCache : list (string * PackageInfo)) (packageName : string)
    (packageInfo : PackageInfo) :
  let cache := _loadMessagesInCache createMsg createSrv createAction packageCache in
  NoDup (packageCache.*1) → plainIndex createAction packageCache = true →
  (packageName, packageInfo) ∈ packageCache →
  (NoDup ((info_messages packageInfo).*1) → ∀ msgType m f,
     splitMessageType msgType = (packageName, m) → (m, f) ∈ info_messages packageInfo →
     getMessageSpec splitMessageType toLowerCase (Some cache) msgType MSG_TYPE
     = Ok (Some (OfMsg (createMsg packageName m f)))) ∧
  (NoDup ((info_services packageInfo).*1) → ∀ msgType m f,
     splitMessageType msgType = (packageName, m) → (m, f) ∈ info_services packageInfo →
     getMessageSpec splitMessageType toLowerCase (Some cache) msgType SRV_TYPE
     = Ok (Some (OfSrv (createSrv packageName m f)))) ∧
  (∀ msgType sub,
     sub ∈ synthesized createAction packageName packageInfo →
     splitMessageType msgType = (packageName, msg_messageName sub) →
     msg_messageName sub ∉ (info_messages packageInfo).*1 →
     ∃ sub', sub' ∈ synthesized createAction packageName packageInfo ∧
             msg_messageName sub' = msg_messageName sub ∧
             getMessageSpec splitMessageType toLowerCase (Some cache) msgType MSG_TYPE
             = Ok (Some (OfMsg sub'))).
Proof.
  intros cache Hnd Hplain Hin.
  pose proof (_loadMessagesInCache_lookup createMsg createSrv createAction
                packageCache packageName packageInfo Hnd Hin) as Hentry.
  fold cache in Hentry.
  pose proof (plainIndex_cache _ Hplain) as Hcache. fold cache in Hcache.
  pose proof (fun type => plainIndex_entry _ _ _ type Hplain Hin) as Hkind.
  split; [|split].
  - intros Hm msgType m f Hsplit Hmf.
    change (OfMsg (createMsg packageName m f))
      with (spec {| file := Some f; spec := OfMsg (createMsg packageName m f) |}).
    eapply getMessageSpec_stored; [exact Hsplit|exact Hentry|exact Hcache|apply Hkind|].
    cbn [kindCache]. unfold asRosMsgSpec. rewrite lookup_fmap, loadPackageInfo_messages.
    rewrite cacheActionMessage_fold_on_disk
      by (apply list_elem_of_fmap; exists (m, f); auto).
    rewrite (loadMessage_fold_on_disk _ _ _ _ _ _ Hm Hmf). reflexivity.
  - intros Hs msgType m f Hsplit Hmf.
    change (OfSrv (createSrv packageName m f))
      with (spec {| file := Some f; spec := OfSrv (createSrv packageName m f) |}).
    eapply getMessageSpec_stored; [exact Hsplit|exact Hentry|exact Hcache|apply Hkind|].
    cbn [kindCache]. unfold asRosMsgSpec, loadPackageInfo. cbn [services].
    rewrite lookup_fmap, loadAction_fold_services.
    rewrite (loadService_fold_stored _ _ _ _ _ Hs Hmf). reflexivity.
  - intros msgType sub Hsub Hsplit Hfree.
    destruct (cacheActionMessage_fold_synthesized (info_messages packageInfo)
                (synthesized createAction packageName packageInfo)
                (ld_messages (foldl (loadMessage createMsg packageName)
                                {| ld_messages := ∅; ld_services := ∅; ld_actions := ∅;
                                   ld_packageDeps := [] |}
                                (info_messages packageInfo)))
                sub Hsub Hfree) as (sub' & Hl & Hsub' & Hname).
    exists sub'. split; [exact Hsub'|]. split; [exact Hname|].
    change (OfMsg sub') with (spec {| file := None; spec := OfMsg sub' |}).
    eapply getMessageSpec_stored; [exact Hsplit|exact Hentry|exact Hcache|apply Hkind|].
    cbn [kindCache]. unfold asRosMsgSpec. rewrite lookup_fmap, loadPackageInfo_messages, Hl.
    reflexivity.
Qed.
End CacheFacts.

(** ** More on the build orchestrator *)

Section OrchestratorMore.
Context {F : Type}.
Variable render : list (nat * string) → string.

(** X15.  A call of [loadPackage], whatever its arguments, leaves the load
    status of every package that has one as it is: up to its first await and
    in every state its execution reaches later.  A package that is loaded is
    never built again, and a package that is loading is completed only by the
    call that claimed it. *)
Theorem loadPackage_keeps_claimed_status
    (stack : nat) (packageName name : string) (outputDirectory : list string)
    (loadDeps writeFiles : bool) (filterDepFunc : option (string → F → bool * F))
    (w : World F) :
  is_Some (_loadingPkgs w !! name) →
  ∀ c2, rtc step (run (loadPackage render stack packageName outputDirectory loadDeps
                                   writeFiles filterDepFunc) w) c2 →
        _loadingPkgs c2.1 !! name = _loadingPkgs w !! name.
Proof.
  intros Hc c2 Hsteps.
  pose proof (keeps_loadPackage render false name outputDirectory loadDeps writeFiles
                filterDepFunc ltac:(reflexivity) stack packageName) as Hk.
  destruct (run_keeps false name _ Hk w Hc) as [[A _] B].
  destruct (steps_keeps false name _ _ Hsteps B) as [[C _] _].
  { unfold claimed. rewrite A. exact Hc. }
  congruence.
Qed.

Lemma runAll_extends (ts : list (Task F)) : ∀ w, extends w (runAll ts w).1.
Proof.
  induction ts as [|t ts IH]; intros w; simpl; [apply extends_refl|].
  pose proof (run_extends t w) as H1. destruct (run t w) as [w1 p].
  pose proof (IH w1) as H2. destruct (runAll ts w1) as [w2 ps]. simpl in *.
  eapply extends_trans; eassumption.
Qed.

(** Every call of a [map] over package names claims its package, if no one
    has. *)
Lemma runAll_claims stack outputDirectory loadDeps writeFiles
    (filterDepFunc : option (string → F → bool * F)) (names : list string) : ∀ w dep,
  dep ∈ names →
  claimed (runAll ((fun depName => loadPackage render (S stack) depName outputDirectory loadDeps
                                               writeFiles filterDepFunc) <$> names) w).1 dep.
Proof.
  induction names as [|n names IH]; intros w dep Hdep; [inversion Hdep|].
  cbn [fmap list_fmap runAll].
  set (call := loadPackage render (S stack) n outputDirectory loadDeps writeFiles filterDepFunc).
  assert (Hn : claimed (run call w).1 n).
  { destruct (_loadingPkgs w !! n) as [s|] eqn:Hs.
    - unfold call. rewrite run_loadPackage_claimed by (rewrite Hs; eauto).
      unfold claimed. simpl. rewrite Hs. eauto.
    - unfold call. rewrite (run_loadPackage_unclaimed render _ _ _ _ _ _ _ Hs).
      eapply ext_claimed; [apply run_extends|].
      unfold claimed. simpl. rewrite lookup_insert_eq. eauto. }
  destruct (run call w) as [w1 p]. simpl in Hn.
  pose proof (runAll_extends ((fun depName => loadPackage render (S stack) depName
                                 outputDirectory loadDeps writeFiles filterDepFunc) <$> names)
                             w1) as Hext.
  specialize (IH w1 dep).
  destruct (runAll _ w1) as [w2 ps]. simpl in *.
  apply elem_of_cons in Hdep as [->|Hdep]; [|apply IH; exact Hdep].
  apply (ext_claimed _ _ Hext). exact Hn.
Qed.

Lemma logged_cache msg (w : World F) : _packageCache (logged msg w) = _packageCache w.
Proof. unfold logged. destruct (negb (_verbose w)); reflexivity. Qed.

Lemma run_loadPackage_resolving stack packageName outputDirectory writeFiles
    (filterDepFunc : option (string → F → bool * F)) (w : World F) :
  _loadingPkgs w !! packageName = None →
  run (loadPackage render (S stack) packageName outputDirectory true writeFiles filterDepFunc) w
  = let w1 := setStatus packageName LOADING (logged ("Loading package " +:+ packageName) w) in
    match (deps ← getFullDependencySet stack packageName (_packageCache w);
           sortPackageList stack deps (_packageCache w)) with
    | Raise e => (w1, Rejected e)
    | Ok dependencies =>
        let spawn dependencies :=
          AwaitAll ((fun depName => loadPackage render stack depName outputDirectory true
                                                writeFiles filterDepFunc) <$> dependencies)
                   (if writeFiles then @writePhase F render packageName outputDirectory
                    else Return) in
        match filterDepFunc with
        | Some f => run (filterDeps f dependencies spawn) w1
        | None => run (spawn dependencies) w1
        end
    end.
Proof.
  intros Hfree. rewrite (run_loadPackage_unclaimed render _ _ _ _ _ _ _ Hfree).
  unfold loadPackageClaimed.
  change (run (GetCache ?k) ?w1) with (run (k (_packageCache w1)) w1).
  cbn [_packageCache setStatus]. rewrite logged_cache.
  destruct (_ ≫= _) as [dependencies|e]; [|reflexivity].
  destruct filterDepFunc; reflexivity.
Qed.

(** X16.  When the dependencies of a package cannot be resolved, the call of
    [loadPackage] with [loadDeps] rejects with the error of the resolution
    without a suspension and without any fs call, and it leaves the package
    marked loading: a later call for the package returns at once and builds
    nothing. *)
Theorem loadPackage_failed_resolution
    (stack : nat) (packageName : string) (outputDirectory : list string)
    (writeFiles : bool) (filterDepFunc : option (string → F → bool * F))
    (w : World F) (e : JsError) :
  _loadingPkgs w !! packageName = None →
  (getFullDependencySet stack packageName (_packageCache w) = Raise e ∨
   ∃ deps, getFullDependencySet stack packageName (_packageCache w) = Ok deps ∧
           sortPackageList stack deps (_packageCache w) = Raise e) →
  let c := run (loadPackage render (S stack) packageName outputDirectory true writeFiles
                            filterDepFunc) w in
  c.2 = Rejected e ∧
  _loadingPkgs c.1 !! packageName = Some LOADING ∧
  fsOps (history c.1) = fsOps (history w) ∧
  ∀ stack2 outputDirectory2 loadDeps2 writeFiles2 filterDepFunc2,
    run (loadPackage render (S stack2) packageName outputDirectory2 loadDeps2 writeFiles2
                     filterDepFunc2) c.1
    = (c.1, Resolved).
Proof.
  intros Hfree Hfail c. subst c. rewrite run_loadPackage_resolving by exact Hfree.
  assert (Hbind : (deps ← getFullDependencySet stack packageName (_packageCache w);
                   sortPackageList stack deps (_packageCache w)) = Raise e).
  { destruct Hfail as [->|(deps & -> & Hs)]; [reflexivity|exact Hs]. }
  cbv zeta. rewrite Hbind. cbn [fst snd].
  split; [reflexivity|]. split; [apply lookup_insert_eq|]. split.
  - cbn [history setStatus]. rewrite fsOps_snoc_other by discriminate.
    unfold logged. destruct (negb (_verbose w)); [reflexivity|].
    cbn [history record]. apply fsOps_snoc_other. discriminate.
  - intros. apply run_loadPackage_claimed. cbn [_loadingPkgs setStatus].
    rewrite lookup_insert_eq. eauto.
Qed.
End OrchestratorMore.

Lemma run_filterDeps_dedup (k : list string → Task (list string)) : ∀ deps w,
  NoDup deps → (∀ d, d ∈ deps → d ∉ closure w) →
  run (filterDeps dedupFilter deps k) w = run (k deps) (setClosure (closure w ++ deps) w).
Proof.
  intros deps. revert k. induction deps as [|d deps IH]; intros k w Hnd Hfresh.
  - cbn [filterDeps]. rewrite app_nil_r. destruct w; reflexivity.
  - apply NoDup_cons in Hnd as [Hd Hnd]. cbn [filterDeps].
    change (run (CallFilter ?f ?x ?k') w)
      with (let '(b, c) := f x (closure w) in run (k' b) (setClosure c w)).
    unfold dedupFilter at 1.
    rewrite bool_decide_eq_false_2 by (apply Hfresh; left).
    unfold set_add. rewrite bool_decide_eq_false_2 by (apply Hfresh; left).
    rewrite IH; [|exact Hnd|].
    + cbn [closure setClosure]. rewrite <- app_assoc. reflexivity.
    + intros x Hx. cbn [closure setClosure]. rewrite elem_of_app, list_elem_of_singleton.
      intros [Hc| ->]; [|contradiction]. apply (Hfresh x); [right; exact Hx|exact Hc].
Qed.

(** X17.  A call of [loadPackage] with [loadDeps], made without a filter or
    with the filter [buildPackage] passes, claims every package the package
    transitively depends on before its first await. *)
Theorem loadPackage_claims_dependencies
    (stack : nat) (packageName : string) (outputDirectory : list string)
    (writeFiles : bool) (filterDepFunc : option (string → list string → bool * list string))
    (w : World (list string)) (deps sorted : list string) :
  _loadingPkgs w !! packageName = None →
  getFullDependencySet (S stack) packageName (_packageCache w) = Ok deps →
  sortPackageList (S stack) deps (_packageCache w) = Ok sorted →
  filterDepFunc = None ∨ (filterDepFunc = Some dedupFilter ∧ closure w = []) →
  ∀ render dep, dep ∈ deps →
    is_Some (_loadingPkgs (run (loadPackage render (S (S stack)) packageName outputDirectory
                                            true writeFiles filterDepFunc) w).1 !! dep).
Proof.
  intros Hfree Hdeps Hsorted Hfilter render dep Hdep.
  rewrite run_loadPackage_resolving by exact Hfree. cbv zeta.
  rewrite Hdeps. cbn [mbind Res_bind res_bind]. rewrite Hsorted.
  pose proof (sortPackageList_Permutation _ _ _ _ Hsorted) as Hperm.
  assert (Hin : dep ∈ sorted) by (rewrite Hperm; exact Hdep).
  set (w1 := setStatus packageName LOADING (logged ("Loading package " +:+ packageName) w)).
  assert (Hspawn : ∀ w' : World (list string),
            is_Some (_loadingPkgs
              (run (AwaitAll ((fun depName => loadPackage render (S stack) depName outputDirectory
                                                         true writeFiles filterDepFunc) <$> sorted)
                             (if writeFiles
                              then @writePhase (list string) render packageName outputDirectory
                              else Return)) w').1 !! dep)).
  { intros w'. rewrite run_AwaitAll.
    pose proof (runAll_claims render stack outputDirectory true writeFiles filterDepFunc
                  sorted w' dep Hin) as Hc.
    destruct (runAll _ w') as [w2 ps]. exact Hc. }
  destruct Hfilter as [->|[-> Hclosure]]; [apply Hspawn|].
  rewrite run_filterDeps_dedup; [apply Hspawn| |].
  - rewrite Hperm. unfold getFullDependencySet in Hdeps.
    eapply getDependencies_NoDup; [exact Hdeps|apply NoDup_nil_2].
  - intros d _. unfold w1. cbn [closure setStatus]. unfold logged.
    destruct (negb (_verbose w)); cbn [closure record]; rewrite Hclosure; apply not_elem_of_nil.
Qed.

Lemma getFullDependencySet_closure_witness :
  NoDup ["A"; "B"] ∧ ("C" ∉ ["A"; "B"]) ∧
  (∀ y, y ∈ ["A"; "B"] ↔ dependsOn cache_chain "C" y) ∧
  (∀ y, y ∈ ["A"; "B"] → is_Some (cache_chain !! y)) ∧
  is_Some (cache_chain !! "C").
Proof.
  apply (getFullDependencySet_closure 3 "C" cache_chain ["A"; "B"]). vm_compute. reflexivity.
Defined.

Lemma getFullDependencySet_failures_witness :
  (TypeError = CycleError ∧ cycleThrough cache_missing "A") ∨
  (TypeError = TypeError ∧ ∃ x, rtc (edge cache_missing) "A" x ∧ cache_missing !! x = None) ∨
  (TypeError = RangeError ∧
   ((2 < size cache_missing + 2)%nat ∨ ¬ noCycleAvoiding cache_missing "A")).
Proof.
  apply (getFullDependencySet_failures 2 "A" cache_missing TypeError). vm_compute. reflexivity.
Defined.

Lemma sortPackageList_permutes_witness : ["A"; "B"; "C"] ≡ₚ ["C"; "B"; "A"].
Proof.
  apply (proj1 (sortPackageList_permutes 3 ["C"; "B"; "A"] cache_chain)).
  vm_compute. reflexivity.
Defined.

Lemma sortPackageList_resolves_every_package_witness :
  (∃ deps, getFullDependencySet 3 "C" cache_chain = Ok deps) ∧
  is_Some (cache_chain !! "C") ∧ ¬ cycleThrough cache_chain "C".
Proof.
  apply (sortPackageList_resolves_every_package 3 ["C"; "B"; "A"] ["A"; "B"; "C"] cache_chain).
  - vm_compute. reflexivity.
  - simpl. lia.
  - apply list_elem_of_here.
Defined.

Lemma sortPackageList_failures_witness :
  ((CycleError = CycleError ∨ CycleError = TypeError ∨ CycleError = RangeError) ∧
   ∃ pkg, pkg ∈ ["A"; "B"] ∧
          (getFullDependencySet 3 pkg cache_mutual = Raise CycleError ∨
           (CycleError = TypeError ∧ pkg ∈ Object_prototype))) ∧
  ((TypeError = CycleError ∨ TypeError = TypeError ∨ TypeError = RangeError) ∧
   ∃ pkg, pkg ∈ ["constructor"; "A"] ∧
          (getFullDependencySet 3 pkg cache_constructor = Raise TypeError ∨
           (TypeError = TypeError ∧ pkg ∈ Object_prototype))).
Proof.
  split.
  - apply (sortPackageList_failures 3 ["A"; "B"] cache_mutual CycleError);
      [simpl; lia|vm_compute; reflexivity].
  - apply (sortPackageList_failures 3 ["constructor"; "A"] cache_constructor TypeError);
      [simpl; lia|vm_compute; reflexivity].
Defined.



Lemma getMessageSpec_finds_loaded_witness :
  getMessageSpec split_slash toLowerCase_ascii
    (Some (_loadMessagesInCache demo_createMsg demo_createSrv demo_createAction demo_index))
    "demo/FibGoal" MSG_TYPE
  = Ok (Some (OfMsg (demo_createMsg "demo" "FibGoal" "FibGoal.msg"))).
Proof.
  refine (proj1 (getMessageSpec_finds_loaded demo_createMsg demo_createSrv demo_createAction
                   split_slash toLowerCase_ascii demo_index "demo" demo_info _ _ _) _
                "demo/FibGoal" "FibGoal" "FibGoal.msg" _ _).
  - apply (bool_decide_unpack _). vm_compute. reflexivity.
  - vm_compute. reflexivity.
  - apply list_elem_of_here.
  - apply (bool_decide_unpack _). vm_compute. reflexivity.
  - vm_compute. reflexivity.
  - apply list_elem_of_here.
Defined.

Lemma loadPackage_keeps_claimed_status_witness :
  _loadingPkgs (run (loadPackage test_render 5 "C" ["tmp"] true true (Some dedupFilter))
                    w_busy).1 !! "A"
  = _loadingPkgs w_busy !! "A".
Proof.
  apply (loadPackage_keeps_claimed_status test_render 5 "C" "A" ["tmp"] true true
                                          (Some dedupFilter) w_busy).
  - exists LOADING. vm_compute. reflexivity.
  - apply rtc_refl.
Defined.

Lemma loadPackage_failed_resolution_witness :
  (run (loadPackage test_render 5 "A" ["tmp"] true true (Some dedupFilter)) w_mutual).2
  = Rejected CycleError.
Proof.
  refine (proj1 (loadPackage_failed_resolution test_render 4 "A" ["tmp"] true
                   (Some dedupFilter) w_mutual CycleError _ _)).
  - vm_compute. reflexivity.
  - left. vm_compute. reflexivity.
Defined.

Lemma loadPackage_claims_dependencies_witness :
  is_Some (_loadingPkgs (run (loadPackage test_render 4 "C" ["tmp"] true true
                                          (Some dedupFilter)) w_fresh).1 !! "B").
Proof.
  refine (loadPackage_claims_dependencies 2 "C" ["tmp"] true (Some dedupFilter) w_fresh
            ["A"; "B"] ["A"; "B"] _ _ _ _ test_render "B" _).
  - vm_compute. reflexivity.
  - vm_compute. reflexivity.
  - vm_compute. reflexivity.
  - right. split; reflexivity.
  - apply list_elem_of_further, list_elem_of_here.
Defined.

(** ** What has been issued when a package is marked loaded *)

Section GuardFacts.
Context {F : Type}.
Variable cache : PackageMap.

(** Induction on a promise, with the members of a [Promise.all] covered. *)
Lemma Pending_ind' (P : Pending F → Prop)
    (HResolved : P Resolved)
    (HRejected : ∀ e, P (Rejected e))
    (HFs : ∀ k, P (AwaitingFs k))
    (HAll : ∀ ps k, Forall P ps → P (AwaitingAll ps k))
    (HOrphaning : ∀ ps e, Forall P ps → P (Orphaning ps e)) :
  ∀ p, P p.
Proof.
  fix IH 1. intros [|e|k|ps k|ps e].
  - exact HResolved.
  - apply HRejected.
  - apply HFs.
  - apply HAll. revert ps. fix IHps 1. intros [|p ps].
    + apply List.Forall_nil.
    + apply List.Forall_cons; [apply IH|apply IHps].
  - apply HOrphaning. revert ps. fix IHps 1. intros [|p ps].
    + apply List.Forall_nil.
    + apply List.Forall_cons; [apply IH|apply IHps].
Qed.

Lemma fsOps_app (h1 h2 : list Effect) : fsOps (h1 ++ h2) = fsOps h1 ++ fsOps h2.
Proof. unfold fsOps. apply omap_app. Qed.

Lemma extends_fsOps (w w' : World F) :
  extends w w' → fsOps (history w) ⊆ fsOps (history w').
Proof.
  intros [_ _ _ [h Hh]]. rewrite Hh, fsOps_app. intros x Hx. apply elem_of_app. auto.
Qed.

Lemma sub_app_mono (A : Type) (l k k' : list A) : k ⊆ k' → l ++ k ⊆ l ++ k'.
Proof. intros H x. rewrite !elem_of_app. intros [?|?]; auto. Qed.

Lemma sub_cons_mono (A : Type) (x : A) (k k' : list A) : k ⊆ k' → x :: k ⊆ x :: k'.
Proof. intros H y. rewrite !elem_of_cons. intros [?|?]; auto. Qed.

Lemma Forall2_Forall_impl (A B : Type) (P Q : A → B → Prop) (R : B → Prop) l k :
  Forall R k → Forall2 P l k → (∀ x y, R y → P x y → Q x y) → Forall2 Q l k.
Proof.
  intros HR H2 Himp. induction H2 as [|x y l k Hxy _ IH]; constructor.
  - apply Himp; [|assumption]. inversion HR; subst. assumption.
  - apply IH. inversion HR; subst. assumption.
Qed.

(** Both predicates survive further fs calls. *)

Lemma brings_mono (t : Task F) : ∀ have E have',
  brings cache have E t → have ⊆ have' → brings cache have' E t.
Proof.
  induction t as [|e|n k IH|n s k IH|v m k IH|k IH|f d k IH|op k IH|ts k IHts IHk]
    using Task_ind'; intros have E have' Hb Hs; inversion Hb; subst.
  - constructor. etransitivity; eassumption.
  - constructor.
  - constructor. intros b. eapply IH; eauto.
  - constructor. eapply IH; eauto.
  - constructor. eapply IH; eauto.
  - constructor. eapply IH; eauto.
  - constructor. intros b. eapply IH; eauto.
  - constructor. intros r. eapply IH; eauto using sub_cons_mono.
  - econstructor.
    + eapply Forall2_Forall_impl; [exact IHts|eassumption|].
      intros E' t IH Ht. eapply IH; eauto.
    + eapply IHk; eauto using sub_app_mono.
Qed.

Lemma bringsP_mono (p : Pending F) : ∀ have E have',
  bringsP cache have E p → have ⊆ have' → bringsP cache have' E p.
Proof.
  induction p as [|e|k|ps k IHps|ps e IHps] using Pending_ind';
    intros have E have' Hb Hs; inversion Hb; subst.
  - constructor. etransitivity; eassumption.
  - constructor.
  - constructor. intros r. eapply brings_mono; eauto.
  - econstructor.
    + eapply Forall2_Forall_impl; [exact IHps|eassumption|].
      intros E' p IH Hp. eapply IH; eauto.
    + eapply brings_mono; eauto using sub_app_mono.
  - constructor.
Qed.

Section Watched.
Variable name : string.
Variable required : list FsOp.

Lemma guards_mono (t : Task F) : ∀ have have',
  guards cache name required have t → have ⊆ have' → guards cache name required have' t.
Proof.
  induction t as [|e|n k IH|n s k IH|v m k IH|k IH|f d k IH|op k IH|ts k IHts IHk]
    using Task_ind'; intros have have' Hg Hs; inversion Hg; subst.
  - constructor.
  - constructor.
  - constructor. intros b. eapply IH; eauto.
  - constructor; [|eapply IH; eauto]. intros Hn Hl. etransitivity; [|exact Hs]. auto.
  - constructor. eapply IH; eauto.
  - constructor. eapply IH; eauto.
  - constructor. intros b. eapply IH; eauto.
  - constructor. intros r. eapply IH; eauto using sub_cons_mono.
  - econstructor.
    + eapply Forall2_Forall_impl; [exact IHts|eassumption|].
      intros E' t IH [Hb Ht]. split; [eapply brings_mono|eapply IH]; eauto.
    + eapply IHk; eauto using sub_app_mono.
Qed.

Lemma guardsP_mono (p : Pending F) : ∀ have have',
  guardsP cache name required have p → have ⊆ have' → guardsP cache name required have' p.
Proof.
  induction p as [|e|k|ps k IHps|ps e IHps] using Pending_ind';
    intros have have' Hg Hs; inversion Hg; subst.
  - constructor.
  - constructor.
  - constructor. intros r. eapply guards_mono; eauto.
  - econstructor.
    + eapply Forall2_Forall_impl; [exact IHps|eassumption|].
      intros E' p IH [Hb Hp]. split; [eapply bringsP_mono|eapply IH]; eauto.
    + eapply guards_mono; eauto using sub_app_mono.
  - constructor.
    match goal with H : Forall (guardsP _ _ _ _) ps |- _ => rename H into HFps end.
    rewrite Forall_forall in *. intros p Hp. eapply IHps; eauto.
Qed.
End Watched.
End GuardFacts.

Section GuardSound.
Context {F : Type}.
Variable cache : PackageMap.
Variable start : nat.

Lemma extends_length (w w' : World F) :
  extends w w' → (length (history w) ≤ length (history w'))%nat.
Proof. intros [_ _ _ [h Hh]]. rewrite Hh, length_app. lia. Qed.

Lemma issuedSince_extends (w w' : World F) :
  extends w w' → (start ≤ length (history w))%nat →
  issuedSince start w ⊆ issuedSince start w'.
Proof.
  intros [_ _ _ [h Hh]] Hn. unfold issuedSince. rewrite Hh, drop_app_le, fsOps_app by assumption.
  intros x Hx. apply elem_of_app. auto.
Qed.

Lemma issuedSince_snoc_other eff (w : World F) :
  (∀ op, eff ≠ EffFs op) → (start ≤ length (history w))%nat →
  fsOps (drop start (history w ++ [eff])) = issuedSince start w.
Proof.
  intros Hne Hn. rewrite drop_app_le by assumption. apply fsOps_snoc_other. assumption.
Qed.

Lemma issuedSince_snoc_fs op (w : World F) :
  (start ≤ length (history w))%nat →
  fsOps (drop start (history w ++ [EffFs op])) = issuedSince start w ++ [op].
Proof. intros Hn. rewrite drop_app_le by assumption. apply fsOps_app. Qed.

Lemma sub_snoc (A : Type) (x : A) (l k : list A) : l ⊆ k → x :: l ⊆ k ++ [x].
Proof.
  intros H y. rewrite elem_of_cons, elem_of_app, list_elem_of_singleton. intros [->|Hy]; auto.
Qed.

Lemma runAll_brings_from (ts : list (Task F)) :
  Forall (fun t => ∀ have E w, brings cache have E t →
                    (start ≤ length (history w))%nat → have ⊆ issuedSince start w →
                    _packageCache w = cache →
                    bringsP cache (issuedSince start (run t w).1) E (run t w).2) ts →
  ∀ have Es w, Forall2 (brings cache have) Es ts →
    (start ≤ length (history w))%nat → have ⊆ issuedSince start w →
    _packageCache w = cache →
    Forall2 (bringsP cache (issuedSince start (runAll ts w).1)) Es (runAll ts w).2.
Proof.
  intros HF have Es w H2. revert w.
  induction H2 as [|E t Es ts Ht _ IH]; intros w Hn Hs Hc; simpl; [constructor|].
  apply Forall_cons in HF as [Hrun HF'].
  specialize (Hrun have E w Ht Hn Hs Hc).
  pose proof (run_extends t w) as Hx.
  destruct (run t w) as [w1 p]. simpl in Hrun, Hx.
  assert (Hn1 : (start ≤ length (history w1))%nat).
  { pose proof (extends_length _ _ Hx). lia. }
  assert (Hs1 : have ⊆ issuedSince start w1).
  { etransitivity; [exact Hs|]. apply issuedSince_extends; assumption. }
  assert (Hc1 : _packageCache w1 = cache) by (rewrite (ext_cache _ _ Hx); assumption).
  specialize (IH HF' w1 Hn1 Hs1 Hc1).
  pose proof (runAll_extends ts w1) as Hx2.
  destruct (runAll ts w1) as [w2 ps]. simpl in *.
  constructor; [|assumption].
  eapply bringsP_mono; [exact Hrun|]. apply issuedSince_extends; assumption.
Qed.

Lemma run_brings (t : Task F) : ∀ have E w,
  brings cache have E t → (start ≤ length (history w))%nat → have ⊆ issuedSince start w →
  _packageCache w = cache →
  bringsP cache (issuedSince start (run t w).1) E (run t w).2.
Proof.
  induction t as [|e|n k IH|n s k IH|v m k IH|k IH|f d k IH|op k IH|ts k IHts IHk]
    using Task_ind'; intros have E w Hb; inversion Hb; subst; intros Hn Hs Hc; simpl.
  - constructor. etransitivity; eassumption.
  - constructor.
  - eapply IH; eauto.
  - eapply IH; eauto; simpl.
    + rewrite length_app. lia.
    + unfold issuedSince at 1. simpl. rewrite issuedSince_snoc_other by (assumption || discriminate).
      assumption.
  - destruct (v && negb (_verbose w)); eapply IH; eauto; simpl.
    + rewrite length_app. lia.
    + unfold issuedSince at 1. simpl. rewrite issuedSince_snoc_other by (assumption || discriminate).
      assumption.
  - eapply IH; eauto. rewrite Hc. assumption.
  - destruct (f d (closure w)) as [b c]. eapply IH; eauto.
  - constructor. intros r. eapply brings_mono; [eauto|].
    unfold issuedSince at 1. simpl. rewrite issuedSince_snoc_fs by assumption.
    apply sub_snoc. assumption.
  - fold (runAll ts w).
    pose proof (runAll_brings_from ts IHts have Es w ltac:(assumption) Hn Hs Hc) as Hps.
    pose proof (runAll_extends ts w) as Hx.
    destruct (runAll ts w) as [w' ps]. simpl in *.
    econstructor; [exact Hps|].
    eapply brings_mono; [eassumption|]. apply sub_app_mono.
    etransitivity; [exact Hs|]. apply issuedSince_extends; assumption.
Qed.

Section Watched.
Variable name : string.
Variable required : list FsOp.

Lemma runAll_guards_from (ts : list (Task F)) :
  Forall (fun t => ∀ have w, guards cache name required have t →
                    have ⊆ issuedSince start w → _packageCache w = cache →
                    loadedAfter name required start w →
                    loadedAfter name required start (run t w).1 ∧
                    guardsP cache name required (issuedSince start (run t w).1) (run t w).2)
         ts →
  ∀ have Es w,
    Forall2 (fun E t => brings cache have E t ∧ guards cache name required have t) Es ts →
    have ⊆ issuedSince start w → _packageCache w = cache →
    loadedAfter name required start w →
    loadedAfter name required start (runAll ts w).1 ∧
    Forall2 (fun E p => bringsP cache (issuedSince start (runAll ts w).1) E p ∧
                        guardsP cache name required (issuedSince start (runAll ts w).1) p)
            Es (runAll ts w).2.
Proof.
  intros HF have Es w H2. revert w.
  induction H2 as [|E t Es ts [Hb Ht] _ IH]; intros w Hs Hc Hw; simpl;
    [split; [assumption|constructor]|].
  apply Forall_cons in HF as [Hrun HF'].
  specialize (Hrun have w Ht Hs Hc Hw). destruct Hrun as [Hw1 Hg1].
  pose proof (run_brings t have E w Hb (proj1 Hw) Hs Hc) as Hb1.
  pose proof (run_extends t w) as Hx.
  destruct (run t w) as [w1 p]. simpl in Hw1, Hg1, Hb1, Hx.
  assert (Hs1 : have ⊆ issuedSince start w1).
  { etransitivity; [exact Hs|]. apply issuedSince_extends; [assumption|apply Hw]. }
  assert (Hc1 : _packageCache w1 = cache) by (rewrite (ext_cache _ _ Hx); assumption).
  specialize (IH HF' w1 Hs1 Hc1 Hw1). destruct IH as [Hw2 Hps].
  pose proof (runAll_extends ts w1) as Hx2.
  destruct (runAll ts w1) as [w2 ps]. simpl in *.
  split; [assumption|]. constructor; [|assumption].
  split; [eapply bringsP_mono|eapply guardsP_mono]; eauto;
    (apply issuedSince_extends; [assumption|apply Hw1]).
Qed.

Lemma run_guards (t : Task F) : ∀ have w,
  guards cache name required have t →
  have ⊆ issuedSince start w → _packageCache w = cache →
  loadedAfter name required start w →
  loadedAfter name required start (run t w).1 ∧
  guardsP cache name required (issuedSince start (run t w).1) (run t w).2.
Proof.
  induction t as [|e|n k IH|n s k IH|v m k IH|k IH|f d k IH|op k IH|ts k IHts IHk]
    using Task_ind'; intros have w Hg; inversion Hg; subst; intros Hs Hc [Hn Hw]; simpl.
  - split; [split; assumption|constructor].
  - split; [split; assumption|constructor].
  - eapply IH; eauto. split; assumption.
  - assert (Hi : issuedSince start (setStatus n s w) = issuedSince start w).
    { unfold issuedSince at 1. simpl. apply issuedSince_snoc_other; [discriminate|assumption]. }
    eapply IH; eauto.
    + rewrite Hi. assumption.
    + split; [simpl; rewrite length_app; lia|]. rewrite Hi. simpl. intros Hl.
      destruct (decide (n = name)) as [->|Hne].
      * rewrite lookup_insert_eq in Hl. injection Hl as ->.
        etransitivity; [|exact Hs]. auto.
      * rewrite lookup_insert_ne in Hl by assumption. auto.
  - destruct (v && negb (_verbose w)); eapply IH; eauto; try (split; assumption).
    + unfold issuedSince at 1. simpl.
      rewrite issuedSince_snoc_other by (assumption || discriminate). assumption.
    + split; [simpl; rewrite length_app; lia|]. unfold issuedSince at 1. simpl.
      rewrite issuedSince_snoc_other by (assumption || discriminate). assumption.
  - eapply IH; eauto; [rewrite Hc; assumption|split; assumption].
  - destruct (f d (closure w)) as [b c]. eapply IH; eauto. split; assumption.
  - assert (Hi : issuedSince start (record (EffFs op) w) = issuedSince start w ++ [op]).
    { unfold issuedSince at 1. simpl. apply issuedSince_snoc_fs. assumption. }
    rewrite Hi. split.
    + split; [simpl; rewrite length_app; lia|]. rewrite Hi. simpl. intros Hl x Hx.
      apply elem_of_app. left. apply Hw; assumption.
    + constructor. intros r. eapply guards_mono; [eauto|]. apply sub_snoc. assumption.
  - fold (runAll ts w).
    pose proof (runAll_guards_from ts IHts have Es w ltac:(assumption) Hs Hc (conj Hn Hw))
      as [Hw' Hps].
    pose proof (runAll_extends ts w) as Hx.
    destruct (runAll ts w) as [w' ps]. simpl in *.
    split; [assumption|].
    econstructor; [exact Hps|].
    eapply guards_mono; [eassumption|]. apply sub_app_mono.
    etransitivity; [exact Hs|]. apply issuedSince_extends; assumption.
Qed.

Lemma Forall2_snd (A B : Type) (P : A → B → Prop) (Q : B → Prop) l k :
  Forall2 (fun x y => P x y ∧ Q y) l k → Forall Q k.
Proof. induction 1 as [|x y l k [_ Hy] _ IH]; constructor; assumption. Qed.

(** Members that have all resolved have brought what they bring. *)
Lemma resolved_brought (P : list FsOp → Pending F → Prop) have Es (ps : list (Pending F)) :
  Forall (fun p => p = Resolved) ps →
  Forall2 (fun E p => bringsP cache have E p ∧ P E p) Es ps → mjoin Es ⊆ have.
Proof.
  intros HR H2. induction H2 as [|E p Es ps [Hb _] _ IH]; simpl; [intros x Hx; inversion Hx|].
  inversion HR; subst. inversion Hb; subst.
  intros x. rewrite elem_of_app. intros [Hx|Hx]; [auto|]. apply IH; assumption.
Qed.

Lemma step_guards (c c' : World F * Pending F) :
  step c c' →
  _packageCache c.1 = cache →
  loadedAfter name required start c.1 →
  (guardsP cache name required (issuedSince start c.1) c.2 →
   loadedAfter name required start c'.1 ∧
   guardsP cache name required (issuedSince start c'.1) c'.2) ∧
  (∀ E, bringsP cache (issuedSince start c.1) E c.2 →
        bringsP cache (issuedSince start c'.1) E c'.2).
Proof.
  induction 1 as [k res w|ps k w Hall|ps k w p e Hin Hrej|ps1 p ps2 k w w' p' Hstep IH
                 |ps1 p ps2 e w w' p' Hstep IH]; simpl; intros Hc Hw.
  - split.
    + intros Hg. revert Hc. inversion Hg; subst. intros Hc.
      apply (run_guards (k res) (issuedSince start w) w); auto.
    + intros E Hb. revert Hc. inversion Hb; subst. intros Hc.
      apply (run_brings (k res) (issuedSince start w) E w); auto. apply Hw.
  - split.
    + intros Hg. revert Hc. inversion Hg; subst. intros Hc.
      apply (run_guards k (issuedSince start w) w); auto.
      eapply guards_mono; [eassumption|].
      intros x. rewrite elem_of_app. intros [Hx|Hx]; [|assumption].
      eapply (resolved_brought (fun _ p => guardsP cache name required _ p)); eassumption.
    + intros E Hb. revert Hc. inversion Hb; subst. intros Hc.
      apply (run_brings k (issuedSince start w) E w); auto; [|apply Hw].
      eapply brings_mono; [eassumption|].
      intros x. rewrite elem_of_app. intros [Hx|Hx]; [|assumption].
      eapply (resolved_brought (fun _ _ => True)); [eassumption| |eassumption].
      eapply Forall2_impl; [eassumption|]. auto.
  - split.
    + intros Hg. revert Hc. inversion Hg; subst. intros Hc. split; [assumption|]. constructor.
      eapply Forall2_snd. eassumption.
    + intros E Hb. constructor.
  - destruct (IH Hc Hw) as [IHg IHb]. clear IH.
    assert (Hsub : issuedSince start w ⊆ issuedSince start w').
    { apply issuedSince_extends; [apply (step_extends _ _ Hstep)|apply Hw]. }
    split.
    + intros Hg. revert Hc. inversion Hg as [| | |? ? Es ? H2 Hk|]; subst. intros Hc.
      apply Forall2_app_inv_r in H2 as (Es1 & Es' & H21 & H22 & ->).
      apply Forall2_cons_inv_r in H22 as (E & Es2 & [Hb Hp] & H22 & ->).
      destruct (IHg Hp) as [Hw' Hp']. split; [assumption|].
      econstructor; [|eapply guards_mono; [exact Hk|apply sub_app_mono; exact Hsub]].
      apply Forall2_app; [|constructor; [auto|]].
      * eapply Forall2_impl; [exact H21|]. intros E' q [Hb' Hq].
        split; [eapply bringsP_mono|eapply guardsP_mono]; eauto.
      * eapply Forall2_impl; [exact H22|]. intros E' q [Hb' Hq].
        split; [eapply bringsP_mono|eapply guardsP_mono]; eauto.
    + intros E0 Hb0. revert Hc. inversion Hb0 as [| | |? ? ? Es ? H2 Hk|]; subst. intros Hc.
      apply Forall2_app_inv_r in H2 as (Es1 & Es' & H21 & H22 & ->).
      apply Forall2_cons_inv_r in H22 as (E & Es2 & Hb & H22 & ->).
      econstructor; [|eapply brings_mono; [exact Hk|apply sub_app_mono; exact Hsub]].
      apply Forall2_app; [|constructor; [auto|]].
      * eapply Forall2_impl; [exact H21|]. intros E' q Hb'. eapply bringsP_mono; eauto.
      * eapply Forall2_impl; [exact H22|]. intros E' q Hb'. eapply bringsP_mono; eauto.
  - destruct (IH Hc Hw) as [IHg IHb]. clear IH.
    assert (Hsub : issuedSince start w ⊆ issuedSince start w').
    { apply issuedSince_extends; [apply (step_extends _ _ Hstep)|apply Hw]. }
    split.
    + intros Hg. revert Hc. inversion Hg as [| | | |? ? ? H2]; subst. intros Hc.
      apply Forall_app in H2 as [H21 H22]. apply Forall_cons in H22 as [Hp H22].
      destruct (IHg Hp) as [Hw' Hp']. split; [assumption|]. constructor.
      apply Forall_app. split; [|constructor; [assumption|]].
      * eapply Forall_impl; [exact H21|]. intros q Hq. eapply guardsP_mono; eauto.
      * eapply Forall_impl; [exact H22|]. intros q Hq. eapply guardsP_mono; eauto.
    + intros E0 Hb0. constructor.
Qed.

(** The invariant of a run: a package marked loaded has had its required fs
    calls issued, and the promise goes on guarding that. *)
Lemma steps_guards (c c' : World F * Pending F) :
  rtc step c c' →
  _packageCache c.1 = cache →
  loadedAfter name required start c.1 →
  guardsP cache name required (issuedSince start c.1) c.2 →
  loadedAfter name required start c'.1 ∧
  guardsP cache name required (issuedSince start c'.1) c'.2.
Proof.
  induction 1 as [c|c1 c2 c3 Hstep _ IH]; intros Hc Hw Hg; [auto|].
  destruct (step_guards _ _ Hstep Hc Hw) as [Hg2 _]. destruct (Hg2 Hg) as [Hw2 Hp2].
  apply IH; [|assumption|assumption].
  rewrite (ext_cache _ _ (step_extends _ _ Hstep)). assumption.
Qed.
End Watched.
End GuardSound.

Section GuardTasks.
Context {F : Type}.
Variable render : list (nat * string) → string.
Variable cache : PackageMap.

Ltac sub_solve :=
  intros ?;
  repeat first [rewrite elem_of_app|rewrite elem_of_cons|rewrite elem_of_nil];
  tauto.

Lemma mjoin_nils (A B : Type) (l : list A) : mjoin ((fun _ => @nil B) <$> l) = [].
Proof. induction l as [|x l IH]; simpl; auto. Qed.

Lemma mjoin_singletons (A B : Type) (g : A → B) (l : list A) :
  mjoin ((fun x => [g x]) <$> l) = g <$> l.
Proof. induction l as [|x l IH]; simpl; [reflexivity|]. f_equal. exact IH. Qed.

(** Any task brings nothing at least. *)
Lemma brings_nothing (t : Task F) : ∀ have, brings cache have [] t.
Proof.
  induction t as [|e|n k IH|n s k IH|v m k IH|k IH|f d k IH|op k IH|ts k IHts IHk]
    using Task_ind'; intros have; try (constructor; auto; fail).
  - constructor. sub_solve.
  - apply brings_AwaitAll with (Es := (fun _ => []) <$> ts); [|apply IHk].
    apply Forall2_fmap_l, Forall_Forall2_diag.
    eapply Forall_impl; [exact IHts|]. auto.
Qed.

(** What is brought can be forgotten, and what is there is brought. *)
Lemma brings_sub (t : Task F) : ∀ have E E',
  brings cache have E t → E' ⊆ E ++ have → brings cache have E' t.
Proof.
  induction t as [|e|n k IH|n s k IH|v m k IH|k IH|f d k IH|op k IH|ts k IHts IHk]
    using Task_ind'; intros have E E' Hb Hs; inversion Hb; subst.
  - constructor. intros x Hx. apply Hs, elem_of_app in Hx as [Hx|Hx]; auto.
  - constructor.
  - constructor. intros b. eapply IH; eauto.
  - constructor. eapply IH; eauto.
  - constructor. eapply IH; eauto.
  - constructor. eapply IH; eauto.
  - constructor. intros b. eapply IH; eauto.
  - constructor. intros r. eapply IH; eauto.
    etransitivity; [exact Hs|]. sub_solve.
  - econstructor; [eassumption|]. eapply IHk; eauto.
    etransitivity; [exact Hs|]. sub_solve.
Qed.

Lemma brings_await (t k : Task F) have E1 E2 :
  brings cache have E1 t → brings cache (E1 ++ have) E2 k →
  brings cache have (E1 ++ E2) (await t k).
Proof.
  intros Ht Hk. apply brings_AwaitAll with (Es := [E1]).
  - constructor; [assumption|constructor].
  - simpl. rewrite app_nil_r. eapply brings_sub; [exact Hk|]. sub_solve.
Qed.

Lemma brings_withPackage packageName e (k : PackageEntry → Task F) have E :
  cache !! packageName = Some e → brings cache have E (k e) →
  brings cache have E (withPackage packageName k).
Proof. intros Hl Hk. constructor. unfold prop. rewrite Hl. assumption. Qed.

Lemma brings_writeFile have filepath data :
  brings cache have [WriteFile filepath data] (@writeFile F filepath data).
Proof. constructor. intros [code|]; constructor. sub_solve. Qed.

Lemma brings_createLocal have dirPath :
  brings cache have [MkDir dirPath] (@createLocal F dirPath).
Proof.
  constructor. intros [code|]; [destruct (_ || _)|]; constructor; sub_solve.
Qed.

Lemma brings_createLocals paths : ∀ have curPath,
  brings cache have (mkdirs curPath paths) (@createLocals F curPath paths).
Proof.
  induction paths as [|p paths IH]; intros have curPath; simpl; [constructor; sub_solve|].
  apply (brings_await _ _ _ [MkDir _]); [apply brings_createLocal|apply IH].
Qed.

Lemma brings_createIndex have names directory :
  brings cache have
    [WriteFile (directory ++ ["_index.js"])
       (render ([(0, "module.exports = {")%nat] ++ (indexLine <$> names) ++ [(0, "};")%nat]))]
    (@createIndex F render names directory).
Proof. apply brings_writeFile. Qed.

(** [initPackageWrite] resolves only after each of its directories was
    asked for and each of its index files was handed to [fs.writeFile]. *)
Lemma brings_initPackageWrite have packageName e jsMsgDir :
  cache !! packageName = Some e →
  brings cache have (initPackageFsOps render e packageName jsMsgDir)
         (@initPackageWrite F render packageName jsMsgDir).
Proof.
  intros Hl. unfold initPackageWrite, initPackageFsOps, initPackageFsOpsIn, createDirectory.
  set (packageDir := jsMsgDir ++ [packageName]).
  assert (Hlast : ∀ have, brings cache have
            ([WriteFile (packageDir ++ ["_index.js"])
               (render ([(0, "module.exports = {")%nat]
                 ++ (if packageHasMessages e || packageHasActions e
                     then [(1, "msg: require('./msg/_index.js'),")%nat] else [])
                 ++ (if packageHasServices e
                     then [(1, "srv: require('./srv/_index.js')")%nat] else [])
                 ++ [(0, "};")%nat]))] ++ [])
            (await (@createPackageIndex F render packageName packageDir) Return)).
  { intros have'. apply brings_await.
    - apply brings_withPackage with (e := e); [assumption|]. apply brings_writeFile.
    - constructor. sub_solve. }
  assert (Hdir : ∀ have dir (names : PackageEntry → list string) k E,
            brings cache (([WriteFile (dir ++ ["_index.js"])
                              (render ([(0, "module.exports = {")%nat]
                                       ++ (indexLine <$> names e) ++ [(0, "};")%nat]))]
                           ++ mkdirs [""] (dir) ++ have)) E k →
            brings cache have
              ((mkdirs [""] (dir)
                ++ [WriteFile (dir ++ ["_index.js"])
                      (render ([(0, "module.exports = {")%nat] ++ (indexLine <$> names e)
                               ++ [(0, "};")%nat]))]) ++ E)
              (await (createLocals [""] (dir))
                 (await (withPackage packageName
                           (fun e' => @createIndex F render (names e') dir))
                    k))).
  { intros have' dir names k E Hk. rewrite <- app_assoc.
    apply brings_await; [apply brings_createLocals|].
    apply brings_await; [|exact Hk].
    apply brings_withPackage with (e := e); [assumption|]. apply brings_createIndex. }
  eapply brings_sub.
  { apply brings_await; [apply brings_createLocals|].
    apply brings_withPackage with (e := e); [assumption|]. cbv beta zeta.
    instantiate (1 :=
      (if packageHasMessages e || packageHasActions e
       then mkdirs [""] (packageDir ++ ["msg"])
            ++ [WriteFile ((packageDir ++ ["msg"]) ++ ["_index.js"])
                  (render ([(0, "module.exports = {")%nat]
                           ++ (indexLine <$> keys (messages e)) ++ [(0, "};")%nat]))]
       else [])
      ++ (if packageHasServices e
          then mkdirs [""] (packageDir ++ ["srv"])
               ++ [WriteFile ((packageDir ++ ["srv"]) ++ ["_index.js"])
                     (render ([(0, "module.exports = {")%nat]
                              ++ (indexLine <$> keys (services e)) ++ [(0, "};")%nat]))]
          else [])
      ++ [WriteFile (packageDir ++ ["_index.js"])
            (render ([(0, "module.exports = {")%nat]
               ++ (if packageHasMessages e || packageHasActions e
                   then [(1, "msg: require('./msg/_index.js'),")%nat] else [])
               ++ (if packageHasServices e
                   then [(1, "srv: require('./srv/_index.js')")%nat] else [])
               ++ [(0, "};")%nat]))] ++ []).
    assert (Hsrv : ∀ have, brings cache have
      ((if packageHasServices e
          then mkdirs [""] (packageDir ++ ["srv"])
               ++ [WriteFile ((packageDir ++ ["srv"]) ++ ["_index.js"])
                     (render ([(0, "module.exports = {")%nat]
                              ++ (indexLine <$> keys (services e)) ++ [(0, "};")%nat]))]
          else [])
      ++ [WriteFile (packageDir ++ ["_index.js"])
            (render ([(0, "module.exports = {")%nat]
               ++ (if packageHasMessages e || packageHasActions e
                   then [(1, "msg: require('./msg/_index.js'),")%nat] else [])
               ++ (if packageHasServices e
                   then [(1, "srv: require('./srv/_index.js')")%nat] else [])
               ++ [(0, "};")%nat]))] ++ [])
      (if packageHasServices e
       then await (createLocals [""] (packageDir ++ ["srv"]))
              (await (@createServiceIndex F render packageName (packageDir ++ ["srv"]))
                 (await (@createPackageIndex F render packageName packageDir) Return))
       else await (@createPackageIndex F render packageName packageDir) Return)).
    { intros have'. revert Hlast. generalize (packageHasMessages e || packageHasActions e).
      intros b Hlast. destruct (packageHasServices e); [|apply Hlast].
      apply (Hdir _ _ (fun e' => keys (services e'))), Hlast. }
    destruct (packageHasMessages e || packageHasActions e) eqn:Hm; [|apply Hsrv].
    apply (Hdir _ _ (fun e' => keys (messages e'))), Hsrv. }
  rewrite app_nil_r. sub_solve.
Qed.

Lemma brings_members (A : Type) (g : A → FsOp) (call : A → Task F) (l : list A) have E :
  (∀ x have, brings cache have [g x] (call x)) → E ⊆ (g <$> l) ++ have →
  brings cache have E (AwaitAll (call <$> l) Return).
Proof.
  intros Hcall Hs. apply brings_AwaitAll with (Es := (fun x => [g x]) <$> l).
  - apply Forall2_fmap, Forall_Forall2_diag, Forall_forall. intros x _. apply Hcall.
  - constructor. rewrite mjoin_singletons. assumption.
Qed.

(** [writePackageMessages] resolves only after the class file of each
    message was handed to [fs.writeFile]; likewise for the services. *)
Lemma brings_writePackageMessages have packageName e jsMsgDir :
  cache !! packageName = Some e →
  brings cache have (messageFsOps e packageName jsMsgDir)
         (@writePackageMessages F packageName jsMsgDir).
Proof.
  intros Hl. apply brings_withPackage with (e := e); [assumption|]. cbv beta zeta.
  unfold messageFsOps.
  destruct (map_to_list (messages e)) as [|x l] eqn:Hm; [constructor; sub_solve|].
  change (0 <? length (x :: l))%nat with true. cbv iota. constructor.
  eapply brings_members with
    (g := fun '(msgName, entry) =>
            WriteFile ((jsMsgDir ++ [packageName; "msg"]) ++ [msgName +:+ ".js"])
                      (msg_classFile (spec entry))); [|sub_solve].
  intros [n entry] have'. constructor. apply brings_writeFile.
Qed.

Lemma brings_writePackageServices have packageName e jsMsgDir :
  cache !! packageName = Some e →
  brings cache have (serviceFsOps e packageName jsMsgDir)
         (@writePackageServices F packageName jsMsgDir).
Proof.
  intros Hl. apply brings_withPackage with (e := e); [assumption|]. cbv beta zeta.
  unfold serviceFsOps.
  destruct (map_to_list (services e)) as [|x l] eqn:Hm; [constructor; sub_solve|].
  change (0 <? length (x :: l))%nat with true. cbv iota. constructor.
  eapply brings_members with
    (g := fun '(srvName, entry) =>
            WriteFile ((jsMsgDir ++ [packageName; "srv"]) ++ [srvName +:+ ".js"])
                      (srv_classFile (spec entry))); [|sub_solve].
  intros [n entry] have'. constructor. apply brings_writeFile.
Qed.

Section Watched.
Variable name : string.
Variable required : list FsOp.

(** A [Promise.all] whose members are only waited for. *)
Lemma guards_all have (ts : list (Task F)) k :
  Forall (guards cache name required have) ts → guards cache name required have k →
  guards cache name required have (AwaitAll ts k).
Proof.
  intros Hts Hk. apply guards_AwaitAll with (Es := (fun _ => []) <$> ts).
  - apply Forall2_fmap_l, Forall_Forall2_diag.
    eapply Forall_impl; [exact Hts|]. intros t Ht. split; [apply brings_nothing|exact Ht].
  - rewrite mjoin_nils. exact Hk.
Qed.

Lemma guards_await have (t k : Task F) :
  guards cache name required have t → guards cache name required have k →
  guards cache name required have (await t k).
Proof. intros Ht Hk. apply guards_all; [repeat constructor; exact Ht|exact Hk]. Qed.

Lemma guards_withPackage have packageName (k : PackageEntry → Task F) :
  (∀ e, guards cache name required have (k e)) →
  guards cache name required have (withPackage packageName k).
Proof.
  intros Hk. unfold withPackage. constructor.
  destruct (prop cache packageName); [apply Hk|constructor].
Qed.

Lemma guards_writeFile have filepath data :
  guards cache name required have (@writeFile F filepath data).
Proof. constructor. intros [code|]; constructor. Qed.

Lemma guards_createLocal have dirPath :
  guards cache name required have (@createLocal F dirPath).
Proof. constructor. intros [code|]; [destruct (_ || _)|]; constructor. Qed.

Lemma guards_createLocals paths : ∀ have curPath,
  guards cache name required have (@createLocals F curPath paths).
Proof.
  induction paths as [|p paths IH]; intros have curPath; simpl; [constructor|].
  apply guards_await; [apply guards_createLocal|apply IH].
Qed.

(** The output of a package sets no load status. *)
Lemma guards_initPackageWrite have packageName jsMsgDir :
  guards cache name required have (@initPackageWrite F render packageName jsMsgDir).
Proof.
  unfold initPackageWrite, createDirectory.
  apply guards_await; [apply guards_createLocals|].
  apply guards_withPackage. intros e. cbv beta zeta.
  assert (Hlast : guards cache name required have
            (await (@createPackageIndex F render packageName (jsMsgDir ++ [packageName]))
                   Return)).
  { apply guards_await; [|constructor].
    apply guards_withPackage. intros e'. apply guards_writeFile. }
  assert (Hsrv : guards cache name required have
            (if packageHasServices e
             then await (createLocals [""] ((jsMsgDir ++ [packageName]) ++ ["srv"]))
                    (await (@createServiceIndex F render packageName
                              ((jsMsgDir ++ [packageName]) ++ ["srv"]))
                       (await (@createPackageIndex F render packageName
                                 (jsMsgDir ++ [packageName])) Return))
             else await (@createPackageIndex F render packageName
                           (jsMsgDir ++ [packageName])) Return)).
  { destruct (packageHasServices e); [|exact Hlast].
    apply guards_await; [apply guards_createLocals|].
    apply guards_await; [|exact Hlast].
    apply guards_withPackage. intros e'. apply guards_writeFile. }
  destruct (_ || _); [|exact Hsrv].
  apply guards_await; [apply guards_createLocals|].
  apply guards_await; [|exact Hsrv].
  apply guards_withPackage. intros e'. apply guards_writeFile.
Qed.

Lemma guards_writePackageMessages have packageName jsMsgDir :
  guards cache name required have (@writePackageMessages F packageName jsMsgDir).
Proof.
  apply guards_withPackage. intros e. cbv beta zeta.
  match goal with |- context [if ?b then _ else _] => destruct b end; [|constructor].
  constructor. apply guards_all; [|constructor].
  apply Forall_fmap, Forall_forall. intros [n x] _. constructor. apply guards_writeFile.
Qed.

Lemma guards_writePackageServices have packageName jsMsgDir :
  guards cache name required have (@writePackageServices F packageName jsMsgDir).
Proof.
  apply guards_withPackage. intros e. cbv beta zeta.
  match goal with |- context [if ?b then _ else _] => destruct b end; [|constructor].
  constructor. apply guards_all; [|constructor].
  apply Forall_fmap, Forall_forall. intros [n x] _. constructor. apply guards_writeFile.
Qed.

Lemma guards_filterDeps have f deps : ∀ (k : list string → Task F),
  (∀ l, guards cache name required have (k l)) →
  guards cache name required have (filterDeps f deps k).
Proof.
  induction deps as [|d deps IH]; intros k Hk; simpl; [apply Hk|].
  constructor. intros b. apply IH. intros l. apply Hk.
Qed.
End Watched.

Section Output.
Variable name : string.
Variable entry : PackageEntry.
Variable outputDirectory : list string.
Hypothesis cached : cache !! name = Some entry.

(** The write phase of a package marks it loaded after its own output, and
    never marks another one. *)
Lemma guards_writePhase have packageName :
  guards cache name (packageFsOps render entry name outputDirectory) have
         (@writePhase F render packageName outputDirectory).
Proof.
  unfold writePhase.
  destruct (decide (packageName = name)) as [->|Hne].
  - unfold await.
    apply guards_AwaitAll with (Es := [initPackageFsOps render entry name outputDirectory]).
    { constructor; [|constructor].
      split; [apply brings_initPackageWrite; exact cached|apply guards_initPackageWrite]. }
    apply guards_AwaitAll with (Es := [messageFsOps entry name outputDirectory]).
    { constructor; [|constructor].
      split; [apply brings_writePackageMessages; exact cached
             |apply guards_writePackageMessages]. }
    apply guards_AwaitAll with (Es := [serviceFsOps entry name outputDirectory]).
    { constructor; [|constructor].
      split; [apply brings_writePackageServices; exact cached
             |apply guards_writePackageServices]. }
    constructor; [|repeat constructor].
    intros _ _. unfold packageFsOps. simpl. rewrite !app_nil_r. sub_solve.
  - apply guards_await; [apply guards_initPackageWrite|].
    apply guards_await; [apply guards_writePackageMessages|].
    apply guards_await; [apply guards_writePackageServices|].
    constructor; [|repeat constructor]. intros Heq. contradiction.
Qed.

(** Whatever [loadPackage] is called with, it marks [name] loaded only
    after the output of [name]. *)
Lemma guards_loadPackage loadDeps writeFiles
    (filterDepFunc : option (string → F → bool * F)) :
  ∀ stack packageName have,
    guards cache name (packageFsOps render entry name outputDirectory) have
      (loadPackage render stack packageName outputDirectory loadDeps writeFiles
                   filterDepFunc).
Proof.
  induction stack as [|stack' IH]; intros packageName have; [constructor|].
  rewrite loadPackage_unfold. constructor. intros [|]; [constructor|].
  constructor. constructor; [intros _ Hl; discriminate Hl|].
  unfold loadPackageClaimed.
  assert (Hafter : ∀ have, guards cache name (packageFsOps render entry name outputDirectory)
            have (if writeFiles then @writePhase F render packageName outputDirectory
                  else Return)).
  { intros have'. destruct writeFiles; [apply guards_writePhase|constructor]. }
  destruct loadDeps; [|apply Hafter].
  constructor.
  destruct (_ ≫= _) as [dependencies|e]; [|constructor].
  assert (Hspawn : ∀ l, guards cache name (packageFsOps render entry name outputDirectory)
            have
            (AwaitAll ((fun depName =>
                          loadPackage render stack' depName outputDirectory true writeFiles
                                      filterDepFunc) <$> l)
                      (if writeFiles then @writePhase F render packageName outputDirectory
                       else Return))).
  { intros l. apply guards_all; [|apply Hafter].
    apply Forall_fmap, Forall_forall. intros d _. apply IH. }
  destruct filterDepFunc as [f|]; [apply guards_filterDeps|]; apply Hspawn.
Qed.
End Output.
End GuardTasks.

(** ** The success-only event loop *)

Section DriveFacts.
Context {F : Type}.

Lemma drive_All (ps : list (Pending F)) k w :
  drive (AwaitingAll ps k) w
  = if forallb isResolved ps then Some (run k w)
    else match driveFirst ps w with
         | Some (w', ps') => Some (w', AwaitingAll ps' k)
         | None => None
         end.
Proof. reflexivity. Qed.

Lemma drive_Orphaning (ps : list (Pending F)) e w :
  drive (Orphaning ps e) w
  = match driveFirst ps w with
    | Some (w', ps') => Some (w', Orphaning ps' e)
    | None => None
    end.
Proof. reflexivity. Qed.

Lemma driveFirst_member (ps : list (Pending F)) w :
  Forall (fun p => ∀ w c', drive p w = Some c' → step (w, p) c') ps →
  ∀ w' ps', driveFirst ps w = Some (w', ps') →
  ∃ ps1 p ps2 p', ps = ps1 ++ p :: ps2 ∧ ps' = ps1 ++ p' :: ps2 ∧ step (w, p) (w', p').
Proof.
  induction 1 as [|p ps Hp _ IH]; intros w' ps' Hd; simpl in Hd; [discriminate|].
  destruct (drive p w) as [[w1 p1]|] eqn:Hdp.
  - injection Hd as <- <-. exists [], p, ps, p1. auto.
  - destruct (driveFirst ps w) as [[w1 ps1]|] eqn:Hdf; [|discriminate].
    injection Hd as <- <-.
    destruct (IH _ _ eq_refl) as (l1 & q & l2 & q' & -> & -> & Hs).
    exists (p :: l1), q, l2, q'. auto.
Qed.

(** A turn of [drive] is a step of the event loop. *)
Lemma drive_step (p : Pending F) : ∀ w c', drive p w = Some c' → step (w, p) c'.
Proof.
  induction p as [|e|k|ps k IHps|ps e IHps] using Pending_ind'; intros w c' Hd.
  - discriminate.
  - discriminate.
  - injection Hd as <-. apply step_fs.
  - rewrite drive_All in Hd. destruct (forallb isResolved ps) eqn:Hall.
    + injection Hd as <-. apply step_all_resolved.
      apply Forall_forall. intros q Hq.
      apply List.forallb_forall with (x := q) in Hall; [|apply list_elem_of_In; exact Hq].
      destruct q; simpl in Hall; auto; discriminate.
    + destruct (driveFirst ps w) as [[w' ps']|] eqn:Hdf; [|discriminate].
      injection Hd as <-.
      destruct (driveFirst_member ps w IHps _ _ Hdf) as (l1 & q & l2 & q' & -> & -> & Hs).
      apply step_all_member. assumption.
  - rewrite drive_Orphaning in Hd.
    destruct (driveFirst ps w) as [[w' ps']|] eqn:Hdf; [|discriminate].
    injection Hd as <-.
    destruct (driveFirst_member ps w IHps _ _ Hdf) as (l1 & q & l2 & q' & -> & -> & Hs).
    apply step_orphan. assumption.
Qed.

Lemma driveN_steps turns : ∀ c : World F * Pending F, rtc step c (driveN turns c).
Proof.
  induction turns as [|turns IH]; intros [w p]; simpl; [apply rtc_refl|].
  destruct (drive p w) as [c'|] eqn:Hd; [|apply rtc_refl].
  eapply rtc_l; [apply drive_step; exact Hd|apply IH].
Qed.
End DriveFacts.

(** ** Output before the load status *)

Section OutputOrder.
Context {F : Type}.
Variable render : list (nat * string) → string.

(** The promise of a call resolves only after what the call brings. *)
Lemma steps_brings (t : Task F) (E : list FsOp) (w : World F) (c2 : World F * Pending F) :
  brings (_packageCache w) [] E t →
  rtc step (run t w) c2 → c2.2 = Resolved →
  E ⊆ fsOps (drop (length (history w)) (history c2.1)).
Proof.
  intros Hb Hsteps Hres.
  set (start := length (history w)). set (cache := _packageCache w).
  assert (Hgo : ∀ c c' : World F * Pending F, rtc step c c' →
            _packageCache c.1 = cache → (start ≤ length (history c.1))%nat →
            bringsP cache (issuedSince start c.1) E c.2 →
            bringsP cache (issuedSince start c'.1) E c'.2).
  { induction 1 as [c|c1 c3 c4 Hstep _ IH]; intros Hc Hn Hp; [assumption|].
    pose proof (step_extends _ _ Hstep) as Hx.
    destruct (step_guards cache start "" [] _ _ Hstep Hc) as [_ Hb2].
    { split; [assumption|]. intros _ x Hx'. inversion Hx'. }
    apply IH; [rewrite (ext_cache _ _ Hx); assumption| |apply Hb2; assumption].
    pose proof (extends_length _ _ Hx). lia. }
  pose proof (run_extends t w) as Hx.
  assert (Hp : bringsP cache (issuedSince start c2.1) E c2.2).
  { apply (Hgo _ _ Hsteps).
    - rewrite (ext_cache _ _ Hx). reflexivity.
    - pose proof (extends_length _ _ Hx). unfold start. lia.
    - apply (run_brings cache start t [] E w); auto.
      intros x Hx'. inversion Hx'. }
  rewrite Hres in Hp. inversion Hp; subst. assumption.
Qed.

(** X18. In any run of a call of [loadPackage] with a normalized output
    directory, whatever its other arguments and the order and outcome of the
    fs calls, a package of the cache that was not marked loaded before is
    marked loaded only after every fs call of its write phase has been
    issued by that run: the [mkdir] of each directory, the [writeFile] of
    each index and of each message and service class.  The lines of an
    index are those of the keys of the package in some order. *)
Theorem loadPackage_marks_loaded_after_output
    (stack : nat) (packageName : string) (outputDirectory : list string)
    (loadDeps writeFiles : bool) (filterDepFunc : option (string → F → bool * F))
    (w : World F) (name : string) (entry : PackageEntry) (c2 : World F * Pending F) :
  normalPath outputDirectory = true → plainSegment name = true →
  _packageCache w !! name = Some entry →
  _loadingPkgs w !! name ≠ Some LOADED →
  rtc step (run (loadPackage render stack packageName outputDirectory loadDeps writeFiles
                             filterDepFunc) w) c2 →
  _loadingPkgs c2.1 !! name = Some LOADED →
  ∃ msgs srvs,
    msgs ≡ₚ map_to_list (messages entry) ∧ srvs ≡ₚ map_to_list (services entry) ∧
    packageFsOpsIn render msgs srvs entry name outputDirectory
      ⊆ fsOps (drop (length (history w)) (history c2.1)).
Proof.
  intros _ _ Hentry Hnot Hsteps Hloaded.
  exists (map_to_list (messages entry)), (map_to_list (services entry)).
  split; [reflexivity|]. split; [reflexivity|].
  change (packageFsOps render entry name outputDirectory
            ⊆ fsOps (drop (length (history w)) (history c2.1))).
  set (start := length (history w)). set (cache := _packageCache w).
  set (required := packageFsOps render entry name outputDirectory).
  set (t := loadPackage render stack packageName outputDirectory loadDeps writeFiles
                        filterDepFunc).
  assert (Hw : loadedAfter name required start w).
  { split; [reflexivity|]. intros Hl. contradiction. }
  assert (Hg : guards cache name required [] t).
  { apply guards_loadPackage. exact Hentry. }
  assert (Hnil : [] ⊆ issuedSince start w) by (intros x Hx; inversion Hx).
  destruct (run_guards cache start name required t [] w Hg Hnil eq_refl Hw) as [Hw1 Hp1].
  assert (Hc1 : _packageCache (run t w).1 = cache).
  { rewrite (ext_cache _ _ (run_extends t w)). reflexivity. }
  destruct (steps_guards cache start name required _ _ Hsteps Hc1 Hw1 Hp1) as [[_ Hw2] _].
  apply Hw2. exact Hloaded.
Qed.

(** X19. The promise of [createDirectory] resolves only after a [mkdir] has
    been issued for every path that its loop reaches from the root: for an
    absolute directory the root and each prefix of the directory, for a
    relative one each prefix of it taken below the root. *)
Theorem createDirectory_resolves_after_mkdirs
    (directory : list string) (w : World F) (c2 : World F * Pending F) :
  forallb (fun segment => negb (hasSeparator segment)) directory = true →
  rtc step (run (createDirectory directory) w) c2 →
  c2.2 = Resolved →
  mkdirs [""] directory ⊆ fsOps (drop (length (history w)) (history c2.1)).
Proof. intros _. apply steps_brings. apply brings_createLocals. Qed.

(** X20. For a normalized directory and a package of the cache, the promise
    of [initPackageWrite] resolves only after the package directory, the
    [msg] and [srv] directories the package needs and the index file of each
    of them have been handed to [fs]; the lines of an index are those of the
    keys of the package in some order. *)
Theorem initPackageWrite_resolves_after_output
    (packageName : string) (jsMsgDir : list string) (entry : PackageEntry)
    (w : World F) (c2 : World F * Pending F) :
  normalPath jsMsgDir = true → plainSegment packageName = true →
  _packageCache w !! packageName = Some entry →
  rtc step (run (initPackageWrite render packageName jsMsgDir) w) c2 →
  c2.2 = Resolved →
  ∃ msgNames srvNames,
    msgNames ≡ₚ keys (messages entry) ∧ srvNames ≡ₚ keys (services entry) ∧
    initPackageFsOpsIn render msgNames srvNames entry packageName jsMsgDir
      ⊆ fsOps (drop (length (history w)) (history c2.1)).
Proof.
  intros _ _ Hentry Hsteps Hres.
  exists (keys (messages entry)), (keys (services entry)).
  split; [reflexivity|]. split; [reflexivity|].
  revert Hsteps Hres. apply steps_brings.
  apply (brings_initPackageWrite render (_packageCache w)). exact Hentry.
Qed.


End OutputOrder.

Lemma loadPackage_marks_loaded_after_output_witness :
  ∃ msgs srvs,
    msgs ≡ₚ map_to_list (messages entry_srv) ∧
    srvs ≡ₚ map_to_list (services entry_srv) ∧
    packageFsOpsIn test_render msgs srvs entry_srv "demo_srvs" [""; "out"]
    ⊆ fsOps (drop (length (history w_srv))
                  (history (driveN 60 (run (loadPackage test_render 3 "demo_srvs" [""; "out"]
                                              true true (Some dedupFilter)) w_srv)).1)).
Proof.
  apply (loadPackage_marks_loaded_after_output test_render 3 "demo_srvs" [""; "out"] true true
           (Some dedupFilter) w_srv "demo_srvs").
  - reflexivity.
  - reflexivity.
  - vm_compute. reflexivity.
  - vm_compute. discriminate.
  - apply driveN_steps.
  - vm_compute. reflexivity.
Defined.

Lemma createDirectory_resolves_after_mkdirs_witness :
  (mkdirs [""] [""; "out"; "std_msgs"]
   ⊆ fsOps (drop (length (history w_std))
                 (history (driveN 40 (run (createDirectory [""; "out"; "std_msgs"])
                                          w_std)).1))) ∧
  (mkdirs [""] ["out"; "std_msgs"]
   ⊆ fsOps (drop (length (history w_std))
                 (history (driveN 40 (run (createDirectory ["out"; "std_msgs"]) w_std)).1))).
Proof.
  split.
  - apply (createDirectory_resolves_after_mkdirs [""; "out"; "std_msgs"] w_std).
    + reflexivity.
    + apply driveN_steps.
    + vm_compute. reflexivity.
  - apply (createDirectory_resolves_after_mkdirs ["out"; "std_msgs"] w_std).
    + reflexivity.
    + apply driveN_steps.
    + vm_compute. reflexivity.
Defined.

Lemma initPackageWrite_resolves_after_output_witness :
  ∃ msgNames srvNames,
    msgNames ≡ₚ keys (messages entry_srv) ∧
    srvNames ≡ₚ keys (services entry_srv) ∧
    initPackageFsOpsIn test_render msgNames srvNames entry_srv
                       "demo_srvs" [""; "out"]
    ⊆ fsOps (drop (length (history w_srv))
                  (history (driveN 60 (run (initPackageWrite test_render "demo_srvs"
                                              [""; "out"]) w_srv)).1)).
Proof.
  apply (initPackageWrite_resolves_after_output test_render "demo_srvs" [""; "out"] _ w_srv).
  - reflexivity.
  - reflexivity.
  - vm_compute. reflexivity.
  - apply driveN_steps.
  - vm_compute. reflexivity.
Defined.



(** ** Runs in which every fs call succeeds *)

Section SettlesFacts.
Context {F : Type}.
Variable render : list (nat * string) → string.
Variable cache : PackageMap.

Lemma driveN_add n : ∀ m (c : World F * Pending F), driveN (n + m) c = driveN m (driveN n c).
Proof.
  induction n as [|n IH]; intros m c; simpl; [reflexivity|].
  destruct (drive c.2 c.1) as [c'|] eqn:Hd; [apply IH|].
  destruct m as [|m]; simpl; [reflexivity|]. rewrite Hd. reflexivity.
Qed.

Lemma settles_trans (c c' : World F * Pending F) w' n :
  driveN n c = c' → settles c' w' → settles c w'.
Proof. intros <- [m Hm]. exists (n + m)%nat. rewrite driveN_add. exact Hm. Qed.

Lemma after_refl (w : World F) : after [] [] w w.
Proof.
  split; auto; [intros d Hd; inversion Hd|]. rewrite app_nil_r. reflexivity.
Qed.

Lemma after_trans ops1 ops2 L1 L2 (w1 w2 w3 : World F) :
  after ops1 L1 w1 w2 → after ops2 L2 w2 w3 → after (ops1 ++ ops2) (L1 ++ L2) w1 w3.
Proof.
  intros [V1 C1 M1 O1 H1] [V2 C2 M2 O2 H2]. split; try congruence.
  - intros d Hd. destruct (decide (d ∈ L2)) as [Hin|Hout]; [auto|].
    rewrite O2 by exact Hout. apply M1. apply elem_of_app in Hd as [Hd|Hd]; tauto.
  - intros d Hd. rewrite elem_of_app in Hd. rewrite O2, O1 by tauto. reflexivity.
  - rewrite H2, H1, app_assoc. reflexivity.
Qed.

Lemma after_log m (w : World F) : after [] [] w (record (EffLog m) w).
Proof.
  split; auto; [intros d Hd; inversion Hd|]. simpl.
  rewrite fsOps_snoc_other by discriminate. rewrite app_nil_r. reflexivity.
Qed.

Lemma after_fs op (w : World F) : after [op] [] w (record (EffFs op) w).
Proof. split; auto; [intros d Hd; inversion Hd|]. simpl. apply fsOps_app. Qed.

Lemma finishes_Resolved : finishes cache (@Resolved F) [] [].
Proof. intros w _. exists w. split; [exists O; reflexivity|apply after_refl]. Qed.

Lemma launches_succeeds (t : Task F) ops L : launches cache t ops L → succeeds cache t ops L.
Proof.
  intros Ht w Hc. destruct (Ht w Hc) as (ops0 & ops1 & -> & Ha & Hp).
  destruct (Hp (run t w).1) as (w' & Hs & Ha'); [rewrite (after_cache _ _ _ _ Ha); exact Hc|].
  exists w'. split; [destruct (run t w); exact Hs|].
  apply (after_trans ops0 ops1 [] L _ _ _ Ha Ha').
Qed.

(** The resolved members of a [Promise.all] are passed over. *)
Lemma driveFirst_skip (pre l : list (Pending F)) w :
  Forall (fun q => q = Resolved) pre →
  driveFirst (pre ++ l) w
  = match driveFirst l w with Some (w', l') => Some (w', pre ++ l') | None => None end.
Proof.
  induction 1 as [|q pre -> _ IH]; simpl; [destruct (driveFirst l w) as [[? ?]|]; reflexivity|].
  rewrite IH. destruct (driveFirst l w) as [[? ?]|]; reflexivity.
Qed.

(** The leftmost member that has not resolved is driven until it has. *)
Lemma drive_member n : ∀ (pre : list (Pending F)) w0 p rest k w1,
  Forall (fun q => q = Resolved) pre →
  driveN n (w0, p) = (w1, Resolved) →
  ∃ m, driveN m (w0, AwaitingAll (pre ++ p :: rest) k)
       = (w1, AwaitingAll (pre ++ Resolved :: rest) k).
Proof.
  induction n as [|n IH]; intros pre w0 p rest k w1 Hpre Hn.
  - injection Hn as -> ->. exists O. reflexivity.
  - simpl in Hn. destruct (drive p w0) as [[w2 p2]|] eqn:Hd.
    + destruct (IH pre _ _ rest k _ Hpre Hn) as [m Hm]. exists (S m).
      assert (Hr : isResolved p = false) by (destruct p; try reflexivity; discriminate).
      cbn [driveN fst snd]. rewrite drive_All.
      rewrite forallb_app. cbn [forallb]. rewrite Hr, andb_false_r.
      rewrite driveFirst_skip by exact Hpre. cbn [driveFirst]. rewrite Hd. exact Hm.
    + injection Hn as -> ->. exists O. reflexivity.
Qed.

(** A [Promise.all] whose members finish, followed by a function that
    succeeds. *)
Lemma finishes_all (ps : list (Pending F)) (xs : list (list FsOp * list string)) :
  Forall2 (fun p x => finishes cache p x.1 x.2) ps xs →
  ∀ pre k ops L, Forall (fun q => q = Resolved) pre → succeeds cache k ops L →
    finishes cache (AwaitingAll (pre ++ ps) k) (mjoin (xs.*1) ++ ops) (mjoin (xs.*2) ++ L).
Proof.
  induction 1 as [|p x ps xs Hp _ IH]; intros pre k ops L Hpre Hk w Hc.
  - destruct (Hk w Hc) as (w' & Hs & Ha). exists w'. split; [|exact Ha].
    apply (settles_trans _ (run k w) _ 1); [|exact Hs].
    cbn [driveN fst snd]. rewrite drive_All, app_nil_r.
    replace (forallb isResolved pre) with true; [reflexivity|].
    symmetry. apply forallb_forall. intros q Hq%list_elem_of_In.
    rewrite Forall_forall in Hpre. rewrite (Hpre q Hq). reflexivity.
  - destruct (Hp w Hc) as (w1 & [n Hn] & Ha1).
    destruct (drive_member n pre w p ps k w1 Hpre Hn) as [m Hm].
    assert (Hpre' : Forall (fun q : Pending F => q = Resolved) (pre ++ [Resolved])).
    { apply Forall_app. split; [exact Hpre|repeat constructor]. }
    destruct (IH (pre ++ [Resolved]) k ops L Hpre' Hk w1) as (w' & Hs & Ha).
    { rewrite (after_cache _ _ _ _ Ha1). exact Hc. }
    exists w'. split.
    + apply (settles_trans _ _ _ m Hm). rewrite <- app_assoc in Hs. exact Hs.
    + cbn [fmap list_fmap mjoin list_join]. rewrite <- !app_assoc.
      eapply after_trans; eassumption.
Qed.

Lemma launches_await (t k : Task F) ops1 ops2 L1 L2 :
  launches cache t ops1 L1 → succeeds cache k ops2 L2 →
  launches cache (await t k) (ops1 ++ ops2) (L1 ++ L2).
Proof.
  intros Ht Hk w Hc. destruct (Ht w Hc) as (ops0 & ops' & -> & Ha & Hp).
  exists ops0, (ops' ++ ops2). split; [rewrite app_assoc; reflexivity|].
  unfold await. rewrite run_AwaitAll. simpl. destruct (run t w) as [w0 p]. simpl in *.
  split; [exact Ha|].
  pose proof (finishes_all [p] [(ops', L1)] ltac:(repeat constructor; exact Hp)
                           [] k ops2 L2 ltac:(constructor) Hk) as H.
  simpl in H. rewrite !app_nil_r in H. exact H.
Qed.

Lemma launches_Return : launches cache (@Return F) [] [].
Proof.
  intros w _. exists [], []. split; [reflexivity|].
  split; [apply after_refl|apply finishes_Resolved].
Qed.

Lemma launches_eq (t : Task F) ops ops' L :
  launches cache t ops L → ops = ops' → launches cache t ops' L.
Proof. intros H <-. exact H. Qed.

Lemma launches_Log v m (k : Task F) ops L :
  launches cache k ops L → launches cache (Log v m k) ops L.
Proof.
  intros Hk w Hc. simpl.
  destruct (v && negb (_verbose w)); [apply Hk; exact Hc|].
  destruct (Hk (record (EffLog m) w) Hc) as (ops0 & ops1 & -> & Ha & Hp).
  exists ops0, ops1. split; [reflexivity|]. split; [|exact Hp].
  apply (after_trans [] ops0 [] [] w (record (EffLog m) w)); [apply after_log|exact Ha].
Qed.

Lemma launches_withPackage packageName e (k : PackageEntry → Task F) ops L :
  cache !! packageName = Some e → launches cache (k e) ops L →
  launches cache (withPackage packageName k) ops L.
Proof.
  intros Hl Hk w Hc. unfold withPackage. simpl. rewrite Hc. unfold prop. rewrite Hl.
  apply Hk. exact Hc.
Qed.

Lemma launches_fs op (k : FsResult → Task F) :
  k None = Return → launches cache (Fs op k) [op] [].
Proof.
  intros Hk w _. exists [op], []. split; [reflexivity|]. split; [apply after_fs|].
  intros w' _. exists w'. split; [|apply after_refl].
  exists 1%nat. simpl. rewrite Hk. reflexivity.
Qed.

Lemma launches_createLocals paths : ∀ curPath,
  launches cache (@createLocals F curPath paths) (mkdirs curPath paths) [].
Proof.
  induction paths as [|p paths IH]; intros curPath; simpl; [apply launches_Return|].
  apply (launches_await _ _ [MkDir _] _ [] []);
    [apply launches_fs; reflexivity|apply launches_succeeds, IH].
Qed.
Lemma driveFirst_writing (ps : list (Pending F)) w :
  Forall writing ps → forallb isResolved ps = false →
  ∃ ps', driveFirst ps w = Some (w, ps') ∧ Forall writing ps' ∧
         (length (filter (fun p => isResolved p = false) ps')
          < length (filter (fun p => isResolved p = false) ps))%nat.
Proof.
  induction 1 as [|p ps Hp Hps IH]; intros Hall; [discriminate|].
  destruct Hp as [->|(k & -> & Hk)].
  - cbn [forallb isResolved andb] in Hall. destruct (IH Hall) as (ps' & Hd & Hw & Hlt).
    exists (Resolved :: ps'). split; [|split].
    + cbn [driveFirst drive]. rewrite Hd. reflexivity.
    + constructor; [left; reflexivity|exact Hw].
    + rewrite !filter_cons_False by (simpl; congruence). exact Hlt.
  - exists (Resolved :: ps). split; [|split].
    + cbn [driveFirst drive]. rewrite Hk. reflexivity.
    + constructor; [left; reflexivity|exact Hps].
    + rewrite filter_cons_False by (simpl; congruence).
      rewrite filter_cons_True by reflexivity. cbn [length]. lia.
Qed.

Lemma settles_writing (ps : list (Pending F)) w :
  Forall writing ps → settles (w, AwaitingAll ps Return) w.
Proof.
  remember (length (filter (fun p => isResolved p = false) ps)) as n eqn:Hn.
  revert ps Hn. induction (lt_wf n) as [n _ IH]. intros ps Hn Hw.
  destruct (forallb isResolved ps) eqn:Hall.
  - exists 1%nat. cbn [driveN fst snd]. rewrite drive_All, Hall. reflexivity.
  - destruct (driveFirst_writing ps w Hw Hall) as (ps' & Hd & Hw' & Hlt).
    apply (settles_trans _ (w, AwaitingAll ps' Return) _ 1).
    + cbn [driveN fst snd]. rewrite drive_All, Hall, Hd. reflexivity.
    + eapply IH; [|reflexivity|exact Hw']. subst n. exact Hlt.
Qed.

Lemma runAll_writing (A : Type) (msg : A → string) (path : A → list string)
    (data : A → string) (l : list A) : ∀ w : World F,
  after ((fun x => WriteFile (path x) (data x)) <$> l) [] w
        (runAll ((fun x => Log true (msg x) (writeFile (path x) (data x))) <$> l) w).1 ∧
  Forall writing (runAll ((fun x => Log true (msg x) (writeFile (path x) (data x))) <$> l) w).2.
Proof.
  induction l as [|x l IH]; intros w; simpl; [split; [apply after_refl|constructor]|].
  set (w1 := if true && negb (_verbose w) then w else record (EffLog (msg x)) w).
  assert (Hg1 : after [] [] w w1).
  { unfold w1. destruct (true && negb (_verbose w)); [apply after_refl|apply after_log]. }
  destruct (IH (record (EffFs (WriteFile (path x) (data x))) w1)) as [Hg Hw].
  destruct (runAll _ _) as [w2 ps]. simpl in *. split.
  - apply (after_trans [_] _ [] [] w (record (EffFs (WriteFile (path x) (data x))) w1) w2);
      [|exact Hg].
    apply (after_trans [] [_] [] [] w w1); [exact Hg1|apply after_fs].
  - constructor; [|exact Hw]. right. eexists. split; reflexivity.
Qed.

Lemma launches_writes (A : Type) (msg : A → string) (path : A → list string)
    (data : A → string) (l : list A) :
  launches cache
    (AwaitAll ((fun x => Log true (msg x) (@writeFile F (path x) (data x))) <$> l) Return)
    ((fun x => WriteFile (path x) (data x)) <$> l) [].
Proof.
  intros w Hc. rewrite run_AwaitAll.
  destruct (runAll_writing A msg path data l w) as [Hg Hw].
  destruct (runAll _ _) as [w' ps]. simpl in *.
  exists ((fun x => WriteFile (path x) (data x)) <$> l), [].
  split; [rewrite app_nil_r; reflexivity|]. split; [exact Hg|].
  intros w2 _. exists w2. split; [apply settles_writing; exact Hw|apply after_refl].
Qed.

Lemma fmap_pair_ext (A B C : Type) (f : A * B → C) (g : A → B → C) (l : list (A * B)) :
  (∀ a b, f (a, b) = g a b) → f <$> l = (fun x => g x.1 x.2) <$> l.
Proof.
  intros H. induction l as [|[a b] l IH]; [reflexivity|].
  rewrite !fmap_cons, H. f_equal. exact IH.
Qed.

Lemma launches_writePackageMessages packageName e jsMsgDir :
  cache !! packageName = Some e →
  launches cache (@writePackageMessages F packageName jsMsgDir)
           (messageFsOps e packageName jsMsgDir) [].
Proof.
  intros Hl. apply launches_withPackage with (e := e); [assumption|]. cbv beta zeta.
  unfold messageFsOps.
  destruct (map_to_list (messages e)) as [|x l] eqn:Hm; [apply launches_Return|].
  change (0 <? length (x :: l))%nat with true. cbv iota. apply launches_Log.
  rewrite (fmap_pair_ext _ _ _ _
             (fun msgName entry =>
                Log true ("Building message " +:+ msg_packageName (spec entry) +:+ "/"
                          +:+ msg_messageName (spec entry))
                  (@writeFile F ((jsMsgDir ++ [packageName; "msg"]) ++ [msgName +:+ ".js"])
                     (msg_classFile (spec entry)))))
    by reflexivity.
  rewrite (fmap_pair_ext _ _ _ _
             (fun msgName entry =>
                WriteFile ((jsMsgDir ++ [packageName; "msg"]) ++ [msgName +:+ ".js"])
                          (msg_classFile (spec entry))))
    by reflexivity.
  apply (launches_writes _
           (fun x => "Building message " +:+ msg_packageName (spec x.2) +:+ "/"
                     +:+ msg_messageName (spec x.2))
           (fun x => (jsMsgDir ++ [packageName; "msg"]) ++ [x.1 +:+ ".js"])
           (fun x => msg_classFile (spec x.2))).
Qed.

Lemma launches_writePackageServices packageName e jsMsgDir :
  cache !! packageName = Some e →
  launches cache (@writePackageServices F packageName jsMsgDir)
           (serviceFsOps e packageName jsMsgDir) [].
Proof.
  intros Hl. apply launches_withPackage with (e := e); [assumption|]. cbv beta zeta.
  unfold serviceFsOps.
  destruct (map_to_list (services e)) as [|x l] eqn:Hm; [apply launches_Return|].
  change (0 <? length (x :: l))%nat with true. cbv iota. apply launches_Log.
  rewrite (fmap_pair_ext _ _ _ _
             (fun srvName entry =>
                Log true ("Building service " +:+ srv_packageName (spec entry) +:+ "/"
                          +:+ srv_messageName (spec entry))
                  (@writeFile F ((jsMsgDir ++ [packageName; "srv"]) ++ [srvName +:+ ".js"])
                     (srv_classFile (spec entry)))))
    by reflexivity.
  rewrite (fmap_pair_ext _ _ _ _
             (fun srvName entry =>
                WriteFile ((jsMsgDir ++ [packageName; "srv"]) ++ [srvName +:+ ".js"])
                          (srv_classFile (spec entry))))
    by reflexivity.
  apply (launches_writes _
           (fun x => "Building service " +:+ srv_packageName (spec x.2) +:+ "/"
                     +:+ srv_messageName (spec x.2))
           (fun x => (jsMsgDir ++ [packageName; "srv"]) ++ [x.1 +:+ ".js"])
           (fun x => srv_classFile (spec x.2))).
Qed.

Lemma launches_initPackageWrite packageName e jsMsgDir :
  cache !! packageName = Some e →
  launches cache (@initPackageWrite F render packageName jsMsgDir)
           (initPackageFsOps render e packageName jsMsgDir) [].
Proof.
  intros Hl. unfold initPackageWrite, initPackageFsOps, initPackageFsOpsIn, createDirectory.
  set (packageDir := jsMsgDir ++ [packageName]).
  assert (Hlast : launches cache
            (await (@createPackageIndex F render packageName packageDir) Return)
            ([WriteFile (packageDir ++ ["_index.js"])
               (render ([(0, "module.exports = {")%nat]
                 ++ (if packageHasMessages e || packageHasActions e
                     then [(1, "msg: require('./msg/_index.js'),")%nat] else [])
                 ++ (if packageHasServices e
                     then [(1, "srv: require('./srv/_index.js')")%nat] else [])
                 ++ [(0, "};")%nat]))] ++ []) ([] ++ [])).
  { apply launches_await; [|apply launches_succeeds, launches_Return].
    apply launches_withPackage with (e := e); [assumption|].
    apply launches_fs. reflexivity. }
  assert (Hdir : ∀ dir (names : PackageEntry → list string) k ops,
            launches cache k ops [] →
            launches cache
              (await (createLocals [""] (dir))
                 (await (withPackage packageName
                           (fun e' => @createIndex F render (names e') dir))
                    k))
              (mkdirs [""] (dir)
                ++ [WriteFile (dir ++ ["_index.js"])
                      (render ([(0, "module.exports = {")%nat] ++ (indexLine <$> names e)
                               ++ [(0, "};")%nat]))] ++ ops) []).
  { intros dir names k ops Hk.
    apply (launches_await _ _ _ _ [] []); [apply launches_createLocals|].
    apply launches_succeeds.
    apply (launches_await _ _ _ _ [] []); [|apply launches_succeeds; exact Hk].
    apply launches_withPackage with (e := e); [assumption|].
    apply launches_fs. reflexivity. }
  apply (launches_await _ _ _ _ [] []); [apply launches_createLocals|].
  apply launches_succeeds.
  apply launches_withPackage with (e := e); [assumption|]. cbv beta zeta.
  revert Hlast.
  destruct (packageHasMessages e || packageHasActions e), (packageHasServices e);
    intros Hlast.
  - eapply launches_eq.
    + apply (Hdir _ (fun e' => keys (messages e'))).
      apply (Hdir _ (fun e' => keys (services e'))). exact Hlast.
    + rewrite <- !app_assoc. reflexivity.
  - eapply launches_eq.
    + apply (Hdir _ (fun e' => keys (messages e'))). exact Hlast.
    + rewrite <- !app_assoc. reflexivity.
  - eapply launches_eq.
    + apply (Hdir _ (fun e' => keys (services e'))). exact Hlast.
    + rewrite <- !app_assoc. reflexivity.
  - eapply launches_eq; [exact Hlast|reflexivity].
Qed.

(** The write phase of a package: a successful build issues its fs calls
    in the order directories and index files, message classes, service
    classes, and marks the package loaded at the end. *)
Lemma launches_writePhase packageName e outputDirectory :
  cache !! packageName = Some e →
  launches cache (@writePhase F render packageName outputDirectory)
           (packageFsOps render e packageName outputDirectory) [packageName].
Proof.
  intros Hl. unfold writePhase, packageFsOps.
  apply launches_await with (L1 := []) (L2 := [packageName]);
    [apply launches_initPackageWrite; exact Hl|].
  apply launches_succeeds.
  apply launches_await with (L1 := []) (L2 := [packageName]);
    [apply launches_writePackageMessages; exact Hl|].
  apply launches_succeeds.
  eapply launches_eq.
  - apply launches_await with (ops2 := []) (L1 := []) (L2 := [packageName]);
      [apply launches_writePackageServices; exact Hl|].
    intros w Hc.
    exists (record (EffLog ("Finished building package " +:+ packageName))
                   (setStatus packageName LOADED w)).
    split; [exists O; reflexivity|]. split; simpl; auto.
    + intros d ->%list_elem_of_singleton. apply lookup_insert_eq.
    + intros d Hd. apply lookup_insert_ne. intros <-. apply Hd, list_elem_of_here.
    + rewrite !fsOps_snoc_other by discriminate. rewrite app_nil_r. reflexivity.
  - apply app_nil_r.
Qed.
End SettlesFacts.

(** ** Dependencies that resolve *)

Lemma plainName_spec name : plainName name = true ↔ name ∉ Object_prototype.
Proof.
  unfold plainName. rewrite negb_true_iff, bool_decide_eq_false. reflexivity.
Qed.

Lemma plainCache_spec (cache : PackageMap) x :
  plainCache cache = true → is_Some (cache !! x) → x ∉ Object_prototype.
Proof.
  unfold plainCache. rewrite List.forallb_forall. intros H [e He].
  apply plainName_spec, H, list_elem_of_In, list_elem_of_fmap.
  exists (x, e). split; [reflexivity|]. apply elem_of_map_to_list. exact He.
Qed.

Section Resolves.
Variable cache : PackageMap.
Hypothesis cache_acyclic : acyclic cache.
Hypothesis cache_plain : plainCache cache = true.

Lemma tc_edgeAvoiding a x y : tc (edgeAvoiding cache a) x y → tc (edge cache) x y.
Proof.
  induction 1 as [x y [H _]|x y z [H _] _ IH]; [apply tc_once; exact H|].
  eapply tc_l; eassumption.
Qed.

Lemma acyclic_noCycleAvoiding a : noCycleAvoiding cache a.
Proof. intros x Hx. exact (cache_acyclic x (tc_edgeAvoiding a x x Hx)). Qed.

(** In a cache without a cycle and without a package named like a member
    of [Object.prototype], in which everything a package reaches has an
    entry, the dependencies of the package are found and sorted. *)
Lemma dependencies_resolve stack pkgName :
  closed cache pkgName → (size cache + 2 ≤ stack)%nat →
  ∃ deps sorted, getFullDependencySet stack pkgName cache = Ok deps ∧
                 sortPackageList stack deps cache = Ok sorted ∧
                 ∀ y, y ∈ sorted → closed cache y.
Proof.
  intros Hclosed Hsize.
  destruct (getFullDependencySet stack pkgName cache) as [deps|e] eqn:H.
  - destruct (closure_nested_chained cache pkgName cache_acyclic stack deps H)
      as (Hnd & Hnested & Hchained).
    assert (Hplain : ∀ x, x ∈ deps → x ∉ Object_prototype).
    { intros x Hx. apply (plainCache_spec cache); [exact cache_plain|].
      apply Hclosed, tc_rtc. unfold getFullDependencySet in H.
      apply (getDependencies_elements _ _ _ _ _ _ H x) in Hx as [Hx|Hx];
        [inversion Hx|exact Hx]. }
    destruct (array_sort_placing (dependsOn cache) (sorter stack cache)
                (dependencyOrder stack cache) (memoSound stack cache) deps
                (fun a b c => tc_trans a b c) cache_acyclic
                (fun a b Ha Hb =>
                   dependencyOrder_sign cache stack cache_acyclic pkgName deps a b H Ha Hb)
                (fun a b st Ha Hb Hst =>
                   sorter_dependencyOrder cache stack cache_acyclic pkgName deps a b st
                                          H Hplain Ha Hb Hst)
                Hnested Hchained ∅)
      as (sorted & memo' & Hsort & Hperm & _ & _).
    { intros p d Hl. rewrite lookup_empty in Hl. discriminate. }
    exists deps, sorted. split; [reflexivity|]. unfold sortPackageList. rewrite Hsort.
    split; [reflexivity|].
    intros y Hy x Hx. apply Hclosed. etransitivity; [|exact Hx].
    apply tc_rtc. rewrite Hperm in Hy. unfold getFullDependencySet in H.
    apply (getDependencies_elements _ _ _ _ _ _ H y) in Hy as [Hy|Hy]; [inversion Hy|exact Hy].
  - exfalso. unfold getFullDependencySet in H.
    destruct (getDependencies_raises _ _ _ _ _ _ H) as [->|[->| ->]].
    + apply getDependencies_cycle_sound in H as (x & Hx & Hedge).
      apply (cache_acyclic pkgName). eapply tc_rtc_l; [exact Hx|apply tc_once; exact Hedge].
    + apply getDependencies_TypeError in H as (x & Hx & Hnone).
      destruct (Hclosed x Hx) as [e He]. congruence.
    + exact (getFullDependencySet_no_RangeError pkgName cache stack
               (acyclic_noCycleAvoiding pkgName) Hsize H).
Qed.
End Resolves.

(** ** A build that completes *)

Section BuildFacts.
Context {F : Type}.
Variable render : list (nat * string) → string.
Variable cache : PackageMap.

Lemma claims_nil (w : World F) : claims [] w w.
Proof. split; auto; intros x Hx; inversion Hx. Qed.

Lemma claims_trans L1 L2 (w wa wb : World F) :
  claims L1 w wa → claims L2 wa wb → claims (L1 ++ L2) w wb.
Proof.
  intros [C1 K1 F1 N1 O1] [C2 K2 F2 N2 O2]. split; [congruence|..].
  - intros x [Hx|Hx]%elem_of_app; [auto|]. rewrite <- C1. auto.
  - intros x [Hx|Hx]%elem_of_app; [auto|].
    destruct (decide (x ∈ L1)) as [Hin|Hout]; [auto|]. rewrite <- O1 by exact Hout. auto.
  - intros x Hx. destruct (decide (x ∈ L2)) as [Hin|Hout]; [auto|].
    rewrite O2 by exact Hout. apply elem_of_app in Hx as [Hx|Hx]; [auto|contradiction].
  - intros x Hx. rewrite elem_of_app in Hx. rewrite O2, O1 by tauto. reflexivity.
Qed.

Lemma unclaimedIn_claims L l (w w' : World F) :
  claims L w w' → unclaimedIn cache w l → unclaimedIn cache w' l.
Proof.
  intros [_ _ _ N O] [Hnd Hl]. split; [exact Hnd|]. intros x Hx Hfree. apply Hl; [exact Hx|].
  destruct (decide (x ∈ L)) as [Hin|Hout]; [rewrite (N x Hin) in Hfree; discriminate|].
  rewrite <- (O x Hout). exact Hfree.
Qed.

(** [dependencies.filter(filterDepFunc)] hands on a part of the list and
    touches the state of the closure only. *)
Lemma run_filterDeps f deps : ∀ (k : list string → Task F) w,
  ∃ l w', run (filterDeps f deps k) w = run (k l) w' ∧ l ⊆ deps ∧
          _packageCache w' = _packageCache w ∧ _loadingPkgs w' = _loadingPkgs w.
Proof.
  induction deps as [|d deps IH]; intros k w; simpl.
  - exists [], w. auto.
  - destruct (f d (closure w)) as [b c].
    destruct (IH (fun rest => k (if b then d :: rest else rest)) (setClosure c w))
      as (l & w' & Hrun & Hsub & Hc & Hl).
    exists (if b then d :: l else l), w'. split; [exact Hrun|]. split; [|auto].
    destruct b; intros x Hx.
    + apply elem_of_cons in Hx as [->|Hx]; [apply list_elem_of_here|].
      apply list_elem_of_further, Hsub, Hx.
    + apply list_elem_of_further, Hsub, Hx.
Qed.

Section Calls.
Variable outputDirectory : list string.
Variable loadDeps : bool.
Variable filterDepFunc : option (string → F → bool * F).

(** What a call of [loadPackage] leaves behind when it suspends: the
    packages it has claimed, and a promise that finishes with all of them
    loaded. *)
Lemma run_loadPackage_finishes :
  (loadDeps = true → acyclic cache ∧ plainCache cache = true) →
  ∀ stack l packageName (w : World F),
  _packageCache w = cache → is_Some (cache !! packageName) →
  (loadDeps = true → closed cache packageName) → unclaimedIn cache w l →
  (1 ≤ stack)%nat → (loadDeps = true → (length l + size cache + 3 ≤ stack)%nat) →
  ∃ ops L,
    finishes cache
      (run (loadPackage render stack packageName outputDirectory loadDeps true
                        filterDepFunc) w).2 ops L ∧
    claims L w
      (run (loadPackage render stack packageName outputDirectory loadDeps true
                        filterDepFunc) w).1 ∧
    (_loadingPkgs w !! packageName = None → packageName ∈ L).
Proof.
  intros cache_acyclic.
  induction stack as [|stack' IH]; intros l packageName w Hc Hentry Hclosed Hl Hone Hsize;
    [lia|].
  destruct (_loadingPkgs w !! packageName) as [s|] eqn:Hs.
  { rewrite run_loadPackage_claimed by (rewrite Hs; eauto).
    exists [], []. split; [apply finishes_Resolved|]. split; [apply claims_nil|discriminate]. }
  rewrite (run_loadPackage_unclaimed render _ _ _ _ _ _ _ Hs).
  set (w1 := setStatus packageName LOADING (logged ("Loading package " +:+ packageName) w)).
  assert (Hc1 : _packageCache w1 = cache).
  { unfold w1. simpl. rewrite logged_cache. exact Hc. }
  assert (Hl1 : _loadingPkgs w1 = <[packageName := LOADING]> (_loadingPkgs w)).
  { unfold w1, logged. simpl. destruct (negb (_verbose w)); reflexivity. }
  assert (Hclaim : claims [packageName] w w1).
  { split.
    - congruence.
    - intros x ->%list_elem_of_singleton. rewrite Hc. exact Hentry.
    - intros x ->%list_elem_of_singleton. exact Hs.
    - intros x ->%list_elem_of_singleton. rewrite Hl1. apply lookup_insert_eq.
    - intros x Hx. rewrite Hl1. apply lookup_insert_ne. intros <-.
      apply Hx, list_elem_of_here. }
  destruct Hentry as [e He].
  destruct Hl as [Hnd Hmem].
  assert (Hin : packageName ∈ l) by (apply Hmem; [eauto|exact Hs]).
  set (l' := filter (fun x => x ≠ packageName) l).
  assert (Hl' : unclaimedIn cache w1 l').
  { split; [apply NoDup_filter; exact Hnd|]. intros x Hx Hfree. apply list_elem_of_filter.
    assert (x ≠ packageName).
    { intros ->. rewrite Hl1, lookup_insert_eq in Hfree. discriminate. }
    split; [assumption|]. apply Hmem; [exact Hx|].
    rewrite Hl1, lookup_insert_ne in Hfree by auto. exact Hfree. }
  assert (Hlen : (length l' < length l)%nat).
  { apply list_elem_of_split in Hin as (l1 & l2 & ->). unfold l'.
    rewrite filter_app, filter_cons_False by auto. rewrite !length_app. simpl.
    pose proof (length_filter (fun x => x ≠ packageName) l1).
    pose proof (length_filter (fun x => x ≠ packageName) l2). lia. }
  assert (Hphase : succeeds cache (@writePhase F render packageName outputDirectory)
                      (packageFsOps render e packageName outputDirectory) [packageName]).
  { apply launches_succeeds, launches_writePhase. exact He. }
  assert (Hdone : ∀ w1' ps xs w2,
            _loadingPkgs w1' = _loadingPkgs w1 → _packageCache w1' = cache →
            Forall2 (fun p x => finishes cache p x.1 x.2) ps xs →
            claims (mjoin (xs.*2)) w1' w2 →
            ∃ ops L,
              finishes cache
                (AwaitingAll ps (@writePhase F render packageName outputDirectory)) ops L ∧
              claims L w w2 ∧ packageName ∈ L).
  { intros w1' ps xs w2 Hl1' Hc1' Hps Hcl.
    exists (mjoin (xs.*1) ++ packageFsOps render e packageName outputDirectory),
           (mjoin (xs.*2) ++ [packageName]).
    split; [apply finishes_all with (pre := []); [exact Hps|constructor|exact Hphase]|].
    split; [|apply elem_of_app; right; apply list_elem_of_here].
    assert (Hcl1 : claims [packageName] w w1').
    { destruct Hclaim as [C1 K1 F1 N1 O1]. split; [congruence|exact K1|exact F1|..].
      - intros x Hx. rewrite Hl1'. auto.
      - intros x Hx. rewrite Hl1'. auto. }
    destruct Hcl1 as [C1 K1 F1 N1 O1]. destruct Hcl as [C2 K2 F2 N2 O2].
    assert (Hnot : packageName ∉ mjoin (xs.*2)).
    { intros Hx. specialize (F2 _ Hx). rewrite N1 in F2 by apply list_elem_of_here.
      discriminate. }
    split; [congruence|..].
    - intros x [Hx|Hx]%elem_of_app; [rewrite <- C1; auto|auto].
    - intros x [Hx|Hx]%elem_of_app; [|apply list_elem_of_singleton in Hx as ->; exact Hs].
      rewrite <- O1; [auto|]. intros ->%list_elem_of_singleton. contradiction.
    - intros x [Hx|Hx]%elem_of_app; [auto|]. apply list_elem_of_singleton in Hx as ->.
      rewrite O2 by exact Hnot. apply N1, list_elem_of_here.
    - intros x Hx. rewrite elem_of_app in Hx. rewrite O2, O1 by tauto. reflexivity. }
  unfold loadPackageClaimed. destruct loadDeps.
  - specialize (Hsize eq_refl).
    assert (Hbound : (length l' + size cache + 3 ≤ stack')%nat) by lia.
    assert (Hcalls : ∀ names w0,
              (∀ y, y ∈ names → closed cache y) → _packageCache w0 = cache →
              unclaimedIn cache w0 l' →
              ∃ xs,
                Forall2 (fun p x => finishes cache p x.1 x.2)
                  (runAll ((fun depName =>
                              loadPackage render stack' depName outputDirectory true true
                                          filterDepFunc) <$> names) w0).2 xs ∧
                claims (mjoin (xs.*2)) w0
                  (runAll ((fun depName =>
                              loadPackage render stack' depName outputDirectory true true
                                          filterDepFunc) <$> names) w0).1).
    { induction names as [|n names IHn]; intros w0 Hknown Hc0 Hl0.
      - exists []. split; [constructor|apply claims_nil].
      - cbn [fmap list_fmap runAll].
        destruct (IH l' n w0 Hc0 (Hknown n (list_elem_of_here _ _) n (rtc_refl _ _))
                     (fun _ => Hknown n (list_elem_of_here _ _)) Hl0 ltac:(lia)
                     (fun _ => Hbound))
          as (ops1 & L1 & Hp1 & Hcl1 & _).
        destruct (run _ w0) as [wa p]. simpl in Hp1, Hcl1.
        destruct (IHn wa) as (xs & Hps & Hcl2).
        { intros y Hy. apply Hknown, list_elem_of_further, Hy. }
        { rewrite (claims_cache _ _ _ Hcl1). exact Hc0. }
        { eapply unclaimedIn_claims; eassumption. }
        destruct (runAll _ wa) as [wb ps]. simpl in Hps, Hcl2 |- *.
        exists ((ops1, L1) :: xs). split; [constructor; assumption|].
        cbn [fmap list_fmap mjoin list_join]. eapply claims_trans; eassumption. }
    change (run (GetCache ?k) w1) with (run (k (_packageCache w1)) w1). rewrite Hc1.
    destruct (dependencies_resolve cache (proj1 (cache_acyclic eq_refl))
                (proj2 (cache_acyclic eq_refl)) stack' packageName (Hclosed eq_refl))
      as (deps & sorted & Hdeps & Hsorted & Hknown); [lia|].
    rewrite Hdeps. cbn [mbind Res_bind res_bind]. rewrite Hsorted.
    assert (Hspawn : ∀ l2 w1',
              l2 ⊆ sorted → _packageCache w1' = _packageCache w1 →
              _loadingPkgs w1' = _loadingPkgs w1 →
              ∃ ops L,
                finishes cache
                  (run (AwaitAll ((fun depName =>
                                     loadPackage render stack' depName outputDirectory true
                                                 true filterDepFunc) <$> l2)
                                 (@writePhase F render packageName outputDirectory)) w1').2
                  ops L ∧
                claims L w
                  (run (AwaitAll ((fun depName =>
                                     loadPackage render stack' depName outputDirectory true
                                                 true filterDepFunc) <$> l2)
                                 (@writePhase F render packageName outputDirectory)) w1').1 ∧
                (None = @None LoadStatus → packageName ∈ L)).
    { intros l2 w1' Hsub Hc1' Hl1'. rewrite run_AwaitAll.
      destruct (Hcalls l2 w1') as (xs & Hps & Hcl).
      { intros y Hy. apply Hknown, Hsub, Hy. }
      { congruence. }
      { destruct Hl' as [Hnd' Hmem']. split; [exact Hnd'|]. intros x Hx Hfree.
        apply Hmem'; [exact Hx|]. rewrite <- Hl1'. exact Hfree. }
      destruct (runAll _ w1') as [w2 ps]. simpl in Hps, Hcl |- *.
      destruct (Hdone w1' ps xs w2 Hl1' ltac:(congruence) Hps Hcl) as (ops & L & H1 & H2 & H3).
      exists ops, L. auto. }
    destruct filterDepFunc as [f|].
    + destruct (run_filterDeps f sorted
                  (fun dependencies =>
                     AwaitAll ((fun depName =>
                                  loadPackage render stack' depName outputDirectory true true
                                              (Some f)) <$> dependencies)
                              (@writePhase F render packageName outputDirectory)) w1)
        as (l2 & w1' & Hrun & Hsub & Hc1' & Hl1').
      cbv beta in Hrun. rewrite Hrun. apply Hspawn; assumption.
    + apply Hspawn; [intros x Hx; exact Hx|reflexivity|reflexivity].
  - destruct (launches_writePhase render cache packageName e outputDirectory He w1 Hc1)
      as (ops0 & ops1 & _ & Ha & Hp).
    exists ops1, [packageName]. split; [exact Hp|].
    split; [|intros _; apply list_elem_of_here].
    destruct Hclaim as [C1 K1 F1 N1 O1]. destruct Ha as [_ C2 _ O2 _].
    split; [congruence|exact K1|exact F1|..].
    + intros x Hx. rewrite O2 by (intros H; inversion H). auto.
    + intros x Hx. rewrite O2 by (intros H; inversion H). auto.
Qed.
(** The calls of a [map] over package names, made one after the other. *)
Lemma runAll_loadPackage_finishes :
  (loadDeps = true → acyclic cache ∧ plainCache cache = true) →
  ∀ names stack l (w : World F),
  _packageCache w = cache →
  (∀ y, y ∈ names → is_Some (cache !! y) ∧ (loadDeps = true → closed cache y)) →
  unclaimedIn cache w l →
  (1 ≤ stack)%nat → (loadDeps = true → (length l + size cache + 3 ≤ stack)%nat) →
  ∃ xs,
    Forall2 (fun p x => finishes cache p x.1 x.2)
      (runAll ((fun depName =>
                  loadPackage render stack depName outputDirectory loadDeps true
                              filterDepFunc) <$> names) w).2 xs ∧
    claims (mjoin (xs.*2)) w
      (runAll ((fun depName =>
                  loadPackage render stack depName outputDirectory loadDeps true
                              filterDepFunc) <$> names) w).1 ∧
    ∀ n, n ∈ names → _loadingPkgs w !! n = None → n ∈ mjoin (xs.*2).
Proof.
  intros Hacyc. induction names as [|n names IHn]; intros stack l w Hc Hknown Hl Hone Hsize.
  - exists []. split; [constructor|]. split; [apply claims_nil|].
    intros n Hn. inversion Hn.
  - cbn [fmap list_fmap runAll].
    destruct (Hknown n (list_elem_of_here _ _)) as [Hentry Hclosed].
    destruct (run_loadPackage_finishes Hacyc stack l n w Hc Hentry Hclosed Hl Hone Hsize)
      as (ops1 & L1 & Hp1 & Hcl1 & Hin1).
    destruct (run _ w) as [wa p]. simpl in Hp1, Hcl1.
    destruct (IHn stack l wa) as (xs & Hps & Hcl2 & Hin2); auto.
    { rewrite (claims_cache _ _ _ Hcl1). exact Hc. }
    { intros y Hy. apply Hknown, list_elem_of_further, Hy. }
    { eapply unclaimedIn_claims; eassumption. }
    destruct (runAll _ wa) as [wb ps]. simpl in Hps, Hcl2 |- *.
    exists ((ops1, L1) :: xs). split; [constructor; assumption|].
    cbn [fmap list_fmap mjoin list_join]. split; [eapply claims_trans; eassumption|].
    intros m Hm Hfree. apply elem_of_app.
    destruct (decide (m ∈ L1)) as [HmL|HmL]; [left; exact HmL|right].
    apply elem_of_cons in Hm as [->|Hm]; [exfalso; auto|].
    apply Hin2; [exact Hm|]. rewrite (claims_others _ _ _ Hcl1 m HmL). exact Hfree.
Qed.
End Calls.

(** The unclaimed packages are among the keys of the cache. *)
Lemma unclaimedIn_keys (w : World F) : unclaimedIn cache w (keys cache).
Proof.
  split; [apply NoDup_fst_map_to_list|]. intros x [e He] _.
  apply list_elem_of_fmap. exists (x, e). split; [reflexivity|].
  apply elem_of_map_to_list. exact He.
Qed.

Lemma length_keys : length (keys cache) = size cache.
Proof. unfold keys. rewrite length_fmap. apply length_map_to_list. Qed.
End BuildFacts.

Section Builds.
Context {F : Type}.
Variable render : list (nat * string) → string.

(** X23. Called without its dependencies and with a normalized output
    directory on a package of the cache that nobody has claimed,
    [loadPackage] has a run, the one in which the event loop completes the
    leftmost fs call in flight with success each time, that ends with the
    promise resolved: the fs calls issued by then are exactly those of the
    write phase of the package, in the order directories and index files,
    message classes, service classes, and the package is marked loaded.  The
    messages and the services are taken in one order of the keys each, the
    same for the lines of the index and for the class files. *)
Theorem loadPackage_builds_package
    (stack' : nat) (packageName : string) (outputDirectory : list string)
    (filterDepFunc : option (string → F → bool * F)) (w : World F) (entry : PackageEntry) :
  normalPath outputDirectory = true → plainSegment packageName = true →
  _packageCache w !! packageName = Some entry →
  _loadingPkgs w !! packageName = None →
  ∃ turns w' msgs srvs,
    msgs ≡ₚ map_to_list (messages entry) ∧ srvs ≡ₚ map_to_list (services entry) ∧
    driveN turns (run (loadPackage render (S stack') packageName outputDirectory false true
                                   filterDepFunc) w) = (w', Resolved) ∧
    fsOps (history w')
    = fsOps (history w) ++ packageFsOpsIn render msgs srvs entry packageName outputDirectory ∧
    _loadingPkgs w' = <[packageName := LOADED]> (_loadingPkgs w).
Proof.
  intros _ _ Hentry Hfree.
  cut (∃ turns w',
         driveN turns (run (loadPackage render (S stack') packageName outputDirectory false
                                        true filterDepFunc) w) = (w', Resolved) ∧
         fsOps (history w')
         = fsOps (history w) ++ packageFsOps render entry packageName outputDirectory ∧
         _loadingPkgs w' = <[packageName := LOADED]> (_loadingPkgs w)).
  { intros (turns & w' & H). 
    exists turns, w', (map_to_list (messages entry)), (map_to_list (services entry)).
    split; [reflexivity|]. split; [reflexivity|]. exact H. }
  rewrite (run_loadPackage_unclaimed render _ _ _ _ _ _ _ Hfree).
  set (w1 := setStatus packageName LOADING (logged ("Loading package " +:+ packageName) w)).
  assert (Hc1 : _packageCache w1 = _packageCache w).
  { unfold w1. simpl. apply logged_cache. }
  assert (Hl1 : _loadingPkgs w1 = <[packageName := LOADING]> (_loadingPkgs w)).
  { unfold w1, logged. simpl. destruct (negb (_verbose w)); reflexivity. }
  assert (Hh1 : fsOps (history w1) = fsOps (history w)).
  { unfold w1, logged. simpl. rewrite fsOps_snoc_other by discriminate.
    destruct (negb (_verbose w)); [reflexivity|]. simpl.
    apply fsOps_snoc_other. discriminate. }
  assert (Hphase : succeeds (_packageCache w)
                     (@writePhase F render packageName outputDirectory)
                     (packageFsOps render entry packageName outputDirectory) [packageName]).
  { apply launches_succeeds, launches_writePhase. exact Hentry. }
  destruct (Hphase w1 Hc1) as (w' & [turns Hs] & [_ _ HM HO HH]).
  exists turns, w'. split; [exact Hs|]. split; [congruence|].
  apply map_eq. intros d. destruct (decide (d = packageName)) as [->|Hne].
  - rewrite lookup_insert_eq. apply HM, list_elem_of_here.
  - rewrite lookup_insert_ne by auto. rewrite HO by (intros ->%list_elem_of_singleton; auto).
    rewrite Hl1. apply lookup_insert_ne. auto.
Qed.

(** X24. On a cache of at most 64 packages, none of them named like a
    member of [Object.prototype], without a dependency cycle and in which
    every package that the package reaches has an entry, a call of
    [loadPackage] with [writeFiles] for a package nobody has claimed has,
    when the stack is deep enough, a run that ends with the promise
    resolved, the one in which the event loop completes the leftmost fs call
    in flight with success each time: the package is marked loaded, no
    package that had no status is left loading, and the status of every
    other package is as before. *)
Theorem loadPackage_completes
    (stack : nat) (packageName : string) (outputDirectory : list string) (loadDeps : bool)
    (filterDepFunc : option (string → F → bool * F)) (w : World F) :
  (size (_packageCache w) ≤ 64)%nat →
  plainCache (_packageCache w) = true →
  acyclic (_packageCache w) →
  closed (_packageCache w) packageName →
  _loadingPkgs w !! packageName = None →
  (2 * size (_packageCache w) + 3 ≤ stack)%nat →
  ∃ turns w',
    driveN turns (run (loadPackage render stack packageName outputDirectory loadDeps true
                                   filterDepFunc) w) = (w', Resolved) ∧
    _loadingPkgs w' !! packageName = Some LOADED ∧
    (∀ d, _loadingPkgs w !! d = None →
          _loadingPkgs w' !! d = None ∨ _loadingPkgs w' !! d = Some LOADED) ∧
    (∀ d s, _loadingPkgs w !! d = Some s → _loadingPkgs w' !! d = Some s).
Proof.
  intros _ Hplain Hacyc Hclosed Hfree Hstack.
  destruct (run_loadPackage_finishes render (_packageCache w) outputDirectory loadDeps
              filterDepFunc (fun _ => conj Hacyc Hplain) stack (keys (_packageCache w)) packageName w eq_refl
              (Hclosed packageName (rtc_refl _ _)) (fun _ => Hclosed) (unclaimedIn_keys _ w))
    as (ops & L & Hp & [C0 K0 F0 N0 O0] & Hin).
  { lia. }
  { intros _. rewrite length_keys. lia. }
  destruct (Hp _ C0) as (w' & [turns Hs] & [_ _ HM HO _]).
  exists turns, w'. split; [destruct (run _ w); exact Hs|].
  split; [apply HM, Hin, Hfree|]. split.
  - intros d Hd. destruct (decide (d ∈ L)) as [HdL|HdL]; [right; auto|left].
    rewrite HO, O0 by exact HdL. exact Hd.
  - intros d s Hd. assert (HdL : d ∉ L) by (intros HdL; rewrite (F0 d HdL) in Hd; discriminate).
    rewrite HO, O0 by exact HdL. exact Hd.
Qed.
(** X26. On a manager whose cache [initTree] has filled, [buildPackageTree]
    runs, when every fs call succeeds, to a resolved promise: every package
    of the cache that nobody had claimed is marked loaded, whatever the
    dependencies between the packages, and no other status has changed. *)
Theorem buildPackageTree_loads_every_package
    (stack : nat) (outputDirectory : list string) (w : World F) :
  (1 ≤ stack)%nat →
  ∃ turns w',
    driveN turns (run (buildPackageTree_afterInit render stack outputDirectory true) w)
    = (w', Resolved) ∧
    (∀ pkgName, is_Some (_packageCache w !! pkgName) → _loadingPkgs w !! pkgName = None →
                _loadingPkgs w' !! pkgName = Some LOADED) ∧
    (∀ pkgName, _packageCache w !! pkgName = None ∨ is_Some (_loadingPkgs w !! pkgName) →
                _loadingPkgs w' !! pkgName = _loadingPkgs w !! pkgName).
Proof.
  intros Hone. unfold buildPackageTree_afterInit.
  change (run (GetCache ?k) w) with (run (k (_packageCache w)) w). cbv beta zeta.
  rewrite run_AwaitAll.
  destruct (runAll_loadPackage_finishes render (_packageCache w) outputDirectory false None
              ltac:(discriminate) (keys (_packageCache w)) stack (keys (_packageCache w)) w
              eq_refl)
    as (xs & Hps & [C0 K0 F0 N0 O0] & Hin); auto.
  { intros y Hy. split; [|discriminate].
    apply list_elem_of_fmap in Hy as ([y' e] & -> & Hy). apply elem_of_map_to_list in Hy.
    simpl. eauto. }
  { apply unclaimedIn_keys. }
  { discriminate. }
  destruct (runAll _ w) as [w0 ps]. simpl in *.
  assert (Hfin : finishes (_packageCache w) (AwaitingAll ps Return)
                   (mjoin (xs.*1) ++ []) (mjoin (xs.*2) ++ [])).
  { apply finishes_all with (pre := []); [exact Hps|constructor|].
    apply launches_succeeds, launches_Return. }
  destruct (Hfin w0 C0) as (w' & [turns Hs] & [_ _ HM HO _]).
  rewrite app_nil_r in HM, HO.
  exists turns, w'. split; [exact Hs|]. split.
  - intros pkgName [e He] Hfree. apply HM, Hin; [|exact Hfree].
    apply list_elem_of_fmap. exists (pkgName, e). split; [reflexivity|].
    apply elem_of_map_to_list. exact He.
  - intros pkgName Hp.
    assert (HpL : pkgName ∉ mjoin (xs.*2)).
    { intros HpL. pose proof (F0 _ HpL) as Hfree. destruct Hp as [Hnone|[s Hs']].
      - destruct (K0 _ HpL) as [e He]. congruence.
      - rewrite Hfree in Hs'. discriminate. }
    rewrite HO, O0 by exact HpL. reflexivity.
Qed.
End Builds.

Lemma closed_by_keys (cache : PackageMap) (pkgName : string) :
  (∀ a b, edge cache a b → is_Some (cache !! b)) → is_Some (cache !! pkgName) →
  closed cache pkgName.
Proof.
  intros Hedges Hp x Hx. revert x Hx. apply rtc_ind_r; [exact Hp|].
  intros y z _ Hyz _. exact (Hedges y z Hyz).
Qed.

Lemma cache_chain_closed : closed cache_chain "C".
Proof.
  apply closed_by_keys; [|vm_compute; eauto]. intros a b Hab. unfold cache_chain in Hab.
  repeat (apply edge_insert in Hab as [[-> Hb]|Hab]);
    [..|exfalso; exact (edge_empty _ _ Hab)]; simpl in Hb;
    repeat (apply elem_of_cons in Hb as [->|Hb]); try (inversion Hb; fail);
    vm_compute; eauto.
Qed.

Lemma loadPackage_builds_package_witness :
  ∃ turns w' msgs srvs,
    msgs ≡ₚ map_to_list (messages entry_srv) ∧ srvs ≡ₚ map_to_list (services entry_srv) ∧
    driveN turns (run (loadPackage test_render 1 "demo_srvs" [""; "out"] false true
                                   (Some dedupFilter)) w_srv) = (w', Resolved) ∧
    fsOps (history w')
    = fsOps (history w_srv)
      ++ packageFsOpsIn test_render msgs srvs entry_srv "demo_srvs" [""; "out"] ∧
    _loadingPkgs w' = <[ "demo_srvs" := LOADED ]> (_loadingPkgs w_srv).
Proof.
  apply (loadPackage_builds_package test_render 0 "demo_srvs" [""; "out"] (Some dedupFilter)
           w_srv).
  - reflexivity.
  - reflexivity.
  - vm_compute. reflexivity.
  - vm_compute. reflexivity.
Defined.

Lemma buildPackageTree_loads_every_package_witness :
  ∃ turns w',
    driveN turns (run (buildPackageTree_afterInit test_render 1 ["out"] true) w_fresh)
    = (w', Resolved) ∧
    (∀ pkgName, is_Some (_packageCache w_fresh !! pkgName) →
                _loadingPkgs w_fresh !! pkgName = None →
                _loadingPkgs w' !! pkgName = Some LOADED) ∧
    (∀ pkgName, _packageCache w_fresh !! pkgName = None ∨
                is_Some (_loadingPkgs w_fresh !! pkgName) →
                _loadingPkgs w' !! pkgName = _loadingPkgs w_fresh !! pkgName).
Proof.
  apply (buildPackageTree_loads_every_package test_render 1 ["out"] w_fresh). lia.
Defined.

Lemma loadPackage_completes_witness :
  ∃ turns w',
    driveN turns (run (loadPackage test_render 9 "C" ["out"] true true (Some dedupFilter))
                      w_fresh) = (w', Resolved) ∧
    _loadingPkgs w' !! "C" = Some LOADED ∧
    (∀ d, _loadingPkgs w_fresh !! d = None →
          _loadingPkgs w' !! d = None ∨ _loadingPkgs w' !! d = Some LOADED) ∧
    (∀ d s, _loadingPkgs w_fresh !! d = Some s → _loadingPkgs w' !! d = Some s).
Proof.
  apply (loadPackage_completes test_render 9 "C" ["out"] true (Some dedupFilter) w_fresh).
  - vm_compute. lia.
  - vm_compute. reflexivity.
  - exact cache_chain_acyclic.
  - exact cache_chain_closed.
  - vm_compute. reflexivity.
  - vm_compute. lia.
Defined.

(** ** A callback that rejects *)

Section FailureFacts.
Context {F : Type}.
Variable render : list (nat * string) → string.

(** The marked steps are the steps of the event loop. *)
Lemma stepF_step (c c' : World F * Pending F) b : stepF c b c' → step c c'.
Proof. induction 1; econstructor; eassumption. Qed.

Lemma step_stepF (c c' : World F * Pending F) : step c c' → ∃ b, stepF c b c'.
Proof.
  induction 1 as [k res w|ps k w Hall|ps k w p e Hin Hrej|ps1 p ps2 k w w' p' _ [b IH]
                 |ps1 p ps2 e w w' p' _ [b IH]].
  - eexists. apply stepF_fs.
  - eexists. apply stepF_all_resolved. assumption.
  - eexists. eapply stepF_all_rejected; eassumption.
  - exists b. apply stepF_all_member. exact IH.
  - exists b. apply stepF_orphan. exact IH.
Qed.

Lemma failFirst_All code (ps : list (Pending F)) k w :
  failFirst code (AwaitingAll ps k) w
  = match failFirstOf code ps w with
    | Some (b, (w', ps')) => Some (b, (w', AwaitingAll ps' k))
    | None => None
    end.
Proof. reflexivity. Qed.

Lemma failFirst_Orphaning code (ps : list (Pending F)) e w :
  failFirst code (Orphaning ps e) w
  = match failFirstOf code ps w with
    | Some (b, (w', ps')) => Some (b, (w', Orphaning ps' e))
    | None => None
    end.
Proof. reflexivity. Qed.

Lemma failFirstOf_member code (ps : list (Pending F)) w :
  Forall (fun p => ∀ w b c', failFirst code p w = Some (b, c') → stepF (w, p) b c') ps →
  ∀ b w' ps', failFirstOf code ps w = Some (b, (w', ps')) →
  ∃ ps1 p ps2 p', ps = ps1 ++ p :: ps2 ∧ ps' = ps1 ++ p' :: ps2 ∧ stepF (w, p) b (w', p').
Proof.
  induction 1 as [|p ps Hp _ IH]; intros b w' ps' Hd; simpl in Hd; [discriminate|].
  destruct (failFirst code p w) as [[b1 [w1 p1]]|] eqn:Hdp.
  - injection Hd as <- <- <-. exists [], p, ps, p1. auto.
  - destruct (failFirstOf code ps w) as [[b1 [w1 ps1]]|] eqn:Hdf; [|discriminate].
    injection Hd as <- <- <-.
    destruct (IH _ _ _ eq_refl) as (l1 & q & l2 & q' & -> & -> & Hs).
    exists (p :: l1), q, l2, q'. auto.
Qed.

(** The failure of the leftmost fs call in flight is a step. *)
Lemma failFirst_stepF code (p : Pending F) :
  ∀ w b c', failFirst code p w = Some (b, c') → stepF (w, p) b c'.
Proof.
  induction p as [|e|k|ps k IHps|ps e IHps] using Pending_ind'; intros w b c' Hd.
  - discriminate.
  - discriminate.
  - injection Hd as <- <-. apply stepF_fs.
  - rewrite failFirst_All in Hd.
    destruct (failFirstOf code ps w) as [[b1 [w' ps']]|] eqn:Hdf; [|discriminate].
    injection Hd as <- <-.
    destruct (failFirstOf_member code ps w IHps _ _ _ Hdf) as (l1 & q & l2 & q' & -> & -> & Hs).
    apply stepF_all_member. assumption.
  - rewrite failFirst_Orphaning in Hd.
    destruct (failFirstOf code ps w) as [[b1 [w' ps']]|] eqn:Hdf; [|discriminate].
    injection Hd as <- <-.
    destruct (failFirstOf_member code ps w IHps _ _ _ Hdf) as (l1 & q & l2 & q' & -> & -> & Hs).
    apply stepF_orphan. assumption.
Qed.

Section Watched.
Variable name : string.

Lemma blocked_not_resolved : ¬ blocked name (@Resolved F).
Proof. intros H. inversion H. Qed.

(** What is blocked stays blocked, and leaves the status of [name]
    alone. *)
Lemma step_blocked (c c' : World F * Pending F) :
  step c c' → blocked name c.2 → claimed c.1 name →
  kept false name c.1 c'.1 ∧ blocked name c'.2.
Proof.
  induction 1 as [k res w|ps k w Hall|ps k w p e Hin Hrej|ps1 p ps2 k w w' p' Hstep IH
                 |ps1 p ps2 e w w' p' Hstep IH]; simpl; intros Hb Hc.
  - inversion Hb.
  - inversion Hb as [| |? ? Hex Hsafe]; subst. exfalso.
    apply Exists_exists in Hex as (q & Hq & Hbq).
    rewrite Forall_forall in Hall. rewrite (Hall q Hq) in Hbq. inversion Hbq.
  - inversion Hb as [| |? ? Hex Hsafe]; subst.
    split; [apply kept_refl|]. constructor. exact Hsafe.
  - inversion Hb as [| |? ? Hex Hsafe]; subst.
    apply Forall_app in Hsafe as [Hs1 Hs2]. apply Forall_cons in Hs2 as [Hp Hs2].
    assert (Hstepd : kept false name w w' ∧
                     (keepsP false name p' ∨ blocked name p') ∧
                     (blocked name p → blocked name p')).
    { destruct Hp as [Hk|Hbp].
      - destruct (step_keeps false name _ _ Hstep Hk Hc) as [Hkept Hk'].
        split; [exact Hkept|]. split; [left; exact Hk'|].
        intros Hbp. destruct (IH Hbp Hc) as [_ Hb']. exact Hb'.
      - destruct (IH Hbp Hc) as [Hkept Hb']. auto. }
    destruct Hstepd as (Hkept & Hsafe' & Hbb). split; [exact Hkept|].
    constructor.
    + apply Exists_app in Hex as [Hex|Hex]; [apply Exists_app; left; exact Hex|].
      apply Exists_app. right. apply Exists_cons in Hex as [Hex|Hex].
      * apply Exists_cons. left. auto.
      * apply Exists_cons. right. exact Hex.
    + apply Forall_app. split; [exact Hs1|]. constructor; assumption.
  - inversion Hb as [|? ? Hsafe|]; subst.
    apply Forall_app in Hsafe as [Hs1 Hs2]. apply Forall_cons in Hs2 as [Hp Hs2].
    assert (Hstepd : kept false name w w' ∧ (keepsP false name p' ∨ blocked name p')).
    { destruct Hp as [Hk|Hbp].
      - destruct (step_keeps false name _ _ Hstep Hk Hc) as [Hkept Hk']. auto.
      - destruct (IH Hbp Hc) as [Hkept Hb']. auto. }
    destruct Hstepd as (Hkept & Hsafe'). split; [exact Hkept|].
    constructor. apply Forall_app. split; [exact Hs1|]. constructor; assumption.
Qed.

(** What leaves [name] alone, or is blocked, goes on so. *)
Lemma step_safe (w w' : World F) q q' :
  step (w, q) (w', q') → keepsP false name q ∨ blocked name q → claimed w name →
  kept false name w w' ∧ (keepsP false name q' ∨ blocked name q').
Proof.
  intros Hstep [Hk|Hb] Hc.
  - destruct (step_keeps false name _ _ Hstep Hk Hc) as [Hkept Hk']. auto.
  - destruct (step_blocked _ _ Hstep Hb Hc) as [Hkept Hb']. auto.
Qed.

(** A callback that rejects blocks the promise it is part of. *)
Lemma stepF_blocks (c c' : World F * Pending F) b :
  stepF c b c' → b = true → keepsP false name c.2 → blocked name c'.2.
Proof.
  induction 1 as [k res w|ps k w Hall|ps k w p e Hin Hrej|ps1 p ps2 k w w' p' b Hstep IH
                 |ps1 p ps2 e w w' p' b Hstep IH]; simpl; intros Hb Hk; try discriminate.
  - destruct (run (k res) w) as [w' p']. simpl in *.
    destruct p'; try discriminate. constructor.
  - inversion Hk as [| | |? ? Hps Hkk|]; subst.
    apply Forall_app in Hps as [Hs1 Hs2]. apply Forall_cons in Hs2 as [Hp Hs2].
    specialize (IH eq_refl Hp). simpl in IH. constructor.
    + apply Exists_app. right. apply Exists_cons. left. exact IH.
    + apply Forall_app. split; [eapply Forall_impl; [exact Hs1|auto]|].
      constructor; [right; exact IH|eapply Forall_impl; [exact Hs2|auto]].
  - inversion Hk as [| | | |? ? Hps]; subst.
    apply Forall_app in Hps as [Hs1 Hs2]. apply Forall_cons in Hs2 as [Hp Hs2].
    specialize (IH eq_refl Hp). simpl in IH. constructor.
    apply Forall_app. split; [eapply Forall_impl; [exact Hs1|auto]|].
    constructor; [right; exact IH|eapply Forall_impl; [exact Hs2|auto]].
Qed.

(** A staged function runs to a resolved promise, or leaves [name] loading
    behind a promise that is building or blocked. *)
Lemma run_staged (t : Task F) :
  staged name t → ∀ w, _loadingPkgs w !! name = Some LOADING →
  (run t w).2 = Resolved ∨
  (_loadingPkgs (run t w).1 !! name = Some LOADING ∧
   (building name (run t w).2 ∨ blocked name (run t w).2)).
Proof.
  induction t as [|e|n k IH|n s k IH|v m k IH|k IH|f d k IH|op k IH|ts k IHts IHk]
    using Task_ind'; intros Hst w Hw; inversion Hst; subst; simpl.
  - left. reflexivity.
  - right. split; [exact Hw|]. right. constructor.
  - apply IH; auto.
  - apply IH; [assumption|]. simpl. rewrite lookup_insert_ne by assumption. exact Hw.
  - left. match goal with H : ∀ w, _ = Resolved |- _ => apply H end.
  - apply IH; [assumption|]. destruct (v && negb (_verbose w)); exact Hw.
  - apply IH; auto.
  - destruct (f d (closure w)) as [b c]. apply IH; auto.
  - fold (runAll ts w).
    match goal with H : Forall (keeps false name) ts |- _ =>
      destruct (runAll_keeps false name ts H w) as [[Hkept _] Hps] end.
    { unfold claimed. rewrite Hw. eauto. }
    destruct (runAll ts w) as [w' ps]. simpl in *. right.
    split; [rewrite Hkept; exact Hw|]. left. constructor; [|assumption].
    eapply Forall_impl; [exact Hps|]. auto.
Qed.
End Watched.
End FailureFacts.

Section FailureIsFinal.
Context {F : Type}.
Variable render : list (nat * string) → string.
Variable name : string.

Lemma staged_await (t k : Task F) :
  keeps false name t → staged name k → staged name (await t k).
Proof. intros Ht Hk. constructor; [repeat constructor; exact Ht|exact Hk]. Qed.

Lemma staged_writePhase outputDirectory :
  staged name (@writePhase F render name outputDirectory).
Proof.
  unfold writePhase.
  apply staged_await; [apply keeps_initPackageWrite|].
  apply staged_await; [apply keeps_writePackageMessages|].
  apply staged_await; [apply keeps_writePackageServices|].
  apply staged_Loaded. intros w. reflexivity.
Qed.

Lemma staged_filterDeps f deps : ∀ (k : list string → Task F),
  (∀ l, staged name (k l)) → staged name (filterDeps f deps k).
Proof.
  induction deps as [|d deps IH]; intros k Hk; simpl; [apply Hk|].
  constructor. intros b. apply IH. intros l. apply Hk.
Qed.

(** After its claim, a call of [loadPackage] for [name] is staged. *)
Lemma staged_loadPackageClaimed stack' outputDirectory loadDeps writeFiles
    (filterDepFunc : option (string → F → bool * F)) :
  staged name (loadPackageClaimed render stack' name outputDirectory loadDeps writeFiles
                                  filterDepFunc).
Proof.
  unfold loadPackageClaimed.
  assert (Hafter : staged name
            (if writeFiles then @writePhase F render name outputDirectory else Return)).
  { destruct writeFiles; [apply staged_writePhase|constructor]. }
  destruct loadDeps; [|exact Hafter].
  constructor. intros cache.
  destruct (_ ≫= _) as [dependencies|e]; [|constructor].
  assert (Hspawn : ∀ l, staged name
            (AwaitAll ((fun depName =>
                          loadPackage render stack' depName outputDirectory true writeFiles
                                      filterDepFunc) <$> l)
                      (if writeFiles then @writePhase F render name outputDirectory
                       else Return))).
  { intros l. constructor; [|exact Hafter].
    apply Forall_fmap, Forall_forall. intros d _.
    apply keeps_loadPackage. auto. }
  destruct filterDepFunc as [f|]; [apply staged_filterDeps|]; apply Hspawn.
Qed.

(** The states of a build of [name]: done, or [name] loading behind a
    promise that is building or blocked. *)
Lemma step_building (c c' : World F * Pending F) :
  step c c' →
  _loadingPkgs c.1 !! name = Some LOADING → building name c.2 →
  c'.2 = Resolved ∨
  (_loadingPkgs c'.1 !! name = Some LOADING ∧ (building name c'.2 ∨ blocked name c'.2)).
Proof.
  intros Hstep Hw Hb. destruct c as [w p], c' as [w' p']. simpl in *.
  assert (Hc : claimed w name) by (unfold claimed; rewrite Hw; eauto).
  inversion Hb as [ps k Hsafe Hk]; subst.
  inversion Hstep as [|? ? ? Hall|? ? ? q e Hin Hrej|ps1 q ps2 ? ? ? q' Hq|]; subst.
  - pose proof (run_staged name k Hk w Hw) as HK.
    match goal with H : run k w = _ |- _ => rewrite H in HK end. exact HK.
  - right. split; [exact Hw|]. right. constructor. exact Hsafe.
  - right. apply Forall_app in Hsafe as [Hs1 Hs2]. apply Forall_cons in Hs2 as [Hp Hs2].
    destruct (step_safe name _ _ _ _ Hq Hp Hc) as [[Hkept _] Hq'].
    split; [rewrite Hkept; exact Hw|]. left. constructor; [|exact Hk].
    apply Forall_app. split; [exact Hs1|]. constructor; assumption.
Qed.

Lemma steps_blocked (c c' : World F * Pending F) :
  rtc step c c' →
  _loadingPkgs c.1 !! name = Some LOADING → blocked name c.2 →
  _loadingPkgs c'.1 !! name = Some LOADING ∧ blocked name c'.2.
Proof.
  induction 1 as [c|c1 c2 c3 Hstep _ IH]; intros Hw Hb; [auto|].
  destruct (step_blocked name _ _ Hstep Hb) as [[Hkept _] Hb2].
  { unfold claimed. rewrite Hw. eauto. }
  apply IH; [rewrite Hkept; exact Hw|exact Hb2].
Qed.

Lemma steps_building (c c' : World F * Pending F) :
  rtc step c c' →
  c.2 = Resolved ∨
  (_loadingPkgs c.1 !! name = Some LOADING ∧ (building name c.2 ∨ blocked name c.2)) →
  c'.2 = Resolved ∨
  (_loadingPkgs c'.1 !! name = Some LOADING ∧ (building name c'.2 ∨ blocked name c'.2)).
Proof.
  induction 1 as [c|c1 c2 c3 Hstep _ IH]; intros HK; [exact HK|]. apply IH.
  destruct HK as [Hres|[Hw [Hb|Hb]]].
  - exfalso. destruct c1 as [w p]. simpl in Hres. subst p. inversion Hstep.
  - apply (step_building _ _ Hstep Hw Hb).
  - right. destruct (steps_blocked c1 c2 (rtc_once _ _ Hstep) Hw Hb) as [Hw2 Hb2]. auto.
Qed.

Lemma stepF_building (c c' : World F * Pending F) :
  stepF c true c' →
  _loadingPkgs c.1 !! name = Some LOADING → building name c.2 →
  _loadingPkgs c'.1 !! name = Some LOADING ∧ blocked name c'.2.
Proof.
  intros Hstep Hw Hb. destruct c as [w p], c' as [w' p']. simpl in *.
  assert (Hc : claimed w name) by (unfold claimed; rewrite Hw; eauto).
  inversion Hb as [ps k Hsafe Hk]; subst.
  inversion Hstep as [| | |ps1 q ps2 ? ? ? q' ? Hq|]; subst.
  apply Forall_app in Hsafe as [Hs1 Hs2]. apply Forall_cons in Hs2 as [Hp Hs2].
  destruct (step_safe name _ _ _ _ (stepF_step _ _ _ Hq) Hp Hc) as [[Hkept _] Hq'].
  split; [rewrite Hkept; exact Hw|].
  assert (Hbq : blocked name q').
  { destruct Hp as [Hkq|Hbq].
    - apply (stepF_blocks name _ _ _ Hq eq_refl Hkq).
    - destruct (step_blocked name _ _ (stepF_step _ _ _ Hq) Hbq Hc) as [_ H]. exact H. }
  constructor.
  - apply Exists_app. right. apply Exists_cons. left. exact Hbq.
  - apply Forall_app. split; [exact Hs1|]. constructor; [right; exact Hbq|exact Hs2].
Qed.

(** X25. In a run of a call of [loadPackage] for a package nobody had
    claimed, once the callback of an fs call has rejected its promise, in
    the output of the package or of a dependency the call builds, the
    package is never marked loaded and the promise of the call never
    resolves: the package stays loading. *)
Theorem loadPackage_fs_failure_is_final
    (stack' : nat) (outputDirectory : list string) (loadDeps writeFiles : bool)
    (filterDepFunc : option (string → F → bool * F)) (w : World F)
    (c c' c2 : World F * Pending F) :
  _loadingPkgs w !! name = None →
  rtc step (run (loadPackage render (S stack') name outputDirectory loadDeps writeFiles
                             filterDepFunc) w) c →
  stepF c true c' →
  rtc step c' c2 →
  _loadingPkgs c2.1 !! name = Some LOADING ∧ c2.2 ≠ Resolved.
Proof.
  intros Hfree Hsteps Hfail Hrest.
  rewrite (run_loadPackage_unclaimed render _ _ _ _ _ _ _ Hfree) in Hsteps.
  set (w1 := setStatus name LOADING (logged ("Loading package " +:+ name) w)) in *.
  assert (Hw1 : _loadingPkgs w1 !! name = Some LOADING) by (simpl; apply lookup_insert_eq).
  pose proof (run_staged name _
                (staged_loadPackageClaimed stack' outputDirectory loadDeps writeFiles
                                           filterDepFunc) w1 Hw1) as HK.
  apply (steps_building _ _ Hsteps) in HK.
  assert (Hb : _loadingPkgs c'.1 !! name = Some LOADING ∧ blocked name c'.2).
  { destruct HK as [Hres|[Hw [Hb|Hb]]].
    - exfalso. destruct c as [wc pc]. simpl in Hres. subst pc. inversion Hfail.
    - apply (stepF_building _ _ Hfail Hw Hb).
    - apply (steps_blocked c c' (rtc_once _ _ (stepF_step _ _ _ Hfail)) Hw Hb). }
  destruct Hb as [Hw' Hb'].
  destruct (steps_blocked _ _ Hrest Hw' Hb') as [Hw2 Hb2].
  split; [exact Hw2|]. intros Hres. rewrite Hres in Hb2. inversion Hb2.
Qed.
End FailureIsFinal.

Lemma loadPackage_fs_failure_is_final_witness :
  _loadingPkgs
    (afterFailure "EACCES"
       (run (loadPackage test_render 1 "std_msgs" ["out"] false true (Some dedupFilter))
            w_std)).1 !! "std_msgs" = Some LOADING ∧
  (afterFailure "EACCES"
     (run (loadPackage test_render 1 "std_msgs" ["out"] false true (Some dedupFilter))
          w_std)).2 ≠ Resolved.
Proof.
  apply (loadPackage_fs_failure_is_final test_render "std_msgs" 0 ["out"] false true
           (Some dedupFilter) w_std
           (run (loadPackage test_render 1 "std_msgs" ["out"] false true (Some dedupFilter))
                w_std)
           (afterFailure "EACCES"
              (run (loadPackage test_render 1 "std_msgs" ["out"] false true
                                (Some dedupFilter)) w_std))).
  - vm_compute. reflexivity.
  - apply rtc_refl.
  - apply (failFirst_stepF "EACCES"). vm_compute. reflexivity.
  - apply rtc_refl.
Defined.
